(** * drgn: DWARF name index, C front-end and stack-trace facade

    A shallow embedding of parts of libdrgn ([dwarf_index.c],
    [language_c.c], [stack_trace.c]) together with the properties that
    the design document states about them.

    Conventions of the embedding.
    - Fixed-width C integers are [Z] with the wrap-around written out
      ([u32], [u64]).
    - [struct drgn_error *] results are the sum type [res]: [Ok v] stands
      for a [NULL] error together with the values written through the
      output pointers, [Err code] for an error of that [drgn_error_code]
      (the human readable message is not modelled), [Undef] for an
      execution that fails an [assert], reads outside of an array,
      uses an object that was freed or moves a pointer past the end of
      the address space, and [Timeout] for a loop that was given fuel
      and used it up.
    - C strings are [string]; the end of the string plays the role of
      the terminating NUL byte.
    - Arrays are lists indexed with stdpp's lookup; an access outside
      of the list is made explicit wherever the C code performs no
      bounds check of its own.
    - The contents of an ELF section is the list of its bytes, a
      pointer into it an offset; file objects live in a store keyed by
      their identity, from which [free] removes them.
    - The loops that OpenMP distributes over threads are run by one
      thread, in order. *)

From Stdlib Require Import ZArith Lia Bool Ascii String List Permutation.
From stdpp Require Import base numbers option list strings gmap.

Local Open Scope Z_scope.

(* ################################################################# *)
(** * Errors ([drgn.h]) *)

(** [enum drgn_error_code].  [DRGN_ERROR_OUT_OF_BOUNDS] is used by
    [stack_trace.c] but is declared in a revision of [drgn.h] newer
    than the one at hand; it is added at the end. *)
Inductive drgn_error_code : Set :=
  | DRGN_ERROR_NO_MEMORY
  | DRGN_ERROR_STOP
  | DRGN_ERROR_OTHER
  | DRGN_ERROR_INVALID_ARGUMENT
  | DRGN_ERROR_OVERFLOW
  | DRGN_ERROR_RECURSION
  | DRGN_ERROR_OS
  | DRGN_ERROR_ELF_FORMAT
  | DRGN_ERROR_DWARF_FORMAT
  | DRGN_ERROR_MISSING_DEBUG
  | DRGN_ERROR_SYNTAX
  | DRGN_ERROR_LOOKUP
  | DRGN_ERROR_FAULT
  | DRGN_ERROR_TYPE
  | DRGN_ERROR_ZERO_DIVISION
  | DRGN_ERROR_OUT_OF_BOUNDS.

#[global] Instance drgn_error_code_eq_dec : EqDecision drgn_error_code.
Proof. solve_decision. Defined.

(** Result of a fallible libdrgn function. *)
Inductive res (A : Type) : Type :=
  | Ok (a : A)
  | Err (e : drgn_error_code)
  | Undef
  | Timeout.
Arguments Ok {A} a.
Arguments Err {A} e.
Arguments Undef {A}.
Arguments Timeout {A}.

#[global] Instance res_ret : MRet res := fun A a => Ok a.
#[global] Instance res_bind : MBind res := fun A B k r =>
  match r with
  | Ok a => k a
  | Err e => Err e
  | Undef => Undef
  | Timeout => Timeout
  end.

(* ################################################################# *)
(** * Machine integers *)

Definition UINT32_MAX : Z := 2 ^ 32 - 1.
Definition UINT64_MAX : Z := 2 ^ 64 - 1.
Definition SIZE_MAX : Z := 2 ^ 64 - 1.

Definition u8 (x : Z) : Z := x mod 2 ^ 8.
Definition u32 (x : Z) : Z := x mod 2 ^ 32.
Definition u64 (x : Z) : Z := x mod 2 ^ 64.

(** Value of a [char] ([signed] on x86-64) and of an [unsigned char]. *)
Definition uchar_val (c : ascii) : Z := Z.of_N (N_of_ascii c).
Definition char_val (c : ascii) : Z :=
  if uchar_val c <? 128 then uchar_val c else uchar_val c - 256.

Definition uchar_of (n : Z) : ascii := ascii_of_N (Z.to_N (u8 n)).

(* ################################################################# *)
(** * The C front-end ([language_c.c]) *)

Module LanguageC.

(** ** String builder

    [string_builder.h] is not part of the sources at hand.  A builder is
    the text accumulated so far; allocation failure is not modelled. *)
Definition string_builder := string.

Definition string_builder_append (sb : string_builder) (s : string)
  : string_builder := (sb ++ s)%string.

Definition string_builder_appendc (sb : string_builder) (c : ascii)
  : string_builder := (sb ++ String c EmptyString)%string.

(** One lower-case hexadecimal digit, as printed by [%x]. *)
Definition hex_digit (d : Z) : ascii :=
  if d <? 10 then uchar_of (48 + d) else uchar_of (97 + (d - 10)).

(** [string_builder_appendf(sb, "\\x%02x", c)] for an [unsigned char]. *)
Definition string_builder_appendf_x02x (sb : string_builder) (c : Z)
  : string_builder :=
  (sb ++ String "\" (String "x"
      (String (hex_digit (c / 16)) (String (hex_digit (c mod 16))
         EmptyString))))%string.

Definition dquote : ascii := "034"%char.

(** [c_pretty_print_character]. *)
Definition c_pretty_print_character (c : ascii) (sb : string_builder)
  : string_builder :=
  let n := uchar_val c in
  if n =? 7 then string_builder_append sb "\a"
  else if n =? 8 then string_builder_append sb "\b"
  else if n =? 9 then string_builder_append sb "\t"
  else if n =? 10 then string_builder_append sb "\n"
  else if n =? 11 then string_builder_append sb "\v"
  else if n =? 12 then string_builder_append sb "\f"
  else if n =? 13 then string_builder_append sb "\r"
  else if n =? 34 then string_builder_append sb (String "\" (String dquote EmptyString))
  else if n =? 92 then string_builder_append sb "\\"
  else if (n <=? 31) || (n >=? 127) then string_builder_appendf_x02x sb n
  else string_builder_appendc sb c.

(** The escape table as the design document words it: the nine named
    two-character escapes, [\xHH] with the two hexadecimal digits of
    the byte for every other byte that is at most [0x1f] or at least
    [0x7f], and the byte itself otherwise. *)
Definition named_escapes : list (Z * string) :=
  [ (7, "\a"); (8, "\b"); (9, "\t"); (10, "\n"); (11, "\v"); (12, "\f");
    (13, "\r"); (34, String "\" (String dquote EmptyString)); (92, "\\") ]%string.

Definition hex_digits : string := "0123456789abcdef".

Definition hex_escape (n : Z) : string :=
  String "\" (String "x"
    (String (default zero (String.get (Z.to_nat (n / 16)) hex_digits))
      (String (default zero (String.get (Z.to_nat (n mod 16)) hex_digits))
         EmptyString))).

Definition escape_of_spec (c : ascii) : string :=
  let n := uchar_val c in
  match list_find (fun e => fst e = n) named_escapes with
  | Some (_, (_, esc)) => esc
  | None =>
      if bool_decide (n <= 31 \/ 127 <= n) then hex_escape n
      else String c EmptyString
  end.

(** ** Tokens *)

(** The anonymous token [enum]; [token_code] gives the enumeration
    constants ([C_TOKEN_EOF = -1], [C_TOKEN_VOID = 0], ...). *)
Inductive c_token : Set :=
  | C_TOKEN_EOF
  | C_TOKEN_VOID | C_TOKEN_CHAR | C_TOKEN_SHORT | C_TOKEN_INT | C_TOKEN_LONG
  | C_TOKEN_SIGNED | C_TOKEN_UNSIGNED | C_TOKEN_BOOL | C_TOKEN_FLOAT
  | C_TOKEN_DOUBLE | C_TOKEN_COMPLEX
  | C_TOKEN_CONST | C_TOKEN_RESTRICT | C_TOKEN_VOLATILE | C_TOKEN_ATOMIC
  | C_TOKEN_STRUCT | C_TOKEN_UNION | C_TOKEN_ENUM
  | C_TOKEN_LPAREN | C_TOKEN_RPAREN | C_TOKEN_LBRACKET | C_TOKEN_RBRACKET
  | C_TOKEN_ASTERISK | C_TOKEN_DOT | C_TOKEN_NUMBER | C_TOKEN_IDENTIFIER.

#[global] Instance c_token_eq_dec : EqDecision c_token.
Proof. solve_decision. Defined.

Definition token_code (t : c_token) : Z :=
  match t with
  | C_TOKEN_EOF => -1
  | C_TOKEN_VOID => 0 | C_TOKEN_CHAR => 1 | C_TOKEN_SHORT => 2
  | C_TOKEN_INT => 3 | C_TOKEN_LONG => 4 | C_TOKEN_SIGNED => 5
  | C_TOKEN_UNSIGNED => 6 | C_TOKEN_BOOL => 7 | C_TOKEN_FLOAT => 8
  | C_TOKEN_DOUBLE => 9 | C_TOKEN_COMPLEX => 10
  | C_TOKEN_CONST => 11 | C_TOKEN_RESTRICT => 12 | C_TOKEN_VOLATILE => 13
  | C_TOKEN_ATOMIC => 14
  | C_TOKEN_STRUCT => 15 | C_TOKEN_UNION => 16 | C_TOKEN_ENUM => 17
  | C_TOKEN_LPAREN => 18 | C_TOKEN_RPAREN => 19 | C_TOKEN_LBRACKET => 20
  | C_TOKEN_RBRACKET => 21 | C_TOKEN_ASTERISK => 22 | C_TOKEN_DOT => 23
  | C_TOKEN_NUMBER => 24 | C_TOKEN_IDENTIFIER => 25
  end.

Definition MIN_KEYWORD_TOKEN : Z := 0.
Definition MIN_SPECIFIER_TOKEN : Z := MIN_KEYWORD_TOKEN.
Definition MAX_SPECIFIER_TOKEN : Z := token_code C_TOKEN_COMPLEX.
Definition MIN_QUALIFIER_TOKEN : Z := token_code C_TOKEN_CONST.
Definition MAX_QUALIFIER_TOKEN : Z := token_code C_TOKEN_ATOMIC.
Definition MAX_KEYWORD_TOKEN : Z := token_code C_TOKEN_ENUM.

(** [token_spelling], the table the keyword map is filled from by
    [c_keywords_init]. *)
Definition token_spelling : list (string * c_token) :=
  [ ("void", C_TOKEN_VOID); ("char", C_TOKEN_CHAR); ("short", C_TOKEN_SHORT);
    ("int", C_TOKEN_INT); ("long", C_TOKEN_LONG); ("signed", C_TOKEN_SIGNED);
    ("unsigned", C_TOKEN_UNSIGNED); ("_Bool", C_TOKEN_BOOL);
    ("float", C_TOKEN_FLOAT); ("double", C_TOKEN_DOUBLE);
    ("_Complex", C_TOKEN_COMPLEX); ("const", C_TOKEN_CONST);
    ("restrict", C_TOKEN_RESTRICT); ("volatile", C_TOKEN_VOLATILE);
    ("_Atomic", C_TOKEN_ATOMIC); ("struct", C_TOKEN_STRUCT);
    ("union", C_TOKEN_UNION); ("enum", C_TOKEN_ENUM) ]%string.

Definition c_keywords : gmap string c_token := list_to_map token_spelling.

Definition c_keyword_map_search (key : string) : option c_token :=
  c_keywords !! key.

(** A token: its kind, the input from the first character of the token
    on ([value] points into the lexer's input, it is not a copy), and
    the number of characters of the token. *)
Record drgn_token : Type := {
  kind : c_token;
  value : string;
  len : nat;
}.

(** [token->value[i]]; the NUL byte at and after the end of the input. *)
Definition char_at (s : string) (i : nat) : ascii :=
  match String.get i s with
  | Some c => c
  | None => zero
  end.

(** The characters [value[0 .. len-1]] of a token. *)
Definition token_chars (t : drgn_token) : list ascii :=
  map (char_at (value t)) (seq 0 (len t)).

(** ** Lexer ([drgn_lexer_c])

    [<ctype.h>] predicates in the C locale. *)
Definition isspace (c : ascii) : bool :=
  let n := char_val c in ((9 <=? n) && (n <=? 13)) || (n =? 32).
Definition isdigit (c : ascii) : bool :=
  let n := char_val c in (48 <=? n) && (n <=? 57).
Definition isalpha (c : ascii) : bool :=
  let n := char_val c in
  ((65 <=? n) && (n <=? 90)) || ((97 <=? n) && (n <=? 122)).
Definition isalnum (c : ascii) : bool := isalpha c || isdigit c.
Definition is_hex_digit (c : ascii) : bool :=
  let n := char_val c in
  ((48 <=? n) && (n <=? 57)) || ((97 <=? n) && (n <=? 102))
  || ((65 <=? n) && (n <=? 70)).
Definition is_underscore (c : ascii) : bool := char_val c =? 95.

(** [*p]. *)
Definition peek (p : string) : ascii := char_at p 0.

(** [while (pred( *p)) p++;] *)
Fixpoint skip_while (pred : ascii -> bool) (p : string) : string :=
  match p with
  | EmptyString => p
  | String c rest => if pred c then skip_while pred rest else p
  end.

(** [p++] (never executed on the terminating NUL). *)
Definition advance (p : string) : string :=
  match p with
  | EmptyString => p
  | String _ rest => rest
  end.

(** [p - token->value]. *)
Definition ptr_diff (start p : string) : nat :=
  (String.length start - String.length p)%nat.

Definition mk_token (k : c_token) (start p : string) : drgn_token * string :=
  ({| kind := k; value := start; len := ptr_diff start p |}, p).

Definition drgn_lexer_c (p0 : string) : res (drgn_token * string) :=
  let p := skip_while isspace p0 in
  let start := p in
  let c := char_val (peek p) in
  if c =? 0 then Ok (mk_token C_TOKEN_EOF start p)
  else if c =? 40 then Ok (mk_token C_TOKEN_LPAREN start (advance p))
  else if c =? 41 then Ok (mk_token C_TOKEN_RPAREN start (advance p))
  else if c =? 91 then Ok (mk_token C_TOKEN_LBRACKET start (advance p))
  else if c =? 93 then Ok (mk_token C_TOKEN_RBRACKET start (advance p))
  else if c =? 42 then Ok (mk_token C_TOKEN_ASTERISK start (advance p))
  else if c =? 46 then Ok (mk_token C_TOKEN_DOT start (advance p))
  else if isalpha (peek p) || is_underscore (peek p) then
    let p := skip_while (fun c => isalnum c || is_underscore c) (advance p) in
    let key := substring 0 (ptr_diff start p) start in
    match c_keyword_map_search key with
    | Some k => Ok (mk_token k start p)
    | None => Ok (mk_token C_TOKEN_IDENTIFIER start p)
    end
  else if isdigit (peek p) then
    let p1 := advance p in
    p2 ← (if (c =? 48) && (char_val (peek p1) =? 120) then
             let p2 := skip_while is_hex_digit (advance p1) in
             if (Z.of_nat (ptr_diff start p2) <=? 2)
             then Err DRGN_ERROR_SYNTAX else Ok p2
           else Ok (skip_while isdigit p1));
    if isalpha (peek p2) || is_underscore (peek p2)
    then Err DRGN_ERROR_SYNTAX
    else Ok (mk_token C_TOKEN_NUMBER start p2)
  else Err DRGN_ERROR_SYNTAX.

(** [struct drgn_lexer] with [drgn_lexer_pop] and [drgn_lexer_push]
    ([lexer.c] is not part of the sources at hand): a token that was
    pushed back is returned by the next pop, otherwise the lexer
    function is run on the remaining input. *)
Record drgn_lexer : Type := {
  lexer_p : string;
  lexer_stack : list drgn_token;
}.

Definition drgn_lexer_init (s : string) : drgn_lexer :=
  {| lexer_p := s; lexer_stack := [] |}.

Definition drgn_lexer_pop (lexer : drgn_lexer) : res (drgn_token * drgn_lexer) :=
  match lexer_stack lexer with
  | tok :: rest => Ok (tok, {| lexer_p := lexer_p lexer; lexer_stack := rest |})
  | [] =>
      '(tok, p) ← drgn_lexer_c (lexer_p lexer);
      Ok (tok, {| lexer_p := p; lexer_stack := [] |})
  end.

Definition drgn_lexer_push (lexer : drgn_lexer) (tok : drgn_token) : drgn_lexer :=
  {| lexer_p := lexer_p lexer; lexer_stack := tok :: lexer_stack lexer |}.

(** ** Integer literals ([c_token_to_u64]) *)

(** One iteration of each of the three loops: [digit] is an [int], the
    comparisons and the arithmetic are done in [uint64_t]. *)
Definition accumulate_digit (base : Z) (x digit : Z) : res Z :=
  if x >? UINT64_MAX / base then Err DRGN_ERROR_INVALID_ARGUMENT
  else
    let x := u64 (x * base) in
    if x >? u64 (UINT64_MAX - digit) then Err DRGN_ERROR_INVALID_ARGUMENT
    else Ok (u64 (x + digit)).

(** The digit computed in the body of the hexadecimal loop. *)
Definition hex_loop_digit (ch : ascii) : Z :=
  let c := char_val ch in
  if (48 <=? c) && (c <=? 57) then c - 48
  else if (97 <=? c) && (c <=? 102) then c - 97
  else c - 65.

(** The digit computed in the octal and in the decimal loop. *)
Definition dec_loop_digit (ch : ascii) : Z := char_val ch - 48.

Fixpoint digits_loop (base : Z) (digit_of : ascii -> Z) (cs : list ascii)
    (x : Z) : res Z :=
  match cs with
  | [] => Ok x
  | c :: cs' =>
      x' ← accumulate_digit base x (digit_of c);
      digits_loop base digit_of cs' x'
  end.

Definition c_token_to_u64 (token : drgn_token) : res Z :=
  let cs := token_chars token in
  if (2 <? Z.of_nat (len token))
     && (char_val (char_at (value token) 0) =? 48)
     && (char_val (char_at (value token) 1) =? 120)
  then digits_loop 16 hex_loop_digit (drop 2 cs) 0
  else if char_val (char_at (value token) 0) =? 48
  then digits_loop 8 dec_loop_digit (drop 1 cs) 0
  else digits_loop 10 dec_loop_digit cs 0.

(** The token the lexer produces for a numeric literal [s]. *)
Definition number_token (s : string) : drgn_token :=
  {| kind := C_TOKEN_NUMBER; value := s; len := String.length s |}.

(** ** Types ([drgn.h]) *)

Inductive drgn_type_kind : Set :=
  | DRGN_TYPE_VOID | DRGN_TYPE_INT | DRGN_TYPE_BOOL | DRGN_TYPE_FLOAT
  | DRGN_TYPE_COMPLEX | DRGN_TYPE_STRUCT | DRGN_TYPE_UNION | DRGN_TYPE_ENUM
  | DRGN_TYPE_TYPEDEF | DRGN_TYPE_POINTER | DRGN_TYPE_ARRAY
  | DRGN_TYPE_FUNCTION.

#[global] Instance drgn_type_kind_eq_dec : EqDecision drgn_type_kind.
Proof. solve_decision. Defined.

Inductive drgn_primitive_type : Set :=
  | DRGN_C_TYPE_VOID | DRGN_C_TYPE_CHAR | DRGN_C_TYPE_SIGNED_CHAR
  | DRGN_C_TYPE_UNSIGNED_CHAR | DRGN_C_TYPE_SHORT | DRGN_C_TYPE_UNSIGNED_SHORT
  | DRGN_C_TYPE_INT | DRGN_C_TYPE_UNSIGNED_INT | DRGN_C_TYPE_LONG
  | DRGN_C_TYPE_UNSIGNED_LONG | DRGN_C_TYPE_LONG_LONG
  | DRGN_C_TYPE_UNSIGNED_LONG_LONG | DRGN_C_TYPE_BOOL | DRGN_C_TYPE_FLOAT
  | DRGN_C_TYPE_DOUBLE | DRGN_C_TYPE_LONG_DOUBLE | DRGN_C_TYPE_SIZE_T
  | DRGN_C_TYPE_PTRDIFF_T | DRGN_NOT_PRIMITIVE_TYPE.

#[global] Instance drgn_primitive_type_eq_dec : EqDecision drgn_primitive_type.
Proof. solve_decision. Defined.

(** The enumeration constant of a primitive type. *)
Definition primitive_code (p : drgn_primitive_type) : Z :=
  match p with
  | DRGN_C_TYPE_VOID => 0 | DRGN_C_TYPE_CHAR => 1
  | DRGN_C_TYPE_SIGNED_CHAR => 2 | DRGN_C_TYPE_UNSIGNED_CHAR => 3
  | DRGN_C_TYPE_SHORT => 4 | DRGN_C_TYPE_UNSIGNED_SHORT => 5
  | DRGN_C_TYPE_INT => 6 | DRGN_C_TYPE_UNSIGNED_INT => 7
  | DRGN_C_TYPE_LONG => 8 | DRGN_C_TYPE_UNSIGNED_LONG => 9
  | DRGN_C_TYPE_LONG_LONG => 10 | DRGN_C_TYPE_UNSIGNED_LONG_LONG => 11
  | DRGN_C_TYPE_BOOL => 12 | DRGN_C_TYPE_FLOAT => 13
  | DRGN_C_TYPE_DOUBLE => 14 | DRGN_C_TYPE_LONG_DOUBLE => 15
  | DRGN_C_TYPE_SIZE_T => 16 | DRGN_C_TYPE_PTRDIFF_T => 17
  | DRGN_NOT_PRIMITIVE_TYPE => 18
  end.

(** [primitive + 1], inside the enumeration. *)
Definition primitive_succ (p : drgn_primitive_type) : option drgn_primitive_type :=
  match p with
  | DRGN_C_TYPE_VOID => Some DRGN_C_TYPE_CHAR
  | DRGN_C_TYPE_CHAR => Some DRGN_C_TYPE_SIGNED_CHAR
  | DRGN_C_TYPE_SIGNED_CHAR => Some DRGN_C_TYPE_UNSIGNED_CHAR
  | DRGN_C_TYPE_UNSIGNED_CHAR => Some DRGN_C_TYPE_SHORT
  | DRGN_C_TYPE_SHORT => Some DRGN_C_TYPE_UNSIGNED_SHORT
  | DRGN_C_TYPE_UNSIGNED_SHORT => Some DRGN_C_TYPE_INT
  | DRGN_C_TYPE_INT => Some DRGN_C_TYPE_UNSIGNED_INT
  | DRGN_C_TYPE_UNSIGNED_INT => Some DRGN_C_TYPE_LONG
  | DRGN_C_TYPE_LONG => Some DRGN_C_TYPE_UNSIGNED_LONG
  | DRGN_C_TYPE_UNSIGNED_LONG => Some DRGN_C_TYPE_LONG_LONG
  | DRGN_C_TYPE_LONG_LONG => Some DRGN_C_TYPE_UNSIGNED_LONG_LONG
  | DRGN_C_TYPE_UNSIGNED_LONG_LONG => Some DRGN_C_TYPE_BOOL
  | DRGN_C_TYPE_BOOL => Some DRGN_C_TYPE_FLOAT
  | DRGN_C_TYPE_FLOAT => Some DRGN_C_TYPE_DOUBLE
  | DRGN_C_TYPE_DOUBLE => Some DRGN_C_TYPE_LONG_DOUBLE
  | DRGN_C_TYPE_LONG_DOUBLE => Some DRGN_C_TYPE_SIZE_T
  | DRGN_C_TYPE_SIZE_T => Some DRGN_C_TYPE_PTRDIFF_T
  | DRGN_C_TYPE_PTRDIFF_T => None
  | DRGN_NOT_PRIMITIVE_TYPE => None
  end.

(** Qualifier bits. *)
Definition DRGN_QUALIFIER_CONST : Z := 1.
Definition DRGN_QUALIFIER_VOLATILE : Z := 2.
Definition DRGN_QUALIFIER_RESTRICT : Z := 4.
Definition DRGN_QUALIFIER_ATOMIC : Z := 8.

(** [struct drgn_type].  The three anonymous unions of the C structure
    are flattened: [ty_name] is the name or the tag, [ty_size] the size,
    [ty_is_signed] the signedness of an integer type and [ty_type] the
    wrapped type of an enumerated, typedef, pointer, array or function
    type ([None] for the [NULL] compatible type of an incomplete
    enumerated type). *)
Inductive drgn_type : Type := mk_drgn_type {
  ty_kind : drgn_type_kind;
  ty_primitive : drgn_primitive_type;
  ty_name : string;
  ty_size : Z;
  ty_is_signed : bool;
  ty_type : option drgn_type;
}.

Definition drgn_type_kind_of (t : drgn_type) : drgn_type_kind := ty_kind t.
Definition drgn_type_primitive (t : drgn_type) : drgn_primitive_type := ty_primitive t.
Definition drgn_type_size (t : drgn_type) : Z := ty_size t.
Definition drgn_type_is_signed (t : drgn_type) : bool := ty_is_signed t.

(** [drgn_type_kind_has_size] and [drgn_type_has_size]. *)
Definition drgn_type_kind_has_size (kind : drgn_type_kind) : bool :=
  match kind with
  | DRGN_TYPE_INT | DRGN_TYPE_BOOL | DRGN_TYPE_FLOAT | DRGN_TYPE_COMPLEX
  | DRGN_TYPE_STRUCT | DRGN_TYPE_UNION | DRGN_TYPE_POINTER => true
  | _ => false
  end.

Definition drgn_type_has_size (t : drgn_type) : bool :=
  drgn_type_kind_has_size (drgn_type_kind_of t).

(** The C function [drgn_type_size] is
    [assert(drgn_type_has_size(type)); return type->_private.size;].
    [drgn_type_size] above is the read of the member, for the places
    that are reached with integer, boolean and floating-point types
    only; [drgn_type_size_asserted] is the call as a whole, for the
    places that other types reach: where the assertion does not hold
    the program is aborted or, compiled without assertions, reads a
    member that the type does not have. *)
Definition drgn_type_size_asserted (t : drgn_type) : res Z :=
  if drgn_type_has_size t then Ok (drgn_type_size t) else Undef.

Record drgn_qualified_type : Type := {
  qt_type : drgn_type;
  qt_qualifiers : Z;
}.

(** [struct drgn_object_type]: the type of an operand, its underlying
    type (typedefs removed) and its bit field size (0 if none). *)
Record drgn_object_type : Type := {
  ot_type : drgn_type;
  ot_underlying_type : drgn_type;
  ot_qualifiers : Z;
  ot_bit_field_size : Z;
}.

(** The part of [struct drgn_type_index] that the front-end uses.
    [type_index.c] is not part of the sources at hand:
    [drgn_type_index_find_internal] is a field of the record. *)
Record drgn_type_index : Type := {
  primitive_types : drgn_primitive_type -> drgn_type;
  drgn_type_index_find_internal :
    drgn_type_kind -> string -> option string -> res drgn_qualified_type;
}.

(** ** Specifier lists *)

Inductive c_type_specifier : Set :=
  | SPECIFIER_ERROR | SPECIFIER_VOID | SPECIFIER_CHAR | SPECIFIER_SIGNED_CHAR
  | SPECIFIER_UNSIGNED_CHAR | SPECIFIER_SHORT | SPECIFIER_SHORT_INT
  | SPECIFIER_SIGNED_SHORT_INT | SPECIFIER_UNSIGNED_SHORT_INT
  | SPECIFIER_SIGNED_SHORT | SPECIFIER_UNSIGNED_SHORT | SPECIFIER_INT
  | SPECIFIER_SIGNED_INT | SPECIFIER_UNSIGNED_INT | SPECIFIER_LONG
  | SPECIFIER_LONG_INT | SPECIFIER_SIGNED_LONG | SPECIFIER_UNSIGNED_LONG
  | SPECIFIER_SIGNED_LONG_INT | SPECIFIER_UNSIGNED_LONG_INT
  | SPECIFIER_LONG_LONG | SPECIFIER_LONG_LONG_INT
  | SPECIFIER_SIGNED_LONG_LONG_INT | SPECIFIER_UNSIGNED_LONG_LONG_INT
  | SPECIFIER_SIGNED_LONG_LONG | SPECIFIER_UNSIGNED_LONG_LONG
  | SPECIFIER_SIGNED | SPECIFIER_UNSIGNED | SPECIFIER_BOOL | SPECIFIER_FLOAT
  | SPECIFIER_DOUBLE | SPECIFIER_LONG_DOUBLE | SPECIFIER_NONE.

#[global] Instance c_type_specifier_eq_dec : EqDecision c_type_specifier.
Proof. solve_decision. Defined.

(** [specifier_transition[state][token]]; entries that the initializer
    leaves out are zero, that is [SPECIFIER_ERROR]. *)
Definition specifier_transition (st : c_type_specifier) (tok : c_token)
  : c_type_specifier :=
  match st, tok with
  | SPECIFIER_NONE, C_TOKEN_VOID => SPECIFIER_VOID
  | SPECIFIER_NONE, C_TOKEN_CHAR => SPECIFIER_CHAR
  | SPECIFIER_NONE, C_TOKEN_SHORT => SPECIFIER_SHORT
  | SPECIFIER_NONE, C_TOKEN_INT => SPECIFIER_INT
  | SPECIFIER_NONE, C_TOKEN_LONG => SPECIFIER_LONG
  | SPECIFIER_NONE, C_TOKEN_SIGNED => SPECIFIER_SIGNED
  | SPECIFIER_NONE, C_TOKEN_UNSIGNED => SPECIFIER_UNSIGNED
  | SPECIFIER_NONE, C_TOKEN_BOOL => SPECIFIER_BOOL
  | SPECIFIER_NONE, C_TOKEN_FLOAT => SPECIFIER_FLOAT
  | SPECIFIER_NONE, C_TOKEN_DOUBLE => SPECIFIER_DOUBLE
  | SPECIFIER_CHAR, C_TOKEN_SIGNED => SPECIFIER_SIGNED_CHAR
  | SPECIFIER_CHAR, C_TOKEN_UNSIGNED => SPECIFIER_UNSIGNED_CHAR
  | SPECIFIER_SHORT, C_TOKEN_INT => SPECIFIER_SHORT_INT
  | SPECIFIER_SHORT, C_TOKEN_SIGNED => SPECIFIER_SIGNED_SHORT
  | SPECIFIER_SHORT, C_TOKEN_UNSIGNED => SPECIFIER_UNSIGNED_SHORT
  | SPECIFIER_SHORT_INT, C_TOKEN_SIGNED => SPECIFIER_SIGNED_SHORT_INT
  | SPECIFIER_SHORT_INT, C_TOKEN_UNSIGNED => SPECIFIER_UNSIGNED_SHORT_INT
  | SPECIFIER_SIGNED_SHORT, C_TOKEN_INT => SPECIFIER_SIGNED_SHORT_INT
  | SPECIFIER_UNSIGNED_SHORT, C_TOKEN_INT => SPECIFIER_UNSIGNED_SHORT_INT
  | SPECIFIER_INT, C_TOKEN_SHORT => SPECIFIER_SHORT_INT
  | SPECIFIER_INT, C_TOKEN_LONG => SPECIFIER_LONG_INT
  | SPECIFIER_INT, C_TOKEN_SIGNED => SPECIFIER_SIGNED_INT
  | SPECIFIER_INT, C_TOKEN_UNSIGNED => SPECIFIER_UNSIGNED_INT
  | SPECIFIER_SIGNED_INT, C_TOKEN_SHORT => SPECIFIER_SIGNED_SHORT_INT
  | SPECIFIER_SIGNED_INT, C_TOKEN_LONG => SPECIFIER_SIGNED_LONG_INT
  | SPECIFIER_UNSIGNED_INT, C_TOKEN_SHORT => SPECIFIER_UNSIGNED_SHORT_INT
  | SPECIFIER_UNSIGNED_INT, C_TOKEN_LONG => SPECIFIER_UNSIGNED_LONG_INT
  | SPECIFIER_LONG, C_TOKEN_INT => SPECIFIER_LONG_INT
  | SPECIFIER_LONG, C_TOKEN_LONG => SPECIFIER_LONG_LONG
  | SPECIFIER_LONG, C_TOKEN_SIGNED => SPECIFIER_SIGNED_LONG
  | SPECIFIER_LONG, C_TOKEN_UNSIGNED => SPECIFIER_UNSIGNED_LONG
  | SPECIFIER_LONG, C_TOKEN_DOUBLE => SPECIFIER_LONG_DOUBLE
  | SPECIFIER_LONG_INT, C_TOKEN_LONG => SPECIFIER_LONG_LONG_INT
  | SPECIFIER_LONG_INT, C_TOKEN_SIGNED => SPECIFIER_SIGNED_LONG_INT
  | SPECIFIER_LONG_INT, C_TOKEN_UNSIGNED => SPECIFIER_UNSIGNED_LONG_INT
  | SPECIFIER_SIGNED_LONG, C_TOKEN_LONG => SPECIFIER_SIGNED_LONG_LONG
  | SPECIFIER_SIGNED_LONG, C_TOKEN_INT => SPECIFIER_SIGNED_LONG_INT
  | SPECIFIER_UNSIGNED_LONG, C_TOKEN_LONG => SPECIFIER_UNSIGNED_LONG_LONG
  | SPECIFIER_UNSIGNED_LONG, C_TOKEN_INT => SPECIFIER_UNSIGNED_LONG_INT
  | SPECIFIER_SIGNED_LONG_INT, C_TOKEN_LONG => SPECIFIER_SIGNED_LONG_LONG_INT
  | SPECIFIER_UNSIGNED_LONG_INT, C_TOKEN_LONG => SPECIFIER_UNSIGNED_LONG_LONG_INT
  | SPECIFIER_LONG_LONG, C_TOKEN_INT => SPECIFIER_LONG_LONG_INT
  | SPECIFIER_LONG_LONG, C_TOKEN_SIGNED => SPECIFIER_SIGNED_LONG_LONG
  | SPECIFIER_LONG_LONG, C_TOKEN_UNSIGNED => SPECIFIER_UNSIGNED_LONG_LONG
  | SPECIFIER_LONG_LONG_INT, C_TOKEN_SIGNED => SPECIFIER_SIGNED_LONG_LONG_INT
  | SPECIFIER_LONG_LONG_INT, C_TOKEN_UNSIGNED => SPECIFIER_UNSIGNED_LONG_LONG_INT
  | SPECIFIER_SIGNED_LONG_LONG, C_TOKEN_INT => SPECIFIER_SIGNED_LONG_LONG_INT
  | SPECIFIER_UNSIGNED_LONG_LONG, C_TOKEN_INT => SPECIFIER_UNSIGNED_LONG_LONG_INT
  | SPECIFIER_SIGNED, C_TOKEN_CHAR => SPECIFIER_SIGNED_CHAR
  | SPECIFIER_SIGNED, C_TOKEN_SHORT => SPECIFIER_SIGNED_SHORT
  | SPECIFIER_SIGNED, C_TOKEN_INT => SPECIFIER_SIGNED_INT
  | SPECIFIER_SIGNED, C_TOKEN_LONG => SPECIFIER_SIGNED_LONG
  | SPECIFIER_UNSIGNED, C_TOKEN_CHAR => SPECIFIER_UNSIGNED_CHAR
  | SPECIFIER_UNSIGNED, C_TOKEN_SHORT => SPECIFIER_UNSIGNED_SHORT
  | SPECIFIER_UNSIGNED, C_TOKEN_INT => SPECIFIER_UNSIGNED_INT
  | SPECIFIER_UNSIGNED, C_TOKEN_LONG => SPECIFIER_UNSIGNED_LONG
  | SPECIFIER_DOUBLE, C_TOKEN_LONG => SPECIFIER_LONG_DOUBLE
  | _, _ => SPECIFIER_ERROR
  end.

(** [specifier_kind]; [SPECIFIER_ERROR] and [SPECIFIER_NONE] have no
    initializer and read as zero, [DRGN_C_TYPE_VOID]. *)
Definition specifier_kind (st : c_type_specifier) : drgn_primitive_type :=
  match st with
  | SPECIFIER_ERROR | SPECIFIER_NONE => DRGN_C_TYPE_VOID
  | SPECIFIER_VOID => DRGN_C_TYPE_VOID
  | SPECIFIER_CHAR => DRGN_C_TYPE_CHAR
  | SPECIFIER_SIGNED_CHAR => DRGN_C_TYPE_SIGNED_CHAR
  | SPECIFIER_UNSIGNED_CHAR => DRGN_C_TYPE_UNSIGNED_CHAR
  | SPECIFIER_SHORT | SPECIFIER_SHORT_INT | SPECIFIER_SIGNED_SHORT_INT
  | SPECIFIER_SIGNED_SHORT => DRGN_C_TYPE_SHORT
  | SPECIFIER_UNSIGNED_SHORT_INT | SPECIFIER_UNSIGNED_SHORT =>
      DRGN_C_TYPE_UNSIGNED_SHORT
  | SPECIFIER_INT | SPECIFIER_SIGNED_INT | SPECIFIER_SIGNED => DRGN_C_TYPE_INT
  | SPECIFIER_UNSIGNED_INT | SPECIFIER_UNSIGNED => DRGN_C_TYPE_UNSIGNED_INT
  | SPECIFIER_LONG | SPECIFIER_LONG_INT | SPECIFIER_SIGNED_LONG
  | SPECIFIER_SIGNED_LONG_INT => DRGN_C_TYPE_LONG
  | SPECIFIER_UNSIGNED_LONG | SPECIFIER_UNSIGNED_LONG_INT =>
      DRGN_C_TYPE_UNSIGNED_LONG
  | SPECIFIER_LONG_LONG | SPECIFIER_LONG_LONG_INT
  | SPECIFIER_SIGNED_LONG_LONG_INT | SPECIFIER_SIGNED_LONG_LONG =>
      DRGN_C_TYPE_LONG_LONG
  | SPECIFIER_UNSIGNED_LONG_LONG_INT | SPECIFIER_UNSIGNED_LONG_LONG =>
      DRGN_C_TYPE_UNSIGNED_LONG_LONG
  | SPECIFIER_BOOL => DRGN_C_TYPE_BOOL
  | SPECIFIER_FLOAT => DRGN_C_TYPE_FLOAT
  | SPECIFIER_DOUBLE => DRGN_C_TYPE_DOUBLE
  | SPECIFIER_LONG_DOUBLE => DRGN_C_TYPE_LONG_DOUBLE
  end.

Definition qualifier_from_token (tok : c_token) : Z :=
  match tok with
  | C_TOKEN_CONST => DRGN_QUALIFIER_CONST
  | C_TOKEN_RESTRICT => DRGN_QUALIFIER_RESTRICT
  | C_TOKEN_VOLATILE => DRGN_QUALIFIER_VOLATILE
  | C_TOKEN_ATOMIC => DRGN_QUALIFIER_ATOMIC
  | _ => 0
  end.

(** [strncmp(s1, s2, n) == 0] on NUL-terminated strings. *)
Fixpoint strncmp_eq (s1 s2 : string) (n : nat) : bool :=
  match n with
  | O => true
  | S n' =>
      let c1 := peek s1 in
      let c2 := peek s2 in
      if negb (char_val c1 =? char_val c2) then false
      else if char_val c1 =? 0 then true
      else strncmp_eq (advance s1) (advance s2) n'
  end.

(** The local variables of [c_parse_specifier_qualifier_list]. *)
Record sql_state : Type := {
  specifier : c_type_specifier;
  qualifiers : Z;
  identifier : option (string * nat);
  tag_token : c_token;
}.

Definition sql_init : sql_state :=
  {| specifier := SPECIFIER_NONE; qualifiers := 0; identifier := None;
     tag_token := C_TOKEN_EOF |}.

Definition in_range (lo hi : Z) (t : c_token) : bool :=
  (lo <=? token_code t) && (token_code t <=? hi).

(** The [for (;;)] loop of [c_parse_specifier_qualifier_list]; [fuel]
    bounds the number of iterations ([None] when it runs out). *)
Fixpoint sql_loop (fuel : nat) (st : sql_state) (lexer : drgn_lexer)
  : option (res (sql_state * drgn_lexer)) :=
  match fuel with
  | O => None
  | S fuel' =>
      match drgn_lexer_pop lexer with
      | Err e => Some (Err e)
      | Undef => Some Undef
      | Timeout => Some Timeout
      | Ok (token, lexer) =>
          if in_range MIN_QUALIFIER_TOKEN MAX_QUALIFIER_TOKEN (kind token) then
            sql_loop fuel'
              {| specifier := specifier st;
                 qualifiers := Z.lor (qualifiers st) (qualifier_from_token (kind token));
                 identifier := identifier st; tag_token := tag_token st |}
              lexer
          else if in_range MIN_SPECIFIER_TOKEN MAX_SPECIFIER_TOKEN (kind token) then
            if negb (bool_decide (tag_token st = C_TOKEN_EOF))
            then Some (Err DRGN_ERROR_SYNTAX)
            else if bool_decide (is_Some (identifier st))
            then Some (Err DRGN_ERROR_SYNTAX)
            else
              let sp := specifier_transition (specifier st) (kind token) in
              if bool_decide (sp = SPECIFIER_ERROR)
              then Some (Err DRGN_ERROR_SYNTAX)
              else sql_loop fuel'
                     {| specifier := sp; qualifiers := qualifiers st;
                        identifier := identifier st; tag_token := tag_token st |}
                     lexer
          else if bool_decide (kind token = C_TOKEN_IDENTIFIER)
                  && bool_decide (specifier st = SPECIFIER_NONE)
                  && negb (bool_decide (is_Some (identifier st))) then
            sql_loop fuel'
              {| specifier := specifier st; qualifiers := qualifiers st;
                 identifier := Some (value token, len token);
                 tag_token := tag_token st |}
              lexer
          else if bool_decide (kind token = C_TOKEN_STRUCT)
                  || bool_decide (kind token = C_TOKEN_UNION)
                  || bool_decide (kind token = C_TOKEN_ENUM) then
            if bool_decide (is_Some (identifier st))
            then Some (Err DRGN_ERROR_SYNTAX)
            else if negb (bool_decide (specifier st = SPECIFIER_NONE))
            then Some (Err DRGN_ERROR_SYNTAX)
            else
              match drgn_lexer_pop lexer with
              | Err e => Some (Err e)
              | Undef => Some Undef
              | Timeout => Some Timeout
              | Ok (token2, lexer) =>
                  if negb (bool_decide (kind token2 = C_TOKEN_IDENTIFIER))
                  then Some (Err DRGN_ERROR_SYNTAX)
                  else sql_loop fuel'
                         {| specifier := specifier st;
                            qualifiers := qualifiers st;
                            identifier := Some (value token2, len token2);
                            tag_token := kind token |}
                         lexer
              end
          else
            Some (Ok (st, drgn_lexer_push lexer token))
      end
  end.

(** The part of [c_parse_specifier_qualifier_list] after the loop. *)
Definition sql_finish (tindex : drgn_type_index) (filename : option string)
    (st : sql_state) : res drgn_qualified_type :=
  let add_qualifiers (ret : drgn_qualified_type) :=
    {| qt_type := qt_type ret;
       qt_qualifiers := Z.lor (qt_qualifiers ret) (qualifiers st) |} in
  let find (k : drgn_type_kind) :=
    let '(name, name_len) := default (EmptyString, O) (identifier st) in
    ret ← drgn_type_index_find_internal tindex k
            (substring 0 name_len name) filename;
    Ok (add_qualifiers ret) in
  if bool_decide (specifier st = SPECIFIER_NONE) then
    if bool_decide (tag_token st = C_TOKEN_STRUCT) then find DRGN_TYPE_STRUCT
    else if bool_decide (tag_token st = C_TOKEN_UNION) then find DRGN_TYPE_UNION
    else if bool_decide (tag_token st = C_TOKEN_ENUM) then find DRGN_TYPE_ENUM
    else
      match identifier st with
      | Some (name, _) =>
          if strncmp_eq name "size_t" (String.length "size_t") then
            Ok (add_qualifiers
                  {| qt_type := primitive_types tindex DRGN_C_TYPE_SIZE_T;
                     qt_qualifiers := 0 |})
          else if strncmp_eq name "ptrdiff_t" (String.length "ptrdiff_t") then
            Ok (add_qualifiers
                  {| qt_type := primitive_types tindex DRGN_C_TYPE_PTRDIFF_T;
                     qt_qualifiers := 0 |})
          else find DRGN_TYPE_TYPEDEF
      | None => Err DRGN_ERROR_SYNTAX
      end
  else
    Ok (add_qualifiers
          {| qt_type := primitive_types tindex (specifier_kind (specifier st));
             qt_qualifiers := 0 |}).

(** [c_parse_specifier_qualifier_list].  Every iteration of the loop
    but the last consumes at least one character of the input or one
    pushed-back token, which bounds the number of iterations. *)
Definition c_parse_specifier_qualifier_list (tindex : drgn_type_index)
    (lexer : drgn_lexer) (filename : option string)
  : option (res (drgn_qualified_type * drgn_lexer)) :=
  let fuel := (String.length (lexer_p lexer) + length (lexer_stack lexer) + 2)%nat in
  match sql_loop fuel sql_init lexer with
  | None => None
  | Some (Err e) => Some (Err e)
  | Some Undef => Some Undef
  | Some Timeout => Some Timeout
  | Some (Ok (st, lexer)) =>
      Some (ret ← sql_finish tindex filename st; Ok (ret, lexer))
  end.

(** ** Integer promotions and the usual arithmetic conversions *)

(** [c_integer_conversion_rank].  The array ends at [DRGN_C_TYPE_BOOL];
    [DRGN_C_TYPE_VOID] has no initializer and reads as zero; an index
    past the end of the array is [None]. *)
Definition c_integer_conversion_rank (p : drgn_primitive_type) : option Z :=
  match p with
  | DRGN_C_TYPE_VOID => Some 0
  | DRGN_C_TYPE_BOOL => Some 0
  | DRGN_C_TYPE_CHAR | DRGN_C_TYPE_SIGNED_CHAR | DRGN_C_TYPE_UNSIGNED_CHAR =>
      Some 1
  | DRGN_C_TYPE_SHORT | DRGN_C_TYPE_UNSIGNED_SHORT => Some 2
  | DRGN_C_TYPE_INT | DRGN_C_TYPE_UNSIGNED_INT => Some 3
  | DRGN_C_TYPE_LONG | DRGN_C_TYPE_UNSIGNED_LONG => Some 4
  | DRGN_C_TYPE_LONG_LONG | DRGN_C_TYPE_UNSIGNED_LONG_LONG => Some 5
  | _ => None
  end.

(** The width and signedness that [c_can_represent_all_values]
    computes for each of its two operands. *)
Definition value_width (t : drgn_type) (bit_field_size : Z) : Z :=
  if bool_decide (drgn_type_kind_of t = DRGN_TYPE_BOOL) then 1
  else if bit_field_size =? 0 then u64 (8 * drgn_type_size t)
  else bit_field_size.

Definition value_is_signed (t : drgn_type) : bool :=
  if bool_decide (drgn_type_kind_of t = DRGN_TYPE_BOOL) then false
  else drgn_type_is_signed t.

Definition c_can_represent_all_values (type1 : drgn_type) (bit_field_size1 : Z)
    (type2 : drgn_type) (bit_field_size2 : Z) : bool :=
  let width1 := value_width type1 bit_field_size1 in
  let is_signed1 := value_is_signed type1 in
  let width2 := value_width type2 bit_field_size2 in
  let is_signed2 := value_is_signed type2 in
  if eqb is_signed1 is_signed2 then width1 >=? width2
  else if is_signed1 && negb is_signed2 then width1 >? width2
  else false.

Definition set_types (t : drgn_object_type) (ty : drgn_type) (bfs : Z)
  : drgn_object_type :=
  {| ot_type := ty; ot_underlying_type := ty;
     ot_qualifiers := ot_qualifiers t; ot_bit_field_size := bfs |}.

(** [c_integer_promotions]; the result is the updated [*type]. *)
Definition c_integer_promotions (tindex : drgn_type_index)
    (type : drgn_object_type) : res drgn_object_type :=
  let int_type := primitive_types tindex DRGN_C_TYPE_INT in
  let uint_type := primitive_types tindex DRGN_C_TYPE_UNSIGNED_INT in
  let promote (type : drgn_object_type) : res drgn_object_type :=
    let primitive := drgn_type_primitive (ot_underlying_type type) in
    if bool_decide (primitive = DRGN_NOT_PRIMITIVE_TYPE)
       || negb (ot_bit_field_size type =? 0) then
      if c_can_represent_all_values int_type 0
           (ot_underlying_type type) (ot_bit_field_size type)
      then Ok (set_types type int_type 0)
      else if c_can_represent_all_values uint_type 0
                (ot_underlying_type type) (ot_bit_field_size type)
      then Ok (set_types type uint_type 0)
      else Ok type
    else if bool_decide (primitive = DRGN_C_TYPE_INT)
            || bool_decide (primitive = DRGN_C_TYPE_UNSIGNED_INT)
    then Ok type
    else
      match c_integer_conversion_rank primitive with
      | None => Undef
      | Some rank =>
          if rank >? 3 then Ok type
          else if c_can_represent_all_values int_type 0
                    (ot_underlying_type type) 0
          then Ok (set_types type int_type (ot_bit_field_size type))
          else Ok (set_types type uint_type (ot_bit_field_size type))
      end in
  match drgn_type_kind_of (ot_underlying_type type) with
  | DRGN_TYPE_ENUM =>
      match ty_type (ot_underlying_type type) with
      | None => Err DRGN_ERROR_INVALID_ARGUMENT
      | Some compatible =>
          promote (set_types type compatible (ot_bit_field_size type))
      end
  | DRGN_TYPE_INT | DRGN_TYPE_BOOL => promote type
  | _ => Ok type
  end.

(** The comparison of the conversion ranks of two promoted operands,
    [rank_cmp] in [c_common_real_type]. *)
Definition c_rank_cmp (type1 type2 : drgn_object_type) : res Z :=
  let primitive1 := drgn_type_primitive (ot_underlying_type type1) in
  let primitive2 := drgn_type_primitive (ot_underlying_type type2) in
  if negb (bool_decide (primitive1 = DRGN_NOT_PRIMITIVE_TYPE))
     && negb (bool_decide (primitive2 = DRGN_NOT_PRIMITIVE_TYPE)) then
    match c_integer_conversion_rank primitive1,
          c_integer_conversion_rank primitive2 with
    | Some r1, Some r2 => Ok (r1 - r2)
    | _, _ => Undef
    end
  else
    size1 ← drgn_type_size_asserted (ot_underlying_type type1);
    size2 ← drgn_type_size_asserted (ot_underlying_type type2);
    if (size1 =? size2)
       && bool_decide (primitive1 = DRGN_NOT_PRIMITIVE_TYPE)
       && bool_decide (primitive2 = DRGN_NOT_PRIMITIVE_TYPE)
    then Ok 0
    else if ((size1 =? size2)
             && negb (bool_decide (primitive2 = DRGN_NOT_PRIMITIVE_TYPE)))
            || (size1 <? size2)
    then Ok (-1)
    else Ok 1.

(** The unsigned type corresponding to a signed standard type, as the
    last case of [c_common_real_type] builds it:
    [tindex->primitive_types[primitive + 1]] behind
    [assert(primitive != DRGN_NOT_PRIMITIVE_TYPE)]. *)
Definition corresponding_unsigned (tindex : drgn_type_index)
    (primitive : drgn_primitive_type) : res drgn_object_type :=
  if bool_decide (primitive = DRGN_NOT_PRIMITIVE_TYPE) then Undef
  else
    match primitive_succ primitive with
    | None => Undef
    | Some p =>
        Ok {| ot_type := primitive_types tindex p;
              ot_underlying_type := primitive_types tindex p;
              ot_qualifiers := 0; ot_bit_field_size := 0 |}
    end.

(** [c_common_real_type].  [ret1] and [ret2] are the labels of the C
    function: the result is a copy of the (promoted) operand.  The
    widths of the bit field branch are taken of [type->type], which
    the promotions leave as it was given where they change nothing: a
    typedef there fails the assertion of [drgn_type_size]. *)
Definition c_common_real_type (tindex : drgn_type_index)
    (type1 type2 : drgn_object_type) : res drgn_object_type :=
  let is_float1 :=
    bool_decide (drgn_type_kind_of (ot_underlying_type type1) = DRGN_TYPE_FLOAT) in
  let is_float2 :=
    bool_decide (drgn_type_kind_of (ot_underlying_type type2) = DRGN_TYPE_FLOAT) in
  if is_float1 && is_float2 then
    let size1 := drgn_type_size (ot_underlying_type type1) in
    let size2 := drgn_type_size (ot_underlying_type type2) in
    if size1 >? size2 then Ok type1
    else if size2 >? size1 then Ok type2
    else if primitive_code (drgn_type_primitive (ot_underlying_type type1))
            >? primitive_code (drgn_type_primitive (ot_underlying_type type2))
    then Ok type1
    else Ok type2
  else if is_float1 then Ok type1
  else if is_float2 then Ok type2
  else
    type1 ← c_integer_promotions tindex type1;
    type2 ← c_integer_promotions tindex type2;
    let is_signed1 := drgn_type_is_signed (ot_underlying_type type1) in
    let is_signed2 := drgn_type_is_signed (ot_underlying_type type2) in
    if negb (ot_bit_field_size type1 =? 0) || negb (ot_bit_field_size type2 =? 0) then
      width1 ← (if ot_bit_field_size type1 =? 0
                then size ← drgn_type_size_asserted (ot_type type1);
                     Ok (u64 (8 * size))
                else Ok (ot_bit_field_size type1));
      width2 ← (if ot_bit_field_size type2 =? 0
                then size ← drgn_type_size_asserted (ot_type type2);
                     Ok (u64 (8 * size))
                else Ok (ot_bit_field_size type2));
      if (width1 <? width2)
         || ((width1 =? width2) && (negb is_signed2 || is_signed1))
      then Ok type2
      else Ok type1
    else
      let primitive1 := drgn_type_primitive (ot_underlying_type type1) in
      let primitive2 := drgn_type_primitive (ot_underlying_type type2) in
      if negb (bool_decide (primitive1 = DRGN_NOT_PRIMITIVE_TYPE))
         && negb (bool_decide (primitive2 = DRGN_NOT_PRIMITIVE_TYPE))
         && bool_decide (primitive1 = primitive2)
      then Ok type2
      else
        rank_cmp ← c_rank_cmp type1 type2;
        if eqb is_signed1 is_signed2 then
          if rank_cmp >? 0 then Ok type1 else Ok type2
        else if negb is_signed1 && (rank_cmp >=? 0) then Ok type1
        else if negb is_signed2 && (rank_cmp <=? 0) then Ok type2
        else if is_signed1
                && c_can_represent_all_values (ot_underlying_type type1) 0
                     (ot_underlying_type type2) 0
        then Ok type1
        else if is_signed2
                && c_can_represent_all_values (ot_underlying_type type2) 0
                     (ot_underlying_type type1) 0
        then Ok type2
        else if is_signed1 then corresponding_unsigned tindex primitive1
        else if is_signed2 then corresponding_unsigned tindex primitive2
        else Undef.

(** ** Reference semantics used by the statements below *)

(** The value of a digit string in base [base], digit by digit. *)
Definition positional_value (base : Z) (digit_of : ascii -> Z)
    (cs : list ascii) (x : Z) : Z :=
  fold_left (fun acc c => acc * base + digit_of c) cs x.

(** The value of a hexadecimal digit as the design document words it:
    ['0'..'9'] are 0..9, ['a'..'f'] and ['A'..'F'] are 10..15. *)
Definition hex_digit_value (ch : ascii) : Z :=
  let c := uchar_val ch in
  if (48 <=? c) && (c <=? 57) then c - 48
  else if (97 <=? c) && (c <=? 102) then c - 97 + 10
  else c - 65 + 10.

(** The integer that a numeric token denotes in its base. *)
Definition token_value_spec (s : string) : Z :=
  let cs := list_ascii_of_string s in
  match cs with
  | z :: x :: d :: ds =>
      if (uchar_val z =? 48) && (uchar_val x =? 120)
      then positional_value 16 hex_digit_value (d :: ds) 0
      else if uchar_val z =? 48
      then positional_value 8 dec_loop_digit (x :: d :: ds) 0
      else positional_value 10 dec_loop_digit cs 0
  | z :: rest =>
      if uchar_val z =? 48
      then positional_value 8 dec_loop_digit rest 0
      else positional_value 10 dec_loop_digit cs 0
  | [] => 0
  end.

(** The digits of a numeric token: what follows [0x] in a hexadecimal
    token, every character otherwise. *)
Definition literal_digits (s : string) : list ascii :=
  match list_ascii_of_string s with
  | z :: x :: d :: ds =>
      if (uchar_val z =? 48) && (uchar_val x =? 120) then d :: ds
      else z :: x :: d :: ds
  | cs => cs
  end.

(** What the design document promises of [c_token_to_u64]. *)
Definition c_token_to_u64_spec (s : string) : res Z :=
  if token_value_spec s <=? UINT64_MAX then Ok (token_value_spec s)
  else Err DRGN_ERROR_INVALID_ARGUMENT.

(** The two operands of a mixed-sign pair, signed one first. *)
Definition signed_and_unsigned (p1 p2 : drgn_object_type)
  : drgn_object_type * drgn_object_type :=
  if drgn_type_is_signed (ot_underlying_type p1) then (p1, p2) else (p2, p1).

(** The rule that the design document gives for operands of different
    signedness: the signed operand's type if it can represent all
    values of the unsigned operand's type, otherwise the unsigned type
    corresponding to the signed operand's type. *)
Definition signed_or_corresponding_unsigned (tindex : drgn_type_index)
    (p1 p2 : drgn_object_type) : res drgn_object_type :=
  let '(s, u) := signed_and_unsigned p1 p2 in
  if c_can_represent_all_values (ot_underlying_type s) 0 (ot_underlying_type u) 0
  then Ok s
  else corresponding_unsigned tindex (drgn_type_primitive (ot_underlying_type s)).

Definition is_standard (t : drgn_object_type) : Prop :=
  drgn_type_primitive (ot_underlying_type t) <> DRGN_NOT_PRIMITIVE_TYPE.

(** [t1] and [t2] are integer operands, [p1] and [p2] are what the
    integer promotions make of them; neither is a bit field, they are
    not of one and the same standard type, and their signedness
    differs. *)
Definition promoted_mixed_sign (tindex : drgn_type_index)
    (t1 t2 p1 p2 : drgn_object_type) : Prop :=
  drgn_type_kind_of (ot_underlying_type t1) <> DRGN_TYPE_FLOAT
  /\ drgn_type_kind_of (ot_underlying_type t2) <> DRGN_TYPE_FLOAT
  /\ c_integer_promotions tindex t1 = Ok p1
  /\ c_integer_promotions tindex t2 = Ok p2
  /\ ot_bit_field_size p1 = 0 /\ ot_bit_field_size p2 = 0
  /\ ~ (is_standard p1 /\ is_standard p2
        /\ drgn_type_primitive (ot_underlying_type p1)
           = drgn_type_primitive (ot_underlying_type p2))
  /\ drgn_type_is_signed (ot_underlying_type p1)
     <> drgn_type_is_signed (ot_underlying_type p2).

(** The sentence of the design document on ties of the conversion rank. *)
Definition rank_tie_rule : Prop :=
  forall tindex t1 t2 p1 p2,
    promoted_mixed_sign tindex t1 t2 p1 p2 ->
    c_rank_cmp p1 p2 = Ok 0 ->
    c_common_real_type tindex t1 t2 = signed_or_corresponding_unsigned tindex p1 p2.

(** ** Sample types: the primitive types of an LP64 program *)

Definition int_type (name : string) (p : drgn_primitive_type) (size : Z)
    (is_signed : bool) : drgn_type :=
  mk_drgn_type DRGN_TYPE_INT p name size is_signed None.

Definition typedef_type (name : string) (p : drgn_primitive_type)
    (aliased : drgn_type) : drgn_type :=
  mk_drgn_type DRGN_TYPE_TYPEDEF p name 0 false (Some aliased).

Definition lp64_primitive_types (p : drgn_primitive_type) : drgn_type :=
  match p with
  | DRGN_C_TYPE_VOID | DRGN_NOT_PRIMITIVE_TYPE =>
      mk_drgn_type DRGN_TYPE_VOID DRGN_C_TYPE_VOID "void" 0 false None
  | DRGN_C_TYPE_CHAR => int_type "char" p 1 true
  | DRGN_C_TYPE_SIGNED_CHAR => int_type "signed char" p 1 true
  | DRGN_C_TYPE_UNSIGNED_CHAR => int_type "unsigned char" p 1 false
  | DRGN_C_TYPE_SHORT => int_type "short" p 2 true
  | DRGN_C_TYPE_UNSIGNED_SHORT => int_type "unsigned short" p 2 false
  | DRGN_C_TYPE_INT => int_type "int" p 4 true
  | DRGN_C_TYPE_UNSIGNED_INT => int_type "unsigned int" p 4 false
  | DRGN_C_TYPE_LONG => int_type "long" p 8 true
  | DRGN_C_TYPE_UNSIGNED_LONG => int_type "unsigned long" p 8 false
  | DRGN_C_TYPE_LONG_LONG => int_type "long long" p 8 true
  | DRGN_C_TYPE_UNSIGNED_LONG_LONG => int_type "unsigned long long" p 8 false
  | DRGN_C_TYPE_BOOL =>
      mk_drgn_type DRGN_TYPE_BOOL p "_Bool" 1 false None
  | DRGN_C_TYPE_FLOAT => mk_drgn_type DRGN_TYPE_FLOAT p "float" 4 false None
  | DRGN_C_TYPE_DOUBLE => mk_drgn_type DRGN_TYPE_FLOAT p "double" 8 false None
  | DRGN_C_TYPE_LONG_DOUBLE =>
      mk_drgn_type DRGN_TYPE_FLOAT p "long double" 16 false None
  | DRGN_C_TYPE_SIZE_T =>
      typedef_type "size_t" p
        (int_type "unsigned long" DRGN_C_TYPE_UNSIGNED_LONG 8 false)
  | DRGN_C_TYPE_PTRDIFF_T =>
      typedef_type "ptrdiff_t" p (int_type "long" DRGN_C_TYPE_LONG 8 true)
  end.

(** A type index that knows the primitive types and no other name. *)
Definition lp64_tindex : drgn_type_index :=
  {| primitive_types := lp64_primitive_types;
     drgn_type_index_find_internal := fun _ _ _ => Err DRGN_ERROR_LOOKUP |}.

Definition operand (t : drgn_type) : drgn_object_type :=
  {| ot_type := t; ot_underlying_type := t; ot_qualifiers := 0;
     ot_bit_field_size := 0 |}.

(** An operand whose type is a typedef of [underlying]. *)
Definition typedef_operand (name : string) (underlying : drgn_type)
  : drgn_object_type :=
  {| ot_type := typedef_type name DRGN_NOT_PRIMITIVE_TYPE underlying;
     ot_underlying_type := underlying; ot_qualifiers := 0;
     ot_bit_field_size := 0 |}.

(** ** [c_parse_specifier_list] *)

(** The loop of [c_parse_specifier_list] and what the function returns
    after it: [DRGN_NOT_PRIMITIVE_TYPE] for the jumps to [out], the
    kind of the specifier at the end of the input. *)
Fixpoint specifier_list_loop (fuel : nat) (specifier : c_type_specifier)
    (lexer : drgn_lexer) : option drgn_primitive_type :=
  match fuel with
  | O => None
  | S fuel' =>
      match drgn_lexer_pop lexer with
      | Ok (token, lexer) =>
          if in_range MIN_SPECIFIER_TOKEN MAX_SPECIFIER_TOKEN (kind token) then
            let specifier := specifier_transition specifier (kind token) in
            if bool_decide (specifier = SPECIFIER_ERROR)
            then Some DRGN_NOT_PRIMITIVE_TYPE
            else specifier_list_loop fuel' specifier lexer
          else if bool_decide (kind token = C_TOKEN_EOF)
          then Some (specifier_kind specifier)
          else Some DRGN_NOT_PRIMITIVE_TYPE
      | _ => Some DRGN_NOT_PRIMITIVE_TYPE
      end
  end.

(** [c_parse_specifier_list].  Every token but the last takes at least
    one character of the input. *)
Definition c_parse_specifier_list (s : string) : option drgn_primitive_type :=
  specifier_list_loop (S (String.length s)) SPECIFIER_NONE (drgn_lexer_init s).

(** [token_spelling[kind]]. *)
Definition spelling_of (k : c_token) : string :=
  default EmptyString (fst <$> token_spelling !! Z.to_nat (token_code k)).

(** The keywords of the tokens [ks], each after one space, and
    separated by one space each. *)
Fixpoint spaced_keywords (ks : list c_token) : string :=
  match ks with
  | [] => EmptyString
  | k :: ks => (" " ++ spelling_of k ++ spaced_keywords ks)%string
  end.

Definition keywords_text (ks : list c_token) : string :=
  match ks with
  | [] => EmptyString
  | k :: ks => (spelling_of k ++ spaced_keywords ks)%string
  end.

Definition is_specifier_token (k : c_token) : Prop :=
  in_range MIN_SPECIFIER_TOKEN MAX_SPECIFIER_TOKEN k = true.

(** What [c_parse_specifier_list] returns for the specifier that the
    loop has reached. *)
Definition specifier_list_result (specifier : c_type_specifier)
  : drgn_primitive_type :=
  if bool_decide (specifier = SPECIFIER_ERROR) then DRGN_NOT_PRIMITIVE_TYPE
  else specifier_kind specifier.

(** ** Qualifiers *)

Definition DRGN_ALL_QUALIFIERS : Z := Z.shiftl 1 4 - 1.

(** [qualifier_names] of [c_append_qualifiers]. *)
Definition qualifier_names : list string :=
  ["const"; "volatile"; "restrict"; "_Atomic"]%string.

(** The loop of [c_append_qualifiers] from [i] on; its condition fails
    at [i = 4]. *)
Fixpoint append_qualifiers_loop (fuel : nat) (quals : Z) (i : Z)
    (first : bool) (sb : string_builder) : string_builder :=
  match fuel with
  | O => sb
  | S fuel' =>
      if Z.land (Z.shiftl 1 i) DRGN_ALL_QUALIFIERS =? 0 then sb
      else if Z.land quals (Z.shiftl 1 i) =? 0
      then append_qualifiers_loop fuel' quals (i + 1) first sb
      else
        let sb := if first then sb else string_builder_appendc sb " " in
        let sb :=
          string_builder_append sb
            (default EmptyString (qualifier_names !! Z.to_nat i)) in
        append_qualifiers_loop fuel' quals (i + 1) false sb
  end.

(** [c_append_qualifiers]. *)
Definition c_append_qualifiers (quals : Z) (sb : string_builder)
  : string_builder :=
  append_qualifiers_loop 5 quals 0 true sb.

(** The loop of [c_parse_optional_type_qualifier_list]. *)
Fixpoint optional_type_qualifier_list_loop (fuel : nat) (quals : Z)
    (lexer : drgn_lexer) : option (res (Z * drgn_lexer)) :=
  match fuel with
  | O => None
  | S fuel' =>
      match drgn_lexer_pop lexer with
      | Ok (token, lexer) =>
          if negb (in_range MIN_QUALIFIER_TOKEN MAX_QUALIFIER_TOKEN
                     (kind token))
          then Some (Ok (quals, drgn_lexer_push lexer token))
          else
            optional_type_qualifier_list_loop fuel'
              (Z.lor quals (qualifier_from_token (kind token))) lexer
      | Err e => Some (Err e)
      | Undef => Some Undef
      | Timeout => Some Timeout
      end
  end.

(** [c_parse_optional_type_qualifier_list]: the qualifiers and the
    lexer behind them.  Every turn but the last takes a token. *)
Definition c_parse_optional_type_qualifier_list (lexer : drgn_lexer)
  : option (res (Z * drgn_lexer)) :=
  optional_type_qualifier_list_loop
    (S (String.length (lexer_p lexer) + length (lexer_stack lexer))) 0 lexer.

(** ** Integer literals *)

(** The values of an integer of [width] bits. *)
Definition integer_values (width : Z) (is_signed : bool) (v : Z) : Prop :=
  if is_signed then - 2 ^ (width - 1) <= v < 2 ^ (width - 1)
  else 0 <= v < 2 ^ width.

(** [uvalue ? 64 - __builtin_clzll(uvalue) : 0]. *)
Definition bit_length (uvalue : Z) : Z :=
  if uvalue =? 0 then 0 else Z.log2 uvalue + 1.

(** The conversion of a [uint64_t] to [int64_t]. *)
Definition s64 (v : Z) : Z := if v <? 2 ^ 63 then v else v - 2 ^ 64.

(** The call that sets the object of a literal ([object.c] is not part
    of the sources at hand): [drgn_object_set_signed] or
    [drgn_object_set_unsigned], with the type, the value and the bit
    field size. *)
Inductive object_set_call : Type :=
  | Set_signed (qualified_type : drgn_qualified_type) (svalue : Z)
      (bit_field_size : Z)
  | Set_unsigned (qualified_type : drgn_qualified_type) (uvalue : Z)
      (bit_field_size : Z).

(** [c_integer_literal]: the call whose result it returns. *)
Definition c_integer_literal (tindex : drgn_type_index) (uvalue : Z)
  : res object_set_call :=
  let types := primitive_types tindex in
  let bits := bit_length uvalue in
  let width p := u64 (8 * drgn_type_size (types p)) in
  let unqualified p := {| qt_type := types p; qt_qualifiers := 0 |} in
  if bits <? width DRGN_C_TYPE_INT
  then Ok (Set_signed (unqualified DRGN_C_TYPE_INT) (s64 uvalue) 0)
  else if bits <? width DRGN_C_TYPE_LONG
  then Ok (Set_signed (unqualified DRGN_C_TYPE_LONG) (s64 uvalue) 0)
  else if bits <? width DRGN_C_TYPE_LONG_LONG
  then Ok (Set_signed (unqualified DRGN_C_TYPE_LONG_LONG) (s64 uvalue) 0)
  else if bits <=? width DRGN_C_TYPE_UNSIGNED_LONG_LONG
  then Ok (Set_unsigned (unqualified DRGN_C_TYPE_UNSIGNED_LONG_LONG) uvalue 0)
  else Err DRGN_ERROR_INVALID_ARGUMENT.

(** [c_bool_literal]. *)
Definition c_bool_literal (tindex : drgn_type_index) (bvalue : bool)
  : res object_set_call :=
  Ok (Set_signed {| qt_type := primitive_types tindex DRGN_C_TYPE_INT;
                    qt_qualifiers := 0 |}
        (if bvalue then 1 else 0) 0).

(** ** Strings *)

(** The loop of [c_pretty_print_string].  [read] stands for
    [drgn_memory_reader_read] of one byte ([memory_reader.h] is not part
    of the sources at hand). *)
Fixpoint c_pretty_print_string_loop (fuel : nat) (read : Z -> res ascii)
    (address length : Z) (sb : string_builder)
  : string_builder * res unit :=
  match fuel with
  | O => (sb, Timeout)
  | S fuel' =>
      if length =? 0 then (sb, Ok tt)
      else
        match read address with
        | Ok c =>
            if uchar_val c =? 0 then (sb, Ok tt)
            else
              c_pretty_print_string_loop fuel' read (u64 (address + 1))
                (length - 1) (c_pretty_print_character c sb)
        | Err e => (sb, Err e)
        | Undef => (sb, Undef)
        | Timeout => (sb, Timeout)
        end
  end.

(** [c_pretty_print_string]. *)
Definition c_pretty_print_string (read : Z -> res ascii) (address length : Z)
    (sb : string_builder) : string_builder * res unit :=
  match c_pretty_print_string_loop (S (Z.to_nat length)) read address length
          (string_builder_appendc sb dquote) with
  | (sb, Ok _) => (string_builder_appendc sb dquote, Ok tt)
  | r => r
  end.

(** The characters [cs] as [c_pretty_print_character] writes them, one
    after the other. *)
Definition escape_string (cs : list ascii) (sb : string_builder)
  : string_builder :=
  fold_left (fun sb c => c_pretty_print_character c sb) cs sb.

(** The value of a hexadecimal digit, for reading an escape back. *)
Definition unhex (c : ascii) : Z :=
  let n := uchar_val c in if n <? 58 then n - 48 else n - 87.

(** The character that an escape at the head of a string stands for,
    and what follows the escape. *)
Definition unescape_one (s : string) : option (ascii * string) :=
  match s with
  | EmptyString => None
  | String c rest =>
      if uchar_val c =? 92 then
        match rest with
        | EmptyString => None
        | String e rest' =>
            let n := uchar_val e in
            if n =? 120 then
              match rest' with
              | String h (String l rest'') =>
                  Some (uchar_of (16 * unhex h + unhex l), rest'')
              | _ => None
              end
            else if n =? 97 then Some (uchar_of 7, rest')
            else if n =? 98 then Some (uchar_of 8, rest')
            else if n =? 116 then Some (uchar_of 9, rest')
            else if n =? 110 then Some (uchar_of 10, rest')
            else if n =? 118 then Some (uchar_of 11, rest')
            else if n =? 102 then Some (uchar_of 12, rest')
            else if n =? 114 then Some (uchar_of 13, rest')
            else Some (e, rest')
        end
      else Some (c, rest)
  end.

End LanguageC.

(* ################################################################# *)
(** * The DWARF name index ([dwarf_index.c]) *)

Module DwarfIndex.

(** Stateful functions return the state they leave behind together with
    their result. *)
Abbreviation result S A := (S * res A)%type.

(** ** Sections and byte views

    The contents of a section ([Elf_Data::d_buf], of [d_size] bytes) is
    the list of its bytes; a pointer into a section is an offset from
    its beginning.  The readers check a length against what is left of
    the section before they add it to a pointer; the one sum that is
    added unchecked, in [read_cus], is treated there. *)
Abbreviation bytes := (list Z) (only parsing).

Definition d_size (data : bytes) : Z := Z.of_nat (length data).

Inductive section_id : Set :=
  | SECTION_SYMTAB
  | SECTION_DEBUG_ABBREV
  | SECTION_DEBUG_INFO
  | SECTION_DEBUG_LINE
  | SECTION_DEBUG_STR.

#[global] Instance section_id_eq_dec : EqDecision section_id.
Proof. solve_decision. Defined.

Definition all_sections : list section_id :=
  [SECTION_SYMTAB; SECTION_DEBUG_ABBREV; SECTION_DEBUG_INFO;
   SECTION_DEBUG_LINE; SECTION_DEBUG_STR].

(** The bytes of [v], least significant first: the host is x86-64, the
    only architecture whose relocations are handled. *)
Definition le_bytes (n : nat) (v : Z) : bytes :=
  map (fun k => (v / 2 ^ (8 * Z.of_nat k)) mod 256) (seq 0 n).

Fixpoint le_value (bs : bytes) : Z :=
  match bs with
  | [] => 0
  | b :: rest => b + 256 * le_value rest
  end.

(** [*(uintN_t * )(buf + offset) = v] for an [n]-byte integer. *)
Definition store_le (n : nat) (v : Z) (offset : Z) (buf : bytes) : bytes :=
  take (Z.to_nat offset) buf ++ le_bytes n v
  ++ drop (Z.to_nat offset + n) buf.

(** [*(uintN_t * )(buf + offset)]. *)
Definition load_le (n : nat) (offset : Z) (buf : bytes) : Z :=
  le_value (take n (drop (Z.to_nat offset) buf)).

(** ** Relocations *)

Record Elf64_Rela : Type := {
  r_offset : Z;
  r_info : Z;
  r_addend : Z;
}.

Record Elf64_Sym : Type := {
  st_name : Z;
  st_info : Z;
  st_other : Z;
  st_shndx : Z;
  st_value : Z;
  st_size : Z;
}.

(** Relocation types of the x86-64 ABI ([elf.h]). *)
Definition R_X86_64_NONE : Z := 0.
Definition R_X86_64_64 : Z := 1.
Definition R_X86_64_32 : Z := 10.

(** [reloc->r_info >> 32] and [reloc->r_info & 0xffffffff]. *)
Definition rela_sym (reloc : Elf64_Rela) : Z := u32 (Z.shiftr (r_info reloc) 32).
Definition rela_type (reloc : Elf64_Rela) : Z := Z.land (r_info reloc) 4294967295.

(** The body of the cases [R_X86_64_32] ([width = 4]) and [R_X86_64_64]
    ([width = 8]) of [apply_relocation]: the two checks and the store
    of [syms[r_sym].st_value + reloc->r_addend]. *)
Definition relocate_word (section : bytes) (symtab : list Elf64_Sym)
    (reloc : Elf64_Rela) (width : nat) : result bytes unit :=
  let num_syms := Z.of_nat (length symtab) in
  let r_sym := rela_sym reloc in
  if r_sym >=? num_syms then (section, Err DRGN_ERROR_ELF_FORMAT)
  else if (r_offset reloc >? SIZE_MAX - Z.of_nat width)
          || (u64 (r_offset reloc + Z.of_nat width) >? d_size section)
  then (section, Err DRGN_ERROR_ELF_FORMAT)
  else
    match symtab !! Z.to_nat r_sym with
    | None => (section, Undef)
    | Some sym =>
        let v := u64 (st_value sym + r_addend reloc) in
        (store_le width (v mod 2 ^ (8 * Z.of_nat width))
           (r_offset reloc) section, Ok tt)
    end.

(** [apply_relocation].  [rela_section] and [symtab] are the typed views
    [(Elf64_Rela * )rela_section->d_buf] and [(Elf64_Sym * )symtab->d_buf];
    the number of their elements is [d_size / sizeof(element)]. *)
Definition apply_relocation (section : bytes) (rela_section : list Elf64_Rela)
    (symtab : list Elf64_Sym) (i : nat) : result bytes unit :=
  match rela_section !! i with
  | None => (section, Undef)
  | Some reloc =>
      let r_type := rela_type reloc in
      if r_type =? R_X86_64_NONE then (section, Ok tt)
      else if r_type =? R_X86_64_32 then relocate_word section symtab reloc 4
      else if r_type =? R_X86_64_64 then relocate_word section symtab reloc 8
      else (section, Err DRGN_ERROR_ELF_FORMAT)
  end.

(** A relocation entry as it sits in memory: three 64-bit fields, the
    addend a signed one. *)
Definition rela_in_range (reloc : Elf64_Rela) : Prop :=
  0 <= r_offset reloc < 2 ^ 64
  /\ 0 <= r_info reloc < 2 ^ 64
  /\ - 2 ^ 63 <= r_addend reloc < 2 ^ 63.

(** The section [after] is the section [before] with the [width] bytes
    at [offset] holding [v]. *)
Definition written (width : nat) (v offset : Z) (before after : bytes) : Prop :=
  length after = length before
  /\ load_le width offset after = v
  /\ forall j : nat,
       (Z.of_nat j < offset \/ offset + Z.of_nat width <= Z.of_nat j) ->
       after !! j = before !! j.

(** ** The index: shards, entries and chains *)

(** A [struct debug_file *] is the identity of a file object. *)
Definition file_id := nat.

(** [struct die_entry]. *)
Record die_entry : Type := {
  tag : Z;
  file_name_hash : Z;
  next : Z;
  file : file_id;
  offset : Z;
}.

(** [struct dwarf_index_shard] (without its lock).  [shard_map] is the
    [die_map] called [map]: the index of the first entry of each name.  [entries]
    holds the slots of the array that were written at some time: its
    first [num_entries] elements are the entries of the shard, what may
    follow is what removed entries have left behind in memory. *)
Record dwarf_index_shard : Type := {
  shard_map : gmap string Z;
  entries : list die_entry;
  num_entries : Z;
  entries_capacity : Z;
}.

(** The shard as [drgn_dwarf_index_create] makes it:
    [initial_shard_capacity = max(1024 >> SHARD_BITS, 1)]. *)
Definition SHARD_BITS : Z := 8.
Definition initial_shard_capacity : Z := Z.max (Z.shiftr 1024 SHARD_BITS) 1.
Definition empty_shard : dwarf_index_shard :=
  {| shard_map := ∅; entries := []; num_entries := 0;
     entries_capacity := initial_shard_capacity |}.

(** The allocator: the outcomes of the allocations to come, in order
    ([true] for success); when the list is used up every allocation
    succeeds. *)
Definition heap := list bool.

Definition alloc (h : heap) : bool * heap :=
  match h with
  | [] => (true, [])
  | ok :: rest => (ok, rest)
  end.

(** [shard->entries[index] = e] for an index that is at most the number
    of slots written so far. *)
Definition write_slot (slots : list die_entry) (index : Z) (e : die_entry)
  : list die_entry :=
  if index <? Z.of_nat (length slots) then <[Z.to_nat index := e]> slots
  else slots ++ [e].

(** [append_die_entry]; [None] stands for the result [false]. *)
Definition append_die_entry (h : heap) (shard : dwarf_index_shard)
    (tag file_name_hash : Z) (file : file_id) (offset : Z)
  : heap * option dwarf_index_shard :=
  let '(grown, h) :=
    if num_entries shard >=? entries_capacity shard then
      let '(ok, h) := alloc h in
      (if ok then Some (2 * entries_capacity shard) else None, h)
    else (Some (entries_capacity shard), h) in
  match grown with
  | None => (h, None)
  | Some capacity =>
      let entry := {| tag := tag; file_name_hash := file_name_hash;
                      next := SIZE_MAX; file := file; offset := offset |} in
      (h, Some {| shard_map := shard_map shard;
                  entries := write_slot (entries shard) (num_entries shard) entry;
                  num_entries := num_entries shard + 1;
                  entries_capacity := capacity |})
  end.

(** The result of the search loop of [index_die]: an entry with the tag
    and the file name hash was found, or the loop ended on the last
    entry of the chain, whose index it gives. *)
Inductive chain_search : Type :=
  | Found
  | Last (index : Z).

(** The loop [for (;;)] of [index_die], started at [entries[index]]. *)
Fixpoint search_chain (fuel : nat) (slots : list die_entry) (index : Z)
    (tag file_name_hash : Z) : res chain_search :=
  match fuel with
  | O => Timeout
  | S fuel' =>
      match slots !! Z.to_nat index with
      | None => Undef
      | Some entry =>
          if (DwarfIndex.tag entry =? tag)
             && (DwarfIndex.file_name_hash entry =? file_name_hash)
          then Ok Found
          else if next entry =? SIZE_MAX then Ok (Last index)
          else search_chain fuel' slots (next entry) tag file_name_hash
      end
  end.

Definition set_next (e : die_entry) (n : Z) : die_entry :=
  {| tag := tag e; file_name_hash := file_name_hash e; next := n;
     file := file e; offset := offset e |}.

(** [index_die] between [omp_set_lock] and [omp_unset_lock]: the shard
    is the one that the hash of the name selects.  A chain has at most
    as many entries as the array has slots, which is the fuel given to
    the search. *)
Definition index_die_locked (h : heap) (shard : dwarf_index_shard)
    (name : string) (tag file_name_hash : Z) (file : file_id) (offset : Z)
  : heap * result dwarf_index_shard unit :=
  match shard_map shard !! name with
  | None =>
      match append_die_entry h shard tag file_name_hash file offset with
      | (h, None) => (h, (shard, Err DRGN_ERROR_NO_MEMORY))
      | (h, Some shard) =>
          let index := num_entries shard - 1 in
          let '(ok, h) := alloc h in
          if ok then
            (h, ({| shard_map := <[name := index]> (shard_map shard);
                    entries := entries shard;
                    num_entries := num_entries shard;
                    entries_capacity := entries_capacity shard |}, Ok tt))
          else (h, (shard, Err DRGN_ERROR_NO_MEMORY))
      end
  | Some value =>
      match search_chain (length (entries shard)) (entries shard) value
              tag file_name_hash with
      | Err e => (h, (shard, Err e))
      | Undef => (h, (shard, Undef))
      | Timeout => (h, (shard, Timeout))
      | Ok Found => (h, (shard, Ok tt))
      | Ok (Last index) =>
          match append_die_entry h shard tag file_name_hash file offset with
          | (h, None) => (h, (shard, Err DRGN_ERROR_NO_MEMORY))
          | (h, Some shard) =>
              match entries shard !! Z.to_nat index with
              | None => (h, (shard, Undef))
              | Some last =>
                  (h, ({| shard_map := shard_map shard;
                          entries :=
                            <[Z.to_nat index := set_next last (num_entries shard - 1)]>
                              (entries shard);
                          num_entries := num_entries shard;
                          entries_capacity := entries_capacity shard |}, Ok tt))
              end
          end
      end
  end.

(** The chain of a name: the indices of its entries from the head on,
    as a lookup follows them. *)
Fixpoint chain_from (fuel : nat) (slots : list die_entry) (index : Z)
  : list Z :=
  match fuel with
  | O => []
  | S fuel' =>
      match slots !! Z.to_nat index with
      | None => []
      | Some entry =>
          index :: (if next entry =? SIZE_MAX then []
                    else chain_from fuel' slots (next entry))
      end
  end.

Definition chain (shard : dwarf_index_shard) (name : string) : list Z :=
  match shard_map shard !! name with
  | None => []
  | Some head => chain_from (length (entries shard)) (entries shard) head
  end.

(** The entries of a chain. *)
Definition chain_entries (shard : dwarf_index_shard) (name : string)
  : list die_entry :=
  omap (fun index => entries shard !! Z.to_nat index) (chain shard name).

(** What makes two entries of a name the same definition. *)
Definition definition_key (e : die_entry) : Z * Z := (tag e, file_name_hash e).

(** What an entry says apart from its link. *)
Definition entry_payload (e : die_entry) : Z * Z * file_id * Z :=
  (tag e, file_name_hash e, file e, offset e).

(** The shards that come to be by calls of [index_die], whatever the
    allocator answers, from the shard that [drgn_dwarf_index_create]
    makes. *)
Inductive built_by_index_die : dwarf_index_shard -> Prop :=
  | built_empty : built_by_index_die empty_shard
  | built_step h shard name tag file_name_hash file offset h' shard' r :
      built_by_index_die shard ->
      index_die_locked h shard name tag file_name_hash file offset
      = (h', (shard', r)) ->
      built_by_index_die shard'.

(** [is_chain slots index l]: following the links from [slots[index]]
    visits the indices [l], each link pointing further into the array,
    and ends on an entry without a successor. *)
Inductive is_chain (slots : list die_entry) : Z -> list Z -> Prop :=
  | is_chain_last index entry :
      0 <= index -> slots !! Z.to_nat index = Some entry ->
      next entry = SIZE_MAX ->
      is_chain slots index [index]
  | is_chain_link index entry l :
      0 <= index -> slots !! Z.to_nat index = Some entry ->
      next entry <> SIZE_MAX -> index < next entry ->
      is_chain slots (next entry) l ->
      is_chain slots index (index :: l).

(** The keys of the entries at the indices [l]. *)
Definition keys_at (slots : list die_entry) (l : list Z) : list (Z * Z) :=
  definition_key <$> omap (fun index => slots !! Z.to_nat index) l.

(** The invariant of a shard that was never rolled back: the array has
    no slot past its entries, every name leads to a chain that holds no
    definition twice, and the chains of two names share no entry. *)
Record shard_wf (shard : dwarf_index_shard) : Prop := {
  wf_num_entries : num_entries shard = Z.of_nat (length (entries shard));
  wf_chains :
    forall name head, shard_map shard !! name = Some head ->
      exists l, is_chain (entries shard) head l
                /\ NoDup (keys_at (entries shard) l);
  wf_disjoint :
    forall name1 name2 head1 head2 l1 l2,
      name1 <> name2 ->
      shard_map shard !! name1 = Some head1 ->
      shard_map shard !! name2 = Some head2 ->
      is_chain (entries shard) head1 l1 ->
      is_chain (entries shard) head2 l2 ->
      forall index, index ∈ l1 -> index ∈ l2 -> False;
}.

(** The entry that [append_die_entry] writes. *)
Definition new_entry (tag file_name_hash : Z) (file : file_id) (offset : Z)
  : die_entry :=
  {| tag := tag; file_name_hash := file_name_hash; next := SIZE_MAX;
     file := file; offset := offset |}.

(** The ways in which a call of [index_die] on a well-formed shard can
    end: the definition is in the chain already; an allocation fails
    before anything is written; the name is new and gets its first
    entry; the name is new, its entry is written, and the insertion into
    the map fails; the definition is linked behind the last entry of the
    chain of its name. *)
Inductive index_die_outcome (shard : dwarf_index_shard) (name : string)
    (tag file_name_hash : Z) (file : file_id) (offset : Z)
  : dwarf_index_shard -> res unit -> Prop :=
  | outcome_found head l :
      shard_map shard !! name = Some head ->
      is_chain (entries shard) head l ->
      (tag, file_name_hash) ∈ keys_at (entries shard) l ->
      index_die_outcome shard name tag file_name_hash file offset
        shard (Ok tt)
  | outcome_no_memory :
      (forall head l, shard_map shard !! name = Some head ->
                      is_chain (entries shard) head l ->
                      (tag, file_name_hash) ∉ keys_at (entries shard) l) ->
      index_die_outcome shard name tag file_name_hash file offset
        shard (Err DRGN_ERROR_NO_MEMORY)
  | outcome_new_name capacity :
      shard_map shard !! name = None ->
      index_die_outcome shard name tag file_name_hash file offset
        {| shard_map := <[name := num_entries shard]> (shard_map shard);
           entries := entries shard ++ [new_entry tag file_name_hash file offset];
           num_entries := num_entries shard + 1;
           entries_capacity := capacity |}
        (Ok tt)
  | outcome_not_inserted capacity :
      shard_map shard !! name = None ->
      index_die_outcome shard name tag file_name_hash file offset
        {| shard_map := shard_map shard;
           entries := entries shard ++ [new_entry tag file_name_hash file offset];
           num_entries := num_entries shard + 1;
           entries_capacity := capacity |}
        (Err DRGN_ERROR_NO_MEMORY)
  | outcome_linked head l j ej capacity :
      shard_map shard !! name = Some head ->
      is_chain (entries shard) head l ->
      (tag, file_name_hash) ∉ keys_at (entries shard) l ->
      last l = Some j ->
      entries shard !! Z.to_nat j = Some ej ->
      index_die_outcome shard name tag file_name_hash file offset
        {| shard_map := shard_map shard;
           entries :=
             <[Z.to_nat j := set_next ej (num_entries shard)]>
               (entries shard ++ [new_entry tag file_name_hash file offset]);
           num_entries := num_entries shard + 1;
           entries_capacity := capacity |}
        (Ok tt).

(** ** Reading bytes ([read.h])

    [read.h] is not part of the sources at hand; its readers are
    written from the way they are used: each checks that the bytes it
    needs lie before [end_], reads in the byte order of the file and
    advances the pointer.  A reader gives [None] where the C function
    returns [false]. *)

(** [drgn_eof()]. *)
Definition drgn_eof {A : Type} : res A := Err DRGN_ERROR_DWARF_FORMAT.

Definition byte_at (buf : bytes) (ptr : Z) : Z :=
  default 0 (buf !! Z.to_nat ptr).

(** [read_in_bounds]. *)
Definition read_in_bounds (ptr end_ size : Z) : bool :=
  (ptr <=? end_) && (size <=? end_ - ptr).

(** [read_u8], [read_u16], [read_u32] and [read_u64], also into a
    [size_t] or a [uint64_t]. *)
Definition read_uint (n : nat) (bswap : bool) (buf : bytes) (ptr end_ : Z)
  : option (Z * Z) :=
  if (0 <=? ptr) && read_in_bounds ptr end_ (Z.of_nat n) then
    let bs := take n (drop (Z.to_nat ptr) buf) in
    Some (le_value (if bswap then reverse bs else bs), ptr + Z.of_nat n)
  else None.

(** The loop of [read_uleb128]. *)
Fixpoint read_uleb128_loop (fuel : nat) (buf : bytes) (ptr end_ : Z)
    (shift value : Z) : res (Z * Z) :=
  match fuel with
  | O => Timeout
  | S fuel' =>
      if ptr >=? end_ then drgn_eof
      else
        let byte := byte_at buf ptr in
        let ptr := ptr + 1 in
        if (shift =? 63) && (byte >? 1) then Err DRGN_ERROR_OVERFLOW
        else
          let value := Z.lor value (u64 (Z.shiftl (Z.land byte 127) shift)) in
          let shift := shift + 7 in
          if Z.land byte 128 =? 0 then Ok (value, ptr)
          else read_uleb128_loop fuel' buf ptr end_ shift value
  end.

(** [read_uleb128] (and [read_uleb128_into_size_t], a [size_t] having
    64 bits): the value and the pointer behind it.  Every turn of the
    loop takes one byte, so the bytes that are left bound the turns. *)
Definition read_uleb128 (buf : bytes) (ptr end_ : Z) : res (Z * Z) :=
  read_uleb128_loop (S (Z.to_nat (end_ - ptr))) buf ptr end_ 0 0.

Fixpoint skip_leb128_loop (fuel : nat) (buf : bytes) (ptr end_ : Z)
  : option Z :=
  match fuel with
  | O => None
  | S fuel' =>
      if ptr >=? end_ then None
      else if Z.land (byte_at buf ptr) 128 =? 0 then Some (ptr + 1)
      else skip_leb128_loop fuel' buf (ptr + 1) end_
  end.

(** [skip_leb128]. *)
Definition skip_leb128 (buf : bytes) (ptr end_ : Z) : option Z :=
  skip_leb128_loop (S (Z.to_nat (end_ - ptr))) buf ptr end_.

(** [memchr(ptr, 0, end - ptr)]: the offset of the first NUL byte. *)
Fixpoint find_nul (window : bytes) (ptr : Z) : option Z :=
  match window with
  | [] => None
  | b :: rest => if b =? 0 then Some ptr else find_nul rest (ptr + 1)
  end.

(** [read_string]: the length of the string at [ptr] and the pointer
    behind its NUL byte; [skip_string] is its second component. *)
Definition read_string (buf : bytes) (ptr end_ : Z) : option (Z * Z) :=
  if (ptr >=? end_) || (ptr <? 0) then None
  else
    match find_nul (take (Z.to_nat (end_ - ptr)) (drop (Z.to_nat ptr) buf)) ptr with
    | None => None
    | Some nul => Some (nul - ptr, nul + 1)
    end.

Definition skip_string (buf : bytes) (ptr end_ : Z) : option Z :=
  snd <$> read_string buf ptr end_.

Definition string_of_bytes (bs : bytes) : string :=
  string_of_list_ascii (uchar_of <$> bs).

(** The string that [len] bytes at [ptr] spell. *)
Definition string_at (buf : bytes) (ptr len : Z) : string :=
  string_of_bytes (take (Z.to_nat len) (drop (Z.to_nat ptr) buf)).

(** The C string that starts at [ptr], for [strlen]: [None] when
    [ptr] is not inside the buffer or no NUL byte follows. *)
Definition c_string_at (buf : bytes) (ptr : Z) : option string :=
  if (ptr <? 0) || (d_size buf <=? ptr) then None
  else
    match find_nul (drop (Z.to_nat ptr) buf) ptr with
    | None => None
    | Some nul => Some (string_at buf ptr (nul - ptr))
    end.

(** ** DWARF constants ([dwarf.h]) and the instructions of the
    abbreviation compiler *)

Definition DW_TAG_class_type : Z := 2.
Definition DW_TAG_enumeration_type : Z := 4.
Definition DW_TAG_compile_unit : Z := 17.
Definition DW_TAG_structure_type : Z := 19.
Definition DW_TAG_typedef : Z := 22.
Definition DW_TAG_union_type : Z := 23.
Definition DW_TAG_base_type : Z := 36.
Definition DW_TAG_enumerator : Z := 40.
Definition DW_TAG_subprogram : Z := 46.
Definition DW_TAG_variable : Z := 52.

Definition DW_AT_sibling : Z := 1.
Definition DW_AT_name : Z := 3.
Definition DW_AT_stmt_list : Z := 16.
Definition DW_AT_decl_file : Z := 58.
Definition DW_AT_declaration : Z := 60.
Definition DW_AT_specification : Z := 71.

Definition DW_FORM_addr : Z := 1.
Definition DW_FORM_block2 : Z := 3.
Definition DW_FORM_block4 : Z := 4.
Definition DW_FORM_data2 : Z := 5.
Definition DW_FORM_data4 : Z := 6.
Definition DW_FORM_data8 : Z := 7.
Definition DW_FORM_string : Z := 8.
Definition DW_FORM_block1 : Z := 10.
Definition DW_FORM_data1 : Z := 11.
Definition DW_FORM_flag : Z := 12.
Definition DW_FORM_sdata : Z := 13.
Definition DW_FORM_strp : Z := 14.
Definition DW_FORM_udata : Z := 15.
Definition DW_FORM_ref_addr : Z := 16.
Definition DW_FORM_ref1 : Z := 17.
Definition DW_FORM_ref2 : Z := 18.
Definition DW_FORM_ref4 : Z := 19.
Definition DW_FORM_ref8 : Z := 20.
Definition DW_FORM_ref_udata : Z := 21.
Definition DW_FORM_indirect : Z := 22.
Definition DW_FORM_sec_offset : Z := 23.
Definition DW_FORM_exprloc : Z := 24.
Definition DW_FORM_flag_present : Z := 25.
Definition DW_FORM_ref_sig8 : Z := 32.

Definition INSN_MAX_SKIP : Z := 229.
Definition ATTRIB_BLOCK1 : Z := 230.
Definition ATTRIB_BLOCK2 : Z := 231.
Definition ATTRIB_BLOCK4 : Z := 232.
Definition ATTRIB_EXPRLOC : Z := 233.
Definition ATTRIB_LEB128 : Z := 234.
Definition ATTRIB_STRING : Z := 235.
Definition ATTRIB_SIBLING_REF1 : Z := 236.
Definition ATTRIB_SIBLING_REF2 : Z := 237.
Definition ATTRIB_SIBLING_REF4 : Z := 238.
Definition ATTRIB_SIBLING_REF8 : Z := 239.
Definition ATTRIB_SIBLING_REF_UDATA : Z := 240.
Definition ATTRIB_NAME_STRP4 : Z := 241.
Definition ATTRIB_NAME_STRP8 : Z := 242.
Definition ATTRIB_NAME_STRING : Z := 243.
Definition ATTRIB_STMT_LIST_LINEPTR4 : Z := 244.
Definition ATTRIB_STMT_LIST_LINEPTR8 : Z := 245.
Definition ATTRIB_DECL_FILE_DATA1 : Z := 246.
Definition ATTRIB_DECL_FILE_DATA2 : Z := 247.
Definition ATTRIB_DECL_FILE_DATA4 : Z := 248.
Definition ATTRIB_DECL_FILE_DATA8 : Z := 249.
Definition ATTRIB_DECL_FILE_UDATA : Z := 250.
Definition ATTRIB_SPECIFICATION_REF1 : Z := 251.
Definition ATTRIB_SPECIFICATION_REF2 : Z := 252.
Definition ATTRIB_SPECIFICATION_REF4 : Z := 253.
Definition ATTRIB_SPECIFICATION_REF8 : Z := 254.
Definition ATTRIB_SPECIFICATION_REF_UDATA : Z := 255.

Definition TAG_BITS : Z := 6.
Definition TAG_MASK : Z := Z.shiftl 1 TAG_BITS - 1.
Definition TAG_FLAG_DECLARATION : Z := 64.
Definition TAG_FLAG_CHILDREN : Z := 128.

(** The flags given to [drgn_dwarf_index_create]
    ([DRGN_DWARF_INDEX_TYPES] and the like, of [dwarf_index.h], which
    is not part of the sources at hand): which kinds of entries are to
    be indexed. *)
Record index_flags : Type := {
  index_types : bool;
  index_variables : bool;
  index_enumerators : bool;
  index_functions : bool;
}.

Definition is_type_tag (tag : Z) : bool :=
  (tag =? DW_TAG_base_type) || (tag =? DW_TAG_class_type)
  || (tag =? DW_TAG_enumeration_type) || (tag =? DW_TAG_structure_type)
  || (tag =? DW_TAG_typedef) || (tag =? DW_TAG_union_type).

(** ** Compiling abbreviation tables

    Allocation is taken to fail only where the index itself grows
    ([append_die_entry] and the insertion into the name map, above) and
    where [read_cus] resizes the array of units: the arrays of the
    abbreviation and file name tables are lists that grow as needed. *)

(** [struct compilation_unit].  [cu_ptr] is the offset of the unit in
    [.debug_info]. *)
Record compilation_unit : Type := {
  cu_file : file_id;
  cu_ptr : Z;
  unit_length : Z;
  version : Z;
  debug_abbrev_offset : Z;
  address_size : Z;
  is_64_bit : bool;
}.

(** [(cu->is_64_bit ? 12 : 4) + cu->unit_length], a sum of [uint64_t]:
    the number of bytes by which [read_cus] moves on from the unit, and
    the end of the unit for [index_cu]. *)
Definition unit_size (cu : compilation_unit) : Z :=
  u64 ((if is_64_bit cu then 12 else 4) + unit_length cu).

(** [struct abbrev_table]: [decls] gives for each abbreviation code,
    less one, where its instructions start in [insns]. *)
Record abbrev_table : Type := {
  decls : list Z;
  insns : list Z;
}.

(** [should_index] of [read_abbrev_decl]. *)
Definition should_index (flags : index_flags) (tag : Z) : bool :=
  (index_types flags && is_type_tag tag)
  || (index_variables flags && (tag =? DW_TAG_variable))
  || (index_enumerators flags && (tag =? DW_TAG_enumerator))
  || (index_functions flags && (tag =? DW_TAG_subprogram)).

Definition form_in (form : Z) (forms : list Z) : bool :=
  bool_decide (form ∈ forms).

(** The instruction of an attribute that the index keeps: what the
    [if]/[else if] chain of [read_abbrev_decl] selects before it jumps
    to [append_insn], [None] when it falls through to the [switch] on
    the form alone. *)
Definition kept_attribute_insn (flags : index_flags) (cu : compilation_unit)
    (has_debug_line : bool) (tag : Z) (indexed : bool) (name form : Z)
  : option Z :=
  if (name =? DW_AT_sibling)
     && negb (index_enumerators flags && (tag =? DW_TAG_enumeration_type))
  then
    if form =? DW_FORM_ref1 then Some ATTRIB_SIBLING_REF1
    else if form =? DW_FORM_ref2 then Some ATTRIB_SIBLING_REF2
    else if form =? DW_FORM_ref4 then Some ATTRIB_SIBLING_REF4
    else if form =? DW_FORM_ref8 then Some ATTRIB_SIBLING_REF8
    else if form =? DW_FORM_ref_udata then Some ATTRIB_SIBLING_REF_UDATA
    else None
  else if (name =? DW_AT_name) && indexed then
    if form =? DW_FORM_strp then
      Some (if is_64_bit cu then ATTRIB_NAME_STRP8 else ATTRIB_NAME_STRP4)
    else if form =? DW_FORM_string then Some ATTRIB_NAME_STRING
    else None
  else if (name =? DW_AT_stmt_list) && (tag =? DW_TAG_compile_unit)
          && has_debug_line
  then
    if form =? DW_FORM_data4 then Some ATTRIB_STMT_LIST_LINEPTR4
    else if form =? DW_FORM_data8 then Some ATTRIB_STMT_LIST_LINEPTR8
    else if form =? DW_FORM_sec_offset then
      Some (if is_64_bit cu then ATTRIB_STMT_LIST_LINEPTR8
            else ATTRIB_STMT_LIST_LINEPTR4)
    else None
  else if (name =? DW_AT_decl_file) && indexed then
    if form =? DW_FORM_data1 then Some ATTRIB_DECL_FILE_DATA1
    else if form =? DW_FORM_data2 then Some ATTRIB_DECL_FILE_DATA2
    else if form =? DW_FORM_data4 then Some ATTRIB_DECL_FILE_DATA4
    else if form =? DW_FORM_data8 then Some ATTRIB_DECL_FILE_DATA8
    else if form_in form [DW_FORM_sdata; DW_FORM_udata] then
      Some ATTRIB_DECL_FILE_UDATA
    else None
  else if name =? DW_AT_declaration then None
  else if (name =? DW_AT_specification) && indexed then
    if form =? DW_FORM_ref1 then Some ATTRIB_SPECIFICATION_REF1
    else if form =? DW_FORM_ref2 then Some ATTRIB_SPECIFICATION_REF2
    else if form =? DW_FORM_ref4 then Some ATTRIB_SPECIFICATION_REF4
    else if form =? DW_FORM_ref8 then Some ATTRIB_SPECIFICATION_REF8
    else if form =? DW_FORM_ref_udata then Some ATTRIB_SPECIFICATION_REF_UDATA
    else None
  else None.

(** What the [switch] on the form decides for an attribute that is
    only skipped. *)
Inductive form_insn : Type :=
  | SkipBytes (insn : Z)    (* [break]: a number of bytes, merged with
                               the instruction before where possible *)
  | AppendInsn (insn : Z)   (* [goto append_insn] *)
  | NoInsn                  (* [continue] *)
  | FormError.              (* [return] of an error *)

Definition skipped_attribute_insn (cu : compilation_unit) (form : Z)
  : form_insn :=
  if form =? DW_FORM_addr then SkipBytes (address_size cu)
  else if form_in form [DW_FORM_data1; DW_FORM_ref1; DW_FORM_flag]
  then SkipBytes 1
  else if form_in form [DW_FORM_data2; DW_FORM_ref2] then SkipBytes 2
  else if form_in form [DW_FORM_data4; DW_FORM_ref4] then SkipBytes 4
  else if form_in form [DW_FORM_data8; DW_FORM_ref8; DW_FORM_ref_sig8]
  then SkipBytes 8
  else if form =? DW_FORM_block1 then AppendInsn ATTRIB_BLOCK1
  else if form =? DW_FORM_block2 then AppendInsn ATTRIB_BLOCK2
  else if form =? DW_FORM_block4 then AppendInsn ATTRIB_BLOCK4
  else if form =? DW_FORM_exprloc then AppendInsn ATTRIB_EXPRLOC
  else if form_in form [DW_FORM_sdata; DW_FORM_udata; DW_FORM_ref_udata]
  then AppendInsn ATTRIB_LEB128
  else if form_in form [DW_FORM_ref_addr; DW_FORM_sec_offset; DW_FORM_strp]
  then SkipBytes (if is_64_bit cu then 8 else 4)
  else if form =? DW_FORM_string then AppendInsn ATTRIB_STRING
  else if form =? DW_FORM_flag_present then NoInsn
  else FormError.

(** The merging of skips: with [insn] bytes to skip after the
    instructions [insns] (of which [first] says that none belongs to
    this declaration), the instructions that result. *)
Definition merge_skip (first : bool) (insns : list Z) (insn : Z) : list Z :=
  match last insns with
  | Some before =>
      if negb first && (before <? INSN_MAX_SKIP) then
        if before + insn <=? INSN_MAX_SKIP then
          <[pred (length insns) := u8 (before + insn)]> insns
        else
          <[pred (length insns) := INSN_MAX_SKIP]> insns
          ++ [u8 (before + insn - INSN_MAX_SKIP)]
      else insns ++ [insn]
  | None => insns ++ [insn]
  end.

(** The loop over the attributes of [read_abbrev_decl]: the pointer
    behind the attributes, the instructions and the flags of the DIE. *)
Fixpoint read_abbrev_attribs (fuel : nat) (flags : index_flags)
    (cu : compilation_unit) (has_debug_line : bool) (tag : Z) (indexed : bool)
    (buf : bytes) (ptr end_ : Z) (first : bool) (insns : list Z)
    (die_flags : Z) : res (Z * list Z * Z) :=
  match fuel with
  | O => Timeout
  | S fuel' =>
      '(name, ptr) ← read_uleb128 buf ptr end_;
      '(form, ptr) ← read_uleb128 buf ptr end_;
      if (name =? 0) && (form =? 0) then Ok (ptr, insns, die_flags)
      else
        let continue first insns die_flags :=
          read_abbrev_attribs fuel' flags cu has_debug_line tag indexed
            buf ptr end_ first insns die_flags in
        match kept_attribute_insn flags cu has_debug_line tag indexed
                name form with
        | Some insn => continue false (insns ++ [insn]) die_flags
        | None =>
            let die_flags :=
              if name =? DW_AT_declaration
              then Z.lor die_flags TAG_FLAG_DECLARATION else die_flags in
            match skipped_attribute_insn cu form with
            | SkipBytes insn =>
                continue false (merge_skip first insns insn) die_flags
            | AppendInsn insn => continue false (insns ++ [insn]) die_flags
            | NoInsn => continue first insns die_flags
            | FormError => Err DRGN_ERROR_DWARF_FORMAT
            end
        end
  end.

(** [read_abbrev_decl]: [None] stands for the end of the table (the
    result [-1] of the C function). *)
Definition read_abbrev_decl (flags : index_flags) (cu : compilation_unit)
    (has_debug_line : bool) (buf : bytes) (ptr end_ : Z) (table : abbrev_table)
  : res (option (Z * abbrev_table)) :=
  '(code, ptr) ← read_uleb128 buf ptr end_;
  if code =? 0 then Ok None
  else if negb (code =? Z.of_nat (length (decls table)) + 1)
  then Err DRGN_ERROR_DWARF_FORMAT
  else
    let decls := decls table ++ [u32 (Z.of_nat (length (insns table)))] in
    '(tag, ptr) ← read_uleb128 buf ptr end_;
    let indexed := should_index flags tag in
    let die_flags :=
      if indexed || (tag =? DW_TAG_compile_unit)
         || (index_enumerators flags && (tag =? DW_TAG_enumeration_type))
      then u8 tag else 0 in
    match read_uint 1 false buf ptr end_ with
    | None => drgn_eof
    | Some (children, ptr) =>
        let die_flags :=
          if children =? 0 then die_flags
          else Z.lor die_flags TAG_FLAG_CHILDREN in
        '(ptr, insns, die_flags) ←
          read_abbrev_attribs (S (Z.to_nat (end_ - ptr))) flags cu
            has_debug_line tag indexed buf ptr end_ true (insns table)
            die_flags;
        Ok (Some (ptr, {| decls := decls; insns := insns ++ [0; die_flags] |}))
    end.

Fixpoint read_abbrev_table_loop (fuel : nat) (flags : index_flags)
    (cu : compilation_unit) (has_debug_line : bool) (buf : bytes)
    (ptr end_ : Z) (table : abbrev_table) : res abbrev_table :=
  match fuel with
  | O => Timeout
  | S fuel' =>
      r ← read_abbrev_decl flags cu has_debug_line buf ptr end_ table;
      match r with
      | None => Ok table
      | Some (ptr, table) =>
          read_abbrev_table_loop fuel' flags cu has_debug_line buf ptr end_
            table
      end
  end.

(** [read_abbrev_table].  Every declaration takes at least one byte. *)
Definition read_abbrev_table (flags : index_flags) (cu : compilation_unit)
    (has_debug_line : bool) (buf : bytes) (ptr end_ : Z) : res abbrev_table :=
  read_abbrev_table_loop (S (Z.to_nat (end_ - ptr))) flags cu has_debug_line
    buf ptr end_ {| decls := []; insns := [] |}.

(** ** Reading a DIE *)

(** A pointer to a name: into [.debug_info], where a [DW_FORM_string]
    lies, or into [.debug_str]. *)
Inductive name_ptr : Type :=
  | InDebugInfo (at_ : Z)
  | InDebugStr (at_ : Z).

(** [struct die]; a pointer that may be [NULL] is an option. *)
Record die : Type := {
  die_sibling : option Z;
  die_name : option name_ptr;
  die_stmt_list : Z;
  die_decl_file : Z;
  die_specification : option Z;
  die_flags : Z;
}.

Definition set_sibling (d : die) (p : Z) : die :=
  {| die_sibling := Some p; die_name := die_name d;
     die_stmt_list := die_stmt_list d; die_decl_file := die_decl_file d;
     die_specification := die_specification d; die_flags := die_flags d |}.
Definition set_name (d : die) (p : name_ptr) : die :=
  {| die_sibling := die_sibling d; die_name := Some p;
     die_stmt_list := die_stmt_list d; die_decl_file := die_decl_file d;
     die_specification := die_specification d; die_flags := die_flags d |}.
Definition set_stmt_list (d : die) (v : Z) : die :=
  {| die_sibling := die_sibling d; die_name := die_name d;
     die_stmt_list := v; die_decl_file := die_decl_file d;
     die_specification := die_specification d; die_flags := die_flags d |}.
Definition set_decl_file (d : die) (v : Z) : die :=
  {| die_sibling := die_sibling d; die_name := die_name d;
     die_stmt_list := die_stmt_list d; die_decl_file := v;
     die_specification := die_specification d; die_flags := die_flags d |}.
Definition set_specification (d : die) (p : Z) : die :=
  {| die_sibling := die_sibling d; die_name := die_name d;
     die_stmt_list := die_stmt_list d; die_decl_file := die_decl_file d;
     die_specification := Some p; die_flags := die_flags d |}.
Definition set_flags (d : die) (v : Z) : die :=
  {| die_sibling := die_sibling d; die_name := die_name d;
     die_stmt_list := die_stmt_list d; die_decl_file := die_decl_file d;
     die_specification := die_specification d; die_flags := v |}.

(** The operand of an instruction that reads a number, as
    [read_u8_into_size_t] and the like do, or a LEB128. *)
Inductive operand_form : Type :=
  | Fixed (n : nat)
  | Uleb128.

Definition read_operand (form : operand_form) (bswap : bool) (buf : bytes)
    (ptr end_ : Z) : res (Z * Z) :=
  match form with
  | Fixed n =>
      match read_uint n bswap buf ptr end_ with
      | Some r => Ok r
      | None => drgn_eof
      end
  | Uleb128 => read_uleb128 buf ptr end_
  end.

(** What an instruction does with the number it reads. *)
Inductive insn_action : Type :=
  | Skip          (* a block: that many bytes are skipped *)
  | Sibling
  | NameStrp
  | StmtList
  | DeclFile
  | Specification.

(** The instructions with an operand: the cases of the [switch] of
    [read_die] that read a number. *)
Definition decode_insn (insn : Z) : option (operand_form * insn_action) :=
  if insn =? ATTRIB_BLOCK1 then Some (Fixed 1, Skip)
  else if insn =? ATTRIB_BLOCK2 then Some (Fixed 2, Skip)
  else if insn =? ATTRIB_BLOCK4 then Some (Fixed 4, Skip)
  else if insn =? ATTRIB_EXPRLOC then Some (Uleb128, Skip)
  else if insn =? ATTRIB_SIBLING_REF1 then Some (Fixed 1, Sibling)
  else if insn =? ATTRIB_SIBLING_REF2 then Some (Fixed 2, Sibling)
  else if insn =? ATTRIB_SIBLING_REF4 then Some (Fixed 4, Sibling)
  else if insn =? ATTRIB_SIBLING_REF8 then Some (Fixed 8, Sibling)
  else if insn =? ATTRIB_SIBLING_REF_UDATA then Some (Uleb128, Sibling)
  else if insn =? ATTRIB_NAME_STRP4 then Some (Fixed 4, NameStrp)
  else if insn =? ATTRIB_NAME_STRP8 then Some (Fixed 8, NameStrp)
  else if insn =? ATTRIB_STMT_LIST_LINEPTR4 then Some (Fixed 4, StmtList)
  else if insn =? ATTRIB_STMT_LIST_LINEPTR8 then Some (Fixed 8, StmtList)
  else if insn =? ATTRIB_DECL_FILE_DATA1 then Some (Fixed 1, DeclFile)
  else if insn =? ATTRIB_DECL_FILE_DATA2 then Some (Fixed 2, DeclFile)
  else if insn =? ATTRIB_DECL_FILE_DATA4 then Some (Fixed 4, DeclFile)
  else if insn =? ATTRIB_DECL_FILE_DATA8 then Some (Fixed 8, DeclFile)
  else if insn =? ATTRIB_DECL_FILE_UDATA then Some (Uleb128, DeclFile)
  else if insn =? ATTRIB_SPECIFICATION_REF1 then Some (Fixed 1, Specification)
  else if insn =? ATTRIB_SPECIFICATION_REF2 then Some (Fixed 2, Specification)
  else if insn =? ATTRIB_SPECIFICATION_REF4 then Some (Fixed 4, Specification)
  else if insn =? ATTRIB_SPECIFICATION_REF8 then Some (Fixed 8, Specification)
  else if insn =? ATTRIB_SPECIFICATION_REF_UDATA
  then Some (Uleb128, Specification)
  else None.

(** The loop [while ((insn = *insnp++))] of [read_die] over the
    instructions from [insnp] on, and the flags that follow the
    instruction 0. *)
Fixpoint read_die_insns (insnp : list Z) (cu : compilation_unit)
    (bswap : bool) (info : bytes) (ptr end_ : Z) (debug_str_size : Z)
    (d : die) : res (die * Z) :=
  match insnp with
  | [] => Undef
  | insn :: insnp =>
      let continue d ptr :=
        read_die_insns insnp cu bswap info ptr end_ debug_str_size d in
      if insn =? 0 then
        match insnp with
        | [] => Undef
        | flags :: _ => Ok (set_flags d flags, ptr)
        end
      else if insn =? ATTRIB_LEB128 then
        match skip_leb128 info ptr end_ with
        | None => drgn_eof
        | Some ptr => continue d ptr
        end
      else if (insn =? ATTRIB_NAME_STRING) || (insn =? ATTRIB_STRING) then
        let d :=
          if insn =? ATTRIB_NAME_STRING then set_name d (InDebugInfo ptr)
          else d in
        match skip_string info ptr end_ with
        | None => drgn_eof
        | Some ptr => continue d ptr
        end
      else
        match decode_insn insn with
        | Some (form, action) =>
            '(tmp, ptr) ← read_operand form bswap info ptr end_;
            match action with
            | Skip =>
                if read_in_bounds ptr end_ tmp then continue d (ptr + tmp)
                else drgn_eof
            | Sibling =>
                if read_in_bounds (cu_ptr cu) end_ tmp
                then continue (set_sibling d (cu_ptr cu + tmp)) ptr
                else drgn_eof
            | NameStrp =>
                if read_in_bounds 0 debug_str_size tmp
                then continue (set_name d (InDebugStr tmp)) ptr
                else drgn_eof
            | StmtList => continue (set_stmt_list d tmp) ptr
            | DeclFile => continue (set_decl_file d tmp) ptr
            | Specification =>
                if read_in_bounds (cu_ptr cu) end_ tmp
                then continue (set_specification d (cu_ptr cu + tmp)) ptr
                else drgn_eof
            end
        | None =>
            if read_in_bounds ptr end_ insn then continue d (ptr + insn)
            else drgn_eof
        end
  end.

(** What [read_die] finds: the null DIE that ends a list of children
    (the result [-1] of the C function) or a DIE; in both cases the
    pointer has moved behind what was read. *)
Inductive die_read : Type :=
  | NullDie (ptr : Z)
  | ReadDie (d : die) (ptr : Z).

(** [read_die], with the DIE as the caller initialised it. *)
Definition read_die (cu : compilation_unit) (table : abbrev_table)
    (bswap : bool) (info : bytes) (ptr end_ : Z) (debug_str_size : Z)
    (d : die) : res die_read :=
  '(code, ptr) ← read_uleb128 info ptr end_;
  if code =? 0 then Ok (NullDie ptr)
  else if (code <? 1) || (code >? Z.of_nat (length (decls table)))
  then Err DRGN_ERROR_DWARF_FORMAT
  else
    match decls table !! Z.to_nat (code - 1) with
    | None => Undef
    | Some start =>
        '(d, ptr) ← read_die_insns (drop (Z.to_nat start) (insns table)) cu
                      bswap info ptr end_ debug_str_size d;
        Ok (ReadDie d ptr)
    end.

(** [struct die die = { .stmt_list = SIZE_MAX }] and
    [struct die decl = {}]. *)
Definition fresh_die : die :=
  {| die_sibling := None; die_name := None; die_stmt_list := SIZE_MAX;
     die_decl_file := 0; die_specification := None; die_flags := 0 |}.
Definition zero_die : die :=
  {| die_sibling := None; die_name := None; die_stmt_list := 0;
     die_decl_file := 0; die_specification := None; die_flags := 0 |}.

(** ** File name tables *)

(** The hash functions, which are not part of the sources at hand
    ([hash_table.h], [siphash.h], [path.c]): [name_hash] is the first
    component of [die_map_hash] of a name, [siphash] the result of
    [siphash_final] for the bytes given to [siphash_update] under the
    fixed key, and [path_components] the components that
    [path_iterator_next] gives for a path, in its order. *)
Record hashing : Type := {
  name_hash : string -> Z;
  siphash : string -> Z;
  path_components : string -> list string;
}.

(** [skip_lnp_header]. *)
Definition skip_lnp_header (bswap : bool) (buf : bytes) (ptr end_ : Z)
  : res Z :=
  match read_uint 4 bswap buf ptr end_ with
  | None => drgn_eof
  | Some (tmp, ptr) =>
      let is_64 := tmp =? 4294967295 in
      let ptr := if is_64 then ptr + 8 else ptr in
      match read_uint 2 bswap buf ptr end_ with
      | None => drgn_eof
      | Some (version, ptr) =>
          if negb (form_in version [2; 3; 4]) then Err DRGN_ERROR_DWARF_FORMAT
          else
            let ptr := ptr + (if is_64 then 8 else 4) + 4
                       + (if version >=? 4 then 1 else 0) in
            match read_uint 1 bswap buf ptr end_ with
            | None => drgn_eof
            | Some (opcode_base, ptr) => Ok (ptr + (opcode_base - 1))
            end
      end
  end.

(** [hash_directory]: what it feeds to the hash. *)
Definition hash_directory (ext : hashing) (path : string) : string :=
  foldr (fun component rest => component +:+ "/" +:+ rest) EmptyString
    (path_components ext path).

(** The first loop of [read_file_name_table]: the directories, each as
    the input its hash has taken. *)
Fixpoint read_directories (fuel : nat) (ext : hashing) (buf : bytes)
    (ptr end_ : Z) (directories : list string) : res (list string * Z) :=
  match fuel with
  | O => Timeout
  | S fuel' =>
      match read_string buf ptr end_ with
      | None => drgn_eof
      | Some (path_len, next_ptr) =>
          if path_len =? 0 then Ok (directories, next_ptr)
          else
            read_directories fuel' ext buf next_ptr end_
              (directories
               ++ [hash_directory ext (string_at buf ptr path_len)])
      end
  end.

(** The second loop: the files.  [files_capacity] starts from 0 at each
    call, also when the table holds hashes already; the slot
    [num_files] written after the array was resized to the new capacity
    then lies outside of it. *)
Fixpoint read_file_names (fuel : nat) (ext : hashing) (buf : bytes)
    (ptr end_ : Z) (directories : list string) (file_name_hashes : list Z)
    (files_capacity : Z) : res (list Z) :=
  match fuel with
  | O => Timeout
  | S fuel' =>
      match read_string buf ptr end_ with
      | None => drgn_eof
      | Some (path_len, next_ptr) =>
          if path_len =? 0 then Ok file_name_hashes
          else
            '(directory_index, next_ptr) ← read_uleb128 buf next_ptr end_;
            match skip_leb128 buf next_ptr end_ ≫= fun p => skip_leb128 buf p end_ with
            | None => drgn_eof
            | Some next_ptr =>
                if directory_index >? Z.of_nat (length directories)
                then Err DRGN_ERROR_DWARF_FORMAT
                else
                  let prefix :=
                    if directory_index =? 0 then EmptyString
                    else default EmptyString
                           (directories !! Z.to_nat (directory_index - 1)) in
                  let hash :=
                    siphash ext (prefix +:+ string_at buf ptr path_len) in
                  let num_files := Z.of_nat (length file_name_hashes) in
                  let files_capacity :=
                    if num_files >=? files_capacity then
                      if files_capacity =? 0 then 16 else 2 * files_capacity
                    else files_capacity in
                  if num_files >=? files_capacity then Undef
                  else
                    read_file_names fuel' ext buf next_ptr end_ directories
                      (file_name_hashes ++ [hash]) files_capacity
            end
      end
  end.

(** [read_file_name_table], for the [.debug_line] section [buf]. *)
Definition read_file_name_table (ext : hashing) (bswap : bool) (buf : bytes)
    (stmt_list : Z) (file_name_hashes : list Z) : res (list Z) :=
  let end_ := d_size buf in
  ptr ← skip_lnp_header bswap buf stmt_list end_;
  '(directories, ptr) ←
    read_directories (S (Z.to_nat (end_ - ptr))) ext buf ptr end_ [];
  read_file_names (S (Z.to_nat (end_ - ptr))) ext buf ptr end_ directories
    file_name_hashes 0.

(** ** Files and the index *)

(** [struct debug_file], without what belongs to libelf and the file
    system.  [d_buf] is the address at which the buffer of a section
    lies, [symtab_syms] and the lists of [rela_sections] are the typed
    views of the buffers of these sections; [dwarf_handle] says whether
    [file->dwarf] was set up. *)
Record debug_file : Type := {
  sections : section_id -> option (list Z);
  d_buf : section_id -> Z;
  symtab_syms : list Elf64_Sym;
  rela_sections : section_id -> option (list Elf64_Rela);
  bswap : bool;
  failed : bool;
  dwarf_handle : bool;
}.

Definition set_section (df : debug_file) (i : section_id) (data : bytes)
  : debug_file :=
  {| sections := fun j => if decide (j = i) then Some data else sections df j;
     d_buf := d_buf df;
     symtab_syms := symtab_syms df; rela_sections := rela_sections df;
     bswap := bswap df; failed := failed df;
     dwarf_handle := dwarf_handle df |}.

Definition set_failed (df : debug_file) : debug_file :=
  {| sections := sections df; d_buf := d_buf df;
     symtab_syms := symtab_syms df;
     rela_sections := rela_sections df; bswap := bswap df; failed := true;
     dwarf_handle := dwarf_handle df |}.

Definition set_dwarf_handle (df : debug_file) : debug_file :=
  {| sections := sections df; d_buf := d_buf df;
     symtab_syms := symtab_syms df;
     rela_sections := rela_sections df; bswap := bswap df;
     failed := failed df; dwarf_handle := true |}.

(** [struct drgn_dwarf_index], with the memory it works in.  [objects]
    holds the file objects that are allocated, by their identity: a
    pointer to a file that was freed finds nothing there.  [opened] and
    [indexed] are the two lists of files, [allocator] says which of the
    allocations to come fail. *)
Record drgn_dwarf_index : Type := {
  index_flags_of : index_flags;
  objects : gmap nat debug_file;
  next_object : nat;
  opened : list file_id;
  indexed : list file_id;
  shards : list dwarf_index_shard;
  allocator : heap;
}.

Definition NUM_SHARDS : nat := 256.

(** The index that [drgn_dwarf_index_create] returns when its own
    allocations succeed. *)
Definition drgn_dwarf_index_create (flags : index_flags) (h : heap)
  : drgn_dwarf_index :=
  {| index_flags_of := flags; objects := ∅; next_object := 0;
     opened := []; indexed := [];
     shards := replicate NUM_SHARDS empty_shard; allocator := h |}.

Definition with_objects (dindex : drgn_dwarf_index)
    (objs : gmap nat debug_file) : drgn_dwarf_index :=
  {| index_flags_of := index_flags_of dindex; objects := objs;
     next_object := next_object dindex; opened := opened dindex;
     indexed := indexed dindex; shards := shards dindex;
     allocator := allocator dindex |}.

Definition with_lists (dindex : drgn_dwarf_index)
    (opened_files indexed_files : list file_id) : drgn_dwarf_index :=
  {| index_flags_of := index_flags_of dindex; objects := objects dindex;
     next_object := next_object dindex; opened := opened_files;
     indexed := indexed_files; shards := shards dindex;
     allocator := allocator dindex |}.

Definition with_shards (dindex : drgn_dwarf_index)
    (shs : list dwarf_index_shard) (h : heap) : drgn_dwarf_index :=
  {| index_flags_of := index_flags_of dindex; objects := objects dindex;
     next_object := next_object dindex; opened := opened dindex;
     indexed := indexed dindex; shards := shs; allocator := h |}.

(** [drgn_dwarf_index_open_elf] for an ELF handle whose sections
    [read_sections] (which rests on libelf) has read into [df]: the new
    file object is put at the end of the list of opened files. *)
Definition drgn_dwarf_index_open_elf (dindex : drgn_dwarf_index)
    (df : debug_file) : drgn_dwarf_index * file_id :=
  let f := next_object dindex in
  ({| index_flags_of := index_flags_of dindex;
      objects := <[f := df]> (objects dindex);
      next_object := S f;
      opened := opened dindex ++ [f];
      indexed := indexed dindex;
      shards := shards dindex;
      allocator := allocator dindex |}, f).

(** [hash_pair_to_shard]. *)
Definition hash_pair_to_shard (first : Z) : Z :=
  Z.land (Z.shiftr first (8 * 8 - 8 - SHARD_BITS)) (Z.shiftl 1 SHARD_BITS - 1).

(** [index_die]. *)
Definition index_die (ext : hashing) (dindex : drgn_dwarf_index)
    (name : string) (tag file_name_hash : Z) (file : file_id) (offset : Z)
  : result drgn_dwarf_index unit :=
  let i := Z.to_nat (hash_pair_to_shard (name_hash ext name)) in
  match shards dindex !! i with
  | None => (dindex, Undef)
  | Some shard =>
      let '(h, (shard, r)) :=
        index_die_locked (allocator dindex) shard name tag file_name_hash
          file offset in
      (with_shards dindex (<[i := shard]> (shards dindex)) h, r)
  end.

(** ** Walking a compilation unit *)

(** A call of [index_die] by [index_cu]. *)
Record index_call : Type := {
  call_name : string;
  call_tag : Z;
  call_file_name_hash : Z;
  call_offset : Z;
}.

(** A DIE that the walk has read: where it starts, the depth at which
    it was read, its flags and the call of [index_die] made for it, if
    one was made. *)
Record visit : Type := {
  visit_offset : Z;
  visit_depth : Z;
  visit_flags : Z;
  visit_call : option index_call;
}.

(** The variables of the loop of [index_cu], the index it fills, and
    the DIEs it has read so far. *)
Record walk : Type := {
  walk_ptr : Z;
  depth : Z;
  enum_die_offset : Z;
  file_name_hashes : list Z;
  walk_index : drgn_dwarf_index;
  visits : list visit;
}.

Definition die_tag (d : die) : Z := Z.land (die_flags d) TAG_MASK.
Definition has_flag (flags flag : Z) : bool := negb (Z.land flags flag =? 0).

(** The three-way choice of [index_cu] for a DIE that is neither a
    compile unit nor a declaration: the new [enum_die_offset] and the
    offset under which the DIE is indexed, or [None] for [goto next]. *)
Definition placement (depth tag die_offset enum_die_offset : Z)
  : option (Z * Z) :=
  if (depth =? 1) && (tag =? DW_TAG_enumeration_type)
  then Some (die_offset, die_offset)
  else if (depth =? 2) && (tag =? DW_TAG_enumerator)
          && negb (enum_die_offset =? 0)
  then Some (enum_die_offset, enum_die_offset)
  else if negb (depth =? 1) then None
  else Some (enum_die_offset, die_offset).

(** [strlen] of a name. *)
Definition name_at (df : debug_file) (name : name_ptr) : option string :=
  match name with
  | InDebugInfo p => sections df SECTION_DEBUG_INFO ≫= fun buf => c_string_at buf p
  | InDebugStr p => sections df SECTION_DEBUG_STR ≫= fun buf => c_string_at buf p
  end.

(** The part of [index_cu] that borrows the name and the file of a
    DIE from the declaration its [DW_AT_specification] refers to. *)
Definition borrow_from_specification (cu : compilation_unit)
    (table : abbrev_table) (df : debug_file) (info : bytes) (end_ : Z)
    (debug_str_size : Z) (d : die) : res die :=
  match die_specification d with
  | Some decl_ptr =>
      if match die_name d with None => true | Some _ => false end
         || (die_decl_file d =? 0)
      then
        r ← read_die cu table (bswap df) info decl_ptr end_ debug_str_size
              zero_die;
        match r with
        | NullDie _ => Undef
        | ReadDie decl _ =>
            let d :=
              match die_name d, die_name decl with
              | None, Some name => set_name d name
              | _, _ => d
              end in
            Ok (if (die_decl_file d =? 0) && negb (die_decl_file decl =? 0)
                then set_decl_file d (die_decl_file decl) else d)
        end
      else Ok d
  | None => Ok d
  end.

(** What one turn of the loop of [index_cu] does with the DIE [d] that
    it has read at [die_offset], up to the label [next]: the index, the
    file name table and [enum_die_offset] afterwards, and the call of
    [index_die] if one was made. *)
Definition index_read_die (ext : hashing) (df : debug_file)
    (cu : compilation_unit) (table : abbrev_table) (info : bytes) (end_ : Z)
    (debug_str_size : Z) (w : walk) (die_offset : Z) (d : die)
  : (drgn_dwarf_index * list Z * Z * option index_call) * res unit :=
  let unchanged :=
    (walk_index w, file_name_hashes w, enum_die_offset w, None) in
  let tag := die_tag d in
  if tag =? DW_TAG_compile_unit then
    if (depth w =? 0) && negb (die_stmt_list d =? SIZE_MAX) then
      match sections df SECTION_DEBUG_LINE with
      | None => (unchanged, Undef)
      | Some debug_line =>
          match read_file_name_table ext (bswap df) debug_line
                  (die_stmt_list d) (file_name_hashes w) with
          | Ok hashes =>
              ((walk_index w, hashes, enum_die_offset w, None), Ok tt)
          | Err e => (unchanged, Err e)
          | Undef => (unchanged, Undef)
          | Timeout => (unchanged, Timeout)
          end
      end
    else (unchanged, Ok tt)
  else if negb (tag =? 0) && negb (has_flag (die_flags d) TAG_FLAG_DECLARATION)
  then
    match placement (depth w) tag die_offset (enum_die_offset w) with
    | None => (unchanged, Ok tt)
    | Some (enum_offset, die_offset) =>
        let skipped :=
          (walk_index w, file_name_hashes w, enum_offset, None) in
        match borrow_from_specification cu table df info end_ debug_str_size d
        with
        | Ok d =>
            match die_name d with
            | None => (skipped, Ok tt)
            | Some name =>
                if die_decl_file d >? Z.of_nat (length (file_name_hashes w))
                then (skipped, Err DRGN_ERROR_DWARF_FORMAT)
                else
                  let hash :=
                    if die_decl_file d =? 0 then 0
                    else default 0 (file_name_hashes w
                                      !! Z.to_nat (die_decl_file d - 1)) in
                  match name_at df name with
                  | None => (skipped, Undef)
                  | Some name =>
                      let '(dindex, r) :=
                        index_die ext (walk_index w) name tag hash
                          (cu_file cu) die_offset in
                      ((dindex, file_name_hashes w, enum_offset,
                        Some {| call_name := name; call_tag := tag;
                                call_file_name_hash := hash;
                                call_offset := die_offset |}), r)
                  end
            end
        | Err e => (skipped, Err e)
        | Undef => (skipped, Undef)
        | Timeout => (skipped, Timeout)
        end
    end
  else (unchanged, Ok tt).

(** One turn of the loop [for (;;)] of [index_cu]: the variables
    afterwards, and the result of [index_cu] when the turn leaves the
    loop.  [depth] is an [unsigned int]. *)
Definition index_cu_step (ext : hashing) (df : debug_file)
    (cu : compilation_unit) (table : abbrev_table) (info : bytes) (end_ : Z)
    (debug_str_size : Z) (w : walk) : walk * option (res unit) :=
  match read_die cu table (bswap df) info (walk_ptr w) end_ debug_str_size
          fresh_die with
  | Ok (NullDie ptr) =>
      let depth := u32 (depth w - 1) in
      ({| walk_ptr := ptr; depth := depth;
          enum_die_offset := if depth =? 1 then 0 else enum_die_offset w;
          file_name_hashes := file_name_hashes w;
          walk_index := walk_index w; visits := visits w |},
       if negb (depth =? 1) && (depth =? 0) then Some (Ok tt) else None)
  | Ok (ReadDie d ptr) =>
      let '((dindex, hashes, enum_offset, call), r) :=
        index_read_die ext df cu table info end_ debug_str_size w
          (walk_ptr w) d in
      let v := {| visit_offset := walk_ptr w; visit_depth := depth w;
                  visit_flags := die_flags d; visit_call := call |} in
      let children := has_flag (die_flags d) TAG_FLAG_CHILDREN in
      let w' :=
        {| walk_ptr :=
             match die_sibling d with
             | Some sibling => if children then sibling else ptr
             | None => ptr
             end;
           depth :=
             match die_sibling d with
             | None => if children then u32 (depth w + 1) else depth w
             | Some _ => depth w
             end;
           enum_die_offset := enum_offset;
           file_name_hashes := hashes;
           walk_index := dindex;
           visits := visits w ++ [v] |} in
      match r with
      | Ok _ =>
          (w', if negb children && (depth w =? 0) then Some (Ok tt) else None)
      | Err e => (w', Some (Err e))
      | Undef => (w', Some Undef)
      | Timeout => (w', Some Timeout)
      end
  | Err e => (w, Some (Err e))
  | Undef => (w, Some Undef)
  | Timeout => (w, Some Timeout)
  end.

(** The loop of [index_cu].  A sibling reference may lead backwards, so
    the loop need not end: [fuel] bounds its turns. *)
Fixpoint index_cu_loop (fuel : nat) (ext : hashing) (df : debug_file)
    (cu : compilation_unit) (table : abbrev_table) (info : bytes) (end_ : Z)
    (debug_str_size : Z) (w : walk) : result walk unit :=
  match fuel with
  | O => (w, Timeout)
  | S fuel' =>
      match index_cu_step ext df cu table info end_ debug_str_size w with
      | (w, Some r) => (w, r)
      | (w, None) =>
          index_cu_loop fuel' ext df cu table info end_ debug_str_size w
      end
  end.

Definition start_walk (dindex : drgn_dwarf_index) (cu : compilation_unit)
  : walk :=
  {| walk_ptr := cu_ptr cu + (if is_64_bit cu then 23 else 11);
     depth := 0; enum_die_offset := 0; file_name_hashes := [];
     walk_index := dindex; visits := [] |}.

(** [index_cu].  For a unit that [read_cus] has read, [end_] lies in the
    section. *)
Definition index_cu (fuel : nat) (ext : hashing) (dindex : drgn_dwarf_index)
    (cu : compilation_unit) : result walk unit :=
  let w := start_walk dindex cu in
  match objects dindex !! cu_file cu with
  | None => (w, Undef)
  | Some df =>
      match sections df SECTION_DEBUG_ABBREV, sections df SECTION_DEBUG_INFO,
            sections df SECTION_DEBUG_STR with
      | Some debug_abbrev, Some debug_info, Some debug_str =>
          let end_ := cu_ptr cu + unit_size cu in
          match read_abbrev_table (index_flags_of dindex) cu
                  (bool_decide (is_Some (sections df SECTION_DEBUG_LINE)))
                  debug_abbrev (debug_abbrev_offset cu) (d_size debug_abbrev)
          with
          | Ok table =>
              index_cu_loop fuel ext df cu table debug_info end_
                (d_size debug_str) w
          | Err e => (w, Err e)
          | Undef => (w, Undef)
          | Timeout => (w, Timeout)
          end
      | _, _, _ => (w, Undef)
      end
  end.

(** [index_cus], one unit after the other, as a single thread runs
    the loop: after the first error the units that remain are passed
    over. *)
Fixpoint index_cus (fuel : nat) (ext : hashing) (dindex : drgn_dwarf_index)
    (cus : list compilation_unit) : result drgn_dwarf_index unit :=
  match cus with
  | [] => (dindex, Ok tt)
  | cu :: cus =>
      match index_cu fuel ext dindex cu with
      | (w, Ok _) => index_cus fuel ext (walk_index w) cus
      | (w, Err e) => (walk_index w, Err e)
      | (w, Undef) => (walk_index w, Undef)
      | (w, Timeout) => (walk_index w, Timeout)
      end
  end.

(** ** Updating the index *)

(** [read_compilation_unit_header]. *)
Definition read_compilation_unit_header (f : file_id) (swap : bool)
    (info : bytes) (ptr end_ : Z) : res compilation_unit :=
  let start := ptr in
  let read n p : res (Z * Z) :=
    match read_uint n swap info p end_ with
    | Some r => Ok r
    | None => drgn_eof
    end in
  '(tmp, ptr) ← read 4%nat ptr;
  let is_64 := tmp =? 4294967295 in
  '(length, ptr) ← (if is_64 then read 8%nat ptr else Ok (tmp, ptr));
  '(version, ptr) ← read 2%nat ptr;
  if negb (form_in version [2; 3; 4]) then Err DRGN_ERROR_DWARF_FORMAT
  else
    '(abbrev_offset, ptr) ← read (if is_64 then 8%nat else 4%nat) ptr;
    match read_uint 1 false info ptr end_ with
    | None => drgn_eof
    | Some (size, _) =>
        Ok {| cu_file := f; cu_ptr := start; unit_length := length;
              version := version; debug_abbrev_offset := abbrev_offset;
              address_size := size; is_64_bit := is_64 |}
    end.

(** The loop of [read_cus].  [cus] is the array of units, [num_cus] the
    length of the list; the array is resized when it is full, which the
    allocator may refuse.  [ptr += (cu->is_64_bit ? 12 : 4) +
    cu->unit_length] adds a 64-bit sum, which the file chooses, to the
    pointer: the pointer may pass the end of the section, which the
    test behind the loop answers with [drgn_eof()], and it may pass the
    end of the address space, [buf] being the address of the section;
    what the loop does then is left undefined.  A unit of size 0 is read
    again and again: [fuel] bounds the turns. *)
Fixpoint read_cus_loop (fuel : nat) (f : file_id) (swap : bool)
    (info : bytes) (buf ptr end_ : Z) (h : heap)
    (cus : list compilation_unit) (cus_capacity : Z)
  : result heap (list compilation_unit * Z) :=
  match fuel with
  | O => (h, Timeout)
  | S fuel' =>
      if ptr <? end_ then
        let '(grown, h) :=
          if Z.of_nat (length cus) >=? cus_capacity then
            let '(ok, h) := alloc h in
            (if ok
             then Some (if cus_capacity =? 0 then 1 else 2 * cus_capacity)
             else None, h)
          else (Some cus_capacity, h) in
        match grown with
        | None => (h, Err DRGN_ERROR_NO_MEMORY)
        | Some capacity =>
            match read_compilation_unit_header f swap info ptr end_ with
            | Ok cu =>
                let ptr := ptr + unit_size cu in
                if 2 ^ 64 <=? buf + ptr then (h, Undef)
                else
                  read_cus_loop fuel' f swap info buf ptr end_ h
                    (cus ++ [cu]) capacity
            | Err e => (h, Err e)
            | Undef => (h, Undef)
            | Timeout => (h, Timeout)
            end
        end
      else if ptr >? end_ then (h, drgn_eof)
      else (h, Ok (cus, cus_capacity))
  end.

(** [read_cus]: the units of the file are added to [cus]. *)
Definition read_cus (fuel : nat) (f : file_id) (df : debug_file) (h : heap)
    (cus : list compilation_unit) (cus_capacity : Z)
  : result heap (list compilation_unit * Z) :=
  match sections df SECTION_DEBUG_INFO with
  | None => (h, Undef)
  | Some info =>
      read_cus_loop fuel f (bswap df) info (d_buf df SECTION_DEBUG_INFO)
        0 (d_size info) h cus cus_capacity
  end.

(** The relocations of one section, in order, up to the first error. *)
Definition apply_section_relocations (section : bytes)
    (rela_section : list Elf64_Rela) (symtab : list Elf64_Sym)
  : result (list Z) unit :=
  foldl (fun '(section, r) i =>
           match r with
           | Ok _ => apply_relocation section rela_section symtab i
           | _ => (section, r)
           end)
        (section, Ok tt) (seq 0 (length rela_section)).

(** The relocations of one file, section after section. *)
Definition apply_file_relocations (df : debug_file) : result debug_file unit :=
  foldl (fun '(df, r) i =>
           match r, rela_sections df i with
           | Ok _, Some (reloc :: relocs) =>
               match sections df i with
               | None => (df, Undef)
               | Some section =>
                   let '(section, r) :=
                     apply_section_relocations section (reloc :: relocs)
                       (symtab_syms df) in
                   (set_section df i section, r)
               end
           | _, _ => (df, r)
           end)
        (df, Ok tt) all_sections.

(** [apply_relocations], as a single thread runs it: the relocations of
    the files in their order, up to the first error. *)
Fixpoint apply_relocations (objs : gmap nat debug_file) (files : list file_id)
  : result (gmap nat debug_file) unit :=
  match files with
  | [] => (objs, Ok tt)
  | f :: files =>
      match objs !! f with
      | None => (objs, Undef)
      | Some df =>
          match apply_file_relocations df with
          | (df, Ok _) => apply_relocations (<[f := df]> objs) files
          | (df, r) => (<[f := df]> objs, r)
          end
      end
  end.

(** The loop of [drgn_dwarf_index_update] that checks [.debug_str] and
    reads the units of every file. *)
Fixpoint read_all_cus (fuel : nat) (objs : gmap nat debug_file)
    (files : list file_id) (h : heap) (cus : list compilation_unit)
    (cus_capacity : Z) : result heap (list compilation_unit * Z) :=
  match files with
  | [] => (h, Ok (cus, cus_capacity))
  | f :: files =>
      match objs !! f ≫= fun df => pair df <$> sections df SECTION_DEBUG_STR with
      | None => (h, Undef)
      | Some (df, debug_str) =>
          if match last debug_str with
             | None => true
             | Some c => negb (c =? 0)
             end
          then (h, Err DRGN_ERROR_DWARF_FORMAT)
          else
            match read_cus fuel f df h cus cus_capacity with
            | (h, Ok (cus, cus_capacity)) =>
                read_all_cus fuel objs files h cus cus_capacity
            | r => r
            end
      end
  end.

(** [free_files]: the file objects are given back. *)
Definition free_files (dindex : drgn_dwarf_index) (files : list file_id)
  : drgn_dwarf_index :=
  with_objects dindex (foldr delete (objects dindex) files).

(** The loop of [unindex_files] that shrinks the array of a shard:
    [None] when it reads the file of an entry whose file object is not
    there any more. *)
Fixpoint shrink_entries (objs : gmap nat debug_file)
    (slots : list die_entry) (n : nat) : option nat :=
  match n with
  | O => Some O
  | S n' =>
      match slots !! n' ≫= fun entry => objs !! file entry with
      | None => None
      | Some df => if failed df then shrink_entries objs slots n' else Some n
      end
  end.

(** What [unindex_files] does to one shard. *)
Definition unindex_shard (objs : gmap nat debug_file)
    (shard : dwarf_index_shard) : option dwarf_index_shard :=
  n ← shrink_entries objs (entries shard) (Z.to_nat (num_entries shard));
  Some {| shard_map :=
            filter (fun kv => ¬ (Z.of_nat n <= kv.2)) (shard_map shard);
          entries := entries shard;
          num_entries := Z.of_nat n;
          entries_capacity := entries_capacity shard |}.

(** [unindex_files]. *)
Definition unindex_files (dindex : drgn_dwarf_index) (files : list file_id)
  : result drgn_dwarf_index unit :=
  let objs :=
    foldr (fun f objs => alter set_failed f objs) (objects dindex) files in
  let dindex := with_objects dindex objs in
  match mapM (unindex_shard objs) (shards dindex) with
  | Some shs => (with_shards dindex shs (allocator dindex), Ok tt)
  | None => (dindex, Undef)
  end.

(** [drgn_dwarf_index_update]. *)
Definition drgn_dwarf_index_update (fuel : nat) (ext : hashing)
    (dindex : drgn_dwarf_index) : result drgn_dwarf_index unit :=
  let first := opened dindex in
  let dindex := with_lists dindex [] (indexed dindex) in
  match first with
  | [] => (dindex, Ok tt)
  | _ :: _ =>
      match apply_relocations (objects dindex) first with
      | (objs, Ok _) =>
          let dindex := with_objects dindex objs in
          match read_all_cus fuel objs first (allocator dindex) [] 0 with
          | (h, Ok (cus, _)) =>
              let dindex := with_shards dindex (shards dindex) h in
              match index_cus fuel ext dindex cus with
              | (dindex, Ok _) =>
                  (with_lists dindex [] (indexed dindex ++ first), Ok tt)
              | (dindex, r) =>
                  match unindex_files dindex first with
                  | (dindex, Ok _) => (free_files dindex first, r)
                  | (dindex, _) => (dindex, Undef)
                  end
              end
          | (h, Err e) =>
              (free_files (with_shards dindex (shards dindex) h) first, Err e)
          | (h, Undef) => (with_shards dindex (shards dindex) h, Undef)
          | (h, Timeout) => (with_shards dindex (shards dindex) h, Timeout)
          end
      | (objs, r) => (free_files (with_objects dindex objs) first, r)
      end
  end.

(** ** Looking names up *)

(** [struct drgn_dwarf_index_iterator]. *)
Record drgn_dwarf_index_iterator : Type := {
  it_shard : Z;
  it_index : Z;
  any_name : bool;
  it_tags : list Z;
}.

(** The first shard from [i] on that has entries, for the loops of the
    iterator over the shards; the number of shards when there is
    none. *)
Definition next_shard_with_entries (shs : list dwarf_index_shard) (i : nat)
  : Z :=
  match list_find (fun shard => num_entries shard ≠ 0) (drop i shs) with
  | Some (k, _) => Z.of_nat (i + k)
  | None => Z.of_nat (length shs)
  end.

(** [drgn_dwarf_index_iterator_init]. *)
Definition drgn_dwarf_index_iterator_init (ext : hashing)
    (dindex : drgn_dwarf_index) (name : option string) (tags : list Z)
  : res drgn_dwarf_index_iterator :=
  match name with
  | Some name =>
      let i := hash_pair_to_shard (name_hash ext name) in
      match shards dindex !! Z.to_nat i with
      | None => Undef
      | Some shard =>
          Ok {| it_shard := i;
                it_index := default SIZE_MAX (shard_map shard !! name);
                any_name := false; it_tags := tags |}
      end
  | None =>
      Ok {| it_shard := next_shard_with_entries (shards dindex) 0;
            it_index := 0; any_name := true; it_tags := tags |}
  end.

(** [drgn_dwarf_index_iterator_matches_tag]. *)
Definition drgn_dwarf_index_iterator_matches_tag
    (it : drgn_dwarf_index_iterator) (entry : die_entry) : bool :=
  match it_tags it with
  | [] => true
  | tags => bool_decide (tag entry ∈ tags)
  end.

(** The two loops of [drgn_dwarf_index_iterator_next]: the entry they
    stop at; [DRGN_ERROR_STOP] stands for [drgn_stop]. *)
Fixpoint next_entry (fuel : nat) (dindex : drgn_dwarf_index)
    (it : drgn_dwarf_index_iterator)
  : res (drgn_dwarf_index_iterator * die_entry) :=
  match fuel with
  | O => Timeout
  | S fuel' =>
      if any_name it then
        if it_shard it >=? Z.of_nat (length (shards dindex))
        then Err DRGN_ERROR_STOP
        else
          match shards dindex !! Z.to_nat (it_shard it) with
          | None => Undef
          | Some shard =>
              match entries shard !! Z.to_nat (it_index it) with
              | None => Undef
              | Some entry =>
                  let it :=
                    if u64 (it_index it + 1) >=? num_entries shard then
                      {| it_shard :=
                           next_shard_with_entries (shards dindex)
                             (S (Z.to_nat (it_shard it)));
                         it_index := 0; any_name := true;
                         it_tags := it_tags it |}
                    else
                      {| it_shard := it_shard it;
                         it_index := u64 (it_index it + 1); any_name := true;
                         it_tags := it_tags it |} in
                  if drgn_dwarf_index_iterator_matches_tag it entry
                  then Ok (it, entry)
                  else next_entry fuel' dindex it
              end
          end
      else
        if it_index it =? SIZE_MAX then Err DRGN_ERROR_STOP
        else
          match shards dindex !! Z.to_nat (it_shard it)
                ≫= fun shard => entries shard !! Z.to_nat (it_index it) with
          | None => Undef
          | Some entry =>
              let it :=
                {| it_shard := it_shard it; it_index := next entry;
                   any_name := false; it_tags := it_tags it |} in
              if drgn_dwarf_index_iterator_matches_tag it entry
              then Ok (it, entry)
              else next_entry fuel' dindex it
          end
  end.

(** [drgn_dwarf_index_iterator_next].  The DIE it gives is the one at
    the offset of the entry in the file of the entry; reading the file
    object of an entry is undefined when the object was freed.  libdw
    is taken not to fail. *)
Definition drgn_dwarf_index_iterator_next (fuel : nat)
    (dindex : drgn_dwarf_index) (it : drgn_dwarf_index_iterator)
  : result (drgn_dwarf_index * drgn_dwarf_index_iterator) (file_id * Z) :=
  match next_entry fuel dindex it with
  | Ok (it, entry) =>
      match objects dindex !! file entry with
      | None => ((dindex, it), Undef)
      | Some df =>
          ((with_objects dindex
              (<[file entry := set_dwarf_handle df]> (objects dindex)), it),
           Ok (file entry, offset entry))
      end
  | Err e => ((dindex, it), Err e)
  | Undef => ((dindex, it), Undef)
  | Timeout => ((dindex, it), Timeout)
  end.

(** The entries that the lookup of a name reaches: the results of
    [drgn_dwarf_index_iterator_next] until it stops, at most [n] of
    them, and how the lookup ends ([Err DRGN_ERROR_STOP] is its regular
    end). *)
Fixpoint lookup_all (n : nat) (fuel : nat) (dindex : drgn_dwarf_index)
    (it : drgn_dwarf_index_iterator) : list (file_id * Z) * res unit :=
  match n with
  | O => ([], Timeout)
  | S n' =>
      match drgn_dwarf_index_iterator_next fuel dindex it with
      | ((dindex, it), Ok found) =>
          let '(rest, r) := lookup_all n' fuel dindex it in
          (found :: rest, r)
      | (_, Err e) => ([], Err e)
      | (_, Undef) => ([], Undef)
      | (_, Timeout) => ([], Timeout)
      end
  end.

(** ** What the walk has indexed *)

Definition visit_tag (v : visit) : Z := Z.land (visit_flags v) TAG_MASK.

(** A DIE read at depth 1 that is an enumeration type and not a
    declaration. *)
Definition is_enumeration_type_visit (v : visit) : bool :=
  (visit_depth v =? 1) && (visit_tag v =? DW_TAG_enumeration_type)
  && negb (has_flag (visit_flags v) TAG_FLAG_DECLARATION).

(** The offset of the last such DIE among the DIEs [vs]. *)
Definition last_enumeration_type (vs : list visit) : option Z :=
  visit_offset <$> last (filter (fun v => is_enumeration_type_visit v) vs).

(** The DIE that encloses the one read at position [i]: the last DIE
    read before it at the depth above. *)
Definition enclosing (vs : list visit) (i : nat) (v : visit) : option visit :=
  last (filter (fun p => bool_decide (visit_depth p = visit_depth v - 1))
          (take i vs)).

(** The rule for enumerators as the specification words it: an indexed
    enumerator is at depth 2, its enclosing DIE is an enumeration type
    at depth 1 whose offset the entry carries; any other indexed DIE is
    at depth 1. *)
Definition enumerator_rule (vs : list visit) : Prop :=
  forall (i : nat) (v : visit) (c : index_call),
    vs !! i = Some v -> visit_call v = Some c ->
    if visit_tag v =? DW_TAG_enumerator then
      visit_depth v = 2
      /\ exists p, enclosing vs i v = Some p
                   /\ visit_tag p = DW_TAG_enumeration_type
                   /\ call_offset c = visit_offset p
    else visit_depth v = 1.

(** How the DIE [v] read at position [i] was indexed by the call [c]:
    at depth 1 under its own offset, or, an enumerator at depth 2, under
    the offset of the last enumeration type read at depth 1. *)
Definition indexed_as (vs : list visit) (i : nat) (v : visit)
    (c : index_call) : Prop :=
  call_tag c = visit_tag v
  /\ ((visit_depth v = 1 /\ call_offset c = visit_offset v)
      \/ (visit_depth v = 2 /\ visit_tag v = DW_TAG_enumerator
          /\ last_enumeration_type (take i vs) = Some (call_offset c))).

(** Whether the DIE [d], read in the state [w], makes the walk record
    its offset in [enum_die_offset]. *)
Definition records_enumeration (w : walk) (d : die) : bool :=
  (depth w =? 1) && (die_tag d =? DW_TAG_enumeration_type)
  && negb (has_flag (die_flags d) TAG_FLAG_DECLARATION).

(** What the walk keeps true: [enum_die_offset], when it is set, is the
    offset of the last enumeration type read at depth 1, and every DIE
    that was indexed was indexed in one of the two ways. *)
Definition walk_inv (w : walk) : Prop :=
  (enum_die_offset w <> 0 ->
   last_enumeration_type (visits w) = Some (enum_die_offset w))
  /\ forall i v c, visits w !! i = Some v -> visit_call v = Some c ->
       indexed_as (visits w) i v c.

(** The calls of [index_die] that the walk has made, in their order,
    and the index that these calls leave when they are made one after
    the other for the file [f]. *)
Definition calls_of (vs : list visit) : list index_call :=
  omap visit_call vs.

Definition replay (ext : hashing) (f : file_id) (dindex : drgn_dwarf_index)
    (calls : list index_call) : drgn_dwarf_index :=
  foldl (fun dindex c =>
           (index_die ext dindex (call_name c) (call_tag c)
              (call_file_name_hash c) f (call_offset c)).1)
        dindex calls.

(** ** Sample files *)

Definition sample_hashing : hashing :=
  {| name_hash := fun _ => 0; siphash := fun _ => 0;
     path_components := fun path => [path] |}.

(** A file with the sections [.debug_abbrev] and [.debug_info] given
    and an empty string table, its buffers a page apart. *)
Definition sample_file (debug_abbrev debug_info : list Z) : debug_file :=
  {| sections := fun i =>
       match i with
       | SECTION_DEBUG_ABBREV => Some debug_abbrev
       | SECTION_DEBUG_INFO => Some debug_info
       | SECTION_DEBUG_STR => Some [0]
       | _ => None
       end;
     d_buf := fun i =>
       match i with
       | SECTION_SYMTAB => 4096
       | SECTION_DEBUG_ABBREV => 8192
       | SECTION_DEBUG_INFO => 12288
       | SECTION_DEBUG_LINE => 16384
       | SECTION_DEBUG_STR => 20480
       end;
     symtab_syms := []; rela_sections := fun _ => None;
     bswap := false; failed := false; dwarf_handle := false |}.

(** The header of a 32-bit unit of DWARF 4 with [len] bytes after the
    length, abbreviations at offset 0 and addresses of 8 bytes. *)
Definition unit_header (len : Z) : list Z :=
  [len; 0; 0; 0;  4; 0;  0; 0; 0; 0;  8].

(** An abbreviation: code, tag, children, then a name given as a
    string ([DW_AT_name], [DW_FORM_string]). *)
Definition named_abbrev (code tag children : Z) : list Z :=
  [code; tag; children; DW_AT_name; DW_FORM_string; 0; 0].

(** The abbreviation of a compile unit with children and no
    attributes. *)
Definition unit_abbrev (code : Z) : list Z :=
  [code; DW_TAG_compile_unit; 1; 0; 0].

(** The bytes of the name A, E and foo. *)
Definition name_A : list Z := [65; 0].
Definition name_E : list Z := [69; 0].
Definition name_foo : list Z := [102; 111; 111; 0].

Definition index_all : index_flags :=
  {| index_types := true; index_variables := true;
     index_enumerators := true; index_functions := true |}.

(** A unit whose only child is an enumerator A, at depth 1. *)
Definition stray_enumerator_file : debug_file :=
  sample_file (unit_abbrev 1 ++ named_abbrev 2 DW_TAG_enumerator 0 ++ [0])
    (unit_header 12 ++ [1] ++ [2] ++ name_A ++ [0]).

(** A unit with the enumeration type E and its enumerator A. *)
Definition enumeration_file : debug_file :=
  sample_file (unit_abbrev 1 ++ named_abbrev 2 DW_TAG_enumeration_type 1
               ++ named_abbrev 3 DW_TAG_enumerator 0 ++ [0])
    (unit_header 16 ++ [1] ++ [2] ++ name_E ++ [3] ++ name_A ++ [0; 0]).

(** A unit with the enumeration type E without children, followed by
    the structure type foo with an enumerator A as its child. *)
Definition stale_offset_file : debug_file :=
  sample_file (unit_abbrev 1 ++ named_abbrev 2 DW_TAG_enumeration_type 0
               ++ named_abbrev 3 DW_TAG_structure_type 1
               ++ named_abbrev 4 DW_TAG_enumerator 0 ++ [0])
    (unit_header 21 ++ [1] ++ [2] ++ name_E ++ [3] ++ name_foo
     ++ [4] ++ name_A ++ [0; 0]).

(** The index with the one file [df] opened, and the first unit of
    that file. *)
Definition index_of (flags : index_flags) (df : debug_file)
  : drgn_dwarf_index :=
  (drgn_dwarf_index_open_elf (drgn_dwarf_index_create flags []) df).1.

Definition first_unit (df : debug_file) : compilation_unit :=
  match read_cus 100 0%nat df [] [] 0 with
  | (_, Ok (cu :: _, _)) => cu
  | _ => {| cu_file := 0%nat; cu_ptr := 0; unit_length := 0; version := 0;
            debug_abbrev_offset := 0; address_size := 0;
            is_64_bit := false |}
  end.

(** The DIEs read by [index_cu] for the first unit of [df]. *)
Definition walk_of (df : debug_file) : result walk unit :=
  index_cu 100 sample_hashing (index_of index_all df) (first_unit df).

(** The updates that index [stray_enumerator_file] and
    [stale_offset_file]. *)
Definition stray_enumerator_update : result drgn_dwarf_index unit :=
  drgn_dwarf_index_update 100 sample_hashing
    (index_of index_all stray_enumerator_file).

Definition stale_offset_update : result drgn_dwarf_index unit :=
  drgn_dwarf_index_update 100 sample_hashing
    (index_of index_all stale_offset_file).

(** ** A failed update after a successful one *)

Definition index_types_and_variables : index_flags :=
  {| index_types := true; index_variables := true;
     index_enumerators := false; index_functions := false |}.

(** A unit with the variable foo. *)
Definition variable_file : debug_file :=
  sample_file (unit_abbrev 1 ++ named_abbrev 2 DW_TAG_variable 0 ++ [0])
    (unit_header 14 ++ [1] ++ [2] ++ name_foo ++ [0]).

(** A unit with the typedef foo, followed by a DIE with the
    abbreviation code 3, which the unit does not declare. *)
Definition broken_typedef_file : debug_file :=
  sample_file (unit_abbrev 1 ++ named_abbrev 2 DW_TAG_typedef 0 ++ [0])
    (unit_header 14 ++ [1] ++ [2] ++ name_foo ++ [3]).

(** The first update indexes [variable_file]; then
    [broken_typedef_file] is opened and the second update fails. *)
Definition first_update : result drgn_dwarf_index unit :=
  drgn_dwarf_index_update 100 sample_hashing
    (index_of index_types_and_variables variable_file).

Definition second_update : result drgn_dwarf_index unit :=
  drgn_dwarf_index_update 100 sample_hashing
    (drgn_dwarf_index_open_elf first_update.1 broken_typedef_file).1.

(** The lookup of a name with any tag: the DIEs found, and how the
    iteration ends. *)
Definition lookup_name (dindex : drgn_dwarf_index) (name : string)
  : res (list (file_id * Z) * res unit) :=
  it ← drgn_dwarf_index_iterator_init sample_hashing dindex (Some name) [];
  Ok (lookup_all 8 8 dindex it).

(** ** Units whose length wraps around

    A 64-bit unit whose [unit_length] is [length], with the version 4 and
    [rest] behind the version. *)
Definition unit_header_64 (length : Z) (rest : list Z) : list Z :=
  [255; 255; 255; 255] ++ le_bytes 8 length ++ [4; 0] ++ rest.

(** The unit at offset 0 has the length 2^64 - 1, so that it ends at
    offset 11, inside its own header; the bytes from there on read as
    the header of a 32-bit unit of 1279 bytes, which ends with the
    section. *)
Definition overlapping_units_file : debug_file :=
  sample_file [0]
    (unit_header_64 (2 ^ 64 - 1) ([0; 4; 0; 0; 0; 0; 0; 0] ++ [8])
     ++ replicate 1271 0).

(** The unit has the length 2^64 - 13: it ends one byte before it
    starts. *)
Definition backward_unit_file : debug_file :=
  sample_file [0] (unit_header_64 (2 ^ 64 - 13) (replicate 8 0 ++ [8])).

(** The unit has the length 2^64 - 12: it ends where it starts. *)
Definition empty_unit_file : debug_file :=
  sample_file [0] (unit_header_64 (2 ^ 64 - 12) (replicate 8 0 ++ [8])).

(** ** Updates after the failed one *)

Definition name_bar : list Z := [98; 97; 114; 0].

(** A unit with the structure type foo, and a unit with the variable
    bar. *)
Definition structure_file : debug_file :=
  sample_file (unit_abbrev 1 ++ named_abbrev 2 DW_TAG_structure_type 0 ++ [0])
    (unit_header 14 ++ [1] ++ [2] ++ name_foo ++ [0]).

Definition bar_file : debug_file :=
  sample_file (unit_abbrev 1 ++ named_abbrev 2 DW_TAG_variable 0 ++ [0])
    (unit_header 14 ++ [1] ++ [2] ++ name_bar ++ [0]).

(** After the failed update, [structure_file] is opened and indexed;
    or else [bar_file] is. *)
Definition structure_update : result drgn_dwarf_index unit :=
  drgn_dwarf_index_update 100 sample_hashing
    (drgn_dwarf_index_open_elf second_update.1 structure_file).1.

Definition bar_update : result drgn_dwarf_index unit :=
  drgn_dwarf_index_update 100 sample_hashing
    (drgn_dwarf_index_open_elf second_update.1 bar_file).1.

(** ** What the readers are read against *)

(** The unsigned LEB128 encoding of [v]: seven bits at a time, least
    significant first, with the high bit set in all bytes but the
    last.  [fuel] bounds the number of bytes after the first. *)
Fixpoint uleb128_bytes (fuel : nat) (v : Z) : list Z :=
  match fuel with
  | O => [v]
  | S fuel' =>
      if v <? 128 then [v]
      else Z.lor (Z.land v 127) 128 :: uleb128_bytes fuel' (Z.shiftr v 7)
  end.

(** The encoding of a 64-bit value: at most ten bytes. *)
Definition uleb128_of_u64 (v : Z) : list Z := uleb128_bytes 9 v.

(** ** What a lookup finds *)

(** The iterator of a name at the entry [index] of its chain. *)
Definition by_name (i : Z) (tags : list Z) (index : Z)
  : drgn_dwarf_index_iterator :=
  {| it_shard := i; it_index := index; any_name := false; it_tags := tags |}.

(** The test of [drgn_dwarf_index_iterator_matches_tag]. *)
Definition tag_wanted (tags : list Z) (e : die_entry) : Prop :=
  tags = [] \/ tag e ∈ tags.

#[global] Instance tag_wanted_dec tags e : Decision (tag_wanted tags e).
Proof. unfold tag_wanted. apply _. Defined.

(** What [drgn_dwarf_index_iterator_next] gives for an entry: the file
    and the offset of the DIE. *)
Definition found_die (e : die_entry) : file_id * Z := (file e, offset e).

(** What is left of a chain behind an entry. *)
Definition chain_rest (slots : list die_entry) (index : Z) (l : list Z) : Prop :=
  (index = SIZE_MAX /\ l = []) \/ is_chain slots index l.

(** The entries at the indices [l]. *)
Definition entries_at (slots : list die_entry) (l : list Z) : list die_entry :=
  omap (fun index => slots !! Z.to_nat index) l.

(** The iterator over all names at the entry [index] of the shard [k]. *)
Definition any_entry (tags : list Z) (k index : Z)
  : drgn_dwarf_index_iterator :=
  {| it_shard := k; it_index := index; any_name := true; it_tags := tags |}.

(** The entries of a shard, and of all shards in their order. *)
Definition shard_entries (shard : dwarf_index_shard) : list die_entry :=
  take (Z.to_nat (num_entries shard)) (entries shard).

Definition all_entries (shs : list dwarf_index_shard) : list die_entry :=
  concat (shard_entries <$> shs).

(** The entries from [entries[index]] of shard [k] on. *)
Definition entries_from (shs : list dwarf_index_shard) (k : nat) (index : Z)
  : list die_entry :=
  drop (Z.to_nat index) (from_option shard_entries [] (shs !! k))
  ++ all_entries (drop (S k) shs).

(** A shard whose array holds its entries. *)
Definition shard_bounds (shard : dwarf_index_shard) : Prop :=
  0 <= num_entries shard <= Z.of_nat (length (entries shard))
  /\ num_entries shard <= SIZE_MAX.

(** The places at which the iterator over all names stands: an entry
    of a shard, or the end of the shards. *)
Definition at_entry (shs : list dwarf_index_shard) (k : nat) (index : Z) : Prop :=
  (k = length shs /\ index = 0)
  \/ exists shard, shs !! k = Some shard /\ 0 <= index < num_entries shard.

(** ** What an update leaves behind *)

(** Two indexes with the same files. *)
Definition same_files (a b : drgn_dwarf_index) : Prop :=
  objects b = objects a /\ opened b = opened a /\ indexed b = indexed a
  /\ index_flags_of b = index_flags_of a.

(** A shard whose array holds its entries and whose names lead to
    entries. *)
Definition shard_consistent (shard : dwarf_index_shard) : Prop :=
  0 <= num_entries shard <= Z.of_nat (length (entries shard))
  /\ forall name head, shard_map shard !! name = Some head ->
       head < num_entries shard.

(** [grown files s0 s]: the shard [s] has the entries of [s0], followed
    by entries of [files], and the names of [s0], together with names
    that lead to the new entries. *)
Record grown (files : list file_id) (s0 s : dwarf_index_shard) : Prop := {
  grown_num :
    num_entries s0 <= num_entries s <= Z.of_nat (length (entries s));
  grown_old :
    forall i e, Z.of_nat i < num_entries s0 -> entries s0 !! i = Some e ->
      exists e', entries s !! i = Some e'
                 /\ entry_payload e' = entry_payload e;
  grown_new :
    forall i e, num_entries s0 <= Z.of_nat i < num_entries s ->
      entries s !! i = Some e -> file e ∈ files;
  grown_names :
    forall name head, shard_map s !! name = Some head ->
      shard_map s0 !! name = Some head
      \/ (shard_map s0 !! name = None /\ num_entries s0 <= head);
  grown_old_names :
    forall name head, shard_map s0 !! name = Some head ->
      shard_map s !! name = Some head;
}.

(** What a failed update gives back of a shard. *)
Definition restored (s0 s : dwarf_index_shard) : Prop :=
  num_entries s = num_entries s0
  /\ shard_map s = shard_map s0
  /\ forall i e, Z.of_nat i < num_entries s0 -> entries s0 !! i = Some e ->
       exists e', entries s !! i = Some e'
                  /\ entry_payload e' = entry_payload e.

(** The units [cus] lie one behind the other from [ptr] to [end_]: each
    is what the header at its place says, and the next one starts where
    it ends. *)
Fixpoint adjoining (f : file_id) (swap : bool) (info : bytes) (ptr end_ : Z)
    (cus : list compilation_unit) : Prop :=
  match cus with
  | [] => ptr = end_
  | cu :: cus =>
      ptr < end_
      /\ read_compilation_unit_header f swap info ptr end_ = Ok cu
      /\ adjoining f swap info (ptr + unit_size cu) end_ cus
  end.

(** The instructions that give a DIE a name or a specification. *)
Definition sets_name (insn : Z) : bool :=
  (insn =? ATTRIB_NAME_STRP4) || (insn =? ATTRIB_NAME_STRP8)
  || (insn =? ATTRIB_NAME_STRING).

Definition sets_specification (insn : Z) : bool :=
  (ATTRIB_SPECIFICATION_REF1 <=? insn)
  && (insn <=? ATTRIB_SPECIFICATION_REF_UDATA).

(** An instruction of a declaration: it is not the instruction 0 that
    ends a declaration, and it gives a name or a specification only in
    a declaration that is indexed. *)
Definition insn_ok (indexed : bool) (insn : Z) : Prop :=
  0 < insn <= 255
  /\ (sets_name insn || sets_specification insn = true -> indexed = true).

(** The flags of a declaration of the tag [tag]. *)
Definition flags_ok (flags : index_flags) (tag dflags : Z) : Prop :=
  Z.land dflags TAG_MASK
  = if should_index flags tag || (tag =? DW_TAG_compile_unit)
       || (index_enumerators flags && (tag =? DW_TAG_enumeration_type))
    then tag else 0.

(** Every abbreviation code leads to the instructions of a declaration,
    which end with the instruction 0 and the flags. *)
Definition table_ok (flags : index_flags) (table : abbrev_table) : Prop :=
  forall k start, decls table !! k = Some start ->
    0 <= start
    /\ exists tag body dflags rest,
         drop (Z.to_nat start) (insns table) = body ++ 0 :: dflags :: rest
         /\ Forall (insn_ok (should_index flags tag)) body
         /\ flags_ok flags tag dflags.

(** A shard whose array holds its entries, all of kinds that are
    indexed. *)
Definition holds_kinds (flags : index_flags) (shard : dwarf_index_shard)
  : Prop :=
  0 <= num_entries shard <= Z.of_nat (length (entries shard))
  /\ forall i e, Z.of_nat i < num_entries shard ->
       entries shard !! i = Some e -> should_index flags (tag e) = true.

End DwarfIndex.

(* ################################################################# *)
(** * The stack-trace facade ([stack_trace.c]) *)

Module StackTrace.
Import LanguageC.

(** Stateful functions return the state they leave behind together with
    their result. *)
Abbreviation result S A := (S * res A)%type.

(** ** Frame symbols *)

(** A [Dwarf_Die] is a handle of libdw. *)
Definition Dwarf_Die := Z.

Definition DW_TAG_formal_parameter : Z := 5.
Definition DW_TAG_variable : Z := 52.

Record drgn_frame_symbol : Type := {
  sym_parameter : bool;
  sym_name : string;
  sym_var_die : Dwarf_Die;
}.

Definition DRGN_FRAME_STATE_PARAMS_EVALUATED : Z := 1.
Definition DRGN_FRAME_STATE_SYMBOLS_EVALUATED : Z := 2.
Definition DRGN_FRAME_STATE_BIAS_VALID : Z := 4.

(** [struct drgn_frame_state]; a [drgn_frame_symbol_vector] is the list
    of its [size] elements. *)
Record drgn_frame_state : Type := {
  variables : list drgn_frame_symbol;
  parameters : list drgn_frame_symbol;
  bias : Z;
  fs_flags : Z;
}.

(** An object made by [drgn_stack_frame_object]: the frame it lives in
    and the DIE that describes it. *)
Record drgn_stack_object : Type := {
  so_frame : nat;
  so_die : Dwarf_Die;
}.

(** The part of [struct drgn_object] that the facade touches. *)
Record drgn_object : Type := {
  obj_type : drgn_type;
  needs_stack_evaluation : bool;
  obj_stack : option drgn_stack_object;
}.

(** [struct drgn_stack_trace]: the frames and their states. *)
Record drgn_stack_trace : Type := {
  states : list drgn_frame_state;
  frames : list Z;
}.

(** What the facade asks of libdw and of the rest of libdrgn
    ([program.c], [dwarf_info_cache.c] and [object.c] are not part of
    the sources at hand). *)
Record dwarf_runtime : Type := {
  (** [drgn_stack_frame_pc] *)
  drgn_stack_frame_pc : drgn_stack_trace -> nat -> Z;
  (** [drgn_program_block_find]: the function DIE and the bias *)
  drgn_program_block_find : Z -> res (Dwarf_Die * Z);
  (** [dwarf_child] followed by [dwarf_siblingof] until it fails: the
      children of a DIE, in order *)
  dwarf_children : Dwarf_Die -> list Dwarf_Die;
  dwarf_tag : Dwarf_Die -> Z;
  dwarf_diename : Dwarf_Die -> option string;
  (** [dwfl_module_addrdie] and [dwarf_getscopes] for a program counter:
      the scopes, or [None] for a negative count *)
  dwarf_getscopes : Z -> option (list Dwarf_Die);
  (** [drgn_type_from_dwarf_child] with [drgn_object_set_common] *)
  drgn_type_from_dwarf_child : Dwarf_Die -> bool -> res drgn_type;
  drgn_error_libdw : drgn_error_code;
  (** [drgn_frame_symbol_vector_append_entry] ([vector.h] is not part
      of the sources at hand): the entry that it adds to a vector is
      not initialised.  The field gives what the member [parameter] of
      the new entry holds, for the vector as it is before the call.
      The allocation is taken to succeed: the result [NULL], for which
      [parse_scope_symbols] returns the out-of-memory error, is left
      out. *)
  drgn_frame_symbol_vector_append_entry : list drgn_frame_symbol -> bool;
}.

(** [parse_scope_symbols]: the loop over the children of [die]; a child
    without a name stops the walk after its entry was appended.  The
    loop assigns [var_die] and [name] of the new entry and leaves its
    member [parameter] as [drgn_frame_symbol_vector_append_entry] has
    handed it out; [drgn_stack_frame_object] reads that member. *)
Fixpoint parse_scope_symbols_loop (rt : dwarf_runtime) (tag : Z)
    (children : list Dwarf_Die) (vector : list drgn_frame_symbol)
  : result (list drgn_frame_symbol) unit :=
  match children with
  | [] => (vector, Ok tt)
  | var_die :: rest =>
      if negb (dwarf_tag rt var_die =? tag)
      then parse_scope_symbols_loop rt tag rest vector
      else
        let parameter := drgn_frame_symbol_vector_append_entry rt vector in
        match dwarf_diename rt var_die with
        | None =>
            (vector ++ [{| sym_parameter := parameter; sym_name := EmptyString;
                           sym_var_die := var_die |}],
             Err (drgn_error_libdw rt))
        | Some n =>
            parse_scope_symbols_loop rt tag rest
              (vector ++ [{| sym_parameter := parameter; sym_name := n;
                             sym_var_die := var_die |}])
        end
  end.

Definition parse_scope_symbols (rt : dwarf_runtime) (die : Dwarf_Die) (tag : Z)
    (vector : list drgn_frame_symbol) : result (list drgn_frame_symbol) unit :=
  parse_scope_symbols_loop rt tag (dwarf_children rt die) vector.

(** A frame is a trace and an index into it. *)
Record drgn_stack_frame : Type := {
  trace : drgn_stack_trace;
  i : nat;
}.

Definition empty_frame_state : drgn_frame_state :=
  {| variables := []; parameters := []; bias := 0; fs_flags := 0 |}.

(** [stack_frame_state]: [&trace->states[frame->i]]. *)
Definition stack_frame_state (frame : drgn_stack_frame) : drgn_frame_state :=
  default empty_frame_state (states (trace frame) !! i frame).

Definition set_frame_state (frame : drgn_stack_frame) (st : drgn_frame_state)
  : drgn_stack_frame :=
  {| trace := {| states := <[i frame := st]> (states (trace frame));
                 frames := frames (trace frame) |};
     i := i frame |}.

(** [drgn_stack_frame_parse_parameters]. *)
Definition drgn_stack_frame_parse_parameters (rt : dwarf_runtime)
    (frame : drgn_stack_frame) : result drgn_stack_frame unit :=
  let state := stack_frame_state frame in
  if negb (Z.land (fs_flags state) DRGN_FRAME_STATE_PARAMS_EVALUATED =? 0)
  then (frame, Ok tt)
  else
    match drgn_program_block_find rt (drgn_stack_frame_pc rt (trace frame) (i frame)) with
    | Err e => (frame, Err e)
    | Undef => (frame, Undef)
    | Timeout => (frame, Timeout)
    | Ok (func_die, _) =>
        match parse_scope_symbols rt func_die DW_TAG_formal_parameter [] with
        | (_, Err e) =>
            (set_frame_state frame
               {| variables := variables state; parameters := [];
                  bias := bias state; fs_flags := fs_flags state |}, Err e)
        | (_, Undef) => (frame, Undef)
        | (_, Timeout) => (frame, Timeout)
        | (vector, Ok _) =>
            (set_frame_state frame
               {| variables := variables state; parameters := vector;
                  bias := bias state;
                  fs_flags := Z.lor (fs_flags state)
                                DRGN_FRAME_STATE_PARAMS_EVALUATED |}, Ok tt)
        end
    end.

(** The loop of [drgn_stack_frame_parse_variables] over all scopes but
    the outermost. *)
Fixpoint parse_scopes (rt : dwarf_runtime) (scopes : list Dwarf_Die)
    (vector : list drgn_frame_symbol) : result (list drgn_frame_symbol) unit :=
  match scopes with
  | [] => (vector, Ok tt)
  | scope :: rest =>
      match parse_scope_symbols rt scope DW_TAG_variable vector with
      | (vector, Ok _) => parse_scopes rt rest vector
      | r => r
      end
  end.

(** [drgn_stack_frame_parse_variables]. *)
Definition drgn_stack_frame_parse_variables (rt : dwarf_runtime)
    (frame : drgn_stack_frame) : result drgn_stack_frame unit :=
  let state := stack_frame_state frame in
  if negb (Z.land (fs_flags state) DRGN_FRAME_STATE_SYMBOLS_EVALUATED =? 0)
  then (frame, Ok tt)
  else
    let pc := drgn_stack_frame_pc rt (trace frame) (i frame) in
    match drgn_program_block_find rt pc with
    | Err e => (frame, Err e)
    | Undef => (frame, Undef)
    | Timeout => (frame, Timeout)
    | Ok _ =>
        match dwarf_getscopes rt pc with
        | None => (frame, Err (drgn_error_libdw rt))
        | Some scopes =>
            match parse_scopes rt (take (length scopes - 1) scopes) [] with
            | (_, Err e) =>
                (set_frame_state frame
                   {| variables := []; parameters := parameters state;
                      bias := bias state; fs_flags := fs_flags state |}, Err e)
            | (_, Undef) => (frame, Undef)
            | (_, Timeout) => (frame, Timeout)
            | (vector, Ok _) =>
                (set_frame_state frame
                   {| variables := vector; parameters := parameters state;
                      bias := bias state;
                      fs_flags := Z.lor (fs_flags state)
                                    DRGN_FRAME_STATE_SYMBOLS_EVALUATED |}, Ok tt)
            end
        end
    end.

(** [drgn_stack_frame_object]: the object that stands for a symbol of a
    frame, to be evaluated on first use. *)
Definition drgn_stack_frame_object (rt : dwarf_runtime) (frame : drgn_stack_frame)
    (symbol : drgn_frame_symbol) : res drgn_object :=
  ty ← drgn_type_from_dwarf_child rt (sym_var_die symbol) (sym_parameter symbol);
  Ok {| obj_type := ty; needs_stack_evaluation := true;
        obj_stack := Some {| so_frame := i frame; so_die := sym_var_die symbol |} |}.

(** What the caller passes by reference to the [_by_index] functions:
    [name] and [ret_obj]. *)
Record by_index_out : Type := {
  out_name : option string;
  out_obj : option drgn_object;
}.

(** [symbols[index]] for a vector of [max] elements; there is nothing
    at or after [symbols[max]]. *)
Definition symbol_at (symbols : list drgn_frame_symbol) (index : Z)
  : res drgn_frame_symbol :=
  match symbols !! Z.to_nat index with
  | Some sym => Ok sym
  | None => Undef
  end.

(** The part that [drgn_stack_frame_parameter_by_index] and
    [drgn_stack_frame_variable_by_index] have in common, after the
    symbols of the frame were parsed.  [index] is a [size_t]. *)
Definition symbol_by_index (rt : dwarf_runtime) (frame : drgn_stack_frame)
    (symbols : list drgn_frame_symbol) (index : Z) (out : by_index_out)
  : result by_index_out unit :=
  let max := Z.of_nat (length symbols) in
  if index >? max then (out, Err DRGN_ERROR_OUT_OF_BOUNDS)
  else
    match symbol_at symbols index with
    | Err e => (out, Err e)
    | Undef => (out, Undef)
    | Timeout => (out, Timeout)
    | Ok sym =>
        match drgn_stack_frame_object rt frame sym with
        | Err e => (out, Err e)
        | Undef => (out, Undef)
        | Timeout => (out, Timeout)
        | Ok obj =>
            ({| out_name := Some (sym_name sym); out_obj := Some obj |}, Ok tt)
        end
    end.

Definition drgn_stack_frame_parameter_by_index (rt : dwarf_runtime)
    (frame : drgn_stack_frame) (index : Z) (out : by_index_out)
  : result (drgn_stack_frame * by_index_out) unit :=
  match drgn_stack_frame_parse_parameters rt frame with
  | (frame, Err e) => ((frame, out), Err e)
  | (frame, Undef) => ((frame, out), Undef)
  | (frame, Timeout) => ((frame, out), Timeout)
  | (frame, Ok _) =>
      let symbols := parameters (stack_frame_state frame) in
      let '(out, r) := symbol_by_index rt frame symbols index out in
      ((frame, out), r)
  end.

Definition drgn_stack_frame_variable_by_index (rt : dwarf_runtime)
    (frame : drgn_stack_frame) (index : Z) (out : by_index_out)
  : result (drgn_stack_frame * by_index_out) unit :=
  match drgn_stack_frame_parse_variables rt frame with
  | (frame, Err e) => ((frame, out), Err e)
  | (frame, Undef) => ((frame, out), Undef)
  | (frame, Timeout) => ((frame, out), Timeout)
  | (frame, Ok _) =>
      let symbols := variables (stack_frame_state frame) in
      let '(out, r) := symbol_by_index rt frame symbols index out in
      ((frame, out), r)
  end.

(** [drgn_stack_frame_num_parameters] and [drgn_stack_frame_num_variables]. *)
Definition drgn_stack_frame_num_parameters (rt : dwarf_runtime)
    (frame : drgn_stack_frame) : result drgn_stack_frame Z :=
  match drgn_stack_frame_parse_parameters rt frame with
  | (frame, Ok _) =>
      (frame, Ok (Z.of_nat (length (parameters (stack_frame_state frame)))))
  | (frame, Err e) => (frame, Err e)
  | (frame, Undef) => (frame, Undef)
  | (frame, Timeout) => (frame, Timeout)
  end.

Definition drgn_stack_frame_num_variables (rt : dwarf_runtime)
    (frame : drgn_stack_frame) : result drgn_stack_frame Z :=
  match drgn_stack_frame_parse_variables rt frame with
  | (frame, Ok _) =>
      (frame, Ok (Z.of_nat (length (variables (stack_frame_state frame)))))
  | (frame, Err e) => (frame, Err e)
  | (frame, Undef) => (frame, Undef)
  | (frame, Timeout) => (frame, Timeout)
  end.

(** ** Creating a stack trace *)

(** [drgn_underlying_type] ([type.h] is not part of the sources at
    hand): the type with its typedef layers removed. *)
Fixpoint drgn_underlying_type (t : drgn_type) : drgn_type :=
  match t with
  | mk_drgn_type DRGN_TYPE_TYPEDEF _ _ _ _ (Some aliased) =>
      drgn_underlying_type aliased
  | _ => t
  end.

(** [enum drgn_program_flags].  [DRGN_PROGRAM_IS_LIVE] is declared in a
    revision of [drgn.h] newer than the one at hand: it is bit
    [live_bit], a bit other than that of [DRGN_PROGRAM_IS_LINUX_KERNEL]. *)
Definition DRGN_PROGRAM_IS_LINUX_KERNEL : Z := Z.shiftl 1 0.
Definition DRGN_PROGRAM_IS_LIVE (live_bit : Z) : Z := Z.shiftl 1 live_bit.

Definition STACK_TRACE_OBJ_TID : Z := 1.

(** The calls into libdwfl that change the state of the unwinder. *)
Inductive dwfl_call : Type :=
  | Dwfl_attach_state
  | Dwfl_attach_thread (tid : Z)
  | Dwfl_thread_getframes (thread : Z)
  | Dwfl_detach_thread (thread : option Z).

(** The fields of [struct drgn_program] that [stack_trace.c] uses
    ([program.h] is not part of the sources at hand), and the calls
    that were made into libdwfl on its behalf. *)
Record drgn_program : Type := {
  has_platform : bool;
  prog_flags : Z;
  attached_dwfl_state : bool;
  stack_trace_tid : Z;
  stack_trace_obj : option drgn_object;
  stack_trace_err : option drgn_error_code;
  dwfl_calls : list dwfl_call;
}.

(** What libdwfl and the rest of libdrgn answer.  [dwfl_attach_thread]
    runs the [set_initial_registers] callback, which reports its
    failure through [prog->stack_trace_err]; [dwfl_thread_getframes]
    reports the frames one by one to [drgn_append_stack_frame] and
    reads memory through [drgn_thread_memory_read], which records a
    fatal error in [prog->stack_trace_err] as well. *)
Record unwinder : Type := {
  drgn_program_get_dwfl : res Z;
  dwfl_attach_state : bool;
  dwfl_attach_thread :
    Z -> option drgn_object -> option Z * option drgn_error_code;
  dwfl_thread_getframes : Z -> list Z * option drgn_error_code;
  drgn_error_libdwfl : drgn_error_code;
  (** [drgn_object_read_integer] ([object.c]): reading the value of an
      object, which fetches target memory for a reference object *)
  drgn_object_read_integer : drgn_object -> res Z;
}.

Definition log_call (prog : drgn_program) (c : dwfl_call) : drgn_program :=
  {| has_platform := has_platform prog; prog_flags := prog_flags prog;
     attached_dwfl_state := attached_dwfl_state prog;
     stack_trace_tid := stack_trace_tid prog;
     stack_trace_obj := stack_trace_obj prog;
     stack_trace_err := stack_trace_err prog;
     dwfl_calls := dwfl_calls prog ++ [c] |}.

Definition set_attached (prog : drgn_program) : drgn_program :=
  {| has_platform := has_platform prog; prog_flags := prog_flags prog;
     attached_dwfl_state := true;
     stack_trace_tid := stack_trace_tid prog;
     stack_trace_obj := stack_trace_obj prog;
     stack_trace_err := stack_trace_err prog;
     dwfl_calls := dwfl_calls prog |}.

Definition set_request (prog : drgn_program) (tid : Z)
    (obj : option drgn_object) : drgn_program :=
  {| has_platform := has_platform prog; prog_flags := prog_flags prog;
     attached_dwfl_state := attached_dwfl_state prog;
     stack_trace_tid := tid; stack_trace_obj := obj;
     stack_trace_err := stack_trace_err prog;
     dwfl_calls := dwfl_calls prog |}.

Definition set_stack_trace_err (prog : drgn_program)
    (e : option drgn_error_code) : drgn_program :=
  {| has_platform := has_platform prog; prog_flags := prog_flags prog;
     attached_dwfl_state := attached_dwfl_state prog;
     stack_trace_tid := stack_trace_tid prog;
     stack_trace_obj := stack_trace_obj prog;
     stack_trace_err := e;
     dwfl_calls := dwfl_calls prog |}.

(** The trace under construction: [capacity], [num_frames] and the
    frames; [drgn_append_stack_frame] doubles the capacity when the
    array is full (the reallocation is taken to succeed). *)
Record trace_builder : Type := {
  capacity : Z;
  built_frames : list Z;
}.

Definition drgn_append_stack_frame (tb : trace_builder) (state : Z)
  : trace_builder :=
  let capacity :=
    if Z.of_nat (length (built_frames tb)) >=? capacity tb
    then 2 * capacity tb else capacity tb in
  {| capacity := capacity; built_frames := built_frames tb ++ [state] |}.

(** The label [stack_trace_err] of [drgn_get_stack_trace]: the recorded
    error is taken out of the program and returned.  When no error was
    recorded the function returns [NULL] without a trace, which [Undef]
    stands for. *)
Definition return_stack_trace_err (prog : drgn_program) (thread : option Z)
  : result drgn_program drgn_stack_trace :=
  let prog' := log_call (set_stack_trace_err prog None) (Dwfl_detach_thread thread) in
  match stack_trace_err prog with
  | Some e => (prog', Err e)
  | None => (prog', Undef)
  end.

(** [drgn_get_stack_trace]. *)
Definition drgn_get_stack_trace (live_bit : Z) (uw : unwinder)
    (prog : drgn_program) (tid : Z) (obj : option drgn_object)
  : result drgn_program drgn_stack_trace :=
  if negb (has_platform prog) then (prog, Err DRGN_ERROR_INVALID_ARGUMENT)
  else if Z.land (prog_flags prog)
            (Z.lor DRGN_PROGRAM_IS_LINUX_KERNEL (DRGN_PROGRAM_IS_LIVE live_bit))
          =? DRGN_PROGRAM_IS_LIVE live_bit
  then (prog, Err DRGN_ERROR_INVALID_ARGUMENT)
  else
    match drgn_program_get_dwfl uw with
    | Err e => (prog, Err e)
    | Undef => (prog, Undef)
    | Timeout => (prog, Timeout)
    | Ok dwfl =>
        let attach :=
          if negb (attached_dwfl_state prog) then
            let prog := log_call prog Dwfl_attach_state in
            if negb (dwfl_attach_state uw) then (prog, Err (drgn_error_libdwfl uw))
            else (set_attached prog, Ok tt)
          else (prog, Ok tt) in
        match attach with
        | (prog, Err e) => (prog, Err e)
        | (prog, Undef) => (prog, Undef)
        | (prog, Timeout) => (prog, Timeout)
        | (prog, Ok _) =>
            let prog := set_request prog tid obj in
            let '(thread, recorded) := dwfl_attach_thread uw tid obj in
            let prog := log_call prog (Dwfl_attach_thread STACK_TRACE_OBJ_TID) in
            let prog :=
              match recorded with
              | Some e => set_stack_trace_err prog (Some e)
              | None => prog
              end in
            let prog := set_request prog 0 None in
            if bool_decide (is_Some (stack_trace_err prog))
            then return_stack_trace_err prog thread
            else
              match thread with
              | None =>
                  (log_call prog (Dwfl_detach_thread None),
                   Err (drgn_error_libdwfl uw))
              | Some th =>
                  let '(reported, recorded) := dwfl_thread_getframes uw th in
                  let tb :=
                    fold_left drgn_append_stack_frame reported
                      {| capacity := 1; built_frames := [] |} in
                  let prog := log_call prog (Dwfl_thread_getframes th) in
                  match recorded with
                  | Some e =>
                      return_stack_trace_err
                        (set_stack_trace_err prog (Some e)) (Some th)
                  | None =>
                      (prog,
                       Ok {| states := replicate (length (built_frames tb))
                                         empty_frame_state;
                             frames := built_frames tb |})
                  end
              end
        end
    end.

(** [drgn_program_stack_trace]. *)
Definition drgn_program_stack_trace (live_bit : Z) (uw : unwinder)
    (prog : drgn_program) (tid : Z) : result drgn_program drgn_stack_trace :=
  drgn_get_stack_trace live_bit uw prog tid None.

(** [drgn_object_stack_trace]; [prog] is [obj->prog]. *)
Definition drgn_object_stack_trace (live_bit : Z) (uw : unwinder)
    (prog : drgn_program) (obj : drgn_object)
  : result drgn_program drgn_stack_trace :=
  if bool_decide (drgn_type_kind_of (drgn_underlying_type (obj_type obj))
                  = DRGN_TYPE_INT)
  then
    match drgn_object_read_integer uw obj with
    | Err e => (prog, Err e)
    | Undef => (prog, Undef)
    | Timeout => (prog, Timeout)
    | Ok value => drgn_get_stack_trace live_bit uw prog (u32 value) None
    end
  else drgn_get_stack_trace live_bit uw prog 0 (Some obj).

(** A program is live, and is the Linux kernel, when the flag is set. *)
Definition is_live (live_bit : Z) (prog : drgn_program) : Prop :=
  Z.land (prog_flags prog) (DRGN_PROGRAM_IS_LIVE live_bit) <> 0.
Definition is_linux_kernel (prog : drgn_program) : Prop :=
  Z.land (prog_flags prog) DRGN_PROGRAM_IS_LINUX_KERNEL <> 0.

(** The sentence of the design document on live processes. *)
Definition live_process_rule (live_bit : Z) : Prop :=
  forall uw prog,
    is_live live_bit prog -> ~ is_linux_kernel prog ->
    (forall tid,
       drgn_program_stack_trace live_bit uw prog tid
       = (prog, Err DRGN_ERROR_INVALID_ARGUMENT))
    /\ (forall obj,
          drgn_object_stack_trace live_bit uw prog obj
          = (prog, Err DRGN_ERROR_INVALID_ARGUMENT)).

(** ** Sample inputs *)

Definition sample_runtime : dwarf_runtime :=
  {| drgn_stack_frame_pc := fun _ _ => 4096;
     drgn_program_block_find := fun _ => Ok (1, 0);
     dwarf_children := fun _ => [];
     dwarf_tag := fun _ => 0;
     dwarf_diename := fun _ => None;
     dwarf_getscopes := fun _ => Some [];
     drgn_type_from_dwarf_child := fun _ _ =>
       Ok (lp64_primitive_types DRGN_C_TYPE_INT);
     drgn_error_libdw := DRGN_ERROR_OTHER;
     drgn_frame_symbol_vector_append_entry := fun _ => false |}.

(** A frame of a function [f(int argc, char **argv)] with one local
    variable, whose symbols were parsed already. *)
Definition sample_frame : drgn_stack_frame :=
  {| trace :=
       {| states :=
            [ {| variables :=
                   [ {| sym_parameter := false; sym_name := "ret";
                        sym_var_die := 30 |} ];
                 parameters :=
                   [ {| sym_parameter := true; sym_name := "argc";
                        sym_var_die := 10 |};
                     {| sym_parameter := true; sym_name := "argv";
                        sym_var_die := 20 |} ];
                 bias := 0;
                 fs_flags := Z.lor DRGN_FRAME_STATE_PARAMS_EVALUATED
                               DRGN_FRAME_STATE_SYMBOLS_EVALUATED |} ];
          frames := [ 1 ] |};
     i := 0 |}.

Definition no_out : by_index_out := {| out_name := None; out_obj := None |}.

(** A live userspace process, and an unwinder in front of which the
    memory of the process cannot be read. *)
Definition live_process (live_bit : Z) : drgn_program :=
  {| has_platform := true; prog_flags := DRGN_PROGRAM_IS_LIVE live_bit;
     attached_dwfl_state := false; stack_trace_tid := 0;
     stack_trace_obj := None; stack_trace_err := None; dwfl_calls := [] |}.

Definition faulting_unwinder : unwinder :=
  {| drgn_program_get_dwfl := Ok 1;
     dwfl_attach_state := true;
     dwfl_attach_thread := fun _ _ => (Some 1, None);
     dwfl_thread_getframes := fun _ => ([], None);
     drgn_error_libdwfl := DRGN_ERROR_OTHER;
     drgn_object_read_integer := fun _ => Err DRGN_ERROR_FAULT |}.

(** A core dump of a userspace process with three frames on the stack
    of thread 7. *)
Definition core_dump : drgn_program :=
  {| has_platform := true; prog_flags := 0;
     attached_dwfl_state := false; stack_trace_tid := 0;
     stack_trace_obj := None; stack_trace_err := None; dwfl_calls := [] |}.

Definition core_dump_unwinder : unwinder :=
  {| drgn_program_get_dwfl := Ok 1;
     dwfl_attach_state := true;
     dwfl_attach_thread := fun _ _ => (Some 1, None);
     dwfl_thread_getframes := fun _ => ([100; 200; 300], None);
     drgn_error_libdwfl := DRGN_ERROR_OTHER;
     drgn_object_read_integer := fun _ => Ok 7 |}.

Definition int_reference : drgn_object :=
  {| obj_type := lp64_primitive_types DRGN_C_TYPE_INT;
     needs_stack_evaluation := false; obj_stack := None |}.

(** [find_frame_symbol_in_vector]: the first symbol of the name.
    The names are C strings, compared by [strcmp]. *)
Fixpoint find_frame_symbol_in_vector (vector : list drgn_frame_symbol)
    (name : string) : res drgn_frame_symbol :=
  match vector with
  | [] => Err DRGN_ERROR_LOOKUP
  | sym :: rest =>
      if String.eqb name (sym_name sym) then Ok sym
      else find_frame_symbol_in_vector rest name
  end.

(** [drgn_stack_frame_parameter_by_name] and
    [drgn_stack_frame_variable_by_name]. *)
Definition drgn_stack_frame_parameter_by_name (rt : dwarf_runtime)
    (frame : drgn_stack_frame) (name : string)
  : result drgn_stack_frame drgn_object :=
  match drgn_stack_frame_parse_parameters rt frame with
  | (frame, Err e) => (frame, Err e)
  | (frame, Undef) => (frame, Undef)
  | (frame, Timeout) => (frame, Timeout)
  | (frame, Ok _) =>
      match find_frame_symbol_in_vector
              (parameters (stack_frame_state frame)) name with
      | Ok sym => (frame, drgn_stack_frame_object rt frame sym)
      | Err e => (frame, Err e)
      | Undef => (frame, Undef)
      | Timeout => (frame, Timeout)
      end
  end.

Definition drgn_stack_frame_variable_by_name (rt : dwarf_runtime)
    (frame : drgn_stack_frame) (name : string)
  : result drgn_stack_frame drgn_object :=
  match drgn_stack_frame_parse_variables rt frame with
  | (frame, Err e) => (frame, Err e)
  | (frame, Undef) => (frame, Undef)
  | (frame, Timeout) => (frame, Timeout)
  | (frame, Ok _) =>
      match find_frame_symbol_in_vector
              (variables (stack_frame_state frame)) name with
      | Ok sym => (frame, drgn_stack_frame_object rt frame sym)
      | Err e => (frame, Err e)
      | Undef => (frame, Undef)
      | Timeout => (frame, Timeout)
      end
  end.

(** The children of [die] with the tag [tag], and the name and the DIE
    of a symbol. *)
Definition tagged_children (rt : dwarf_runtime) (die : Dwarf_Die) (tag : Z)
  : list Dwarf_Die :=
  filter (fun child => dwarf_tag rt child = tag) (dwarf_children rt die).

Definition symbol_of (sym : drgn_frame_symbol) : string * Dwarf_Die :=
  (sym_name sym, sym_var_die sym).

(** A function with the parameters [argc] and [argv] and, between
    them in the list of its children, the variable [ret]; and a frame
    of it whose symbols were not parsed yet. *)
Definition function_runtime : dwarf_runtime :=
  {| drgn_stack_frame_pc := fun _ _ => 4096;
     drgn_program_block_find := fun _ => Ok (1, 0);
     dwarf_children := fun die => if die =? 1 then [10; 30; 20] else [];
     dwarf_tag := fun die =>
       if die =? 30 then DW_TAG_variable else DW_TAG_formal_parameter;
     dwarf_diename := fun die =>
       if die =? 10 then Some "argc"%string
       else if die =? 20 then Some "argv"%string
       else if die =? 30 then Some "ret"%string
       else None;
     dwarf_getscopes := fun _ => Some [1; 0];
     drgn_type_from_dwarf_child := fun _ _ =>
       Ok (lp64_primitive_types DRGN_C_TYPE_INT);
     drgn_error_libdw := DRGN_ERROR_OTHER;
     drgn_frame_symbol_vector_append_entry := fun vector =>
       Nat.odd (length vector) |}.

Definition unparsed_frame : drgn_stack_frame :=
  {| trace := {| states := [empty_frame_state]; frames := [1] |};
     i := 0 |}.

(** The frame after its parameters and then its variables were
    parsed. *)
Definition parsed_frame : drgn_stack_frame :=
  (drgn_stack_frame_parse_variables function_runtime
     (drgn_stack_frame_parse_parameters function_runtime unparsed_frame).1).1.

End StackTrace.

(* ################################################################# *)
(** * Properties *)

Section CharacterFormatter.
Import LanguageC.

Example c_pretty_print_character_newline :
  c_pretty_print_character "010"%char "ab" = "ab\n"%string.
Proof. reflexivity. Qed.

Example c_pretty_print_character_del :
  c_pretty_print_character "127"%char EmptyString = "\x7f"%string.
Proof. reflexivity. Qed.

Example c_pretty_print_character_plain :
  c_pretty_print_character "A"%char EmptyString = "A"%string.
Proof. reflexivity. Qed.

(** C8.  For every byte, the character formatter appends exactly the
    escape of the table: one of the nine named two-character escapes,
    the four-character [\xHH] escape for every other byte that is at
    most [0x1f] or at least [0x7f], and the byte itself otherwise. *)
Theorem c_pretty_print_character_escapes (c : ascii) (sb : string_builder) :
  c_pretty_print_character c sb = (sb ++ escape_of_spec c)%string.
Proof.
  destruct c as [b0 b1 b2 b3 b4 b5 b6 b7];
    destruct b0, b1, b2, b3, b4, b5, b6, b7; reflexivity.
Qed.

End CharacterFormatter.

Section IntegerLiterals.
Import LanguageC.

Lemma uchar_val_range (c : ascii) : 0 <= uchar_val c < 256.
Proof.
  unfold uchar_val.
  destruct c as [b0 b1 b2 b3 b4 b5 b6 b7];
    destruct b0, b1, b2, b3, b4, b5, b6, b7; vm_compute; split; congruence.
Qed.

Lemma isdigit_char_val (c : ascii) :
  isdigit c = true -> 48 <= char_val c <= 57 /\ char_val c = uchar_val c.
Proof.
  unfold isdigit, char_val. pose proof (uchar_val_range c).
  destruct (uchar_val c <? 128) eqn:E; lia.
Qed.

Lemma accumulate_digit_exact (base x d : Z) :
  1 <= base -> 0 <= x <= UINT64_MAX -> 0 <= d <= UINT64_MAX ->
  accumulate_digit base x d =
    if x * base + d <=? UINT64_MAX then Ok (x * base + d)
    else Err DRGN_ERROR_INVALID_ARGUMENT.
Proof.
  intros Hb Hx Hd. unfold accumulate_digit, u64, UINT64_MAX in *.
  pose proof (Z.div_mod (2 ^ 64 - 1) base ltac:(lia)) as Hdm.
  pose proof (Z.mod_pos_bound (2 ^ 64 - 1) base ltac:(lia)) as Hmb.
  destruct (x >? (2 ^ 64 - 1) / base) eqn:E1.
  - assert (x * base > 2 ^ 64 - 1) by nia.
    destruct (x * base + d <=? 2 ^ 64 - 1) eqn:E2; [lia | reflexivity].
  - assert (x * base <= 2 ^ 64 - 1) by nia.
    rewrite (Z.mod_small (x * base)) by nia.
    rewrite (Z.mod_small (2 ^ 64 - 1 - d)) by lia.
    destruct (x * base >? 2 ^ 64 - 1 - d) eqn:E2;
      destruct (x * base + d <=? 2 ^ 64 - 1) eqn:E3; try lia; try reflexivity.
    rewrite Z.mod_small by nia. reflexivity.
Qed.

Lemma positional_value_mono (base : Z) (digit_of : ascii -> Z) (cs : list ascii) :
  1 <= base -> Forall (fun c => 0 <= digit_of c) cs ->
  forall x, 0 <= x -> x <= positional_value base digit_of cs x.
Proof.
  intros Hb Hcs. induction Hcs as [|c cs Hc _ IH]; intros x Hx; simpl.
  - lia.
  - etransitivity; [| apply IH; nia]. nia.
Qed.

(** Each of the three loops of [c_token_to_u64] computes the value of
    its digits exactly, and reports an error exactly when that value
    does not fit 64 bits, whenever the digit computed for every
    character is non-negative. *)
Lemma digits_loop_exact (base : Z) (digit_of : ascii -> Z) (cs : list ascii) :
  1 <= base -> Forall (fun c => 0 <= digit_of c <= UINT64_MAX) cs ->
  forall x, 0 <= x <= UINT64_MAX ->
  digits_loop base digit_of cs x =
    if positional_value base digit_of cs x <=? UINT64_MAX
    then Ok (positional_value base digit_of cs x)
    else Err DRGN_ERROR_INVALID_ARGUMENT.
Proof.
  intros Hb Hcs. induction Hcs as [|c cs Hc Hcs IH]; intros x Hx; simpl.
  - destruct (x <=? UINT64_MAX) eqn:E; [reflexivity | lia].
  - rewrite accumulate_digit_exact by assumption.
    destruct (x * base + digit_of c <=? UINT64_MAX) eqn:E; simpl.
    + apply IH. nia.
    + assert (Hm : x * base + digit_of c
                   <= positional_value base digit_of cs (x * base + digit_of c)).
      { apply positional_value_mono; [lia | | nia].
        eapply Forall_impl; [exact Hcs | simpl; lia]. }
      destruct (positional_value base digit_of cs (x * base + digit_of c)
                <=? UINT64_MAX) eqn:E2; [lia | reflexivity].
Qed.

Lemma token_chars_number_token (s : string) :
  token_chars (number_token s) = list_ascii_of_string s.
Proof.
  unfold token_chars, number_token; simpl.
  induction s as [|a s IH]; simpl; [reflexivity |].
  f_equal. rewrite <- seq_shift, map_map. exact IH.
Qed.

Lemma char_val_eq_small (c : ascii) (n : Z) :
  0 <= n < 128 -> (char_val c =? n) = (uchar_val c =? n).
Proof.
  intros Hn. unfold char_val. pose proof (uchar_val_range c).
  destruct (uchar_val c <? 128) eqn:E; [reflexivity |].
  destruct (uchar_val c - 256 =? n) eqn:E1; destruct (uchar_val c =? n) eqn:E2; lia.
Qed.

Lemma digits_loop_ext (base : Z) (f g : ascii -> Z) (cs : list ascii) :
  Forall (fun c => f c = g c) cs ->
  forall x, digits_loop base f cs x = digits_loop base g cs x.
Proof.
  induction 1 as [|c cs Hc _ IH]; intros x; simpl; [reflexivity |].
  rewrite Hc. destruct (accumulate_digit base x (g c)); simpl; auto.
Qed.

Lemma positional_value_ext (base : Z) (f g : ascii -> Z) (cs : list ascii) :
  Forall (fun c => f c = g c) cs ->
  forall x, positional_value base f cs x = positional_value base g cs x.
Proof.
  induction 1 as [|c cs Hc _ IH]; intros x; simpl; [reflexivity |].
  rewrite Hc. apply IH.
Qed.

Lemma decimal_digit_range (cs : list ascii) :
  Forall (fun c => isdigit c = true) cs ->
  Forall (fun c => 0 <= dec_loop_digit c <= UINT64_MAX) cs.
Proof.
  intros H. eapply Forall_impl; [exact H |].
  intros c Hc. apply isdigit_char_val in Hc.
  unfold dec_loop_digit, UINT64_MAX. lia.
Qed.

Lemma hex_digit_of_decimal (cs : list ascii) :
  Forall (fun c => isdigit c = true) cs ->
  Forall (fun c => hex_loop_digit c = dec_loop_digit c) cs
  /\ Forall (fun c => hex_digit_value c = dec_loop_digit c) cs.
Proof.
  intros H. split; (eapply Forall_impl; [exact H |]); intros c Hc;
    apply isdigit_char_val in Hc; destruct Hc as [Hr He];
    unfold hex_loop_digit, hex_digit_value, dec_loop_digit.
  - destruct ((48 <=? char_val c) && (char_val c <=? 57)) eqn:E; [reflexivity | lia].
  - rewrite <- He.
    destruct ((48 <=? char_val c) && (char_val c <=? 57)) eqn:E; [reflexivity | lia].
Qed.

(** Outside of the letters [a..f] and [A..F] the conversion is the one
    the design document describes: for a token all of whose digits are
    decimal digits (in any of the three bases) it returns the value of
    the literal, and fails with invalid-argument exactly when the value
    does not fit 64 bits. *)
Lemma c_token_to_u64_decimal_digits (s : string) :
  Forall (fun c => isdigit c = true) (literal_digits s) ->
  c_token_to_u64 (number_token s) = c_token_to_u64_spec s.
Proof.
  Local Opaque digits_loop positional_value.
  intros Hd. unfold c_token_to_u64, c_token_to_u64_spec, token_value_spec.
  rewrite token_chars_number_token.
  unfold literal_digits in Hd.
  assert (H0 : (0 <= 0 <= UINT64_MAX)) by (unfold UINT64_MAX; lia).
  destruct s as [|z [|x [|d ds]]]; simpl in *.
  - reflexivity.
  - unfold char_at; simpl. rewrite (char_val_eq_small z 48) by lia.
    destruct (uchar_val z =? 48) eqn:Ez; simpl; [reflexivity |].
    apply (digits_loop_exact 10 dec_loop_digit [z]); [lia | | exact H0].
    apply decimal_digit_range, Hd.
  - unfold char_at; simpl. rewrite (char_val_eq_small z 48) by lia.
    destruct (uchar_val z =? 48) eqn:Ez; simpl.
    + apply (digits_loop_exact 8 dec_loop_digit [x]); [lia | | exact H0].
      apply decimal_digit_range. inversion Hd; assumption.
    + apply (digits_loop_exact 10 dec_loop_digit [z; x]); [lia | | exact H0].
      apply decimal_digit_range, Hd.
  - unfold char_at; simpl.
    rewrite (char_val_eq_small z 48), (char_val_eq_small x 120) by lia.
    assert (Hlen : (2 <? Z.of_nat (S (S (S (String.length ds))))) = true)
      by (apply Z.ltb_lt; lia).
    rewrite Hlen. simpl.
    destruct (uchar_val z =? 48) eqn:Ez; simpl.
    + destruct (uchar_val x =? 120) eqn:Ex; simpl.
      * destruct (hex_digit_of_decimal _ Hd) as [Hl Hv].
        rewrite (digits_loop_ext 16 _ _ _ Hl).
        rewrite (positional_value_ext 16 _ _ _ Hv).
        apply (digits_loop_exact 16 dec_loop_digit); [lia | | exact H0].
        apply decimal_digit_range, Hd.
      * apply (digits_loop_exact 8 dec_loop_digit (x :: d :: list_ascii_of_string ds));
          [lia | | exact H0].
        apply decimal_digit_range. inversion Hd; assumption.
    + apply (digits_loop_exact 10 dec_loop_digit
               (z :: x :: d :: list_ascii_of_string ds)); [lia | | exact H0].
      apply decimal_digit_range, Hd.
  Local Transparent digits_loop positional_value.
Qed.

Example c_token_to_u64_decimal :
  c_token_to_u64 (number_token "4096") = Ok 4096.
Proof. reflexivity. Qed.

Example c_token_to_u64_octal :
  c_token_to_u64 (number_token "0777") = Ok 511.
Proof. reflexivity. Qed.

Example c_token_to_u64_hex_decimal_digits :
  c_token_to_u64 (number_token "0x10") = Ok 16.
Proof. reflexivity. Qed.

Example c_token_to_u64_max :
  c_token_to_u64 (number_token "18446744073709551615") = Ok UINT64_MAX.
Proof. reflexivity. Qed.

Example c_token_to_u64_too_large :
  c_token_to_u64 (number_token "18446744073709551616")
  = Err DRGN_ERROR_INVALID_ARGUMENT.
Proof. reflexivity. Qed.

(** C2, at the failing input.  For the token [0xa] the hexadecimal loop
    computes the digit ['a' - 'a' = 0], so the conversion returns 0
    where the literal denotes 10. *)
Theorem c_token_to_u64_hex_letter_digit :
  c_token_to_u64 (number_token "0xa") = Ok 0
  /\ c_token_to_u64_spec "0xa" = Ok 10.
Proof. split; reflexivity. Qed.

(** The same slip hides an overflow: [0xa0000000000000000] does not fit
    64 bits, yet the conversion succeeds. *)
Example c_token_to_u64_hex_letter_overflow :
  c_token_to_u64 (number_token "0xa0000000000000000") = Ok 0
  /\ c_token_to_u64_spec "0xa0000000000000000" = Err DRGN_ERROR_INVALID_ARGUMENT.
Proof. split; reflexivity. Qed.

End IntegerLiterals.

Section SpecifierQualifierList.
Import LanguageC.

Lemma char_val_inj (a b : ascii) : char_val a = char_val b -> a = b.
Proof.
  revert a b.
  assert (H : forall a, ascii_of_N (Z.to_N (u8 (char_val a))) = a).
  { intros a. destruct a as [b0 b1 b2 b3 b4 b5 b6 b7];
      destruct b0, b1, b2, b3, b4, b5, b6, b7; reflexivity. }
  intros a b Hab. rewrite <- (H a), <- (H b), Hab. reflexivity.
Qed.

(** [strncmp] against a literal of its own length is a prefix test. *)
Lemma strncmp_eq_prefix (lit s : string) :
  Forall (fun c => char_val c <> 0) (list_ascii_of_string lit) ->
  strncmp_eq s lit (String.length lit) = String.prefix lit s.
Proof.
  revert s. induction lit as [|a lit IH]; intros s Hnz.
  - destruct s; reflexivity.
  - inversion Hnz as [|? ? Ha Hrest]; subst.
    change (String.length (String a lit)) with (S (String.length lit)).
    destruct s as [|b s];
      cbn [strncmp_eq peek char_at String.get advance String.prefix].
    + change (char_val zero) with 0.
      destruct (0 =? char_val a) eqn:E; [lia | reflexivity].
    + destruct (char_val b =? char_val a) eqn:E; cbn [negb].
      * apply Z.eqb_eq, char_val_inj in E. subst b.
        destruct (char_val a =? 0) eqn:E0; [lia |].
        destruct (ascii_dec a a) as [_|n]; [| congruence].
        apply IH, Hrest.
      * destruct (ascii_dec a b) as [->|n]; [| reflexivity].
        rewrite Z.eqb_refl in E. discriminate.
Qed.

(** How a specifier-qualifier list that consists of one identifier (and
    qualifiers) is resolved: the comparison with [size_t] and
    [ptrdiff_t] is a prefix test on the identifier. *)
Lemma sql_finish_plain_identifier (tindex : drgn_type_index)
    (filename : option string) (q : Z) (name : string) (n : nat) :
  sql_finish tindex filename
    {| specifier := SPECIFIER_NONE; qualifiers := q;
       identifier := Some (name, n); tag_token := C_TOKEN_EOF |}
  = if String.prefix "size_t" name then
      Ok {| qt_type := primitive_types tindex DRGN_C_TYPE_SIZE_T;
            qt_qualifiers := Z.lor 0 q |}
    else if String.prefix "ptrdiff_t" name then
      Ok {| qt_type := primitive_types tindex DRGN_C_TYPE_PTRDIFF_T;
            qt_qualifiers := Z.lor 0 q |}
    else
      ret ← drgn_type_index_find_internal tindex DRGN_TYPE_TYPEDEF
              (substring 0 n name) filename;
      Ok {| qt_type := qt_type ret;
            qt_qualifiers := Z.lor (qt_qualifiers ret) q |}.
Proof.
  unfold sql_finish. cbn [specifier tag_token identifier qualifiers].
  rewrite !bool_decide_eq_true_2 by reflexivity.
  rewrite !bool_decide_eq_false_2 by discriminate.
  rewrite (strncmp_eq_prefix "size_t"), (strncmp_eq_prefix "ptrdiff_t")
    by (repeat constructor; vm_compute; discriminate).
  reflexivity.
Qed.

Example parse_size_t (tindex : drgn_type_index) :
  c_parse_specifier_qualifier_list tindex (drgn_lexer_init "size_t") None
  = Some (Ok ({| qt_type := primitive_types tindex DRGN_C_TYPE_SIZE_T;
                 qt_qualifiers := 0 |},
              drgn_lexer_push (drgn_lexer_init EmptyString)
                {| kind := C_TOKEN_EOF; value := EmptyString; len := 0 |})).
Proof. reflexivity. Qed.

Example parse_const_ptrdiff_t (tindex : drgn_type_index) :
  c_parse_specifier_qualifier_list tindex (drgn_lexer_init "const ptrdiff_t") None
  = Some (Ok ({| qt_type := primitive_types tindex DRGN_C_TYPE_PTRDIFF_T;
                 qt_qualifiers := DRGN_QUALIFIER_CONST |},
              drgn_lexer_push (drgn_lexer_init EmptyString)
                {| kind := C_TOKEN_EOF; value := EmptyString; len := 0 |})).
Proof. reflexivity. Qed.

Example parse_typedef_name (tindex : drgn_type_index) :
  c_parse_specifier_qualifier_list tindex (drgn_lexer_init "pid_t") None
  = Some (ret ← drgn_type_index_find_internal tindex DRGN_TYPE_TYPEDEF "pid_t" None;
          Ok ({| qt_type := qt_type ret;
                 qt_qualifiers := Z.lor (qt_qualifiers ret) 0 |},
              drgn_lexer_push (drgn_lexer_init EmptyString)
                {| kind := C_TOKEN_EOF; value := EmptyString; len := 0 |})).
Proof.
  destruct tindex as [prim find]. vm_compute.
  destruct (find _ _ _); reflexivity.
Qed.

Example parse_unsigned_long_long_int :
  c_parse_specifier_qualifier_list lp64_tindex
    (drgn_lexer_init "unsigned long long int") None
  = Some (Ok ({| qt_type := lp64_primitive_types DRGN_C_TYPE_UNSIGNED_LONG_LONG;
                 qt_qualifiers := 0 |},
              drgn_lexer_push (drgn_lexer_init EmptyString)
                {| kind := C_TOKEN_EOF; value := EmptyString; len := 0 |})).
Proof. reflexivity. Qed.

(** C5, at the failing input.  The identifier [size_tt] is not
    [size_t], yet it is mapped to the [size_t] primitive type: the type
    index is not asked for a typedef of that name, whatever it holds. *)
Theorem c_parse_size_t_prefix_identifier (tindex : drgn_type_index)
    (filename : option string) :
  c_parse_specifier_qualifier_list tindex (drgn_lexer_init "size_tt") filename
  = Some (Ok ({| qt_type := primitive_types tindex DRGN_C_TYPE_SIZE_T;
                 qt_qualifiers := 0 |},
              drgn_lexer_push (drgn_lexer_init EmptyString)
                {| kind := C_TOKEN_EOF; value := EmptyString; len := 0 |})).
Proof. reflexivity. Qed.

(** The same happens with [ptrdiff_t]. *)
Example c_parse_ptrdiff_t_prefix_identifier (tindex : drgn_type_index) :
  c_parse_specifier_qualifier_list tindex (drgn_lexer_init "ptrdiff_t_old") None
  = Some (Ok ({| qt_type := primitive_types tindex DRGN_C_TYPE_PTRDIFF_T;
                 qt_qualifiers := 0 |},
              drgn_lexer_push (drgn_lexer_init EmptyString)
                {| kind := C_TOKEN_EOF; value := EmptyString; len := 0 |})).
Proof. reflexivity. Qed.

End SpecifierQualifierList.

Section UsualArithmeticConversions.
Import LanguageC.

Example common_real_type_int_long :
  c_common_real_type lp64_tindex
    (operand (lp64_primitive_types DRGN_C_TYPE_INT))
    (operand (lp64_primitive_types DRGN_C_TYPE_LONG))
  = Ok (operand (lp64_primitive_types DRGN_C_TYPE_LONG)).
Proof. reflexivity. Qed.

Example common_real_type_char_short :
  c_common_real_type lp64_tindex
    (operand (lp64_primitive_types DRGN_C_TYPE_CHAR))
    (operand (lp64_primitive_types DRGN_C_TYPE_UNSIGNED_SHORT))
  = Ok (operand (lp64_primitive_types DRGN_C_TYPE_INT)).
Proof. reflexivity. Qed.

Example common_real_type_int_unsigned_int :
  c_common_real_type lp64_tindex
    (operand (lp64_primitive_types DRGN_C_TYPE_INT))
    (operand (lp64_primitive_types DRGN_C_TYPE_UNSIGNED_INT))
  = Ok (operand (lp64_primitive_types DRGN_C_TYPE_UNSIGNED_INT)).
Proof. reflexivity. Qed.

(** The signed operand has the greater rank and cannot represent all
    values of the unsigned one: [long long] against an 8-byte
    [unsigned long] gives [unsigned long long]. *)
Example common_real_type_long_long_unsigned_long :
  c_common_real_type lp64_tindex
    (operand (lp64_primitive_types DRGN_C_TYPE_LONG_LONG))
    (operand (lp64_primitive_types DRGN_C_TYPE_UNSIGNED_LONG))
  = Ok (operand (lp64_primitive_types DRGN_C_TYPE_UNSIGNED_LONG_LONG)).
Proof. reflexivity. Qed.

(** With a tie of the ranks the result is the unsigned operand as it
    was given, here a typedef of [unsigned int], and not the canonical
    [unsigned int]. *)
Example common_real_type_int_u32 :
  c_common_real_type lp64_tindex
    (operand (lp64_primitive_types DRGN_C_TYPE_INT))
    (typedef_operand "u32" (lp64_primitive_types DRGN_C_TYPE_UNSIGNED_INT))
  = Ok (typedef_operand "u32" (lp64_primitive_types DRGN_C_TYPE_UNSIGNED_INT))
  /\ signed_or_corresponding_unsigned lp64_tindex
       (operand (lp64_primitive_types DRGN_C_TYPE_INT))
       (typedef_operand "u32" (lp64_primitive_types DRGN_C_TYPE_UNSIGNED_INT))
     = Ok (operand (lp64_primitive_types DRGN_C_TYPE_UNSIGNED_INT)).
Proof. split; reflexivity. Qed.

(** An operand whose type is a typedef, against a bit field that the
    promotions leave as it is: the width of the first is asked of the
    typedef, which has no size. *)
Example common_real_type_bit_field_typedef :
  c_common_real_type lp64_tindex
    {| ot_type := lp64_primitive_types DRGN_C_TYPE_UNSIGNED_LONG;
       ot_underlying_type := lp64_primitive_types DRGN_C_TYPE_UNSIGNED_LONG;
       ot_qualifiers := 0; ot_bit_field_size := 40 |}
    (typedef_operand "u64" (lp64_primitive_types DRGN_C_TYPE_UNSIGNED_LONG))
  = Undef.
Proof. reflexivity. Qed.

(** C6, counterexample.  An 8-byte [long] and a 4-byte [unsigned long]
    have the same conversion rank and [long] can represent every value
    of that [unsigned long]; the common real type is nevertheless the
    unsigned operand's type. *)
Lemma rank_tie_rule_counterexample : ~ rank_tie_rule.
Proof.
  intros H.
  pose (l := operand (int_type "long" DRGN_C_TYPE_LONG 8 true)).
  pose (u := operand (int_type "unsigned long" DRGN_C_TYPE_UNSIGNED_LONG 4 false)).
  specialize (H lp64_tindex l u l u).
  assert (Hp : promoted_mixed_sign lp64_tindex l u l u).
  { unfold promoted_mixed_sign. repeat split; try discriminate; try reflexivity.
    intros (_ & _ & E). discriminate E. }
  specialize (H Hp eq_refl). vm_compute in H. discriminate H.
Qed.

(** C6, as amended.  For promoted integer operands of different
    signedness (neither a bit field): when the conversion ranks tie, the
    common real type is the unsigned operand's type; when the signed
    operand has the greater rank, it is the signed operand's type if
    that can represent all values of the unsigned operand's type, and
    otherwise the unsigned type corresponding to the signed operand's
    type. *)
Theorem c_common_real_type_mixed_sign (tindex : drgn_type_index)
    (t1 t2 p1 p2 : drgn_object_type) (r : Z) :
  promoted_mixed_sign tindex t1 t2 p1 p2 ->
  c_rank_cmp p1 p2 = Ok r ->
  (r = 0 ->
   c_common_real_type tindex t1 t2 = Ok (snd (signed_and_unsigned p1 p2)))
  /\ ((drgn_type_is_signed (ot_underlying_type p1) = true /\ 0 < r)
      \/ (drgn_type_is_signed (ot_underlying_type p2) = true /\ r < 0) ->
      c_common_real_type tindex t1 t2
      = signed_or_corresponding_unsigned tindex p1 p2).
Proof.
  intros (Hf1 & Hf2 & Hp1 & Hp2 & Hb1 & Hb2 & Hsame & Hsign) Hr.
  assert (Hcode :
    c_common_real_type tindex t1 t2 =
    let is_signed1 := drgn_type_is_signed (ot_underlying_type p1) in
    let is_signed2 := drgn_type_is_signed (ot_underlying_type p2) in
    if negb is_signed1 && (r >=? 0) then Ok p1
    else if negb is_signed2 && (r <=? 0) then Ok p2
    else if is_signed1
            && c_can_represent_all_values (ot_underlying_type p1) 0
                 (ot_underlying_type p2) 0
    then Ok p1
    else if is_signed2
            && c_can_represent_all_values (ot_underlying_type p2) 0
                 (ot_underlying_type p1) 0
    then Ok p2
    else if is_signed1
    then corresponding_unsigned tindex (drgn_type_primitive (ot_underlying_type p1))
    else if is_signed2
    then corresponding_unsigned tindex (drgn_type_primitive (ot_underlying_type p2))
    else Undef).
  { unfold c_common_real_type.
    rewrite !(bool_decide_eq_false_2 _ Hf1), !(bool_decide_eq_false_2 _ Hf2).
    cbn [andb]. rewrite Hp1. cbn [mbind res_bind]. rewrite Hp2.
    cbn [mbind res_bind]. rewrite Hb1, Hb2. cbn [Z.eqb negb orb].
    assert (Hne : negb (bool_decide (drgn_type_primitive (ot_underlying_type p1)
                                     = DRGN_NOT_PRIMITIVE_TYPE))
                  && negb (bool_decide (drgn_type_primitive (ot_underlying_type p2)
                                        = DRGN_NOT_PRIMITIVE_TYPE))
                  && bool_decide (drgn_type_primitive (ot_underlying_type p1)
                                  = drgn_type_primitive (ot_underlying_type p2))
                  = false).
    { apply not_true_is_false. intros E.
      apply andb_prop in E as [E E3]. apply andb_prop in E as [E1 E2].
      apply negb_true_iff, bool_decide_eq_false in E1.
      apply negb_true_iff, bool_decide_eq_false in E2.
      apply bool_decide_eq_true in E3. apply Hsame. auto. }
    rewrite Hne, Hr. cbn [mbind res_bind].
    destruct (drgn_type_is_signed (ot_underlying_type p1)),
             (drgn_type_is_signed (ot_underlying_type p2));
      try congruence; reflexivity. }
  rewrite Hcode. unfold signed_or_corresponding_unsigned, signed_and_unsigned.
  destruct (drgn_type_is_signed (ot_underlying_type p1)) eqn:E1,
           (drgn_type_is_signed (ot_underlying_type p2)) eqn:E2;
    try congruence; cbn [negb andb snd]; split.
  - intros ->. reflexivity.
  - intros [[_ Hpos] | [Hs _]]; [| discriminate].
    replace (r <=? 0) with false by (symmetry; apply Z.leb_gt; lia).
    destruct (c_can_represent_all_values _ _ _ _); reflexivity.
  - intros ->. reflexivity.
  - intros [[Hs _] | [_ Hneg]]; [discriminate |].
    replace (r >=? 0) with false by (symmetry; rewrite Z.geb_leb; apply Z.leb_gt; lia).
    destruct (c_can_represent_all_values _ _ _ _); reflexivity.
Qed.

Lemma c_common_real_type_mixed_sign_witness :
  c_common_real_type lp64_tindex
    (operand (lp64_primitive_types DRGN_C_TYPE_INT))
    (typedef_operand "u32" (lp64_primitive_types DRGN_C_TYPE_UNSIGNED_INT))
  = Ok (typedef_operand "u32" (lp64_primitive_types DRGN_C_TYPE_UNSIGNED_INT)).
Proof.
  refine (proj1 (c_common_real_type_mixed_sign lp64_tindex
            (operand (lp64_primitive_types DRGN_C_TYPE_INT))
            (typedef_operand "u32" (lp64_primitive_types DRGN_C_TYPE_UNSIGNED_INT))
            (operand (lp64_primitive_types DRGN_C_TYPE_INT))
            (typedef_operand "u32" (lp64_primitive_types DRGN_C_TYPE_UNSIGNED_INT))
            0 _ _) eq_refl).
  - unfold promoted_mixed_sign. repeat split; try discriminate; try reflexivity.
    intros (_ & _ & E). discriminate E.
  - reflexivity.
Defined.

End UsualArithmeticConversions.

Section StackFrames.
Import LanguageC StackTrace.

Example parameter_by_index_first :
  drgn_stack_frame_parameter_by_index sample_runtime sample_frame 0 no_out
  = ((sample_frame,
      {| out_name := Some "argc"%string;
         out_obj := Some {| obj_type := lp64_primitive_types DRGN_C_TYPE_INT;
                            needs_stack_evaluation := true;
                            obj_stack := Some {| so_frame := 0%nat; so_die := 10 |} |} |}),
     Ok tt).
Proof. reflexivity. Qed.

Example num_parameters_sample :
  drgn_stack_frame_num_parameters sample_runtime sample_frame
  = (sample_frame, Ok 2).
Proof. reflexivity. Qed.

(** Past the end by more than one, both functions do fail with the
    out-of-bounds error and leave [name] and [ret_obj] alone. *)
Lemma symbol_by_index_beyond (rt : dwarf_runtime) (frame : drgn_stack_frame)
    (symbols : list drgn_frame_symbol) (index : Z) (out : by_index_out) :
  Z.of_nat (length symbols) < index ->
  symbol_by_index rt frame symbols index out = (out, Err DRGN_ERROR_OUT_OF_BOUNDS).
Proof.
  intros H. unfold symbol_by_index.
  replace (index >? Z.of_nat (length symbols)) with true
    by (symmetry; rewrite Z.gtb_ltb; apply Z.ltb_lt; lia).
  reflexivity.
Qed.

(** At [index = max] the check [index > max] lets the call through and
    [symbols[max]] is read, one element past the end of the array. *)
Lemma symbol_by_index_off_by_one (rt : dwarf_runtime) (frame : drgn_stack_frame)
    (symbols : list drgn_frame_symbol) (out : by_index_out) :
  symbol_by_index rt frame symbols (Z.of_nat (length symbols)) out = (out, Undef).
Proof.
  unfold symbol_by_index, symbol_at.
  replace (Z.of_nat (length symbols) >? Z.of_nat (length symbols)) with false
    by (symmetry; rewrite Z.gtb_ltb; apply Z.ltb_irrefl).
  rewrite Nat2Z.id, lookup_ge_None_2 by lia. reflexivity.
Qed.

(** C10, at the failing input.  The frame has two parameters and one
    variable.  Asked for parameter 2 (respectively variable 1), the
    function does not fail with the out-of-bounds error: it goes on to
    read the element past the end of the symbol array. *)
Theorem by_index_reads_past_the_end :
  drgn_stack_frame_num_parameters sample_runtime sample_frame
  = (sample_frame, Ok 2)
  /\ drgn_stack_frame_parameter_by_index sample_runtime sample_frame 2 no_out
     = ((sample_frame, no_out), Undef)
  /\ drgn_stack_frame_num_variables sample_runtime sample_frame
     = (sample_frame, Ok 1)
  /\ drgn_stack_frame_variable_by_index sample_runtime sample_frame 1 no_out
     = ((sample_frame, no_out), Undef).
Proof. repeat split; reflexivity. Qed.

Example by_index_beyond_sample :
  drgn_stack_frame_parameter_by_index sample_runtime sample_frame 3 no_out
  = ((sample_frame, no_out), Err DRGN_ERROR_OUT_OF_BOUNDS)
  /\ drgn_stack_frame_variable_by_index sample_runtime sample_frame 2 no_out
     = ((sample_frame, no_out), Err DRGN_ERROR_OUT_OF_BOUNDS).
Proof. split; reflexivity. Qed.

End StackFrames.

Section LiveProcesses.
Import LanguageC StackTrace.

Example stack_trace_of_core_dump :
  snd (drgn_program_stack_trace 1 core_dump_unwinder core_dump 7)
  = Ok {| states := [empty_frame_state; empty_frame_state; empty_frame_state];
          frames := [100; 200; 300] |}.
Proof. reflexivity. Qed.

Example stack_trace_of_core_dump_calls :
  dwfl_calls (fst (drgn_program_stack_trace 1 core_dump_unwinder core_dump 7))
  = [Dwfl_attach_state; Dwfl_attach_thread 1; Dwfl_thread_getframes 1].
Proof. reflexivity. Qed.

(** The test [(flags & (KERNEL | LIVE)) == LIVE] picks out the programs
    that are live and are not the Linux kernel. *)
Lemma live_not_kernel_test (live_bit : Z) (prog : drgn_program) :
  1 <= live_bit ->
  is_live live_bit prog -> ~ is_linux_kernel prog ->
  (Z.land (prog_flags prog)
     (Z.lor DRGN_PROGRAM_IS_LINUX_KERNEL (DRGN_PROGRAM_IS_LIVE live_bit))
   =? DRGN_PROGRAM_IS_LIVE live_bit) = true.
Proof.
  unfold is_live, is_linux_kernel, DRGN_PROGRAM_IS_LINUX_KERNEL,
    DRGN_PROGRAM_IS_LIVE.
  intros Hb Hl Hk. apply Z.eqb_eq.
  assert (Hk0 : Z.land (prog_flags prog) (Z.shiftl 1 0) = 0)
    by (destruct (Z.eq_dec (Z.land (prog_flags prog) (Z.shiftl 1 0)) 0); tauto).
  clear Hk.
  rewrite Z.land_lor_distr_r, Hk0, Z.lor_0_l.
  rewrite Z.shiftl_1_l in *.
  apply Z.bits_inj'. intros n Hn.
  rewrite Z.land_spec, Z.pow2_bits_eqb by lia.
  destruct (Z.eqb_spec live_bit n) as [<-|Hne].
  - rewrite andb_true_r.
    destruct (Z.testbit (prog_flags prog) live_bit) eqn:E; [reflexivity |].
    exfalso. apply Hl. apply Z.bits_inj'. intros m Hm.
    rewrite Z.land_spec, Z.pow2_bits_eqb, Z.bits_0 by lia.
    destruct (Z.eqb_spec live_bit m) as [<-|]; [rewrite E |];
      auto using andb_false_r.
  - apply andb_false_r.
Qed.

(** C9, counterexample.  For an object of integer type the thread id
    is read from the object first; when that read fails, as it does for
    a reference to unreadable memory, the error is the error of the
    read and not invalid-argument. *)
Lemma live_process_rule_counterexample : ~ live_process_rule 1.
Proof.
  intros H.
  destruct (H faulting_unwinder (live_process 1)) as [_ Hobj].
  - vm_compute. discriminate.
  - vm_compute. tauto.
  - specialize (Hobj int_reference). vm_compute in Hobj. discriminate Hobj.
Qed.

(** C9, as amended.  For every program whose flags mark it as live but
    not as a Linux kernel, [drgn_program_stack_trace] fails with an
    invalid-argument error for every thread id, and
    [drgn_object_stack_trace] fails with an invalid-argument error
    unless the object has integer type and reading its value fails, in
    which case the error of the read is returned; in every case the
    program is left as it was, no unwinder state being attached. *)
Theorem live_process_stack_trace_rejected (live_bit : Z) (uw : unwinder)
    (prog : drgn_program) :
  1 <= live_bit ->
  is_live live_bit prog -> ~ is_linux_kernel prog ->
  (forall tid,
     drgn_program_stack_trace live_bit uw prog tid
     = (prog, Err DRGN_ERROR_INVALID_ARGUMENT))
  /\ (forall obj,
        drgn_object_stack_trace live_bit uw prog obj
        = (prog,
           if bool_decide (drgn_type_kind_of (drgn_underlying_type (obj_type obj))
                           = DRGN_TYPE_INT)
           then match drgn_object_read_integer uw obj with
                | Ok _ => Err DRGN_ERROR_INVALID_ARGUMENT
                | Err e => Err e
                | Undef => Undef
                | Timeout => Timeout
                end
           else Err DRGN_ERROR_INVALID_ARGUMENT)).
Proof.
  intros Hb Hl Hk.
  assert (Hget : forall tid obj,
    drgn_get_stack_trace live_bit uw prog tid obj
    = (prog, Err DRGN_ERROR_INVALID_ARGUMENT)).
  { intros tid obj. unfold drgn_get_stack_trace.
    destruct (has_platform prog); cbn [negb]; [| reflexivity].
    rewrite live_not_kernel_test by assumption. reflexivity. }
  split.
  - intros tid. apply Hget.
  - intros obj. unfold drgn_object_stack_trace.
    destruct (bool_decide _); [| apply Hget].
    destruct (drgn_object_read_integer uw obj); [apply Hget | reflexivity ..].
Qed.

Lemma live_process_stack_trace_rejected_witness :
  drgn_program_stack_trace 1 faulting_unwinder (live_process 1) 42
  = (live_process 1, Err DRGN_ERROR_INVALID_ARGUMENT).
Proof.
  refine (proj1 (live_process_stack_trace_rejected 1 faulting_unwinder
                   (live_process 1) _ _ _) 42).
  - lia.
  - vm_compute. discriminate.
  - vm_compute. tauto.
Defined.

End LiveProcesses.

Section Relocations.
Import DwarfIndex.

Lemma le_bytes_length (n : nat) (v : Z) : length (le_bytes n v) = n.
Proof. unfold le_bytes. rewrite length_map, length_seq. reflexivity. Qed.

Lemma le_bytes_succ (n : nat) (v : Z) :
  le_bytes (S n) v = v mod 256 :: le_bytes n (v / 256).
Proof.
  unfold le_bytes. cbn [seq map]. f_equal.
  - change (8 * Z.of_nat 0) with 0. rewrite Z.pow_0_r, Z.div_1_r. reflexivity.
  - rewrite <- seq_shift, map_map. apply map_ext. intros k.
    rewrite Z.div_div by (try apply Z.pow_pos_nonneg; lia).
    f_equal. f_equal.
    replace (8 * Z.of_nat (S k)) with (8 + 8 * Z.of_nat k) by lia.
    rewrite Z.pow_add_r by lia. reflexivity.
Qed.

Lemma le_value_le_bytes (n : nat) (v : Z) :
  le_value (le_bytes n v) = v mod 2 ^ (8 * Z.of_nat n).
Proof.
  revert v. induction n as [|n IH]; intros v.
  - cbn. rewrite Z.mod_1_r. reflexivity.
  - rewrite le_bytes_succ. cbn [le_value]. rewrite IH.
    replace (8 * Z.of_nat (S n)) with (8 + 8 * Z.of_nat n) by lia.
    rewrite Z.pow_add_r by lia. change (2 ^ 8) with 256.
    rewrite Z.rem_mul_r by (try apply Z.pow_pos_nonneg; lia). reflexivity.
Qed.

Lemma store_le_written (n : nat) (v offset : Z) (buf : bytes) :
  0 <= offset -> offset + Z.of_nat n <= d_size buf ->
  0 <= v < 2 ^ (8 * Z.of_nat n) ->
  written n v offset buf (store_le n v offset buf).
Proof.
  unfold d_size, written, store_le, load_le. intros Ho Hs Hv.
  assert (Hlt : length (take (Z.to_nat offset) buf) = Z.to_nat offset)
    by (rewrite length_take; lia).
  split; [| split].
  - rewrite !length_app, le_bytes_length, Hlt, length_drop. lia.
  - rewrite drop_app_length' by (symmetry; exact Hlt).
    rewrite take_app_length' by (symmetry; apply le_bytes_length).
    rewrite le_value_le_bytes. apply Z.mod_small, Hv.
  - intros j [Hj | Hj].
    + rewrite lookup_app_l by lia. apply lookup_take_lt. lia.
    + rewrite lookup_app_r by lia. rewrite lookup_app_r
        by (rewrite le_bytes_length; lia).
      rewrite lookup_drop, Hlt, le_bytes_length. f_equal. lia.
Qed.

Example apply_relocation_32 :
  apply_relocation [0; 0; 0; 0; 0; 0]
    [ {| r_offset := 1; r_info := Z.lor (Z.shiftl 0 32) R_X86_64_32;
         r_addend := 2 |} ]
    [ {| st_name := 0; st_info := 0; st_other := 0; st_shndx := 0;
         st_value := 305419896; st_size := 0 |} ] 0
  = ([0; 122; 86; 52; 18; 0], Ok tt).
Proof. reflexivity. Qed.

(** C4.  For every relocation entry applied to a section: a relocation
    of type NONE changes nothing and succeeds; a 32-bit (64-bit)
    relocation whose symbol index is inside the symbol table and whose 4
    (8) bytes lie inside the section stores the low 32 bits (all 64
    bits) of [symbol.value + addend] at [offset] and changes nothing
    else; a relocation of another type whose symbol index is outside of
    the symbol table or whose bytes would end past the end of the
    section fails with an ELF-format error and writes nothing; and a
    relocation of unknown type fails with an ELF-format error. *)
Theorem apply_relocation_spec (section : bytes) (rela_section : list Elf64_Rela)
    (symtab : list Elf64_Sym) (i : nat) (reloc : Elf64_Rela) :
  rela_section !! i = Some reloc ->
  rela_in_range reloc ->
  d_size section <= SIZE_MAX ->
  let run := apply_relocation section rela_section symtab i in
  let in_table := rela_sym reloc < Z.of_nat (length symtab) in
  (rela_type reloc = R_X86_64_NONE -> run = (section, Ok tt))
  /\ (forall width : nat,
        (rela_type reloc = R_X86_64_32 /\ width = 4%nat)
        \/ (rela_type reloc = R_X86_64_64 /\ width = 8%nat) ->
        (in_table /\ r_offset reloc + Z.of_nat width <= d_size section ->
         exists sym after,
           symtab !! Z.to_nat (rela_sym reloc) = Some sym
           /\ run = (after, Ok tt)
           /\ written width
                ((st_value sym + r_addend reloc) mod 2 ^ (8 * Z.of_nat width))
                (r_offset reloc) section after)
        /\ (~ in_table \/ d_size section < r_offset reloc + Z.of_nat width ->
            run = (section, Err DRGN_ERROR_ELF_FORMAT)))
  /\ (rela_type reloc <> R_X86_64_NONE ->
      rela_type reloc <> R_X86_64_32 ->
      rela_type reloc <> R_X86_64_64 ->
      run = (section, Err DRGN_ERROR_ELF_FORMAT)).
Proof.
  intros Hi (Ho & Hinfo & Ha) Hsize. cbv zeta.
  unfold apply_relocation. rewrite Hi. cbv zeta.
  assert (Hsym : 0 <= rela_sym reloc)
    by (unfold rela_sym, u32; apply Z.mod_pos_bound; lia).
  split; [| split].
  - intros ->. reflexivity.
  - intros width Hw.
    assert (Hrun :
      (if rela_type reloc =? R_X86_64_NONE then (section, Ok tt)
       else if rela_type reloc =? R_X86_64_32
       then relocate_word section symtab reloc 4
       else if rela_type reloc =? R_X86_64_64
       then relocate_word section symtab reloc 8
       else (section, Err DRGN_ERROR_ELF_FORMAT))
      = relocate_word section symtab reloc width).
    { destruct Hw as [[-> ->] | [-> ->]]; reflexivity. }
    rewrite Hrun. clear Hrun. unfold relocate_word.
    assert (Hwidth : (width = 4 \/ width = 8)%nat) by (destruct Hw; tauto).
    clear Hw. unfold SIZE_MAX, u64, d_size in *.
    split.
    + intros [Hin Hend].
      destruct (lookup_lt_is_Some_2 symtab (Z.to_nat (rela_sym reloc)) ltac:(lia))
        as [sym Hlk].
      exists sym, (store_le width
                     ((st_value sym + r_addend reloc) mod 2 ^ (8 * Z.of_nat width))
                     (r_offset reloc) section).
      split; [exact Hlk |].
      assert (Hmod : (st_value sym + r_addend reloc) mod 2 ^ 64
                       mod 2 ^ (8 * Z.of_nat width)
                     = (st_value sym + r_addend reloc) mod 2 ^ (8 * Z.of_nat width)).
      { destruct Hwidth as [-> | ->].
        - apply Z.mod_mod_divide. exists (2 ^ 32). reflexivity.
        - change (8 * Z.of_nat 8) with 64. apply Z.mod_mod. lia. }
      split.
      * replace (rela_sym reloc >=? Z.of_nat (length symtab)) with false
          by (symmetry; rewrite Z.geb_leb; apply Z.leb_gt; lia).
        replace (r_offset reloc >? 2 ^ 64 - 1 - Z.of_nat width) with false
          by (symmetry; rewrite Z.gtb_ltb; apply Z.ltb_ge; lia).
        rewrite (Z.mod_small (r_offset reloc + Z.of_nat width)) by lia.
        replace (r_offset reloc + Z.of_nat width >? Z.of_nat (length section))
          with false by (symmetry; rewrite Z.gtb_ltb; apply Z.ltb_ge; lia).
        cbn [orb]. rewrite Hlk, Hmod. reflexivity.
      * apply store_le_written; [lia | unfold d_size; lia |].
        apply Z.mod_pos_bound. apply Z.pow_pos_nonneg; lia.
    + intros Hbad.
      destruct (rela_sym reloc >=? Z.of_nat (length symtab)) eqn:E1;
        [reflexivity |].
      rewrite Z.geb_leb in E1. apply Z.leb_gt in E1.
      destruct Hbad as [Hbad | Hbad]; [lia |].
      destruct (r_offset reloc >? 2 ^ 64 - 1 - Z.of_nat width) eqn:E2;
        [reflexivity |].
      rewrite Z.gtb_ltb in E2. apply Z.ltb_ge in E2.
      rewrite (Z.mod_small (r_offset reloc + Z.of_nat width)) by lia.
      replace (r_offset reloc + Z.of_nat width >? Z.of_nat (length section))
        with true by (symmetry; rewrite Z.gtb_ltb; apply Z.ltb_lt; lia).
      reflexivity.
  - intros H0 H32 H64.
    apply Z.eqb_neq in H0, H32, H64. rewrite H0, H32, H64. reflexivity.
Qed.

Lemma apply_relocation_spec_witness :
  exists sym after,
    [ {| st_name := 0; st_info := 0; st_other := 0; st_shndx := 0;
         st_value := 305419896; st_size := 0 |} ] !! 0%nat = Some sym
    /\ apply_relocation [0; 0; 0; 0; 0; 0]
         [ {| r_offset := 1; r_info := R_X86_64_32; r_addend := 2 |} ]
         [ {| st_name := 0; st_info := 0; st_other := 0; st_shndx := 0;
              st_value := 305419896; st_size := 0 |} ] 0
       = (after, Ok tt)
    /\ written 4 ((st_value sym + 2) mod 2 ^ 32) 1 [0; 0; 0; 0; 0; 0] after.
Proof.
  refine (proj1 (proj1 (proj2 (apply_relocation_spec [0; 0; 0; 0; 0; 0]
            [ {| r_offset := 1; r_info := R_X86_64_32; r_addend := 2 |} ]
            [ {| st_name := 0; st_info := 0; st_other := 0; st_shndx := 0;
                 st_value := 305419896; st_size := 0 |} ] 0
            {| r_offset := 1; r_info := R_X86_64_32; r_addend := 2 |} _ _ _))
            4%nat _) _).
  - reflexivity.
  - unfold rela_in_range, R_X86_64_32; cbn [r_offset r_info r_addend]; lia.
  - vm_compute; discriminate.
  - left. split; reflexivity.
  - split; vm_compute; [reflexivity | discriminate].
Defined.

End Relocations.

Section NameIndex.
Import DwarfIndex.

Lemma alloc_refused (h h' : heap) :
  alloc h = (false, h') -> false ∈ h.
Proof.
  destruct h as [| ok rest]; cbn [alloc]; intros [= <- <-] || intros [= -> <-].
  left.
Qed.

Lemma alloc_rest (h h' : heap) (ok : bool) :
  alloc h = (ok, h') -> false ∈ h' -> false ∈ h.
Proof.
  destruct h as [| ok0 rest]; cbn [alloc]; intros [= <- <-]; [auto |].
  intros H. right. exact H.
Qed.

Lemma is_chain_head (slots : list die_entry) (index : Z) (l : list Z) :
  is_chain slots index l -> exists l', l = index :: l'.
Proof. destruct 1; eauto. Qed.

Lemma is_chain_bounds (slots : list die_entry) (index : Z) (l : list Z) :
  is_chain slots index l ->
  forall j, j ∈ l -> index <= j < Z.of_nat (length slots).
Proof.
  induction 1 as [index entry H0 Hlk Hn | index entry l H0 Hlk Hn Hlt Hc IH];
    intros j Hj.
  - apply list_elem_of_singleton in Hj as ->.
    apply lookup_lt_Some in Hlk. lia.
  - apply elem_of_cons in Hj as [-> | Hj].
    + apply lookup_lt_Some in Hlk. lia.
    + specialize (IH j Hj). lia.
Qed.

Lemma is_chain_length (slots : list die_entry) (index : Z) (l : list Z) :
  is_chain slots index l ->
  Z.of_nat (length l) <= Z.of_nat (length slots) - index.
Proof.
  induction 1 as [index entry H0 Hlk Hn | index entry l H0 Hlk Hn Hlt Hc IH].
  - apply lookup_lt_Some in Hlk. cbn [length]. lia.
  - cbn [length]. lia.
Qed.

Lemma is_chain_det (slots : list die_entry) (index : Z) (l1 l2 : list Z) :
  is_chain slots index l1 -> is_chain slots index l2 -> l1 = l2.
Proof.
  intros H1. revert l2.
  induction H1 as [index entry H0 Hlk Hn | index entry l H0 Hlk Hn Hlt Hc IH];
    intros l2 H2; inversion H2; subst; try congruence.
  - f_equal. apply IH. congruence.
Qed.

Lemma chain_from_is_chain (slots : list die_entry) (index : Z) (l : list Z) :
  is_chain slots index l ->
  forall fuel, (length l <= fuel)%nat -> chain_from fuel slots index = l.
Proof.
  induction 1 as [index entry H0 Hlk Hn | index entry l H0 Hlk Hn Hlt Hc IH];
    intros [|fuel] Hf; cbn [length] in Hf; try lia; cbn [chain_from]; rewrite Hlk.
  - rewrite Hn, Z.eqb_refl. reflexivity.
  - apply Z.eqb_neq in Hn. rewrite Hn. f_equal. apply IH. lia.
Qed.

Lemma key_test (e : die_entry) (t fh : Z) :
  (tag e =? t) && (file_name_hash e =? fh) = bool_decide (definition_key e = (t, fh)).
Proof.
  unfold definition_key.
  destruct (Z.eqb_spec (tag e) t), (Z.eqb_spec (file_name_hash e) fh);
    cbn [andb]; symmetry;
    (apply bool_decide_eq_true_2 || apply bool_decide_eq_false_2); congruence.
Qed.

Lemma keys_at_cons (slots : list die_entry) (index : Z) (e : die_entry) (l : list Z) :
  slots !! Z.to_nat index = Some e ->
  keys_at slots (index :: l) = definition_key e :: keys_at slots l.
Proof. intros H. unfold keys_at. cbn [omap list_omap]. rewrite H. reflexivity. Qed.

Lemma default_last_cons (a b x : Z) (l : list Z) :
  default a (last (x :: l)) = default b (last (x :: l)).
Proof.
  revert x. induction l as [|y l IH]; intros x; [reflexivity |].
  apply (IH y).
Qed.

Lemma search_chain_is_chain (slots : list die_entry) (index : Z) (l : list Z)
    (t fh : Z) :
  is_chain slots index l ->
  forall fuel, (length l <= fuel)%nat ->
  search_chain fuel slots index t fh =
    Ok (if bool_decide ((t, fh) ∈ keys_at slots l) then Found
        else Last (default index (last l))).
Proof.
  induction 1 as [index entry H0 Hlk Hn | index entry l H0 Hlk Hn Hlt Hc IH];
    intros [|fuel] Hf; cbn [length] in Hf; try lia;
    cbn [search_chain]; rewrite Hlk, key_test.
  - rewrite (keys_at_cons _ _ _ _ Hlk). unfold keys_at at 1. cbn [omap list_omap fmap list_fmap].
    destruct (decide (definition_key entry = (t, fh))) as [E | E].
    + rewrite bool_decide_eq_true_2 by exact E.
      rewrite bool_decide_eq_true_2 by (rewrite E; apply list_elem_of_here).
      reflexivity.
    + rewrite bool_decide_eq_false_2 by exact E.
      rewrite bool_decide_eq_false_2
        by (intros Hin; apply list_elem_of_singleton in Hin; congruence).
      rewrite Hn, Z.eqb_refl. reflexivity.
  - rewrite (keys_at_cons _ _ _ _ Hlk).
    destruct (decide (definition_key entry = (t, fh))) as [E | E].
    + rewrite bool_decide_eq_true_2 by exact E.
      rewrite bool_decide_eq_true_2 by (rewrite E; apply list_elem_of_here).
      reflexivity.
    + rewrite bool_decide_eq_false_2 by exact E.
      apply Z.eqb_neq in Hn. rewrite Hn. rewrite IH by lia.
      destruct (is_chain_head _ _ _ Hc) as [l' ->].
      f_equal.
      destruct (decide ((t, fh) ∈ keys_at slots (next entry :: l'))) as [Hin | Hin].
      * rewrite !bool_decide_eq_true_2; auto using list_elem_of_further.
      * rewrite !bool_decide_eq_false_2;
          [f_equal; apply (default_last_cons _ _ (next entry) l') | | exact Hin].
        intros Hin'. apply elem_of_cons in Hin' as [? | ?]; [congruence | tauto].
Qed.

Lemma is_chain_app (slots extra : list die_entry) (index : Z) (l : list Z) :
  is_chain slots index l -> is_chain (slots ++ extra) index l.
Proof.
  induction 1 as [index entry H0 Hlk Hn | index entry l H0 Hlk Hn Hlt Hc IH].
  - eapply is_chain_last; eauto. apply lookup_app_l_Some, Hlk.
  - eapply is_chain_link; eauto. apply lookup_app_l_Some, Hlk.
Qed.

Lemma is_chain_insert_other (slots : list die_entry) (index : Z) (l : list Z)
    (j : nat) (e : die_entry) :
  is_chain slots index l -> (forall x, x ∈ l -> Z.to_nat x <> j) ->
  is_chain (<[j := e]> slots) index l.
Proof.
  induction 1 as [index entry H0 Hlk Hn | index entry l H0 Hlk Hn Hlt Hc IH];
    intros Hj.
  - eapply is_chain_last; eauto.
    rewrite list_lookup_insert_ne; [exact Hlk |].
    intros ->. apply (Hj index); [apply list_elem_of_here | reflexivity].
  - eapply is_chain_link; eauto.
    + rewrite list_lookup_insert_ne; [exact Hlk |].
      intros ->. apply (Hj index); [apply list_elem_of_here | reflexivity].
    + apply IH. intros x Hx. apply Hj, list_elem_of_further, Hx.
Qed.

(** Linking a new last slot behind the last entry of a chain. *)
Lemma is_chain_extend (slots : list die_entry) (index : Z) (l : list Z)
    (j : Z) (ej new : die_entry) :
  is_chain slots index l ->
  last l = Some j -> slots !! Z.to_nat j = Some ej ->
  Z.of_nat (length slots) <> SIZE_MAX -> next new = SIZE_MAX ->
  is_chain (<[Z.to_nat j := set_next ej (Z.of_nat (length slots))]> (slots ++ [new]))
    index (l ++ [Z.of_nat (length slots)]).
Proof.
  intros Hc Hlast Hj Hmax Hnew.
  assert (Hk : (<[Z.to_nat j := set_next ej (Z.of_nat (length slots))]>
                  (slots ++ [new])) !! Z.to_nat (Z.of_nat (length slots)) = Some new).
  { rewrite Nat2Z.id. apply lookup_lt_Some in Hj.
    rewrite list_lookup_insert_ne by lia.
    rewrite lookup_app_r by lia. rewrite Nat.sub_diag. reflexivity. }
  induction Hc as [index entry H0 Hlk Hn | index entry l H0 Hlk Hn Hlt Hc IH].
  - cbn in Hlast. injection Hlast as <-.
    assert (entry = ej) by congruence; subst entry.
    apply lookup_lt_Some in Hj as Hlen.
    eapply (is_chain_link _ index (set_next ej (Z.of_nat (length slots)))); cbn [next set_next].
    + exact H0.
    + apply list_lookup_insert_eq. rewrite length_app. cbn [length]. lia.
    + exact Hmax.
    + lia.
    + eapply is_chain_last; [lia | exact Hk | exact Hnew].
  - destruct (is_chain_head _ _ _ Hc) as [l' ->].
    change (last (index :: next entry :: l')) with (last (next entry :: l')) in Hlast.
    assert (Hjl : j ∈ next entry :: l').
    { apply last_Some in Hlast as [l0 ->]. apply elem_of_app. right.
      apply list_elem_of_here. }
    pose proof (is_chain_bounds _ _ _ Hc j Hjl) as Hjb.
    eapply (is_chain_link _ index entry).
    + exact H0.
    + rewrite list_lookup_insert_ne by lia.
      apply lookup_app_l_Some, Hlk.
    + exact Hn.
    + exact Hlt.
    + apply IH. exact Hlast.
Qed.

Lemma keys_at_app_slots (slots extra : list die_entry) (l : list Z) :
  (forall x, x ∈ l -> 0 <= x < Z.of_nat (length slots)) ->
  keys_at (slots ++ extra) l = keys_at slots l.
Proof.
  unfold keys_at. induction l as [|x l IH]; intros Hb; [reflexivity |].
  cbn [omap list_omap].
  rewrite lookup_app_l by (specialize (Hb x (list_elem_of_here _ _)); lia).
  destruct (slots !! Z.to_nat x); cbn [fmap list_fmap];
    rewrite ?IH; auto using list_elem_of_further.
Qed.

Lemma keys_at_insert (slots : list die_entry) (j : nat) (ej e' : die_entry)
    (l : list Z) :
  slots !! j = Some ej -> definition_key e' = definition_key ej ->
  keys_at (<[j := e']> slots) l = keys_at slots l.
Proof.
  intros Hj Hkey. unfold keys_at. induction l as [|x l IH]; [reflexivity |].
  cbn [omap list_omap]. rewrite list_lookup_insert.
  destruct (decide (j = Z.to_nat x ∧ (j < length slots)%nat)) as [[-> _] | _].
  - rewrite Hj. cbn [fmap list_fmap]. rewrite Hkey. f_equal. exact IH.
  - destruct (slots !! Z.to_nat x); cbn [fmap list_fmap]; [f_equal |]; exact IH.
Qed.

Lemma keys_at_snoc (slots : list die_entry) (l : list Z) (k : Z) (e : die_entry) :
  slots !! Z.to_nat k = Some e ->
  keys_at slots (l ++ [k]) = keys_at slots l ++ [definition_key e].
Proof.
  intros Hk. unfold keys_at. rewrite omap_app, fmap_app.
  cbn [omap list_omap]. rewrite Hk. reflexivity.
Qed.

Lemma append_die_entry_cases (h : heap) (shard : dwarf_index_shard)
    (t fh : Z) (f : file_id) (o : Z) :
  num_entries shard = Z.of_nat (length (entries shard)) ->
  exists h',
    append_die_entry h shard t fh f o = (h', None)
    \/ exists capacity,
         append_die_entry h shard t fh f o
         = (h', Some {| shard_map := shard_map shard;
                        entries := entries shard ++ [new_entry t fh f o];
                        num_entries := num_entries shard + 1;
                        entries_capacity := capacity |}).
Proof.
  intros Hn. unfold append_die_entry, write_slot.
  rewrite Hn, Z.ltb_irrefl.
  destruct (Z.of_nat (length (entries shard)) >=? entries_capacity shard).
  - destruct (alloc h) as [[|] h']; eexists; [right; eexists | left]; reflexivity.
  - eexists; right; eexists; reflexivity.
Qed.

Lemma index_die_locked_outcome (h : heap) (shard : dwarf_index_shard)
    (name : string) (t fh : Z) (f : file_id) (o : Z) h' shard' r :
  shard_wf shard ->
  index_die_locked h shard name t fh f o = (h', (shard', r)) ->
  index_die_outcome shard name t fh f o shard' r.
Proof.
  intros Hwf. unfold index_die_locked.
  destruct (append_die_entry_cases h shard t fh f o (wf_num_entries _ Hwf))
    as [h1 [Happ | [capacity Happ]]].
  - (* the array cannot grow *)
    destruct (shard_map shard !! name) as [head|] eqn:Hmap.
    + destruct (wf_chains _ Hwf name head Hmap) as (l & Hc & Hnd).
      pose proof (is_chain_length _ _ _ Hc) as Hlen.
      assert (0 <= head) by (inversion Hc; assumption).
      rewrite (search_chain_is_chain _ _ _ t fh Hc) by lia.
      destruct (decide ((t, fh) ∈ keys_at (entries shard) l)) as [Hin | Hin].
      * rewrite bool_decide_eq_true_2 by exact Hin.
        intros [= <- <- <-]. eapply outcome_found; eauto.
      * rewrite bool_decide_eq_false_2 by exact Hin. rewrite Happ.
        intros [= <- <- <-]. apply outcome_no_memory.
        intros head' l' Hh' Hc'. assert (head' = head) by congruence; subst.
        rewrite (is_chain_det _ _ _ _ Hc' Hc). exact Hin.
    + rewrite Happ. intros [= <- <- <-]. apply outcome_no_memory.
      intros head' l' Hh'. congruence.
  - destruct (shard_map shard !! name) as [head|] eqn:Hmap.
    + destruct (wf_chains _ Hwf name head Hmap) as (l & Hc & Hnd).
      pose proof (is_chain_length _ _ _ Hc) as Hlen.
      assert (0 <= head) by (inversion Hc; assumption).
      rewrite (search_chain_is_chain _ _ _ t fh Hc) by lia.
      destruct (decide ((t, fh) ∈ keys_at (entries shard) l)) as [Hin | Hin].
      * rewrite bool_decide_eq_true_2 by exact Hin.
        intros [= <- <- <-]. eapply outcome_found; eauto.
      * rewrite bool_decide_eq_false_2 by exact Hin. rewrite Happ.
        cbn [entries num_entries shard_map entries_capacity].
        destruct (is_chain_head _ _ _ Hc) as [l' ->].
        destruct (last (head :: l')) as [j|] eqn:Hlast;
          [| apply last_None in Hlast; discriminate].
        cbn [default].
        assert (Hjl : j ∈ head :: l').
        { apply last_Some in Hlast as [l0 Hl0]. rewrite Hl0.
          apply elem_of_app. right. apply list_elem_of_here. }
        pose proof (is_chain_bounds _ _ _ Hc j Hjl) as Hjb.
        destruct (entries shard !! Z.to_nat j) as [ej|] eqn:Hej;
          [| apply lookup_ge_None in Hej; lia].
        rewrite (lookup_app_l_Some _ _ _ _ Hej).
        replace (num_entries shard + 1 - 1) with (num_entries shard) by lia.
        intros [= <- <- <-]. eapply outcome_linked; eauto.
    + rewrite Happ. cbn [entries num_entries shard_map entries_capacity].
      replace (num_entries shard + 1 - 1) with (num_entries shard) by lia.
      destruct (alloc h1) as [[|] h2]; intros [= <- <- <-].
      * apply outcome_new_name, Hmap.
      * apply outcome_not_inserted, Hmap.
Qed.

(** A chain of a well-formed shard is still the chain from its head
    when slots are added behind the array. *)
Lemma old_chain_app (shard : dwarf_index_shard) (extra : list die_entry)
    (name : string) (head : Z) (l : list Z) :
  shard_wf shard -> shard_map shard !! name = Some head ->
  is_chain (entries shard ++ extra) head l ->
  is_chain (entries shard) head l.
Proof.
  intros Hwf Hmap Hc.
  destruct (wf_chains _ Hwf name head Hmap) as (l0 & Hc0 & _).
  rewrite (is_chain_det _ _ _ _ Hc (is_chain_app _ extra _ _ Hc0)). exact Hc0.
Qed.

Lemma chain_nonneg_bounds (slots : list die_entry) (head : Z) (l : list Z) :
  is_chain slots head l ->
  forall x, x ∈ l -> 0 <= x < Z.of_nat (length slots).
Proof.
  intros Hc x Hx. pose proof (is_chain_bounds _ _ _ Hc x Hx).
  assert (0 <= head) by (inversion Hc; assumption). lia.
Qed.

Section Linked.
Context (shard : dwarf_index_shard) (name : string) (head : Z) (l : list Z)
  (j : Z) (ej new : die_entry).
Context (Hwf : shard_wf shard) (Hmax : num_entries shard < SIZE_MAX)
  (Hmap : shard_map shard !! name = Some head)
  (Hc : is_chain (entries shard) head l)
  (Hlast : last l = Some j)
  (Hej : entries shard !! Z.to_nat j = Some ej)
  (Hnew : next new = SIZE_MAX).

Let slots2 : list die_entry :=
  <[Z.to_nat j := set_next ej (num_entries shard)]> (entries shard ++ [new]).

Lemma linked_in_chain : j ∈ l.
Proof.
  apply last_Some in Hlast as [l0 ->]. apply elem_of_app. right.
  apply list_elem_of_here.
Qed.

Lemma linked_own_chain : is_chain slots2 head (l ++ [num_entries shard]).
Proof.
  unfold slots2. rewrite (wf_num_entries _ Hwf).
  apply is_chain_extend; auto.
  rewrite <- (wf_num_entries _ Hwf). lia.
Qed.

Lemma linked_other_chain (name' : string) (head' : Z) (l' : list Z) :
  name' <> name -> shard_map shard !! name' = Some head' ->
  is_chain (entries shard) head' l' -> is_chain slots2 head' l'.
Proof.
  intros Hne Hmap' Hc'. unfold slots2.
  apply is_chain_insert_other; [apply is_chain_app, Hc' |].
  intros x Hx Heq.
  pose proof (chain_nonneg_bounds _ _ _ Hc' x Hx).
  pose proof (chain_nonneg_bounds _ _ _ Hc j linked_in_chain).
  assert (x = j) by lia. subst x.
  exact (wf_disjoint _ Hwf name' name head' head l' l Hne Hmap' Hmap Hc' Hc
           j Hx linked_in_chain).
Qed.

Lemma linked_chains (name' : string) (head' : Z) (l' : list Z) :
  shard_map shard !! name' = Some head' ->
  is_chain slots2 head' l' ->
  (name' = name /\ l' = l ++ [num_entries shard])
  \/ (name' <> name /\ is_chain (entries shard) head' l').
Proof.
  intros Hmap' Hc'. destruct (decide (name' = name)) as [-> | Hne].
  - left. split; [reflexivity |].
    assert (head' = head) by congruence; subst.
    exact (is_chain_det _ _ _ _ Hc' linked_own_chain).
  - right. split; [exact Hne |].
    destruct (wf_chains _ Hwf name' head' Hmap') as (l0 & Hc0 & _).
    rewrite (is_chain_det _ _ _ _ Hc'
               (linked_other_chain name' head' l0 Hne Hmap' Hc0)).
    exact Hc0.
Qed.

Lemma linked_keys (head' : Z) (l' : list Z) :
  is_chain (entries shard) head' l' ->
  keys_at slots2 l' = keys_at (entries shard) l'.
Proof.
  intros Hc'. unfold slots2.
  rewrite (keys_at_insert _ _ ej) by
    (auto using lookup_app_l_Some).
  apply keys_at_app_slots, (chain_nonneg_bounds _ _ _ Hc').
Qed.

Lemma linked_new_slot : slots2 !! Z.to_nat (num_entries shard) = Some new.
Proof.
  unfold slots2. rewrite (wf_num_entries _ Hwf), Nat2Z.id.
  apply lookup_lt_Some in Hej as Hlt.
  rewrite list_lookup_insert_ne by lia.
  rewrite lookup_app_r by lia. rewrite Nat.sub_diag. reflexivity.
Qed.
End Linked.

Lemma new_slot_lookup (slots : list die_entry) (new : die_entry) :
  (slots ++ [new]) !! Z.to_nat (Z.of_nat (length slots)) = Some new.
Proof.
  rewrite Nat2Z.id, lookup_app_r by lia. rewrite Nat.sub_diag. reflexivity.
Qed.

Lemma new_slot_chain (slots : list die_entry) (new : die_entry) :
  next new = SIZE_MAX ->
  is_chain (slots ++ [new]) (Z.of_nat (length slots)) [Z.of_nat (length slots)].
Proof.
  intros Hn. eapply is_chain_last; [lia | apply new_slot_lookup | exact Hn].
Qed.

Lemma NoDup_keys_app (shard : dwarf_index_shard) (extra : list die_entry)
    (name : string) (head : Z) :
  shard_wf shard -> shard_map shard !! name = Some head ->
  exists l, is_chain (entries shard ++ extra) head l
            /\ NoDup (keys_at (entries shard ++ extra) l).
Proof.
  intros Hwf Hmap.
  destruct (wf_chains _ Hwf name head Hmap) as (l & Hc & Hnd).
  exists l. split; [apply is_chain_app, Hc |].
  rewrite keys_at_app_slots by apply (chain_nonneg_bounds _ _ _ Hc). exact Hnd.
Qed.

(** [index_die] keeps the invariant. *)
Lemma index_die_outcome_wf (shard : dwarf_index_shard) (name : string)
    (t fh : Z) (f : file_id) (o : Z) shard' r :
  shard_wf shard -> num_entries shard < SIZE_MAX ->
  index_die_outcome shard name t fh f o shard' r ->
  shard_wf shard'.
Proof.
  intros Hwf Hmax Hout.
  pose proof (wf_num_entries _ Hwf) as Hnum.
  destruct Hout as [head l Hmap Hc Hin | Hnot | capacity Hmap | capacity Hmap
                   | head l j ej capacity Hmap Hc Hin Hlast Hej];
    try exact Hwf.
  - (* a new name *)
    constructor; cbn [shard_map entries num_entries].
    + rewrite length_app. cbn [length]. lia.
    + intros name' head' Hmap'. rewrite Hnum in Hmap'.
      apply lookup_insert_Some in Hmap' as [[<- <-] | [Hne Hmap']].
      * eexists. split; [apply new_slot_chain; reflexivity |].
        unfold keys_at. cbn [omap list_omap]. rewrite new_slot_lookup.
        cbn. apply NoDup_singleton.
      * eapply NoDup_keys_app; eauto.
    + intros name1 name2 head1 head2 l1 l2 Hne H1 H2 Hc1 Hc2 index Hi1 Hi2.
      rewrite Hnum in H1, H2.
      apply lookup_insert_Some in H1 as [[<- <-] | [Hne1 H1]];
        apply lookup_insert_Some in H2 as [[<- <-] | [Hne2 H2]];
        try congruence.
      * rewrite (is_chain_det _ _ _ _ Hc1
                   (new_slot_chain _ (new_entry t fh f o) eq_refl)) in Hi1.
        apply list_elem_of_singleton in Hi1 as ->.
        pose proof (chain_nonneg_bounds _ _ _
                      (old_chain_app _ _ _ _ _ Hwf H2 Hc2) _ Hi2). lia.
      * rewrite (is_chain_det _ _ _ _ Hc2
                   (new_slot_chain _ (new_entry t fh f o) eq_refl)) in Hi2.
        apply list_elem_of_singleton in Hi2 as ->.
        pose proof (chain_nonneg_bounds _ _ _
                      (old_chain_app _ _ _ _ _ Hwf H1 Hc1) _ Hi1). lia.
      * eapply (wf_disjoint _ Hwf name1 name2); eauto using old_chain_app.
  - (* the entry was written, the name was not inserted *)
    constructor; cbn [shard_map entries num_entries].
    + rewrite length_app. cbn [length]. lia.
    + intros name' head' Hmap'. eapply NoDup_keys_app; eauto.
    + intros name1 name2 head1 head2 l1 l2 Hne H1 H2 Hc1 Hc2 index Hi1 Hi2.
      eapply (wf_disjoint _ Hwf name1 name2); eauto using old_chain_app.
  - (* linked behind the chain *)
    assert (Hnd : NoDup (keys_at (entries shard) l)).
    { destruct (wf_chains _ Hwf name head Hmap) as (l0 & Hc0 & Hnd).
      rewrite (is_chain_det _ _ _ _ Hc Hc0). exact Hnd. }
    set (new := new_entry t fh f o).
    assert (Hnew : next new = SIZE_MAX) by reflexivity.
    constructor; cbn [shard_map entries num_entries].
    + rewrite length_insert, length_app. cbn [length]. lia.
    + intros name' head' Hmap'.
      destruct (decide (name' = name)) as [-> | Hne].
      * assert (head' = head) by congruence; subst head'.
        exists (l ++ [num_entries shard]). split.
        { exact (linked_own_chain shard head l j ej new Hwf Hmax Hc Hlast Hej Hnew). }
        rewrite (keys_at_snoc _ _ _ new)
          by (apply (linked_new_slot shard j ej new Hwf Hej)).
        rewrite (linked_keys shard j ej new Hej head l Hc).
        apply NoDup_app. split; [exact Hnd |]. split; [| apply NoDup_singleton].
        intros x Hx Hx'. apply list_elem_of_singleton in Hx'. subst x.
        exact (Hin Hx).
      * destruct (wf_chains _ Hwf name' head' Hmap') as (l0 & Hc0 & Hnd0).
        exists l0. split.
        { exact (linked_other_chain shard name head l j ej new Hwf Hmap Hc Hlast
                   name' head' l0 Hne Hmap' Hc0). }
        rewrite (linked_keys shard j ej new Hej head' l0 Hc0). exact Hnd0.
    + intros name1 name2 head1 head2 l1 l2 Hne H1 H2 Hc1 Hc2 index Hi1 Hi2.
      destruct (linked_chains shard name head l j ej new Hwf Hmax Hmap Hc Hlast
                  Hej Hnew name1 head1 l1 H1 Hc1) as [[-> ->] | [Hn1 Hc1']];
        destruct (linked_chains shard name head l j ej new Hwf Hmax Hmap Hc Hlast
                    Hej Hnew name2 head2 l2 H2 Hc2) as [[-> ->] | [Hn2 Hc2']];
        try congruence.
      * apply elem_of_app in Hi1 as [Hi1 | Hi1].
        -- exact (wf_disjoint _ Hwf name name2 head head2 l l2 Hne Hmap H2 Hc Hc2'
                    index Hi1 Hi2).
        -- apply list_elem_of_singleton in Hi1 as ->.
           pose proof (chain_nonneg_bounds _ _ _ Hc2' _ Hi2). lia.
      * apply elem_of_app in Hi2 as [Hi2 | Hi2].
        -- exact (wf_disjoint _ Hwf name1 name head1 head l1 l Hne H1 Hmap Hc1' Hc
                    index Hi1 Hi2).
        -- apply list_elem_of_singleton in Hi2 as ->.
           pose proof (chain_nonneg_bounds _ _ _ Hc1' _ Hi1). lia.
      * exact (wf_disjoint _ Hwf name1 name2 head1 head2 l1 l2 Hne H1 H2 Hc1' Hc2'
                 index Hi1 Hi2).
Qed.

Lemma append_die_entry_num_entries (h : heap) (shard : dwarf_index_shard)
    (t fh : Z) (f : file_id) (o : Z) h' shard' :
  append_die_entry h shard t fh f o = (h', Some shard') ->
  num_entries shard' = num_entries shard + 1.
Proof.
  unfold append_die_entry.
  destruct (num_entries shard >=? entries_capacity shard);
    [destruct (alloc h) as [[|] ?] |]; intros [= <- <-]; reflexivity.
Qed.

Lemma index_die_locked_num_entries (h : heap) (shard : dwarf_index_shard)
    (name : string) (t fh : Z) (f : file_id) (o : Z) h' shard' r :
  index_die_locked h shard name t fh f o = (h', (shard', r)) ->
  num_entries shard <= num_entries shard'.
Proof.
  unfold index_die_locked.
  destruct (shard_map shard !! name).
  - destruct (search_chain _ _ _ _ _) as [[|index] | | |];
      try (intros [= <- <- <-]; lia).
    destruct (append_die_entry h shard t fh f o) as [h1 [shard1|]] eqn:Happ;
      [| intros [= <- <- <-]; lia].
    apply append_die_entry_num_entries in Happ.
    destruct (entries shard1 !! Z.to_nat index); intros [= <- <- <-];
      cbn [num_entries]; lia.
  - destruct (append_die_entry h shard t fh f o) as [h1 [shard1|]] eqn:Happ;
      [| intros [= <- <- <-]; lia].
    apply append_die_entry_num_entries in Happ.
    destruct (alloc h1) as [[|] ?]; intros [= <- <- <-]; cbn [num_entries]; lia.
Qed.

Lemma empty_shard_wf : shard_wf empty_shard.
Proof.
  constructor; cbn.
  - reflexivity.
  - intros name head H. rewrite lookup_empty in H. discriminate.
  - intros name1 name2 head1 head2 l1 l2 _ H. rewrite lookup_empty in H.
    discriminate.
Qed.

(** Every shard that calls of [index_die] have built satisfies the
    invariant, as long as the indices stay below [SIZE_MAX]. *)
Lemma built_by_index_die_wf (shard : dwarf_index_shard) :
  built_by_index_die shard -> num_entries shard < SIZE_MAX -> shard_wf shard.
Proof.
  induction 1 as [| h shard name t fh f o h' shard' r Hb IH Hrun]; intros Hmax.
  - apply empty_shard_wf.
  - pose proof (index_die_locked_num_entries _ _ _ _ _ _ _ _ _ _ Hrun) as Hle.
    assert (Hwf : shard_wf shard) by (apply IH; lia).
    eapply index_die_outcome_wf; [exact Hwf | lia |].
    eapply index_die_locked_outcome; eauto.
Qed.

(** The chain that a lookup follows is the chain of the invariant. *)
Lemma chain_is_chain (shard : dwarf_index_shard) (name : string) (head : Z)
    (l : list Z) :
  shard_map shard !! name = Some head -> is_chain (entries shard) head l ->
  chain shard name = l.
Proof.
  intros Hmap Hc. unfold chain. rewrite Hmap.
  apply chain_from_is_chain; [exact Hc |].
  pose proof (is_chain_length _ _ _ Hc).
  assert (0 <= head) by (inversion Hc; assumption). lia.
Qed.

Lemma chain_entries_keys (shard : dwarf_index_shard) (name : string) :
  definition_key <$> chain_entries shard name
  = keys_at (entries shard) (chain shard name).
Proof. reflexivity. Qed.

(** The payloads of the entries at the indices [l]. *)
Lemma payload_app_slots (slots extra : list die_entry) (l : list Z) :
  (forall x, x ∈ l -> 0 <= x < Z.of_nat (length slots)) ->
  omap (fun index => (slots ++ extra) !! Z.to_nat index) l
  = omap (fun index => slots !! Z.to_nat index) l.
Proof.
  induction l as [|x l IH]; intros Hb; [reflexivity |].
  cbn [omap list_omap].
  rewrite lookup_app_l by (specialize (Hb x (list_elem_of_here _ _)); lia).
  rewrite IH by auto using list_elem_of_further. reflexivity.
Qed.

Lemma payload_insert (slots : list die_entry) (j : nat) (ej : die_entry) (n : Z)
    (l : list Z) :
  slots !! j = Some ej ->
  entry_payload <$> omap (fun index => (<[j := set_next ej n]> slots) !! Z.to_nat index) l
  = entry_payload <$> omap (fun index => slots !! Z.to_nat index) l.
Proof.
  intros Hj. induction l as [|x l IH]; [reflexivity |].
  cbn [omap list_omap]. rewrite list_lookup_insert.
  destruct (decide (j = Z.to_nat x ∧ (j < length slots)%nat)) as [[-> _] | _].
  - rewrite Hj. cbn [fmap list_fmap]. f_equal. exact IH.
  - destruct (slots !! Z.to_nat x); cbn [fmap list_fmap]; [f_equal |]; exact IH.
Qed.

Section Outcomes.
Context (shard : dwarf_index_shard) (name : string) (t fh : Z) (f : file_id)
  (o : Z) (shard' : dwarf_index_shard) (r : res unit).
Context (Hwf : shard_wf shard) (Hmax : num_entries shard < SIZE_MAX)
  (Hout : index_die_outcome shard name t fh f o shard' r).

Lemma outcome_result : r = Ok tt \/ r = Err DRGN_ERROR_NO_MEMORY.
Proof. destruct Hout; auto. Qed.

Lemma chain_unmapped (s : dwarf_index_shard) (n : string) :
  shard_map s !! n = None -> chain s n = [].
Proof. intros H. unfold chain. rewrite H. reflexivity. Qed.

Lemma outcome_present :
  (t, fh) ∈ definition_key <$> chain_entries shard name ->
  shard' = shard /\ r = Ok tt.
Proof.
  rewrite chain_entries_keys. intros Hin.
  destruct Hout as [head l Hmap Hc Hin' | Hnot | capacity Hmap | capacity Hmap
                   | head l j ej capacity Hmap Hc Hin' Hlast Hej].
  - auto.
  - exfalso. destruct (shard_map shard !! name) as [head|] eqn:Hmap.
    + destruct (wf_chains _ Hwf name head Hmap) as (l & Hc & _).
      rewrite (chain_is_chain _ _ _ _ Hmap Hc) in Hin.
      exact (Hnot head l eq_refl Hc Hin).
    + rewrite (chain_unmapped _ _ Hmap) in Hin. inversion Hin.
  - exfalso. rewrite (chain_unmapped _ _ Hmap) in Hin. inversion Hin.
  - exfalso. rewrite (chain_unmapped _ _ Hmap) in Hin. inversion Hin.
  - exfalso. rewrite (chain_is_chain _ _ _ _ Hmap Hc) in Hin. exact (Hin' Hin).
Qed.

Lemma outcome_absent :
  (t, fh) ∉ definition_key <$> chain_entries shard name -> r = Ok tt ->
  chain shard' name = chain shard name ++ [num_entries shard]
  /\ entry_payload <$> chain_entries shard' name
     = (entry_payload <$> chain_entries shard name) ++ [(t, fh, f, o)].
Proof.
  rewrite chain_entries_keys. intros Hin Hr.
  pose proof (wf_num_entries _ Hwf) as Hnum.
  destruct Hout as [head l Hmap Hc Hin' | Hnot | capacity Hmap | capacity Hmap
                   | head l j ej capacity Hmap Hc Hin' Hlast Hej];
    try discriminate.
  - exfalso. rewrite (chain_is_chain _ _ _ _ Hmap Hc) in Hin. exact (Hin Hin').
  - unfold chain_entries.
    rewrite (chain_unmapped _ _ Hmap). cbn [app].
    assert (Hch : chain
              {| shard_map := <[name:=num_entries shard]> (shard_map shard);
                 entries := entries shard ++ [new_entry t fh f o];
                 num_entries := num_entries shard + 1;
                 entries_capacity := capacity |} name = [num_entries shard]).
    { apply (chain_is_chain _ _ (num_entries shard)); cbn [shard_map entries].
      - apply lookup_insert_eq.
      - rewrite Hnum. apply new_slot_chain. reflexivity. }
    rewrite Hch. split; [reflexivity |].
    cbn [entries omap list_omap]. rewrite Hnum, new_slot_lookup. reflexivity.
  - set (new := new_entry t fh f o).
    assert (Hnew : next new = SIZE_MAX) by reflexivity.
    unfold chain_entries.
    rewrite (chain_is_chain _ _ _ _ Hmap Hc).
    rewrite (chain_is_chain _ name head (l ++ [num_entries shard]));
      [| exact Hmap
       | exact (linked_own_chain shard head l j ej new Hwf Hmax Hc Hlast Hej Hnew)].
    split; [reflexivity |].
    cbn [entries]. rewrite omap_app, fmap_app. f_equal.
    + rewrite (payload_insert _ _ ej) by auto using lookup_app_l_Some.
      rewrite payload_app_slots by apply (chain_nonneg_bounds _ _ _ Hc).
      reflexivity.
    + cbn [omap list_omap].
      rewrite (linked_new_slot shard j ej new Hwf Hej). reflexivity.
Qed.

Lemma outcome_others (other : string) :
  other <> name ->
  chain shard' other = chain shard other
  /\ entry_payload <$> chain_entries shard' other
     = entry_payload <$> chain_entries shard other.
Proof.
  intros Hne.
  pose proof (wf_num_entries _ Hwf) as Hnum.
  assert (Hadd : forall capacity m,
    m !! other = shard_map shard !! other ->
    let s1 := {| shard_map := m;
                 entries := entries shard ++ [new_entry t fh f o];
                 num_entries := num_entries shard + 1;
                 entries_capacity := capacity |} in
    chain s1 other = chain shard other
    /\ entry_payload <$> chain_entries s1 other
       = entry_payload <$> chain_entries shard other).
  { intros capacity m Hm s1. subst s1.
    set (s1 := {| shard_map := m;
                  entries := entries shard ++ [new_entry t fh f o];
                  num_entries := num_entries shard + 1;
                  entries_capacity := capacity |}).
    assert (Hs1 : entries s1 = entries shard ++ [new_entry t fh f o])
      by reflexivity.
    destruct (shard_map shard !! other) as [head|] eqn:Hmap.
    - destruct (wf_chains _ Hwf other head Hmap) as (l & Hc & _).
      assert (Hch : chain s1 other = l).
      { apply (chain_is_chain _ _ head); [exact Hm | apply is_chain_app, Hc]. }
      unfold chain_entries. rewrite Hch, (chain_is_chain _ _ _ _ Hmap Hc).
      split; [reflexivity |]. rewrite Hs1.
      rewrite payload_app_slots by apply (chain_nonneg_bounds _ _ _ Hc).
      reflexivity.
    - unfold chain_entries.
      rewrite (chain_unmapped s1 other Hm), (chain_unmapped _ _ Hmap). auto. }
  destruct Hout as [head l Hmap Hc Hin' | Hnot | capacity Hmap | capacity Hmap
                   | head l j ej capacity Hmap Hc Hin' Hlast Hej]; auto.
  - apply Hadd. apply lookup_insert_ne. congruence.
  - set (new := new_entry t fh f o).
    destruct (shard_map shard !! other) as [head'|] eqn:Hmap'.
    + destruct (wf_chains _ Hwf other head' Hmap') as (l' & Hc' & _).
      unfold chain_entries.
      rewrite (chain_is_chain _ _ _ _ Hmap' Hc').
      rewrite (chain_is_chain _ other head' l');
        [| exact Hmap'
         | exact (linked_other_chain shard name head l j ej new Hwf Hmap Hc Hlast
                    other head' l' Hne Hmap' Hc')].
      split; [reflexivity |]. cbn [entries].
      rewrite (payload_insert _ _ ej) by auto using lookup_app_l_Some.
      rewrite payload_app_slots by apply (chain_nonneg_bounds _ _ _ Hc').
      reflexivity.
    + unfold chain_entries.
      rewrite (chain_unmapped _ _ Hmap'), chain_unmapped by exact Hmap'. auto.
Qed.

Lemma outcome_failed :
  r = Err DRGN_ERROR_NO_MEMORY ->
  chain shard' name = chain shard name.
Proof.
  intros Hr.
  destruct Hout as [head l Hmap Hc Hin' | Hnot | capacity Hmap | capacity Hmap
                   | head l j ej capacity Hmap Hc Hin' Hlast Hej];
    try discriminate; try reflexivity.
  rewrite (chain_unmapped _ _ Hmap), chain_unmapped by exact Hmap. reflexivity.
Qed.

Lemma outcome_slots (index : nat) (e : die_entry) :
  entries shard !! index = Some e ->
  exists e', entries shard' !! index = Some e'
             /\ entry_payload e' = entry_payload e.
Proof.
  intros He.
  destruct Hout as [head l Hmap Hc Hin' | Hnot | capacity Hmap | capacity Hmap
                   | head l j ej capacity Hmap Hc Hin' Hlast Hej];
    cbn [entries]; eauto using lookup_app_l_Some.
  rewrite list_lookup_insert.
  destruct (decide (Z.to_nat j = index ∧ _)) as [[<- _] | _].
  - exists (set_next ej (num_entries shard)). split; [reflexivity |].
    assert (e = ej) by congruence. subst. reflexivity.
  - eauto using lookup_app_l_Some.
Qed.
End Outcomes.

Example index_die_twice :
  let '(_, (s1, _)) := index_die_locked [] empty_shard "foo" 52 7 0%nat 11 in
  let '(_, (s2, _)) := index_die_locked [] s1 "foo" 22 7 1%nat 30 in
  let '(_, (s3, _)) := index_die_locked [] s2 "foo" 52 7 2%nat 99 in
  s3 = s2
  /\ chain s3 "foo" = [0; 1]
  /\ entry_payload <$> chain_entries s3 "foo" = [(52, 7, 0%nat, 11); (22, 7, 1%nat, 30)].
Proof. vm_compute. auto. Qed.

Lemma search_chain_no_error (fuel : nat) (slots : list die_entry) (t fh : Z) :
  forall index e, search_chain fuel slots index t fh <> Err e.
Proof.
  induction fuel as [| fuel IH]; intros index e; cbn [search_chain];
    [discriminate |].
  repeat case_match; try discriminate. apply IH.
Qed.

Lemma append_die_entry_refused h shard t fh f o h' :
  append_die_entry h shard t fh f o = (h', None) -> false ∈ h.
Proof.
  unfold append_die_entry.
  destruct (num_entries shard >=? entries_capacity shard); [| discriminate].
  destruct (alloc h) as [[|] h1] eqn:Halloc; [discriminate |].
  intros _. exact (alloc_refused _ _ Halloc).
Qed.

Lemma append_die_entry_rest h shard t fh f o h' r :
  append_die_entry h shard t fh f o = (h', r) -> false ∈ h' -> false ∈ h.
Proof.
  unfold append_die_entry.
  destruct (num_entries shard >=? entries_capacity shard).
  - destruct (alloc h) as [ok h1] eqn:Halloc.
    destruct ok; intros [= <- _]; exact (alloc_rest _ _ _ Halloc).
  - intros [= <- _]. auto.
Qed.

(** [index_die] fails for want of memory only when the allocator
    refuses. *)
Lemma index_die_locked_refused h shard name t fh f o h' shard' :
  index_die_locked h shard name t fh f o
  = (h', (shard', Err DRGN_ERROR_NO_MEMORY)) ->
  false ∈ h.
Proof.
  unfold index_die_locked.
  destruct (shard_map shard !! name).
  - pose proof (search_chain_no_error (length (entries shard)) (entries shard)
                  t fh z) as Hno.
    destruct (search_chain _ _ _ _ _) as [[| index] | e | |];
      try discriminate; [| intros _; exfalso; exact (Hno e eq_refl)].
    destruct (append_die_entry h shard t fh f o) as [h1 [shard1 |]] eqn:Happ.
    + destruct (entries shard1 !! Z.to_nat index); discriminate.
    + intros _. exact (append_die_entry_refused _ _ _ _ _ _ _ Happ).
  - destruct (append_die_entry h shard t fh f o) as [h1 [shard1 |]] eqn:Happ.
    + destruct (alloc h1) as [[|] h2] eqn:Halloc; [discriminate |].
      intros _. apply (append_die_entry_rest _ _ _ _ _ _ _ _ Happ).
      exact (alloc_refused _ _ Halloc).
    + intros _. exact (append_die_entry_refused _ _ _ _ _ _ _ Happ).
Qed.

(** The chains of the shards that were never rolled back.  On every
    shard that calls of [index_die] alone have built, a call of
    [index_die] for a name, a tag and a file name hash returns, with
    success or, only when the allocator refuses, with the out-of-memory
    error.  The chain of the name holds no two entries with the same
    tag and hash, before and after the call.  If an entry with that tag
    and hash is in the chain already, the shard is left unchanged;
    otherwise, when the call succeeds, the new entry is the last of the
    chain, behind the entries that were there, which keep their order
    and their contents; when it fails, the chain is as it was.  The
    chains of all other names are as they were. *)
Theorem index_die_appends_once (h : heap) (shard : dwarf_index_shard)
    (name : string) (t fh : Z) (f : file_id) (o : Z) :
  built_by_index_die shard -> num_entries shard < SIZE_MAX ->
  exists h' shard' r,
    index_die_locked h shard name t fh f o = (h', (shard', r))
    /\ (r = Ok tt \/ r = Err DRGN_ERROR_NO_MEMORY)
    /\ (r = Err DRGN_ERROR_NO_MEMORY -> false ∈ h)
    /\ NoDup (definition_key <$> chain_entries shard name)
    /\ NoDup (definition_key <$> chain_entries shard' name)
    /\ ((t, fh) ∈ definition_key <$> chain_entries shard name ->
        shard' = shard /\ r = Ok tt)
    /\ ((t, fh) ∉ definition_key <$> chain_entries shard name -> r = Ok tt ->
        chain shard' name = chain shard name ++ [num_entries shard]
        /\ entry_payload <$> chain_entries shard' name
           = (entry_payload <$> chain_entries shard name) ++ [(t, fh, f, o)])
    /\ (r = Err DRGN_ERROR_NO_MEMORY -> chain shard' name = chain shard name)
    /\ (forall other, other <> name ->
          chain shard' other = chain shard other
          /\ entry_payload <$> chain_entries shard' other
             = entry_payload <$> chain_entries shard other)
    /\ (forall index e, entries shard !! index = Some e ->
          exists e', entries shard' !! index = Some e'
                     /\ entry_payload e' = entry_payload e).
Proof.
  intros Hb Hmax.
  pose proof (built_by_index_die_wf _ Hb Hmax) as Hwf.
  destruct (index_die_locked h shard name t fh f o) as [h' [shard' r]] eqn:Hrun.
  pose proof (index_die_locked_outcome _ _ _ _ _ _ _ _ _ _ Hwf Hrun) as Hout.
  pose proof (index_die_locked_num_entries _ _ _ _ _ _ _ _ _ _ Hrun) as Hle.
  assert (Hnd : forall s, shard_wf s ->
                  NoDup (definition_key <$> chain_entries s name)).
  { intros s Hs. rewrite chain_entries_keys.
    destruct (shard_map s !! name) as [head|] eqn:Hmap.
    - destruct (wf_chains _ Hs name head Hmap) as (l & Hc & Hnd).
      rewrite (chain_is_chain _ _ _ _ Hmap Hc). exact Hnd.
    - rewrite (chain_unmapped _ _ Hmap). apply NoDup_nil_2. }
  exists h', shard', r. split; [reflexivity |].
  split; [exact (outcome_result _ _ _ _ _ _ _ _ Hout) |].
  split; [intros ->; exact (index_die_locked_refused _ _ _ _ _ _ _ _ _ Hrun) |].
  split; [apply Hnd, Hwf |].
  split; [apply Hnd; eapply index_die_outcome_wf; eauto |].
  split; [exact (outcome_present _ _ _ _ _ _ _ _ Hwf Hout) |].
  split; [exact (outcome_absent _ _ _ _ _ _ _ _ Hwf Hmax Hout) |].
  split; [exact (outcome_failed _ _ _ _ _ _ _ _ Hout) |].
  split; [exact (outcome_others _ _ _ _ _ _ _ _ Hwf Hout) |].
  exact (outcome_slots _ _ _ _ _ _ _ _ Hout).
Qed.

Example index_die_appends_once_on_empty_shard :
  exists h' shard' r,
    index_die_locked [] empty_shard "foo" 52 7 0%nat 11 = (h', (shard', r))
    /\ (r = Ok tt \/ r = Err DRGN_ERROR_NO_MEMORY).
Proof.
  destruct (index_die_appends_once [] empty_shard "foo" 52 7 0%nat 11)
    as (h' & shard' & r & Hrun & Hr & _).
  - exact built_empty.
  - reflexivity.
  - exists h', shard', r. split; assumption.
Qed.

End NameIndex.

Section EnumeratorWalk.
Import DwarfIndex.

Lemma placement_cases depth tag off enum e' o :
  placement depth tag off enum = Some (e', o) ->
  (depth = 1 /\ o = off
   /\ e' = (if tag =? DW_TAG_enumeration_type then off else enum))
  \/ (depth = 2 /\ tag = DW_TAG_enumerator /\ enum <> 0
      /\ e' = enum /\ o = enum).
Proof.
  unfold placement.
  destruct (depth =? 1) eqn:Hd1; cbn [andb negb].
  - apply Z.eqb_eq in Hd1.
    destruct (tag =? DW_TAG_enumeration_type) eqn:Ht.
    + intros [= <- <-]. left. auto.
    + replace (depth =? 2) with false by (symmetry; apply Z.eqb_neq; lia).
      cbn [andb]. intros [= <- <-]. left. auto.
  - destruct ((depth =? 2) && (tag =? DW_TAG_enumerator)
              && negb (enum =? 0)) eqn:He; [| discriminate].
    intros [= <- <-]. right.
    apply andb_prop in He as [He Hz]. apply andb_prop in He as [Hd2 Ht].
    apply Z.eqb_eq in Hd2, Ht. apply negb_true_iff, Z.eqb_neq in Hz. auto.
Qed.

Lemma placement_none depth tag off enum :
  placement depth tag off enum = None -> depth <> 1.
Proof.
  unfold placement.
  destruct (depth =? 1) eqn:Hd1; cbn [andb negb].
  - destruct (tag =? DW_TAG_enumeration_type); [discriminate |].
    destruct ((depth =? 2) && (tag =? DW_TAG_enumerator) && negb (enum =? 0));
      discriminate.
  - intros _. now apply Z.eqb_neq.
Qed.

Lemma index_read_die_spec ext df cu table info end_ ss w off d
    ix hashes e' call r :
  index_read_die ext df cu table info end_ ss w off d
  = ((ix, hashes, e', call), r) ->
  e' = (if records_enumeration w d then off else enum_die_offset w)
  /\ forall c, call = Some c ->
       call_tag c = die_tag d
       /\ ((depth w = 1 /\ call_offset c = off)
           \/ (depth w = 2 /\ die_tag d = DW_TAG_enumerator
               /\ enum_die_offset w <> 0
               /\ call_offset c = enum_die_offset w)).
Proof.
  unfold index_read_die, records_enumeration.
  destruct (die_tag d =? DW_TAG_compile_unit) eqn:Hcu.
  { apply Z.eqb_eq in Hcu. rewrite Hcu.
    replace (DW_TAG_compile_unit =? DW_TAG_enumeration_type) with false
      by reflexivity.
    rewrite andb_false_r. cbn [andb].
    intros H. split.
    - repeat case_match; simplify_eq; reflexivity.
    - intros c ->. repeat case_match; simplify_eq. }
  destruct (negb (die_tag d =? 0)
            && negb (has_flag (die_flags d) TAG_FLAG_DECLARATION)) eqn:Hix.
  2:{ intros [= <- <- <- <- <-]. split; [| discriminate].
      apply andb_false_iff in Hix as [Hz | Hdecl].
      - apply negb_false_iff, Z.eqb_eq in Hz. rewrite Hz.
        replace (0 =? DW_TAG_enumeration_type) with false by reflexivity.
        now rewrite andb_false_r.
      - rewrite Hdecl. now rewrite andb_false_r. }
  apply andb_prop in Hix as [_ Hdecl]. rewrite Hdecl, andb_true_r.
  destruct (placement (depth w) (die_tag d) off (enum_die_offset w))
    as [[e o] |] eqn:Hp.
  2:{ intros [= <- <- <- <- <-]. split; [| discriminate].
      apply placement_none in Hp.
      replace (depth w =? 1) with false by (symmetry; now apply Z.eqb_neq).
      reflexivity. }
  apply placement_cases in Hp.
  assert (He : e = (if (depth w =? 1)
                       && (die_tag d =? DW_TAG_enumeration_type)
                    then off else enum_die_offset w)).
  { destruct Hp as [(Hd & _ & ->) | (Hd & _ & _ & -> & _)]; rewrite Hd.
    - reflexivity.
    - reflexivity. }
  assert (Hc : forall c, call_tag c = die_tag d -> call_offset c = o ->
             call_tag c = die_tag d
             /\ ((depth w = 1 /\ call_offset c = off)
                 \/ (depth w = 2 /\ die_tag d = DW_TAG_enumerator
                     /\ enum_die_offset w <> 0
                     /\ call_offset c = enum_die_offset w))).
  { intros c Ht Ho. split; [exact Ht |].
    destruct Hp as [(Hd & -> & _) | (Hd & Htag & Hz & _ & ->)]; auto. }
  clear Hp. intros H.
  repeat case_match; simplify_eq; (split; [reflexivity |]);
    intros c Hcall; simplify_eq; apply Hc; reflexivity.
Qed.


Lemma last_enumeration_type_snoc vs v :
  last_enumeration_type (vs ++ [v])
  = if is_enumeration_type_visit v then Some (visit_offset v)
    else last_enumeration_type vs.
Proof.
  unfold last_enumeration_type. rewrite filter_app.
  destruct (is_enumeration_type_visit v) eqn:Hv.
  - rewrite filter_cons_True by (rewrite Hv; exact I).
    rewrite filter_nil, last_snoc. reflexivity.
  - rewrite filter_cons_False by (rewrite Hv; exact id).
    rewrite filter_nil, app_nil_r. reflexivity.
Qed.

Lemma walk_inv_same w w' :
  enum_die_offset w' = enum_die_offset w \/ enum_die_offset w' = 0 ->
  visits w' = visits w -> walk_inv w -> walk_inv w'.
Proof.
  intros He Hv [Hlast Hall]. split.
  - rewrite Hv. intros Hnz. destruct He as [He | He]; [| congruence].
    rewrite He in *. auto.
  - rewrite Hv. exact Hall.
Qed.

Lemma walk_inv_visit w w' v :
  visits w' = visits w ++ [v] ->
  enum_die_offset w'
  = (if is_enumeration_type_visit v then visit_offset v
     else enum_die_offset w) ->
  (forall c, visit_call v = Some c ->
     call_tag c = visit_tag v
     /\ ((visit_depth v = 1 /\ call_offset c = visit_offset v)
         \/ (visit_depth v = 2 /\ visit_tag v = DW_TAG_enumerator
             /\ enum_die_offset w <> 0
             /\ call_offset c = enum_die_offset w))) ->
  walk_inv w -> walk_inv w'.
Proof.
  intros Hv He Hcall [Hlast Hall]. split.
  - rewrite Hv, He, last_enumeration_type_snoc.
    destruct (is_enumeration_type_visit v); auto.
  - rewrite Hv. intros i u c Hi Hc.
    destruct (decide (i < length (visits w))%nat) as [Hlt | Hge].
    + rewrite lookup_app_l in Hi by exact Hlt.
      destruct (Hall i u c Hi Hc) as [Ht Hcases]. split; [exact Ht |].
      rewrite take_app_le by lia. exact Hcases.
    + assert (Hlen : i = length (visits w)).
      { apply lookup_lt_Some in Hi. rewrite length_app in Hi. simpl in Hi.
        lia. }
      subst i. rewrite list_lookup_middle in Hi by reflexivity.
      injection Hi as <-.
      destruct (Hcall c Hc) as [Ht Hcases]. split; [exact Ht |].
      rewrite take_app_length.
      destruct Hcases as [? | (Hd & Htag & Hnz & Hoff)]; [left; assumption |].
      right. repeat split; try assumption. rewrite Hoff. auto.
Qed.

Lemma index_cu_step_inv ext df cu table info end_ ss w w' o :
  index_cu_step ext df cu table info end_ ss w = (w', o) ->
  walk_inv w -> walk_inv w'.
Proof.
  unfold index_cu_step. intros Hstep Hinv.
  destruct (read_die cu table (bswap df) info (walk_ptr w) end_ ss fresh_die)
    as [[ptr | d ptr] | e | |]; try (injection Hstep as <- _; exact Hinv).
  - injection Hstep as <- _.
    apply (walk_inv_same w); [| reflexivity | exact Hinv].
    cbn [enum_die_offset]. destruct (u32 (depth w - 1) =? 1); auto.
  - destruct (index_read_die ext df cu table info end_ ss w (walk_ptr w) d)
      as [[[[ix hashes] e'] call] r] eqn:Hrd.
    apply index_read_die_spec in Hrd as [He Hcall].
    set (v := {| visit_offset := walk_ptr w; visit_depth := depth w;
                 visit_flags := die_flags d; visit_call := call |}).
    assert (Hgen : forall w1, visits w1 = visits w ++ [v] ->
                     enum_die_offset w1 = e' -> walk_inv w1).
    { intros w1 Hv1 He1. apply (walk_inv_visit w w1 v Hv1); [| | exact Hinv].
      - rewrite He1, He. reflexivity.
      - intros c Hc. apply Hcall. exact Hc. }
    destruct r; injection Hstep as <- _; apply Hgen; reflexivity.
Qed.

Lemma index_cu_loop_inv fuel ext df cu table info end_ ss w w' r :
  index_cu_loop fuel ext df cu table info end_ ss w = (w', r) ->
  walk_inv w -> walk_inv w'.
Proof.
  revert w. induction fuel as [| fuel IH]; intros w; cbn [index_cu_loop].
  - intros [= <- _]. auto.
  - destruct (index_cu_step ext df cu table info end_ ss w) as [w1 [r1 |]] eqn:Hs;
      intros H Hinv; apply index_cu_step_inv in Hs; auto.
    + injection H as <- _. auto.
    + eapply IH; eauto.
Qed.

Lemma start_walk_inv dindex cu : walk_inv (start_walk dindex cu).
Proof.
  split; cbn [start_walk enum_die_offset visits].
  - intros H. now contradiction H.
  - intros i v c Hi. rewrite lookup_nil in Hi. discriminate.
Qed.

Lemma index_cu_inv fuel ext dindex cu w r :
  index_cu fuel ext dindex cu = (w, r) -> walk_inv w.
Proof.
  unfold index_cu. intros H.
  pose proof (start_walk_inv dindex cu) as Hstart.
  repeat case_match; simplify_eq; try exact Hstart;
    eapply index_cu_loop_inv; eauto.
Qed.

(** The log of the walk is the log of the calls that made the index:
    the index that [index_cu] leaves is the one that the calls of the
    log, made in their order, make of the index it was given. *)
Lemma index_read_die_call ext df cu table info end_ ss w off d
    ix hashes e' call r :
  index_read_die ext df cu table info end_ ss w off d
  = ((ix, hashes, e', call), r) ->
  ix = replay ext (cu_file cu) (walk_index w) (calls_of [
         {| visit_offset := off; visit_depth := depth w;
            visit_flags := die_flags d; visit_call := call |}]).
Proof.
  unfold index_read_die, replay, calls_of. cbn [omap list_omap visit_call].
  intros H.
  repeat case_match; simplify_eq; cbn [foldl call_name call_tag
    call_file_name_hash call_offset]; try reflexivity.
  all: match goal with
       | E : index_die _ _ _ _ _ _ _ = _ |- _ => rewrite E
       end.
  all: reflexivity.
Qed.

Lemma replay_app ext f dindex calls1 calls2 :
  replay ext f dindex (calls1 ++ calls2)
  = replay ext f (replay ext f dindex calls1) calls2.
Proof. unfold replay. apply foldl_app. Qed.

Lemma index_cu_step_replays ext df cu table info end_ ss dindex w w' o :
  index_cu_step ext df cu table info end_ ss w = (w', o) ->
  walk_index w = replay ext (cu_file cu) dindex (calls_of (visits w)) ->
  walk_index w' = replay ext (cu_file cu) dindex (calls_of (visits w')).
Proof.
  unfold index_cu_step. intros Hstep Hinv.
  destruct (read_die cu table (bswap df) info (walk_ptr w) end_ ss fresh_die)
    as [[ptr | d ptr] | e | |]; try (injection Hstep as <- _; exact Hinv).
  destruct (index_read_die ext df cu table info end_ ss w (walk_ptr w) d)
    as [[[[ix hashes] e'] call] r] eqn:Hrd.
  apply index_read_die_call in Hrd.
  assert (Hgen : forall w1,
    walk_index w1 = ix ->
    visits w1 = visits w ++ [{| visit_offset := walk_ptr w;
                                visit_depth := depth w;
                                visit_flags := die_flags d;
                                visit_call := call |}] ->
    walk_index w1 = replay ext (cu_file cu) dindex (calls_of (visits w1))).
  { intros w1 Hix Hvs. rewrite Hix, Hvs. unfold calls_of.
    rewrite omap_app. fold (calls_of (visits w)).
    rewrite replay_app, <- Hinv. exact Hrd. }
  destruct r; injection Hstep as <- _; apply Hgen; reflexivity.
Qed.

Lemma index_cu_loop_replays fuel ext df cu table info end_ ss dindex w w' r :
  index_cu_loop fuel ext df cu table info end_ ss w = (w', r) ->
  walk_index w = replay ext (cu_file cu) dindex (calls_of (visits w)) ->
  walk_index w' = replay ext (cu_file cu) dindex (calls_of (visits w')).
Proof.
  revert w. induction fuel as [| fuel IH]; intros w; cbn [index_cu_loop].
  - intros [= <- _]. auto.
  - destruct (index_cu_step ext df cu table info end_ ss w) as [w1 [r1 |]] eqn:Hs;
      intros H Hinv; apply (index_cu_step_replays _ _ _ _ _ _ _ dindex) in Hs;
      auto.
    + injection H as <- _. exact Hs.
    + eapply IH; eauto.
Qed.

Lemma index_cu_replays_calls fuel ext dindex cu w r :
  index_cu fuel ext dindex cu = (w, r) ->
  walk_index w = replay ext (cu_file cu) dindex (calls_of (visits w)).
Proof.
  unfold index_cu. intros H.
  assert (Hstart : walk_index (start_walk dindex cu)
                   = replay ext (cu_file cu) dindex
                       (calls_of (visits (start_walk dindex cu))))
    by reflexivity.
  repeat case_match; simplify_eq; try exact Hstart.
  eapply index_cu_loop_replays; eauto.
Qed.

(** The rule for enumerators, as the specification words it, does not
    hold of the calls of the walk of the unit whose only child is an
    enumerator. *)
Lemma stray_enumerator_breaks_rule :
  ~ enumerator_rule (visits (walk_of stray_enumerator_file).1).
Proof.
  intros Hrule.
  specialize (Hrule 1%nat
    {| visit_offset := 12; visit_depth := 1; visit_flags := 40;
       visit_call := Some {| call_name := "A"; call_tag := 40;
                             call_file_name_hash := 0; call_offset := 12 |} |}
    {| call_name := "A"; call_tag := 40; call_file_name_hash := 0;
       call_offset := 12 |}).
  assert (Hv : visits (walk_of stray_enumerator_file).1 !! 1%nat
               = Some {| visit_offset := 12; visit_depth := 1;
                         visit_flags := 40;
                         visit_call :=
                           Some {| call_name := "A"; call_tag := 40;
                                   call_file_name_hash := 0;
                                   call_offset := 12 |} |})
    by (vm_compute; reflexivity).
  specialize (Hrule Hv eq_refl). vm_compute in Hrule.
  destruct Hrule as [Hdepth _]. discriminate Hdepth.
Qed.

(** What [index_cu] does in general.  The calls of [index_die] that it
    makes are the ones of its log, and they make the index that it
    leaves; a DIE for which it makes one was read at depth 1 and is
    indexed under its own offset, or it is an enumerator read at depth
    2 and is indexed under the offset of the last enumeration type that
    is not a declaration read at depth 1 before it. *)
Lemma index_cu_indexed_as fuel ext dindex cu w r :
  index_cu fuel ext dindex cu = (w, r) ->
  walk_index w = replay ext (cu_file cu) dindex (calls_of (visits w))
  /\ forall i v c,
       visits w !! i = Some v -> visit_call v = Some c ->
       indexed_as (visits w) i v c.
Proof.
  intros H. split; [exact (index_cu_replays_calls _ _ _ _ _ _ H) |].
  intros i v c Hi Hc. apply index_cu_inv in H as [_ Hall]. eauto.
Qed.

Example index_cu_indexed_as_enumeration :
  indexed_as (visits (walk_of enumeration_file).1) 2
    {| visit_offset := 15; visit_depth := 2; visit_flags := 40;
       visit_call := Some {| call_name := "A"; call_tag := 40;
                             call_file_name_hash := 0; call_offset := 12 |} |}
    {| call_name := "A"; call_tag := 40; call_file_name_hash := 0;
       call_offset := 12 |}.
Proof.
  apply (proj2 (index_cu_indexed_as 100 sample_hashing
                  (index_of index_all enumeration_file)
                  (first_unit enumeration_file)
                  (walk_of enumeration_file).1 (walk_of enumeration_file).2
                  (surjective_pairing _))).
  - vm_compute. reflexivity.
  - reflexivity.
Qed.

(** C7 does not hold of the code.  [index_cu] sends an enumerator to the
    recorded offset of an enumeration type only when it is read at
    depth 2 while an offset is recorded; its last test, [depth != 1],
    lets every DIE read at depth 1 through, an enumerator too.

    In the unit whose only child is the enumerator A, the enumerator is
    read at depth 1, where no DIE of an enumeration type was read: the
    update indexes it, under its own offset 12, and the lookup of A
    gives that DIE.

    The offset is recorded when an enumeration type is read at depth 1
    and is taken back only when a list of children ends at depth 1.  In
    the unit with the enumeration type E, which has no children, and
    behind it the structure type foo with the child A, an enumerator,
    the offset of E is still recorded when A is read at depth 2: the
    update indexes A under the offset 12 of E, and not under the offset
    15 of foo, the DIE that encloses it, and the lookup of A gives the
    DIE of E. *)
Theorem index_cu_indexes_stray_enumerator :
  (stray_enumerator_update.2 = Ok tt
   /\ visits (walk_of stray_enumerator_file).1
      = [ {| visit_offset := 11; visit_depth := 0;
             visit_flags := Z.lor DW_TAG_compile_unit TAG_FLAG_CHILDREN;
             visit_call := None |};
          {| visit_offset := 12; visit_depth := 1;
             visit_flags := DW_TAG_enumerator;
             visit_call :=
               Some {| call_name := "A"; call_tag := DW_TAG_enumerator;
                       call_file_name_hash := 0; call_offset := 12 |} |} ]
   /\ all_entries (shards (walk_index (walk_of stray_enumerator_file).1))
      = [ {| tag := DW_TAG_enumerator; file_name_hash := 0;
             next := SIZE_MAX; file := 0%nat; offset := 12 |} ]
   /\ all_entries (shards stray_enumerator_update.1)
      = [ {| tag := DW_TAG_enumerator; file_name_hash := 0;
             next := SIZE_MAX; file := 0%nat; offset := 12 |} ]
   /\ lookup_name stray_enumerator_update.1 "A"
      = Ok ([(0%nat, 12)], Err DRGN_ERROR_STOP))
  /\ (stale_offset_update.2 = Ok tt
      /\ (visit_offset <$> visits (walk_of stale_offset_file).1, 
          visit_depth <$> visits (walk_of stale_offset_file).1,
          visit_tag <$> visits (walk_of stale_offset_file).1)
         = ([11; 12; 15; 20], [0; 1; 1; 2],
            [DW_TAG_compile_unit; DW_TAG_enumeration_type;
             DW_TAG_structure_type; DW_TAG_enumerator])
      /\ all_entries (shards stale_offset_update.1)
         = [ {| tag := DW_TAG_enumeration_type; file_name_hash := 0;
                next := SIZE_MAX; file := 0%nat; offset := 12 |};
             {| tag := DW_TAG_structure_type; file_name_hash := 0;
                next := SIZE_MAX; file := 0%nat; offset := 15 |};
             {| tag := DW_TAG_enumerator; file_name_hash := 0;
                next := SIZE_MAX; file := 0%nat; offset := 12 |} ]
      /\ lookup_name stale_offset_update.1 "A"
         = Ok ([(0%nat, 12)], Err DRGN_ERROR_STOP)).
Proof.
  split.
  - split; [vm_compute; reflexivity |].
    split; [vm_compute; reflexivity |].
    split; [vm_compute; reflexivity |].
    split; [vm_compute; reflexivity |].
    vm_compute. reflexivity.
  - split; [vm_compute; reflexivity |].
    split; [vm_compute; reflexivity |].
    split; [vm_compute; reflexivity |].
    vm_compute. reflexivity.
Qed.

(** The offset need not be that of the enclosing DIE: an enumeration
    type without children leaves its offset behind for the children of
    the DIE that follows it. *)
Example stale_enumeration_offset :
  exists v p c,
    visits (walk_of stale_offset_file).1 !! 3%nat = Some v
    /\ visit_call v = Some c
    /\ enclosing (visits (walk_of stale_offset_file).1) 3 v = Some p
    /\ visit_tag p = DW_TAG_structure_type
    /\ visit_tag v = DW_TAG_enumerator
    /\ call_offset c <> visit_offset p.
Proof.
  eexists _, _, _. split; [vm_compute; reflexivity |].
  split; [reflexivity |]. split; [vm_compute; reflexivity |].
  split; [reflexivity |]. split; [reflexivity |]. cbn. lia.
Qed.

End EnumeratorWalk.

Section FailedUpdate.
Import DwarfIndex.

(** C1 does not hold of the code.  The first update indexes the
    variable foo of the first file.  The second update links the typedef
    foo of the second file to that entry and then fails on an unknown
    abbreviation code.  [unindex_files] shrinks the array of the shard
    to the one entry of the first file and keeps the name in the map,
    but the entry of the first file still links to the slot behind it:
    the lookup of foo, which ended regularly before the failed update,
    follows the link to the entry of the failed file, whose file object
    was freed. *)
Theorem failed_update_leaves_link_to_failed_file :
  first_update.2 = Ok tt
  /\ lookup_name first_update.1 "foo" = Ok ([(0%nat, 12)], Err DRGN_ERROR_STOP)
  /\ second_update.2 = Err DRGN_ERROR_DWARF_FORMAT
  /\ indexed second_update.1 = [0%nat]
  /\ objects second_update.1 !! 1%nat = None
  /\ (exists shard e0 e1,
        shards second_update.1 !! 0%nat = Some shard
        /\ num_entries shard = 1
        /\ shard_map shard !! "foo"%string = Some 0
        /\ entries shard !! 0%nat = Some e0
        /\ file e0 = 0%nat /\ next e0 = 1
        /\ entries shard !! 1%nat = Some e1
        /\ file e1 = 1%nat
        /\ chain shard "foo" = [0; 1])
  /\ lookup_name second_update.1 "foo" = Ok ([(0%nat, 12)], Undef).
Proof.
  split; [vm_compute; reflexivity |].
  split; [vm_compute; reflexivity |].
  split; [vm_compute; reflexivity |].
  split; [vm_compute; reflexivity |].
  split; [vm_compute; reflexivity |].
  split; [| vm_compute; reflexivity].
  eexists _, _, _.
  split; [vm_compute; reflexivity |].
  repeat (split; [vm_compute; reflexivity |]).
  vm_compute. reflexivity.
Qed.

Lemma no_chain_in_cycle (e0 e1 : die_entry) :
  next e0 = 1 -> next e1 = 1 ->
  forall index l, ~ is_chain [e0; e1] index l.
Proof.
  intros H0 H1 index l Hc.
  induction Hc as [index entry Hi Hlk Hn | index entry l Hi Hlk Hn Hlt Hc IH];
    [| exact IH].
  destruct (Z.to_nat index) as [| [| k]]; cbn in Hlk; simplify_eq;
    rewrite Hn in *; discriminate.
Qed.

Lemma search_chain_in_cycle (e0 e1 : die_entry) (t fh : Z) :
  next e0 = 1 -> next e1 = 1 ->
  definition_key e0 <> (t, fh) -> definition_key e1 <> (t, fh) ->
  forall fuel index, index = 0 \/ index = 1 ->
    search_chain fuel [e0; e1] index t fh = Timeout.
Proof.
  intros H0 H1 Hk0 Hk1.
  induction fuel as [| fuel IH]; intros index Hindex; [reflexivity |].
  cbn [search_chain].
  destruct Hindex as [-> | ->];
    [change (Z.to_nat 0) with 0%nat | change (Z.to_nat 1) with 1%nat];
    cbn [lookup list_lookup]; rewrite key_test.
  - rewrite bool_decide_eq_false_2 by exact Hk0. rewrite H0.
    change (1 =? SIZE_MAX) with false. cbv iota. apply IH. auto.
  - rewrite bool_decide_eq_false_2 by exact Hk1. rewrite H1.
    change (1 =? SIZE_MAX) with false. cbv iota. apply IH. auto.
Qed.

(** C3 does not hold of the code.  After the failed update of C1 the
    entry of the variable foo still links to the slot behind it, which
    is past the entries of the shard and is the slot that the next
    entry is written to.

    The update that then indexes the structure type foo calls
    [index_die] for foo with a tag that no entry of foo has.  The search
    follows the link to the slot that was left behind and ends there;
    the new entry is written to that very slot and then made the
    successor of the entry that the search ended at, which is itself.
    The call succeeds, and the chain of foo has no last entry any more:
    the new entry is its own successor.  The search of a later call for
    foo with yet another tag or hash never leaves its loop, and the
    lookup of foo gives the new entry again and again.

    The update that instead indexes the variable bar, whose name falls
    into the same shard, writes the entry of bar to that slot: the
    chain of foo then holds it, as a second entry with the tag and the
    hash of the first, and the lookup of foo gives the variable bar. *)
Theorem index_die_follows_link_left_behind :
  (exists shard0 shard e0 e1,
     second_update.2 = Err DRGN_ERROR_DWARF_FORMAT
     /\ shards second_update.1 !! 0%nat = Some shard0
     /\ ((DW_TAG_structure_type, 0)
          ∉ definition_key <$> chain_entries shard0 "foo")
     /\ index_die_locked [] shard0 "foo" DW_TAG_structure_type 0 2%nat 12
        = ([], (shard, Ok tt))
     /\ structure_update.2 = Ok tt
     /\ shards structure_update.1 !! 0%nat = Some shard
     /\ shard_map shard !! "foo"%string = Some 0
     /\ num_entries shard = 2
     /\ entries shard = [e0; e1]
     /\ entry_payload e0 = (DW_TAG_variable, 0, 0%nat, 12) /\ next e0 = 1
     /\ entry_payload e1 = (DW_TAG_structure_type, 0, 2%nat, 12)
     /\ next e1 = 1
     /\ (forall l, ~ is_chain (entries shard) 0 l)
     /\ (forall fuel t fh,
           (t, fh) <> (DW_TAG_variable, 0) ->
           (t, fh) <> (DW_TAG_structure_type, 0) ->
           search_chain fuel (entries shard) 0 t fh = Timeout)
     /\ lookup_name structure_update.1 "foo"
        = Ok ((0%nat, 12) :: replicate 7 (2%nat, 12), Timeout))
  /\ (exists shard0 shard,
        shards second_update.1 !! 0%nat = Some shard0
        /\ NoDup (definition_key <$> chain_entries shard0 "foo")
        /\ index_die_locked [] shard0 "bar" DW_TAG_variable 0 2%nat 12
           = ([], (shard, Ok tt))
        /\ bar_update.2 = Ok tt
        /\ shards bar_update.1 !! 0%nat = Some shard
        /\ entry_payload <$> chain_entries shard "bar"
           = [(DW_TAG_variable, 0, 2%nat, 12)]
        /\ entry_payload <$> chain_entries shard "foo"
           = [(DW_TAG_variable, 0, 0%nat, 12); (DW_TAG_variable, 0, 2%nat, 12)]
        /\ ~ NoDup (definition_key <$> chain_entries shard "foo")
        /\ lookup_name bar_update.1 "foo"
           = Ok ([(0%nat, 12); (2%nat, 12)], Err DRGN_ERROR_STOP)).
Proof.
  split.
  - eexists _, _,
      {| tag := DW_TAG_variable; file_name_hash := 0; next := 1;
         file := 0%nat; offset := 12 |},
      {| tag := DW_TAG_structure_type; file_name_hash := 0; next := 1;
         file := 2%nat; offset := 12 |}.
    split; [vm_compute; reflexivity |].
    split; [vm_compute; reflexivity |].
    split.
    { vm_compute. intros Hin.
      repeat (apply elem_of_cons in Hin as [Hin | Hin]; [discriminate Hin |]).
      inversion Hin. }
    split; [vm_compute; reflexivity |].
    split; [vm_compute; reflexivity |].
    split; [vm_compute; reflexivity |].
    split; [vm_compute; reflexivity |].
    split; [reflexivity |].
    split; [reflexivity |].
    split; [reflexivity |].
    split; [reflexivity |].
    split; [reflexivity |].
    split; [reflexivity |].
    split; [apply no_chain_in_cycle; reflexivity |].
    split; [| vm_compute; reflexivity].
    intros fuel t fh Hvar Hstruct.
    apply search_chain_in_cycle; auto; cbn; congruence.
  - eexists _, _.
    split; [vm_compute; reflexivity |].
    split.
    { vm_compute. apply NoDup_cons. split; [| apply NoDup_singleton].
      intros Hin. apply list_elem_of_singleton in Hin. discriminate Hin. }
    split; [vm_compute; reflexivity |].
    split; [vm_compute; reflexivity |].
    split; [vm_compute; reflexivity |].
    split; [vm_compute; reflexivity |].
    split; [vm_compute; reflexivity |].
    split; [| vm_compute; reflexivity].
    vm_compute. intros Hnd. apply NoDup_cons in Hnd as [Hnot _].
    apply Hnot. left.
Qed.

End FailedUpdate.

Section Lexer.
Import LanguageC.

Lemma string_app_length (s1 s2 : string) :
  String.length (s1 ++ s2)%string = (String.length s1 + String.length s2)%nat.
Proof. induction s1 as [| c s1 IH]; simpl; [reflexivity | now rewrite IH]. Qed.

Lemma ptr_diff_app (pre p : string) :
  ptr_diff (pre ++ p)%string p = String.length pre.
Proof. unfold ptr_diff. rewrite string_app_length. lia. Qed.

Lemma substring_app_prefix (pre p : string) :
  substring 0 (String.length pre) (pre ++ p)%string = pre.
Proof.
  induction pre as [| c pre IH]; simpl.
  - destruct p; reflexivity.
  - now rewrite IH.
Qed.

Lemma string_app_assoc (a b c : string) :
  ((a ++ b) ++ c)%string = (a ++ (b ++ c))%string.
Proof.
  induction a as [| x a IH]; [reflexivity |].
  change (String x ((a ++ b) ++ c) = String x (a ++ (b ++ c)))%string.
  now f_equal.
Qed.

(** [skip_while] splits its argument into the characters it passes
    over, all of which satisfy the predicate, and what is left, which
    does not begin with such a character. *)
Lemma skip_while_split (pred : ascii -> bool) (p : string) :
  exists pre,
    p = (pre ++ skip_while pred p)%string
    /\ Forall (fun c => pred c = true) (list_ascii_of_string pre)
    /\ match skip_while pred p with
       | EmptyString => True
       | String c _ => pred c = false
       end.
Proof.
  induction p as [| c p IH]; cbn [skip_while].
  - exists EmptyString. auto.
  - destruct (pred c) eqn:Hc.
    + destruct IH as (pre & Hp & Hall & Hstop).
      exists (String c pre). split; [| split].
      * change (String c p = String c (pre ++ skip_while pred p))%string.
        now f_equal.
      * constructor; assumption.
      * exact Hstop.
    + exists EmptyString. split; [reflexivity |]. split; [constructor |].
      exact Hc.
Qed.

Lemma skip_while_app (pred : ascii -> bool) (pre rest : string) :
  Forall (fun c => pred c = true) (list_ascii_of_string pre) ->
  match rest with
  | EmptyString => True
  | String c _ => pred c = false
  end ->
  skip_while pred (pre ++ rest)%string = rest.
Proof.
  intros Hall Hrest. induction pre as [| c pre IH].
  - change (skip_while pred rest = rest).
    destruct rest as [| c r]; cbn [skip_while]; [reflexivity | now rewrite Hrest].
  - change (skip_while pred (String c (pre ++ rest)) = rest)%string.
    cbn [skip_while]. cbn [list_ascii_of_string] in Hall.
    inversion Hall as [| ? ? Hc Hpre]; subst. rewrite Hc. auto.
Qed.

(** [p] is what is left of [start] after the characters [pre]. *)
Lemma mk_token_app (k : c_token) (pre p : string) :
  mk_token k (pre ++ p)%string p
  = ({| kind := k; value := (pre ++ p)%string; len := String.length pre |}, p).
Proof. unfold mk_token. now rewrite ptr_diff_app. Qed.

Lemma peek_nonzero (p : string) :
  char_val (peek p) <> 0 -> exists c r, p = String c r /\ peek p = c.
Proof.
  destruct p as [| c r]; [intros H; now contradiction H | eauto].
Qed.

Lemma token_of_suffix (k : c_token) (pre q : string) (tok : drgn_token)
    (rest : string) :
  mk_token k (pre ++ q)%string q = (tok, rest) ->
  value tok = (pre ++ q)%string
  /\ value tok = (substring 0 (len tok) (value tok) ++ rest)%string
  /\ len tok = String.length pre /\ kind tok = k /\ rest = q.
Proof.
  rewrite mk_token_app. intros [= <- <-]. cbn [value len kind].
  rewrite substring_app_prefix. auto.
Qed.

Lemma advance_suffix (p : string) :
  char_val (peek p) <> 0 ->
  p = (String (peek p) EmptyString ++ advance p)%string.
Proof.
  intros H. destruct (peek_nonzero p H) as (c & r & -> & _). reflexivity.
Qed.

Lemma c_keywords_not_eof (key : string) (k : c_token) :
  c_keyword_map_search key = Some k -> k <> C_TOKEN_EOF.
Proof.
  unfold c_keyword_map_search, c_keywords. intros H.
  apply elem_of_list_to_map_2 in H. unfold token_spelling in H.
  rewrite !elem_of_cons in H.
  repeat (destruct H as [H | H]; [injection H as _ ->; discriminate |]).
  apply elem_of_nil in H. contradiction.
Qed.

(** The characters after [advance p] that a loop of the lexer passes
    over, together with the first character, make up the token. *)
Lemma advance_skip_suffix (pred : ascii -> bool) (p : string) :
  char_val (peek p) <> 0 ->
  exists pre, p = (String (peek p) pre ++ skip_while pred (advance p))%string.
Proof.
  intros H. destruct (skip_while_split pred (advance p)) as (pre & Hp & _).
  exists pre. rewrite (advance_suffix p H) at 1.
  change (String (peek p) (advance p)
          = String (peek p) (pre ++ skip_while pred (advance p)))%string.
  now f_equal.
Qed.

(** X1.  A token that [drgn_lexer_c] returns starts behind the white
    space at the head of the input and is followed by the input that is
    left; it has no characters exactly when it is the token for the end
    of the input. *)
Theorem drgn_lexer_c_consumes (p0 : string) (tok : drgn_token) (rest : string) :
  drgn_lexer_c p0 = Ok (tok, rest) ->
  value tok = skip_while isspace p0
  /\ value tok = (substring 0 (len tok) (value tok) ++ rest)%string
  /\ (len tok = 0%nat <-> kind tok = C_TOKEN_EOF).
Proof.
  unfold drgn_lexer_c. set (p := skip_while isspace p0).
  assert (Hone : forall k, k <> C_TOKEN_EOF -> char_val (peek p) <> 0 ->
            Ok (mk_token k p (advance p)) = Ok (tok, rest) ->
            value tok = p
            /\ value tok = (substring 0 (len tok) (value tok) ++ rest)%string
            /\ (len tok = 0%nat <-> kind tok = C_TOKEN_EOF)).
  { intros k Hk Hnz H0.
    assert (H : mk_token k p (advance p) = (tok, rest)) by congruence.
    clear H0. rewrite (advance_suffix p Hnz) in H at 1.
    apply token_of_suffix in H as (Hv & Hs & Hl & Hkind & _).
    rewrite <- (advance_suffix p Hnz) in Hv.
    split; [exact Hv |]. split; [exact Hs |].
    rewrite Hl, Hkind. cbn. split; [discriminate | intros; contradiction]. }
  assert (Hmany : forall k q, k <> C_TOKEN_EOF ->
            char_val (peek p) <> 0 ->
            (exists pre, p = (String (peek p) pre ++ q)%string) ->
            Ok (mk_token k p q) = Ok (tok, rest) ->
            value tok = p
            /\ value tok = (substring 0 (len tok) (value tok) ++ rest)%string
            /\ (len tok = 0%nat <-> kind tok = C_TOKEN_EOF)).
  { intros k q Hk Hnz [pre Hp] H0.
    assert (H : mk_token k p q = (tok, rest)) by congruence.
    clear H0. rewrite Hp in H at 1.
    apply token_of_suffix in H as (Hv & Hs & Hl & Hkind & _).
    rewrite <- Hp in Hv.
    split; [exact Hv |]. split; [exact Hs |].
    rewrite Hl, Hkind. cbn. split; [discriminate | intros; contradiction]. }
  destruct (char_val (peek p) =? 0) eqn:H0.
  { intros H1.
    assert (H : mk_token C_TOKEN_EOF (EmptyString ++ p)%string p = (tok, rest)).
    { change (EmptyString ++ p)%string with p. congruence. }
    clear H1.
    apply token_of_suffix in H as (Hv & Hs & Hl & Hkind & _).
    split; [exact Hv |]. split; [exact Hs |]. rewrite Hl, Hkind. tauto. }
  apply Z.eqb_neq in H0.
  destruct (char_val (peek p) =? 40); [apply Hone; [discriminate | exact H0] |].
  destruct (char_val (peek p) =? 41); [apply Hone; [discriminate | exact H0] |].
  destruct (char_val (peek p) =? 91); [apply Hone; [discriminate | exact H0] |].
  destruct (char_val (peek p) =? 93); [apply Hone; [discriminate | exact H0] |].
  destruct (char_val (peek p) =? 42); [apply Hone; [discriminate | exact H0] |].
  destruct (char_val (peek p) =? 46); [apply Hone; [discriminate | exact H0] |].
  destruct (isalpha (peek p) || is_underscore (peek p)).
  { destruct (c_keyword_map_search _) as [k |] eqn:Hk.
    - apply (Hmany k); [| exact H0 | apply advance_skip_suffix, H0].
      eapply c_keywords_not_eof, Hk.
    - apply (Hmany C_TOKEN_IDENTIFIER);
        [discriminate | exact H0 | apply advance_skip_suffix, H0]. }
  destruct (isdigit (peek p)); [| discriminate].
  destruct ((char_val (peek p) =? 48) && (char_val (peek (advance p)) =? 120))
    eqn:Hx.
  - destruct (Z.of_nat (ptr_diff p (skip_while is_hex_digit (advance (advance p))))
              <=? 2); [discriminate |].
    cbn [mbind res_bind].
    destruct (isalpha _ || is_underscore _); [discriminate |].
    apply (Hmany C_TOKEN_NUMBER); [discriminate | exact H0 |].
    apply andb_prop in Hx as [_ Hx]. apply Z.eqb_eq in Hx.
    assert (Hnz1 : char_val (peek (advance p)) <> 0) by lia.
    destruct (advance_skip_suffix is_hex_digit (advance p) Hnz1) as [pre Hp].
    exists (String (peek (advance p)) pre).
    rewrite (advance_suffix p H0) at 1. rewrite Hp at 1. reflexivity.
  - cbn [mbind res_bind].
    destruct (isalpha _ || is_underscore _); [discriminate |].
    apply (Hmany C_TOKEN_NUMBER); [discriminate | exact H0 |].
    apply advance_skip_suffix, H0.
Qed.

Lemma drgn_lexer_c_consumes_witness :
  value {| kind := C_TOKEN_INT; value := "int x"; len := 3 |}
  = skip_while isspace "  int x"
  /\ value {| kind := C_TOKEN_INT; value := "int x"; len := 3 |}
     = (substring 0 3 "int x" ++ " x")%string
  /\ (len {| kind := C_TOKEN_INT; value := "int x"; len := 3 |} = 0%nat
      <-> kind {| kind := C_TOKEN_INT; value := "int x"; len := 3 |}
          = C_TOKEN_EOF).
Proof.
  apply (drgn_lexer_c_consumes "  int x"
           {| kind := C_TOKEN_INT; value := "int x"; len := 3 |} " x").
  vm_compute. reflexivity.
Defined.

Lemma word_start_char (c : ascii) :
  isalpha c || is_underscore c = true ->
  65 <= char_val c <= 122.
Proof.
  unfold isalpha, is_underscore. intros H.
  apply orb_prop in H as [H | H]; [apply orb_prop in H as [H | H] |]; lia.
Qed.

Lemma digit_char (c : ascii) : isdigit c = true -> 48 <= char_val c <= 57.
Proof. unfold isdigit. lia. Qed.

Lemma not_space (c : ascii) : 48 <= char_val c <= 122 -> isspace c = false.
Proof. unfold isspace. intros H. apply orb_false_iff. lia. Qed.

Lemma string_app_cons (c : ascii) (a b : string) :
  (String c a ++ b)%string = String c (a ++ b)%string.
Proof. reflexivity. Qed.

Lemma lex_word (ws : string) (c : ascii) (w rest : string) :
  Forall (fun c => isspace c = true) (list_ascii_of_string ws) ->
  isalpha c || is_underscore c = true ->
  Forall (fun c => isalnum c || is_underscore c = true)
    (list_ascii_of_string w) ->
  match rest with
  | EmptyString => True
  | String c' _ => isalnum c' || is_underscore c' = false
  end ->
  drgn_lexer_c (ws ++ String c w ++ rest)%string
  = Ok ({| kind := default C_TOKEN_IDENTIFIER
                     (c_keyword_map_search (String c w));
           value := (String c w ++ rest)%string;
           len := S (String.length w) |}, rest).
Proof.
  intros Hws Hc Hw Hrest. unfold drgn_lexer_c.
  pose proof (word_start_char c Hc) as Hr.
  rewrite skip_while_app;
    [| exact Hws | rewrite string_app_cons; apply not_space; lia].
  rewrite string_app_cons. cbn [peek char_at String.get advance].
  replace (char_val c =? 0) with false by (symmetry; apply Z.eqb_neq; lia).
  replace (char_val c =? 40) with false by (symmetry; apply Z.eqb_neq; lia).
  replace (char_val c =? 41) with false by (symmetry; apply Z.eqb_neq; lia).
  replace (char_val c =? 91) with false
    by (symmetry; apply Z.eqb_neq; unfold isalpha, is_underscore in Hc; lia).
  replace (char_val c =? 93) with false
    by (symmetry; apply Z.eqb_neq; unfold isalpha, is_underscore in Hc; lia).
  replace (char_val c =? 42) with false by (symmetry; apply Z.eqb_neq; lia).
  replace (char_val c =? 46) with false by (symmetry; apply Z.eqb_neq; lia).
  rewrite Hc. rewrite (skip_while_app _ w rest Hw Hrest).
  rewrite <- string_app_cons. rewrite ptr_diff_app, substring_app_prefix.
  unfold mk_token. rewrite ptr_diff_app.
  destruct (c_keyword_map_search (String c w)); reflexivity.
Qed.

(** X2.  The lexer takes the longest word at the head of its input,
    after the white space, and makes it a keyword exactly when the
    table of keywords has it. *)
Theorem drgn_lexer_c_word (ws : string) (c : ascii) (w rest : string) :
  Forall (fun c => isspace c = true) (list_ascii_of_string ws) ->
  isalpha c || is_underscore c = true ->
  Forall (fun c => isalnum c || is_underscore c = true)
    (list_ascii_of_string w) ->
  match rest with
  | EmptyString => True
  | String c' _ => isalnum c' || is_underscore c' = false
  end ->
  drgn_lexer_c (ws ++ String c w ++ rest)%string
  = Ok ({| kind := default C_TOKEN_IDENTIFIER
                     (c_keyword_map_search (String c w));
           value := (String c w ++ rest)%string;
           len := S (String.length w) |}, rest).
Proof. apply lex_word. Qed.

Lemma drgn_lexer_c_word_witness :
  drgn_lexer_c " int*p"
  = Ok ({| kind := default C_TOKEN_IDENTIFIER (c_keyword_map_search "int");
           value := "int*p"; len := 3 |}, "*p"%string).
Proof.
  apply (drgn_lexer_c_word " " "i" "nt" "*p").
  - repeat constructor.
  - reflexivity.
  - repeat constructor.
  - reflexivity.
Defined.

Lemma token_chars_prefix (k : c_token) (pre rest : string) :
  token_chars {| kind := k; value := (pre ++ rest)%string;
                 len := String.length pre |}
  = list_ascii_of_string pre.
Proof.
  unfold token_chars. cbn [value len].
  revert rest. induction pre as [| a pre IH]; intros rest; [reflexivity |].
  cbn [String.length seq map list_ascii_of_string]. f_equal.
  rewrite <- seq_shift, map_map. apply IH.
Qed.

Lemma boundary_peek (pred : ascii -> bool) (rest : string) :
  pred zero = false ->
  match rest with
  | EmptyString => True
  | String c _ => pred c = false
  end ->
  pred (peek rest) = false.
Proof. intros Hz H. destruct rest; [exact Hz | exact H]. Qed.

(** X3.  A run of decimal digits at the head of the input, after the
    white space, is one number token, and [c_token_to_u64] gives its value:
    in base 8 without the first digit when that digit is 0 (the digits
    8 and 9 count as such), in base 10 otherwise; the conversion fails
    exactly when the value does not fit 64 bits. *)
Theorem drgn_lexer_c_digits_to_u64 (ws : string) (d : ascii) (ds rest : string) :
  Forall (fun c => isspace c = true) (list_ascii_of_string ws) ->
  isdigit d = true ->
  Forall (fun c => isdigit c = true) (list_ascii_of_string ds) ->
  match rest with
  | EmptyString => True
  | String c' _ => isdigit c' || (isalpha c' || is_underscore c') = false
  end ->
  exists tok,
    drgn_lexer_c (ws ++ String d ds ++ rest)%string = Ok (tok, rest)
    /\ kind tok = C_TOKEN_NUMBER
    /\ len tok = S (String.length ds)
    /\ c_token_to_u64 tok
       = let v :=
           if char_val d =? 48
           then positional_value 8 dec_loop_digit (list_ascii_of_string ds) 0
           else positional_value 10 dec_loop_digit
                  (d :: list_ascii_of_string ds) 0 in
         if v <=? UINT64_MAX then Ok v else Err DRGN_ERROR_INVALID_ARGUMENT.
Proof.
  intros Hws Hd Hds Hrest.
  pose proof (digit_char d Hd) as Hr.
  assert (Hrest_digit : match rest with
                        | EmptyString => True
                        | String c' _ => isdigit c' = false
                        end).
  { destruct rest as [| c' r]; [exact I |].
    apply orb_false_iff in Hrest. tauto. }
  assert (Hrest_alpha : isalpha (peek rest) || is_underscore (peek rest) = false).
  { apply (boundary_peek (fun c => isalpha c || is_underscore c));
      [reflexivity |].
    destruct rest as [| c' r]; [exact I |].
    apply orb_false_iff in Hrest. tauto. }
  assert (Hnext : char_val (peek (ds ++ rest)%string) <> 120).
  { destruct ds as [| a ds].
    - change (EmptyString ++ rest)%string with rest.
      destruct rest as [| c' r]; [vm_compute; congruence |].
      cbn [peek char_at String.get].
      apply orb_false_iff in Hrest_alpha as [Ha _].
      cbn [peek char_at String.get] in Ha. unfold isalpha in Ha. lia.
    - rewrite string_app_cons. cbn [peek char_at String.get].
      cbn [list_ascii_of_string] in Hds. inversion Hds as [| ? ? Ha _]; subst.
      apply digit_char in Ha. lia. }
  eexists. split.
  { unfold drgn_lexer_c.
    rewrite skip_while_app;
      [| exact Hws | rewrite string_app_cons; apply not_space; lia].
    rewrite string_app_cons. cbn [peek char_at String.get advance].
    replace (char_val d =? 0) with false by (symmetry; apply Z.eqb_neq; lia).
    replace (char_val d =? 40) with false by (symmetry; apply Z.eqb_neq; lia).
    replace (char_val d =? 41) with false by (symmetry; apply Z.eqb_neq; lia).
    replace (char_val d =? 91) with false by (symmetry; apply Z.eqb_neq; lia).
    replace (char_val d =? 93) with false by (symmetry; apply Z.eqb_neq; lia).
    replace (char_val d =? 42) with false by (symmetry; apply Z.eqb_neq; lia).
    replace (char_val d =? 46) with false by (symmetry; apply Z.eqb_neq; lia).
    replace (isalpha d || is_underscore d) with false
      by (symmetry; apply orb_false_iff; unfold isalpha, is_underscore; lia).
    rewrite Hd.
    replace ((char_val d =? 48) && (char_val (peek (ds ++ rest)%string) =? 120))
      with false
      by (symmetry; apply andb_false_iff; right; apply Z.eqb_neq; exact Hnext).
    cbn [mbind res_bind].
    rewrite (skip_while_app isdigit ds rest Hds Hrest_digit).
    rewrite Hrest_alpha. rewrite <- string_app_cons.
    rewrite mk_token_app. reflexivity. }
  cbn [kind len]. split; [reflexivity |]. split; [reflexivity |].
  assert (Hhex : (2 <? Z.of_nat (String.length (String d ds)))
                 && (char_val (char_at (String d ds ++ rest)%string 0) =? 48)
                 && (char_val (char_at (String d ds ++ rest)%string 1) =? 120)
                 = false).
  { change (char_at (String d ds ++ rest)%string 1)
      with (peek (ds ++ rest)%string).
    apply andb_false_iff. right. apply Z.eqb_neq. exact Hnext. }
  unfold c_token_to_u64. rewrite token_chars_prefix.
  cbn [value len]. rewrite Hhex.
  change (char_at (String d ds ++ rest)%string 0) with d.
  cbn [list_ascii_of_string].
  assert (H0 : 0 <= 0 <= UINT64_MAX) by (unfold UINT64_MAX; lia).
  destruct (char_val d =? 48); cbn [drop]; cbv zeta.
  - apply digits_loop_exact; [lia | | exact H0].
    apply decimal_digit_range, Hds.
  - apply digits_loop_exact; [lia | | exact H0].
    apply decimal_digit_range. constructor; assumption.
Qed.

Lemma drgn_lexer_c_digits_to_u64_witness :
  exists tok,
    drgn_lexer_c " 042;" = Ok (tok, ";"%string)
    /\ kind tok = C_TOKEN_NUMBER
    /\ len tok = 3%nat
    /\ c_token_to_u64 tok = Ok 34.
Proof.
  destruct (drgn_lexer_c_digits_to_u64 " " "0" "42" ";")
    as (tok & Hrun & Hkind & Hlen & Hvalue).
  - repeat constructor.
  - reflexivity.
  - repeat constructor.
  - reflexivity.
  - exists tok. repeat split; assumption.
Defined.

End Lexer.

Section SpecifierList.
Import LanguageC.

Lemma specifier_transition_comm (st : c_type_specifier) (a b : c_token) :
  specifier_transition (specifier_transition st a) b
  = specifier_transition (specifier_transition st b) a.
Proof. destruct st; destruct a; destruct b; reflexivity. Qed.

Lemma fold_specifier_transition_perm (ks1 ks2 : list c_token) :
  Permutation ks1 ks2 ->
  forall st, fold_left specifier_transition ks1 st
             = fold_left specifier_transition ks2 st.
Proof.
  induction 1 as [| k ks1 ks2 _ IH | a b ks | ks1 ks2 ks3 _ IH1 _ IH2];
    intros st; cbn [fold_left].
  - reflexivity.
  - apply IH.
  - now rewrite specifier_transition_comm.
  - now rewrite IH1.
Qed.

Lemma fold_specifier_error (ks : list c_token) :
  fold_left specifier_transition ks SPECIFIER_ERROR = SPECIFIER_ERROR.
Proof. induction ks as [| k ks IH]; [reflexivity | exact IH]. Qed.

(** The spelling of a specifier is a word that the table of keywords
    maps back to its token. *)
Lemma specifier_spelling (k : c_token) :
  is_specifier_token k ->
  exists c w,
    spelling_of k = String c w
    /\ isalpha c || is_underscore c = true
    /\ Forall (fun c => isalnum c || is_underscore c = true)
         (list_ascii_of_string w)
    /\ c_keyword_map_search (String c w) = Some k.
Proof.
  intros Hk. destruct k; try discriminate Hk;
    (eexists _, _; split; [reflexivity |]; split; [reflexivity |];
     split; [repeat constructor | reflexivity]).
Qed.

Lemma spaced_keywords_boundary (ks : list c_token) :
  match spaced_keywords ks with
  | EmptyString => True
  | String c _ => isalnum c || is_underscore c = false
  end.
Proof. destruct ks; [exact I | reflexivity]. Qed.

Lemma pop_keyword (ws : string) (k : c_token) (ks : list c_token) :
  Forall (fun c => isspace c = true) (list_ascii_of_string ws) ->
  is_specifier_token k ->
  exists tok,
    drgn_lexer_pop
      {| lexer_p := (ws ++ spelling_of k ++ spaced_keywords ks)%string;
         lexer_stack := [] |}
    = Ok (tok, {| lexer_p := spaced_keywords ks; lexer_stack := [] |})
    /\ kind tok = k.
Proof.
  intros Hws Hk. destruct (specifier_spelling k Hk) as (c & w & -> & Hc & Hw & Hkw).
  unfold drgn_lexer_pop. cbn [lexer_stack lexer_p].
  rewrite (lex_word ws c w _ Hws Hc Hw (spaced_keywords_boundary ks)).
  cbn [mbind res_bind]. eexists. split; [reflexivity |].
  cbn [kind]. now rewrite Hkw.
Qed.

Lemma specifier_list_loop_spaced (ks : list c_token) :
  Forall is_specifier_token ks ->
  forall fuel st,
    (length ks < fuel)%nat -> st <> SPECIFIER_ERROR ->
    specifier_list_loop fuel st
      {| lexer_p := spaced_keywords ks; lexer_stack := [] |}
    = Some (specifier_list_result (fold_left specifier_transition ks st)).
Proof.
  induction 1 as [| k ks Hk Hks IH]; intros fuel st Hfuel Hst;
    (destruct fuel as [| fuel]; [cbn in Hfuel; lia |]);
    cbn [specifier_list_loop].
  - cbn. unfold specifier_list_result. now rewrite bool_decide_eq_false_2.
  - cbn [spaced_keywords].
    destruct (pop_keyword " " k ks) as (tok & -> & Hkind);
      [repeat constructor | exact Hk |].
    rewrite Hkind. unfold is_specifier_token in Hk. rewrite Hk.
    cbn [fold_left]. cbv zeta.
    destruct (bool_decide (specifier_transition st k = SPECIFIER_ERROR)) eqn:He.
    + apply bool_decide_eq_true_1 in He. rewrite He, fold_specifier_error.
      reflexivity.
    + apply bool_decide_eq_false_1 in He. apply IH; [cbn in Hfuel; lia | exact He].
Qed.

Lemma c_parse_specifier_list_keywords (ks : list c_token) :
  Forall is_specifier_token ks ->
  c_parse_specifier_list (keywords_text ks)
  = Some (specifier_list_result
            (fold_left specifier_transition ks SPECIFIER_NONE)).
Proof.
  intros Hks. unfold c_parse_specifier_list, drgn_lexer_init.
  destruct Hks as [| k ks Hk Hks].
  - reflexivity.
  - cbn [keywords_text specifier_list_loop].
    destruct (pop_keyword EmptyString k ks) as (tok & Hpop & Hkind);
      [constructor | exact Hk |].
    change (EmptyString ++ spelling_of k ++ spaced_keywords ks)%string
      with (spelling_of k ++ spaced_keywords ks)%string in Hpop.
    rewrite Hpop, Hkind. unfold is_specifier_token in Hk. rewrite Hk.
    cbn [fold_left]. cbv zeta.
    destruct (bool_decide (specifier_transition SPECIFIER_NONE k
                           = SPECIFIER_ERROR)) eqn:He.
    + apply bool_decide_eq_true_1 in He. rewrite He, fold_specifier_error.
      reflexivity.
    + apply bool_decide_eq_false_1 in He.
      apply specifier_list_loop_spaced; [exact Hks | | exact He].
      rewrite string_app_length.
      assert (length ks <= String.length (spaced_keywords ks))%nat.
      { clear. induction ks as [| k ks IH]; [cbn; lia |].
        cbn [spaced_keywords length]. rewrite string_app_cons.
        cbn [String.length]. rewrite !string_app_length. cbn. lia. }
      destruct (specifier_spelling k) as (c & w & -> & _); [exact Hk |].
      cbn [String.length]. lia.
Qed.

(** X4.  The type that a list of specifiers names does not depend on
    the order of the specifiers. *)
Theorem c_parse_specifier_list_order (ks1 ks2 : list c_token) :
  Forall is_specifier_token ks1 ->
  Permutation ks1 ks2 ->
  exists primitive,
    c_parse_specifier_list (keywords_text ks1) = Some primitive
    /\ c_parse_specifier_list (keywords_text ks2) = Some primitive.
Proof.
  intros Hks Hperm.
  assert (Hks2 : Forall is_specifier_token ks2).
  { apply Forall_forall. intros k Hin. rewrite Forall_forall in Hks.
    apply Hks. rewrite list_elem_of_In in *.
    eapply Permutation_in; [symmetry; exact Hperm | exact Hin]. }
  eexists. split; [apply c_parse_specifier_list_keywords, Hks |].
  rewrite (c_parse_specifier_list_keywords ks2 Hks2).
  now rewrite (fold_specifier_transition_perm ks1 ks2 Hperm).
Qed.

Lemma c_parse_specifier_list_order_witness :
  exists primitive,
    c_parse_specifier_list "unsigned long int" = Some primitive
    /\ c_parse_specifier_list "long int unsigned" = Some primitive.
Proof.
  apply (c_parse_specifier_list_order
           [C_TOKEN_UNSIGNED; C_TOKEN_LONG; C_TOKEN_INT]
           [C_TOKEN_LONG; C_TOKEN_INT; C_TOKEN_UNSIGNED]).
  - repeat constructor.
  - apply (perm_trans (perm_swap C_TOKEN_LONG C_TOKEN_UNSIGNED [C_TOKEN_INT])).
    apply perm_skip. apply perm_swap.
Defined.

End SpecifierList.

Section CharacterStrings.
Import LanguageC.

Lemma string_app_nil_r (s : string) : (s ++ EmptyString)%string = s.
Proof. induction s as [| c s IH]; [reflexivity |]. rewrite string_app_cons. now f_equal. Qed.

Lemma c_pretty_print_character_app (c : ascii) (sb : string_builder) :
  c_pretty_print_character c sb
  = (sb ++ c_pretty_print_character c EmptyString)%string.
Proof.
  unfold c_pretty_print_character, string_builder_append,
    string_builder_appendf_x02x, string_builder_appendc.
  repeat case_match; reflexivity.
Qed.

Lemma unescape_one_escape (c : ascii) (rest : string) :
  unescape_one (c_pretty_print_character c EmptyString ++ rest)%string
  = Some (c, rest).
Proof.
  destruct c as [b0 b1 b2 b3 b4 b5 b6 b7];
    destruct b0, b1, b2, b3, b4, b5, b6, b7; reflexivity.
Qed.

Lemma string_app_inv_head (a b c : string) :
  (a ++ b)%string = (a ++ c)%string -> b = c.
Proof.
  induction a as [| x a IH]; [auto |].
  rewrite !string_app_cons. intros [= H]. auto.
Qed.

Lemma escape_string_cons (c : ascii) (cs : list ascii) (sb : string_builder) :
  escape_string (c :: cs) sb
  = (sb ++ c_pretty_print_character c EmptyString
        ++ escape_string cs EmptyString)%string.
Proof.
  unfold escape_string. cbn [fold_left].
  revert c sb. induction cs as [| d cs IH]; intros c sb; cbn [fold_left].
  - rewrite c_pretty_print_character_app. now rewrite string_app_nil_r.
  - rewrite IH. rewrite (IH d EmptyString).
    rewrite (c_pretty_print_character_app c sb).
    change (EmptyString ++ ?x)%string with x.
    now rewrite string_app_assoc.
Qed.

Lemma escape_string_app (cs : list ascii) (sb : string_builder) :
  escape_string cs sb = (sb ++ escape_string cs EmptyString)%string.
Proof.
  destruct cs as [| c cs].
  - cbn. now rewrite string_app_nil_r.
  - rewrite escape_string_cons. rewrite (escape_string_cons c cs EmptyString).
    reflexivity.
Qed.

(** X5.  What [c_pretty_print_character] writes for a sequence of
    characters determines the sequence. *)
Theorem escape_string_injective (cs1 cs2 : list ascii) (sb : string_builder) :
  escape_string cs1 sb = escape_string cs2 sb -> cs1 = cs2.
Proof.
  revert cs2. induction cs1 as [| c1 cs1 IH]; intros [| c2 cs2] H.
  - reflexivity.
  - rewrite escape_string_cons in H. cbn [escape_string fold_left] in H.
    rewrite <- (string_app_nil_r sb) in H at 1.
    apply string_app_inv_head in H.
    apply (f_equal unescape_one) in H.
    rewrite unescape_one_escape in H. discriminate.
  - rewrite escape_string_cons in H. cbn [escape_string fold_left] in H.
    rewrite <- (string_app_nil_r sb) in H at 2.
    apply string_app_inv_head in H.
    apply (f_equal unescape_one) in H.
    rewrite unescape_one_escape in H. discriminate.
  - rewrite !escape_string_cons in H.
    apply string_app_inv_head in H.
    apply (f_equal unescape_one) in H.
    rewrite !unescape_one_escape in H. injection H as -> H.
    f_equal. apply IH.
    rewrite (escape_string_app cs1 sb), (escape_string_app cs2 sb).
    now f_equal.
Qed.

Lemma escape_string_injective_witness :
  ["a"; "010"; "\"]%char = ["a"; "010"; "\"]%char.
Proof.
  apply (escape_string_injective ["a"; "010"; "\"]%char
           ["a"; "010"; "\"]%char EmptyString).
  reflexivity.
Defined.

(** X6.  [c_pretty_print_string] writes, between double quotes, the escapes
    of the bytes [cs] that the memory holds at [address], which end
    before the first NUL byte or after [length] bytes. *)
Theorem c_pretty_print_string_escapes (read : Z -> res ascii)
    (address length : Z) (cs : list ascii) (sb : string_builder) :
  0 <= length ->
  (forall (i : nat) (c : ascii),
     cs !! i = Some c ->
     read (u64 (address + Z.of_nat i)) = Ok c /\ uchar_val c <> 0) ->
  Z.of_nat (List.length cs) = length
  \/ (Z.of_nat (List.length cs) < length
      /\ exists c, read (u64 (address + Z.of_nat (List.length cs))) = Ok c
                   /\ uchar_val c = 0) ->
  0 <= address < 2 ^ 64 ->
  c_pretty_print_string read address length sb
  = (string_builder_appendc
       (escape_string cs (string_builder_appendc sb dquote)) dquote, Ok tt).
Proof.
  intros Hlen Hcs Hend Haddr. unfold c_pretty_print_string.
  assert (Hloop : forall cs address length sb fuel,
            0 <= address < 2 ^ 64 ->
            (Z.to_nat length < fuel)%nat -> 0 <= length ->
            (forall (i : nat) (c : ascii),
               cs !! i = Some c ->
               read (u64 (address + Z.of_nat i)) = Ok c /\ uchar_val c <> 0) ->
            Z.of_nat (List.length cs) = length
            \/ (Z.of_nat (List.length cs) < length
                /\ exists c,
                     read (u64 (address + Z.of_nat (List.length cs))) = Ok c
                     /\ uchar_val c = 0) ->
            c_pretty_print_string_loop fuel read address length sb
            = (escape_string cs sb, Ok tt)).
  { clear. induction cs as [| c cs IH];
      intros address length sb fuel Haddr Hfuel Hlen Hcs Hend;
      (destruct fuel as [| fuel]; [lia |]); cbn [c_pretty_print_string_loop].
    - destruct Hend as [<- | (Hlt & c & Hc & Hz)]; [reflexivity |].
      cbn [List.length] in *. replace (length =? 0) with false by lia.
      rewrite Z.add_0_r in Hc. unfold u64 in Hc.
      rewrite Z.mod_small in Hc by lia. rewrite Hc.
      apply Z.eqb_eq in Hz. now rewrite Hz.
    - cbn [List.length] in Hend.
      replace (length =? 0) with false by lia.
      destruct (Hcs 0%nat c eq_refl) as [Hr Hnz].
      rewrite Z.add_0_r in Hr. unfold u64 in Hr.
      rewrite Z.mod_small in Hr by lia. rewrite Hr.
      replace (uchar_val c =? 0) with false by lia.
      rewrite (IH (u64 (address + 1)) (length - 1));
        [reflexivity | unfold u64; apply Z.mod_pos_bound; lia | lia | lia | |].
      + intros i d Hi. specialize (Hcs (S i) d Hi).
        replace (u64 (u64 (address + 1) + Z.of_nat i))
          with (u64 (address + Z.of_nat (S i))); [exact Hcs |].
        unfold u64. rewrite Zplus_mod_idemp_l. f_equal. lia.
      + destruct Hend as [Hend | (Hlt & d & Hd & Hz)]; [left; lia | right].
        split; [lia |]. exists d. split; [| exact Hz].
        replace (u64 (u64 (address + 1) + Z.of_nat (List.length cs)))
          with (u64 (address + Z.of_nat (S (List.length cs)))); [exact Hd |].
        unfold u64. rewrite Zplus_mod_idemp_l. f_equal. lia. }
  rewrite (Hloop cs); [reflexivity | exact Haddr | lia | exact Hlen | exact Hcs
                      | exact Hend].
Qed.

Lemma c_pretty_print_string_escapes_witness :
  c_pretty_print_string
    (fun a => Ok (if a =? 100 then "h"%char
                  else if a =? 101 then "i"%char else "000"%char))
    100 5 EmptyString
  = (string_builder_appendc
       (escape_string ["h"; "i"]%char
          (string_builder_appendc EmptyString dquote)) dquote, Ok tt).
Proof.
  apply c_pretty_print_string_escapes.
  - lia.
  - intros i c H. destruct i as [| [| i]]; cbn in H; [| | discriminate H];
      apply (inj Some) in H; subst c; (split; [reflexivity | discriminate]).
  - right. split; [cbn; lia |]. exists "000"%char. split; reflexivity.
  - lia.
Defined.

End CharacterStrings.

Section Qualifiers.
Import LanguageC.

Lemma land_all_qualifiers_bit (q i : Z) :
  0 <= i < 4 ->
  Z.land (Z.land q DRGN_ALL_QUALIFIERS) (Z.shiftl 1 i) = Z.land q (Z.shiftl 1 i).
Proof.
  intros Hi. rewrite <- Z.land_assoc. f_equal.
  assert (i = 0 \/ i = 1 \/ i = 2 \/ i = 3) as [-> | [-> | [-> | ->]]] by lia;
    reflexivity.
Qed.

Lemma c_append_qualifiers_land (q : Z) (sb : string_builder) :
  c_append_qualifiers q sb = c_append_qualifiers (Z.land q DRGN_ALL_QUALIFIERS) sb.
Proof.
  unfold c_append_qualifiers. cbn [append_qualifiers_loop].
  change (0 + 1) with 1. change (1 + 1) with 2. change (2 + 1) with 3.
  change (3 + 1) with 4.
  rewrite !land_all_qualifiers_bit by lia. reflexivity.
Qed.

(** X7.  The qualifiers that [c_append_qualifiers] writes are read back by
    [c_parse_optional_type_qualifier_list], which leaves the lexer at
    the end of the input. *)
Theorem c_append_qualifiers_parsed (q : Z) :
  exists lexer tok lexer',
    c_parse_optional_type_qualifier_list
      (drgn_lexer_init (c_append_qualifiers q EmptyString))
    = Some (Ok (Z.land q DRGN_ALL_QUALIFIERS, lexer))
    /\ drgn_lexer_pop lexer = Ok (tok, lexer')
    /\ kind tok = C_TOKEN_EOF.
Proof.
  rewrite c_append_qualifiers_land.
  assert (Hr : 0 <= Z.land q DRGN_ALL_QUALIFIERS < 16).
  { change DRGN_ALL_QUALIFIERS with (Z.ones 4). rewrite Z.land_ones by lia.
    apply Z.mod_pos_bound. lia. }
  replace (Z.land (Z.land q DRGN_ALL_QUALIFIERS) DRGN_ALL_QUALIFIERS)
    with (Z.land q DRGN_ALL_QUALIFIERS) at 1.
  2:{ rewrite <- Z.land_assoc. reflexivity. }
  set (x := Z.land q DRGN_ALL_QUALIFIERS) in *.
  assert (Hx : x = 0 \/ x = 1 \/ x = 2 \/ x = 3 \/ x = 4 \/ x = 5 \/ x = 6
               \/ x = 7 \/ x = 8 \/ x = 9 \/ x = 10 \/ x = 11 \/ x = 12
               \/ x = 13 \/ x = 14 \/ x = 15) by lia.
  clearbody x.
  repeat (destruct Hx as [-> | Hx];
          [eexists _, _, _; split; [vm_compute; reflexivity |];
           split; [vm_compute; reflexivity | reflexivity] |]).
  subst x. eexists _, _, _. split; [vm_compute; reflexivity |].
  split; [vm_compute; reflexivity | reflexivity].
Qed.

End Qualifiers.

Section IntegerTypes.
Import LanguageC.

(** X8.  [c_can_represent_all_values] answers whether every value of the
    second type (or bit field) is a value of the first. *)
Theorem c_can_represent_all_values_spec (type1 : drgn_type)
    (bit_field_size1 : Z) (type2 : drgn_type) (bit_field_size2 : Z) :
  1 <= value_width type1 bit_field_size1 ->
  1 <= value_width type2 bit_field_size2 ->
  c_can_represent_all_values type1 bit_field_size1 type2 bit_field_size2 = true
  <-> forall v,
        integer_values (value_width type2 bit_field_size2)
          (value_is_signed type2) v ->
        integer_values (value_width type1 bit_field_size1)
          (value_is_signed type1) v.
Proof.
  intros H1 H2. unfold c_can_represent_all_values.
  set (w1 := value_width type1 bit_field_size1) in *.
  set (w2 := value_width type2 bit_field_size2) in *.
  assert (Hp1 : 0 < 2 ^ (w1 - 1)) by (apply Z.pow_pos_nonneg; lia).
  assert (Hp2 : 0 < 2 ^ (w2 - 1)) by (apply Z.pow_pos_nonneg; lia).
  assert (Hd1 : 2 ^ w1 = 2 * 2 ^ (w1 - 1)).
  { replace w1 with (Z.succ (w1 - 1)) at 1 by lia. apply Z.pow_succ_r. lia. }
  assert (Hd2 : 2 ^ w2 = 2 * 2 ^ (w2 - 1)).
  { replace w2 with (Z.succ (w2 - 1)) at 1 by lia. apply Z.pow_succ_r. lia. }
  assert (Hmono : w2 <= w1 -> 2 ^ (w2 - 1) <= 2 ^ (w1 - 1))
    by (intros; apply Z.pow_le_mono_r; lia).
  assert (Hstrict : w1 < w2 -> 2 * 2 ^ (w1 - 1) <= 2 ^ (w2 - 1)).
  { intros. rewrite <- Hd1. apply Z.pow_le_mono_r; lia. }
  unfold integer_values.
  destruct (value_is_signed type1), (value_is_signed type2); cbn [eqb andb negb].
  - split.
    + intros Hge v Hv. apply Z.geb_le in Hge. specialize (Hmono Hge). lia.
    + intros Hall. apply Z.geb_le.
      destruct (Z_le_gt_dec w2 w1) as [| Hgt]; [assumption | exfalso].
      specialize (Hall (2 ^ (w2 - 1) - 1) ltac:(lia)).
      specialize (Hstrict ltac:(lia)). lia.
  - split.
    + intros Hgt v Hv. rewrite Z.gtb_ltb in Hgt. apply Z.ltb_lt in Hgt.
      assert (2 ^ w2 <= 2 ^ (w1 - 1)) by (apply Z.pow_le_mono_r; lia). lia.
    + intros Hall. rewrite Z.gtb_ltb. apply Z.ltb_lt.
      destruct (Z_lt_le_dec w2 w1) as [| Hle]; [assumption | exfalso].
      specialize (Hall (2 ^ w2 - 1) ltac:(lia)).
      assert (2 ^ w1 <= 2 ^ w2) by (apply Z.pow_le_mono_r; lia). lia.
  - split; [discriminate |].
    intros Hall. specialize (Hall (-1) ltac:(lia)). lia.
  - split.
    + intros Hge v Hv. apply Z.geb_le in Hge.
      assert (2 ^ w2 <= 2 ^ w1) by (apply Z.pow_le_mono_r; lia). lia.
    + intros Hall. apply Z.geb_le.
      destruct (Z_le_gt_dec w2 w1) as [| Hgt]; [assumption | exfalso].
      specialize (Hall (2 ^ w2 - 1) ltac:(lia)).
      assert (2 * 2 ^ w1 <= 2 ^ w2).
      { rewrite <- (Z.pow_succ_r 2 w1) by lia. apply Z.pow_le_mono_r; lia. }
      lia.
Qed.

Lemma c_can_represent_all_values_spec_witness :
  c_can_represent_all_values (lp64_primitive_types DRGN_C_TYPE_LONG) 0
    (lp64_primitive_types DRGN_C_TYPE_UNSIGNED_INT) 0 = true
  <-> forall v,
        integer_values
          (value_width (lp64_primitive_types DRGN_C_TYPE_UNSIGNED_INT) 0)
          (value_is_signed (lp64_primitive_types DRGN_C_TYPE_UNSIGNED_INT)) v ->
        integer_values
          (value_width (lp64_primitive_types DRGN_C_TYPE_LONG) 0)
          (value_is_signed (lp64_primitive_types DRGN_C_TYPE_LONG)) v.
Proof.
  apply c_can_represent_all_values_spec; vm_compute; discriminate.
Defined.

End IntegerTypes.

Section Promotions.
Import LanguageC.

Variable tindex : drgn_type_index.
Hypothesis int_kind :
  drgn_type_kind_of (primitive_types tindex DRGN_C_TYPE_INT) = DRGN_TYPE_INT.
Hypothesis int_primitive :
  drgn_type_primitive (primitive_types tindex DRGN_C_TYPE_INT) = DRGN_C_TYPE_INT.
Hypothesis uint_kind :
  drgn_type_kind_of (primitive_types tindex DRGN_C_TYPE_UNSIGNED_INT)
  = DRGN_TYPE_INT.
Hypothesis uint_primitive :
  drgn_type_primitive (primitive_types tindex DRGN_C_TYPE_UNSIGNED_INT)
  = DRGN_C_TYPE_UNSIGNED_INT.

Lemma promoted_to_int (operand : drgn_object_type) :
  c_integer_promotions tindex
    (set_types operand (primitive_types tindex DRGN_C_TYPE_INT) 0)
  = Ok (set_types operand (primitive_types tindex DRGN_C_TYPE_INT) 0).
Proof.
  unfold c_integer_promotions. cbn [set_types ot_underlying_type ot_bit_field_size].
  rewrite int_kind, int_primitive. reflexivity.
Qed.

Lemma promoted_to_uint (operand : drgn_object_type) :
  c_integer_promotions tindex
    (set_types operand (primitive_types tindex DRGN_C_TYPE_UNSIGNED_INT) 0)
  = Ok (set_types operand (primitive_types tindex DRGN_C_TYPE_UNSIGNED_INT) 0).
Proof.
  unfold c_integer_promotions. cbn [set_types ot_underlying_type ot_bit_field_size].
  rewrite uint_kind, uint_primitive. reflexivity.
Qed.

Lemma promote_integer_idempotent (operand p : drgn_object_type) :
  drgn_type_kind_of (ot_underlying_type operand) = DRGN_TYPE_INT
  \/ drgn_type_kind_of (ot_underlying_type operand) = DRGN_TYPE_BOOL ->
  c_integer_promotions tindex operand = Ok p ->
  c_integer_promotions tindex p = Ok p.
Proof.
  intros Hk H. pose proof H as H0.
  unfold c_integer_promotions in H.
  assert (Hbody : forall A (a b : A),
            match drgn_type_kind_of (ot_underlying_type operand) with
            | DRGN_TYPE_ENUM => b
            | DRGN_TYPE_INT | DRGN_TYPE_BOOL => a
            | _ => b
            end = a).
  { intros A a b. destruct Hk as [-> | ->]; reflexivity. }
  destruct Hk as [Hk | Hk]; rewrite Hk in H;
    repeat case_match; simplify_eq; try exact H0;
    try apply promoted_to_int; try apply promoted_to_uint.
  all: match goal with
       | Hb : orb _ (negb _) = false |- _ =>
           apply orb_false_iff in Hb as [_ Hb];
           apply negb_false_iff, Z.eqb_eq in Hb; rewrite Hb
       end.
  all: try apply promoted_to_int; try apply promoted_to_uint.
Qed.

(** X9.  The integer promotions change nothing in an operand that they
    have promoted. *)
Theorem c_integer_promotions_idempotent (operand p : drgn_object_type) :
  (forall c,
     drgn_type_kind_of (ot_underlying_type operand) = DRGN_TYPE_ENUM ->
     ty_type (ot_underlying_type operand) = Some c ->
     drgn_type_kind_of c = DRGN_TYPE_INT
     \/ drgn_type_kind_of c = DRGN_TYPE_BOOL) ->
  c_integer_promotions tindex operand = Ok p ->
  c_integer_promotions tindex p = Ok p.
Proof.
  intros Henum H.
  destruct (drgn_type_kind_of (ot_underlying_type operand)) eqn:Hk;
    try (apply (promote_integer_idempotent operand p); auto; fail);
    try (pose proof H as H0; unfold c_integer_promotions in H;
         rewrite Hk in H; injection H as <-; exact H0; fail).
  pose proof H as H0. unfold c_integer_promotions in H. rewrite Hk in H.
  destruct (ty_type (ot_underlying_type operand)) as [c |] eqn:Hc;
    [| discriminate].
  specialize (Henum c eq_refl eq_refl).
  apply (promote_integer_idempotent
           (set_types operand c (ot_bit_field_size operand)) p).
  - exact Henum.
  - unfold c_integer_promotions. cbn [set_types ot_underlying_type].
    destruct Henum as [-> | ->]; exact H.
Qed.

End Promotions.

Section Literals.
Import LanguageC.

Lemma c_integer_promotions_idempotent_witness :
  c_integer_promotions lp64_tindex
    (operand (lp64_primitive_types DRGN_C_TYPE_INT))
  = Ok (operand (lp64_primitive_types DRGN_C_TYPE_INT)).
Proof.
  apply (c_integer_promotions_idempotent lp64_tindex eq_refl eq_refl eq_refl
           eq_refl (operand (lp64_primitive_types DRGN_C_TYPE_SHORT))).
  - intros c Hk. discriminate Hk.
  - reflexivity.
Defined.

Lemma bit_length_spec (v : Z) :
  0 <= v -> 0 <= bit_length v /\ v < 2 ^ bit_length v.
Proof.
  intros Hv. unfold bit_length. destruct (v =? 0) eqn:E.
  - apply Z.eqb_eq in E. subst. cbn. lia.
  - apply Z.eqb_neq in E. pose proof (Z.log2_nonneg v).
    pose proof (Z.log2_spec v ltac:(lia)) as [_ Hs].
    rewrite <- Z.add_1_r in Hs. lia.
Qed.

(** X10.  The type that [c_integer_literal] gives a literal holds its value:
    a signed type is taken only when its width is more than the number
    of bits of the value, and the literal is refused only when it has
    more bits than [unsigned long long]. *)
Theorem c_integer_literal_fits (tindex : drgn_type_index) (uvalue : Z) :
  0 <= uvalue < 2 ^ 64 ->
  (forall p,
     p ∈ [DRGN_C_TYPE_INT; DRGN_C_TYPE_LONG; DRGN_C_TYPE_LONG_LONG;
          DRGN_C_TYPE_UNSIGNED_LONG_LONG] ->
     0 <= drgn_type_size (primitive_types tindex p) <= 8) ->
  match c_integer_literal tindex uvalue with
  | Ok (Set_signed qualified_type svalue bit_field_size) =>
      svalue = uvalue /\ bit_field_size = 0
      /\ integer_values (8 * drgn_type_size (qt_type qualified_type)) true
           uvalue
  | Ok (Set_unsigned qualified_type value bit_field_size) =>
      value = uvalue /\ bit_field_size = 0
      /\ integer_values (8 * drgn_type_size (qt_type qualified_type)) false
           uvalue
  | Err e =>
      e = DRGN_ERROR_INVALID_ARGUMENT
      /\ 8 * drgn_type_size
               (primitive_types tindex DRGN_C_TYPE_UNSIGNED_LONG_LONG)
         < bit_length uvalue
  | _ => False
  end.
Proof.
  intros Hv Hsize. unfold c_integer_literal.
  destruct (bit_length_spec uvalue) as [Hb0 Hb]; [lia |].
  assert (Hw : forall p,
            p ∈ [DRGN_C_TYPE_INT; DRGN_C_TYPE_LONG; DRGN_C_TYPE_LONG_LONG;
                 DRGN_C_TYPE_UNSIGNED_LONG_LONG] ->
            u64 (8 * drgn_type_size (primitive_types tindex p))
            = 8 * drgn_type_size (primitive_types tindex p)).
  { intros p Hp. specialize (Hsize p Hp). unfold u64. apply Z.mod_small. lia. }
  assert (Hsigned : forall p,
            p ∈ [DRGN_C_TYPE_INT; DRGN_C_TYPE_LONG; DRGN_C_TYPE_LONG_LONG;
                 DRGN_C_TYPE_UNSIGNED_LONG_LONG] ->
            bit_length uvalue < 8 * drgn_type_size (primitive_types tindex p) ->
            s64 uvalue = uvalue
            /\ integer_values (8 * drgn_type_size (primitive_types tindex p))
                 true uvalue).
  { intros p Hp Hlt. specialize (Hsize p Hp).
    assert (2 ^ bit_length uvalue
            <= 2 ^ (8 * drgn_type_size (primitive_types tindex p) - 1))
      by (apply Z.pow_le_mono_r; lia).
    assert (2 ^ (8 * drgn_type_size (primitive_types tindex p) - 1) <= 2 ^ 63)
      by (apply Z.pow_le_mono_r; lia).
    split.
    - unfold s64. replace (uvalue <? 2 ^ 63) with true by lia. reflexivity.
    - cbn [integer_values].
      assert (0 < 2 ^ (8 * drgn_type_size (primitive_types tindex p) - 1))
        by (apply Z.pow_pos_nonneg; lia).
      lia. }
  pose proof (Hsize DRGN_C_TYPE_UNSIGNED_LONG_LONG ltac:(repeat constructor))
    as Hull.
  cbv zeta. rewrite !Hw by repeat constructor.
  destruct (bit_length uvalue <? 8 * drgn_type_size (primitive_types tindex DRGN_C_TYPE_INT)) eqn:E1.
  { apply Z.ltb_lt, Hsigned in E1 as [Hs E1]; [| repeat constructor]. rewrite Hs. cbv beta iota. cbn [qt_type].
    split; [reflexivity | split; [reflexivity | exact E1]]. }
  destruct (bit_length uvalue <? 8 * drgn_type_size (primitive_types tindex DRGN_C_TYPE_LONG)) eqn:E2.
  { apply Z.ltb_lt, Hsigned in E2 as [Hs E2]; [| repeat constructor]. rewrite Hs. cbv beta iota. cbn [qt_type].
    split; [reflexivity | split; [reflexivity | exact E2]]. }
  destruct (bit_length uvalue <? 8 * drgn_type_size (primitive_types tindex DRGN_C_TYPE_LONG_LONG)) eqn:E3.
  { apply Z.ltb_lt, Hsigned in E3 as [Hs E3]; [| repeat constructor]. rewrite Hs. cbv beta iota. cbn [qt_type].
    split; [reflexivity | split; [reflexivity | exact E3]]. }
  destruct (bit_length uvalue <=? 8 * drgn_type_size (primitive_types tindex DRGN_C_TYPE_UNSIGNED_LONG_LONG)) eqn:E4; cbv beta iota.
  - split; [reflexivity |]. split; [reflexivity |].
    cbn [integer_values qt_type].
    assert (2 ^ bit_length uvalue
            <= 2 ^ (8 * drgn_type_size
                          (primitive_types tindex
                             DRGN_C_TYPE_UNSIGNED_LONG_LONG)))
      by (apply Z.pow_le_mono_r; lia).
    lia.
  - split; [reflexivity | lia].
Qed.

Lemma c_integer_literal_fits_witness :
  match c_integer_literal lp64_tindex 4294967296 with
  | Ok (Set_signed qualified_type svalue bit_field_size) =>
      svalue = 4294967296 /\ bit_field_size = 0
      /\ integer_values (8 * drgn_type_size (qt_type qualified_type)) true
           4294967296
  | Ok (Set_unsigned qualified_type value bit_field_size) =>
      value = 4294967296 /\ bit_field_size = 0
      /\ integer_values (8 * drgn_type_size (qt_type qualified_type)) false
           4294967296
  | Err e =>
      e = DRGN_ERROR_INVALID_ARGUMENT
      /\ 8 * drgn_type_size
               (primitive_types lp64_tindex DRGN_C_TYPE_UNSIGNED_LONG_LONG)
         < bit_length 4294967296
  | _ => False
  end.
Proof.
  apply c_integer_literal_fits.
  - lia.
  - intros p Hp. repeat (apply elem_of_cons in Hp as [-> | Hp]; [cbn; lia |]).
    inversion Hp.
Defined.

End Literals.

Section Leb128.
Import DwarfIndex.

Lemma lor_disjoint_add (a b s : Z) :
  0 <= s -> 0 <= a < 2 ^ s -> 0 <= b ->
  Z.lor a (Z.shiftl b s) = a + b * 2 ^ s.
Proof.
  intros Hs Ha Hb. rewrite Z.shiftl_mul_pow2 by lia.
  rewrite <- Z.lxor_lor, <- Z.add_nocarry_lxor; try reflexivity.
  all: apply Z.bits_inj'; intros n Hn; rewrite Z.land_spec, Z.bits_0.
  all: destruct (Z_lt_le_dec n s) as [Hlt | Hge].
  all: try (rewrite Z.mul_pow2_bits_low by lia; apply andb_false_r).
  all: assert (Z.testbit a n = false) as ->
         by (destruct (Z.eq_dec a 0) as [-> | Hnz];
             [apply Z.bits_0 |
              apply Z.bits_above_log2; [lia |];
              apply Z.log2_lt_pow2; [lia |];
              eapply Z.lt_le_trans; [apply Ha | apply Z.pow_le_mono_r; lia]]);
       reflexivity.
Qed.

Lemma byte_at_app (pre l post : list Z) (k : nat) (b : Z) :
  l !! k = Some b ->
  byte_at (pre ++ l ++ post) (Z.of_nat (length pre) + Z.of_nat k) = b.
Proof.
  intros Hk. unfold byte_at.
  replace (Z.to_nat (Z.of_nat (length pre) + Z.of_nat k))
    with (length pre + k)%nat by lia.
  rewrite lookup_app_r by lia.
  replace (length pre + k - length pre)%nat with k by lia.
  rewrite lookup_app_l by (apply lookup_lt_Some in Hk; exact Hk).
  now rewrite Hk.
Qed.

Lemma land_127 (v : Z) : Z.land v 127 = v mod 128.
Proof. change 127 with (Z.ones 7). rewrite Z.land_ones by lia. reflexivity. Qed.

Lemma continuation_byte (v : Z) :
  Z.land (Z.lor (Z.land v 127) 128) 127 = v mod 128
  /\ Z.land (Z.lor (Z.land v 127) 128) 128 = 128.
Proof.
  rewrite !Z.land_lor_distr_l, <- !Z.land_assoc.
  change (Z.land 127 127) with 127. change (Z.land 128 127) with 0.
  change (Z.land 127 128) with 0. change (Z.land 128 128) with 128.
  rewrite Z.land_0_r, Z.lor_0_r, Z.lor_0_l, land_127. auto.
Qed.

Lemma read_uleb128_loop_encoding (n : nat) :
  forall (v : Z) (pre post : list Z) (fuel : nat) (shift value end_ : Z),
    shift + 7 * Z.of_nat n = 63 -> 0 <= shift ->
    0 <= v < 2 ^ (64 - shift) -> 0 <= value < 2 ^ shift ->
    Z.of_nat (length pre) + Z.of_nat (length (uleb128_bytes n v)) <= end_ ->
    (length (uleb128_bytes n v) <= fuel)%nat ->
    read_uleb128_loop fuel (pre ++ uleb128_bytes n v ++ post)
      (Z.of_nat (length pre)) end_ shift value
    = Ok (value + v * 2 ^ shift,
          Z.of_nat (length pre) + Z.of_nat (length (uleb128_bytes n v))).
Proof.
  induction n as [| n IH];
    intros v pre post fuel shift value end_ Hshift Hs Hv Hval Hend Hfuel;
    cbn [uleb128_bytes] in *.
  - assert (shift = 63) as -> by lia. change (2 ^ (64 - 63)) with 2 in Hv.
    destruct fuel as [| fuel]; [cbn in Hfuel; lia |].
    cbn [read_uleb128_loop length] in *.
    replace (Z.of_nat (length pre) >=? end_) with false by lia.
    pose proof (byte_at_app pre [v] post 0 v eq_refl) as Hb.
    rewrite Z.add_0_r in Hb. rewrite Hb.
    replace (v >? 1) with false by lia. cbn [andb Z.eqb].
    rewrite andb_false_r.
    assert (Hl : Z.land v 127 = v) by (rewrite land_127; apply Z.mod_small; lia).
    rewrite Hl.
    replace (u64 (Z.shiftl v 63)) with (Z.shiftl v 63).
    2:{ unfold u64. rewrite Z.mod_small; [reflexivity |].
        rewrite Z.shiftl_mul_pow2 by lia. lia. }
    rewrite lor_disjoint_add by lia.
    replace (Z.land v 128 =? 0) with true.
    2:{ symmetry. apply Z.eqb_eq.
        assert (v = 0 \/ v = 1) as [-> | ->] by lia; reflexivity. }
    f_equal.
  - destruct fuel as [| fuel];
      [destruct (v <? 128); cbn in Hfuel; lia |].
    assert (Hp : 2 ^ (64 - shift) = 2 ^ (64 - (shift + 7)) * 128).
    { replace (64 - shift) with ((64 - (shift + 7)) + 7) by lia.
      rewrite Z.pow_add_r by lia. reflexivity. }
    assert (Hp2 : 2 ^ (shift + 7) = 2 ^ shift * 128).
    { rewrite Z.pow_add_r by lia. reflexivity. }
    assert (Hpos : 0 < 2 ^ shift) by (apply Z.pow_pos_nonneg; lia).
    assert (Hpos2 : 0 < 2 ^ (64 - (shift + 7))) by (apply Z.pow_pos_nonneg; lia).
    assert (H64 : 2 ^ 64 = 2 ^ (64 - shift) * 2 ^ shift).
    { rewrite <- Z.pow_add_r by lia. f_equal. lia. }
    cbn [read_uleb128_loop].
    destruct (v <? 128) eqn:Hsmall.
    + cbn [length] in *.
      replace (Z.of_nat (length pre) >=? end_) with false by lia.
      pose proof (byte_at_app pre [v] post 0 v eq_refl) as Hb.
      rewrite Z.add_0_r in Hb. rewrite Hb.
      replace (shift =? 63) with false by lia. cbn [andb].
      assert (Hl : Z.land v 127 = v)
        by (rewrite land_127; apply Z.mod_small; lia).
      rewrite Hl.
      replace (u64 (Z.shiftl v shift)) with (Z.shiftl v shift).
      2:{ unfold u64. rewrite Z.mod_small; [reflexivity |].
          rewrite Z.shiftl_mul_pow2 by lia. nia. }
      rewrite lor_disjoint_add by lia.
      replace (Z.land v 128 =? 0) with true.
      2:{ symmetry. apply Z.eqb_eq. change 128 with (2 ^ 7).
          apply Z.bits_inj'. intros k Hk. rewrite Z.land_spec, Z.bits_0.
          destruct (Z.eq_dec k 7) as [-> | Hne].
          - replace (Z.testbit v 7) with false; [reflexivity |].
            symmetry. destruct (Z.eq_dec v 0) as [-> | Hnz];
              [apply Z.bits_0 |].
            apply Z.bits_above_log2; [lia |].
            apply Z.log2_lt_pow2; lia.
          - rewrite Z.pow2_bits_false by lia. apply andb_false_r. }
      f_equal.
    + cbn [length] in *.
      replace (Z.of_nat (length pre) >=? end_) with false by lia.
      set (byte := Z.lor (Z.land v 127) 128).
      pose proof (byte_at_app pre (byte :: uleb128_bytes n (Z.shiftr v 7))
                    post 0 byte eq_refl) as Hb.
      rewrite Z.add_0_r in Hb. rewrite Hb.
      replace (shift =? 63) with false by lia. cbn [andb].
      destruct (continuation_byte v) as [Hlow Hhigh]. fold byte in Hlow, Hhigh.
      rewrite Hlow, Hhigh. cbn [Z.eqb].
      pose proof (Z.mod_pos_bound v 128 ltac:(lia)) as Hm.
      pose proof (Z.div_mod v 128 ltac:(lia)) as Hdm.
      replace (u64 (Z.shiftl (v mod 128) shift))
        with (Z.shiftl (v mod 128) shift).
      2:{ unfold u64. symmetry. apply Z.mod_small.
          rewrite Z.shiftl_mul_pow2 by lia. nia. }
      rewrite lor_disjoint_add by lia.
      rewrite Z.shiftr_div_pow2 by lia. change (2 ^ 7) with 128.
      specialize (IH (v / 128) (pre ++ [byte]) post fuel (shift + 7)
                    (value + v mod 128 * 2 ^ shift) end_).
      rewrite length_app in IH. cbn [length] in IH.
      replace (Z.of_nat (length pre + 1)) with (Z.of_nat (length pre) + 1)
        in IH by lia.
      rewrite <- app_assoc in IH. cbn [app] in IH.
      rewrite Z.shiftr_div_pow2 in Hend, Hfuel by lia.
      change (2 ^ 7) with 128 in Hend, Hfuel.
      cbn [app]. rewrite IH; [f_equal; f_equal; nia | lia | lia | | nia | lia | lia].
      split; [apply Z.div_pos; lia |].
      apply Z.div_lt_upper_bound; lia.
Qed.

(** X11.  [read_uleb128] reads back what the LEB128 encoding of a 64-bit
    value holds, and stops behind it. *)
Theorem read_uleb128_encoding (v : Z) (pre post : list Z) (end_ : Z) :
  0 <= v < 2 ^ 64 ->
  Z.of_nat (length pre) + Z.of_nat (length (uleb128_of_u64 v)) <= end_ ->
  read_uleb128 (pre ++ uleb128_of_u64 v ++ post) (Z.of_nat (length pre)) end_
  = Ok (v, Z.of_nat (length pre) + Z.of_nat (length (uleb128_of_u64 v))).
Proof.
  intros Hv Hend. unfold read_uleb128, uleb128_of_u64 in *.
  rewrite (read_uleb128_loop_encoding 9 v pre post _ 0 0 end_);
    [f_equal; f_equal; lia | lia | lia | cbn; lia | cbn; lia | exact Hend | lia].
Qed.

Lemma read_uleb128_encoding_witness :
  read_uleb128 ([7] ++ uleb128_of_u64 300 ++ [9]) (Z.of_nat (length [7])) 4
  = Ok (300, Z.of_nat (length [7]) + Z.of_nat (length (uleb128_of_u64 300))).
Proof.
  apply (read_uleb128_encoding 300 [7] [9] 4).
  - lia.
  - vm_compute. discriminate.
Defined.

Lemma lor_u64_bound (a b : Z) :
  0 <= a < 2 ^ 64 -> 0 <= Z.lor a (u64 b) < 2 ^ 64.
Proof.
  intros Ha. unfold u64.
  pose proof (Z.mod_pos_bound b (2 ^ 64) ltac:(lia)) as Hb.
  split; [apply Z.lor_nonneg; lia |].
  destruct (Z.eq_dec (Z.lor a (b mod 2 ^ 64)) 0) as [-> | Hnz]; [lia |].
  apply Z.log2_lt_pow2; [pose proof (Z.lor_nonneg a (b mod 2 ^ 64)); lia |].
  rewrite Z.log2_lor by lia.
  apply Z.max_lub_lt.
  - destruct (Z.eq_dec a 0) as [-> | ?]; [cbn; lia |].
    apply Z.log2_lt_pow2; lia.
  - destruct (Z.eq_dec (b mod 2 ^ 64) 0) as [-> | ?]; [cbn; lia |].
    apply Z.log2_lt_pow2; lia.
Qed.

Lemma byte_at_range (buf : bytes) (ptr : Z) :
  Forall (fun b => 0 <= b < 256) buf -> 0 <= byte_at buf ptr < 256.
Proof.
  intros Hbuf. unfold byte_at.
  destruct (buf !! Z.to_nat ptr) as [b |] eqn:Hb; cbn; [| lia].
  exact (proj1 (Forall_lookup _ _) Hbuf _ _ Hb).
Qed.

Lemma read_uleb128_loop_bounds (buf : bytes) (end_ : Z) (fuel : nat) :
  Forall (fun b => 0 <= b < 256) buf ->
  forall (ptr shift value k : Z),
    shift = 7 * k -> 0 <= k <= 9 -> 0 <= value < 2 ^ 64 ->
    (Z.to_nat (end_ - ptr) < fuel)%nat ->
    match read_uleb128_loop fuel buf ptr end_ shift value with
    | Ok (v, p) =>
        ptr < p <= end_ /\ p <= ptr + (10 - k) /\ 0 <= v < 2 ^ 64
        /\ skip_leb128_loop fuel buf ptr end_ = Some p
    | Err e => e = DRGN_ERROR_DWARF_FORMAT \/ e = DRGN_ERROR_OVERFLOW
    | _ => False
    end.
Proof.
  intros Hbuf. induction fuel as [| fuel IH];
    intros ptr shift value k Hshift Hk Hvalue Hfuel; [lia |].
  cbn [read_uleb128_loop skip_leb128_loop].
  destruct (ptr >=? end_) eqn:Hend; [left; reflexivity |].
  pose proof (byte_at_range buf ptr Hbuf) as Hbyte.
  destruct ((shift =? 63) && (byte_at buf ptr >? 1)) eqn:Hover;
    [right; reflexivity |].
  destruct (Z.land (byte_at buf ptr) 128 =? 0) eqn:Hlast.
  - split; [lia |]. split; [lia |]. split; [| reflexivity].
    apply lor_u64_bound, Hvalue.
  - assert (k < 9).
    { destruct (Z.eq_dec k 9) as [-> | ?]; [| lia]. exfalso.
      subst shift. cbn [Z.eqb Z.mul Pos.mul Pos.eqb andb] in Hover.
      assert (byte_at buf ptr = 0 \/ byte_at buf ptr = 1) as [E | E] by lia;
        rewrite E in Hlast; discriminate. }
    specialize (IH (ptr + 1) (shift + 7)
                  (Z.lor value (u64 (Z.shiftl (Z.land (byte_at buf ptr) 127) shift)))
                  (k + 1) ltac:(lia) ltac:(lia)
                  (lor_u64_bound _ _ Hvalue) ltac:(lia)).
    destruct (read_uleb128_loop fuel buf (ptr + 1) end_ (shift + 7) _)
      as [[v p] | e | |]; try exact IH.
    destruct IH as (Hp & Hp' & Hv & Hskip).
    split; [lia |]. split; [lia |]. split; [exact Hv | exact Hskip].
Qed.

(** X12.  [read_uleb128] on bytes takes between one and ten of them, none
    at or behind [end_], gives a value of 64 bits and stops where
    [skip_leb128] stops; when it fails, the bytes ran out or the value
    did not fit. *)
Theorem read_uleb128_bounds (buf : bytes) (ptr end_ : Z) :
  Forall (fun b => 0 <= b < 256) buf ->
  0 <= ptr -> end_ <= Z.of_nat (length buf) ->
  match read_uleb128 buf ptr end_ with
  | Ok (v, p) =>
      ptr < p <= end_ /\ p <= ptr + 10 /\ 0 <= v < 2 ^ 64
      /\ skip_leb128 buf ptr end_ = Some p
  | Err e => e = DRGN_ERROR_DWARF_FORMAT \/ e = DRGN_ERROR_OVERFLOW
  | _ => False
  end.
Proof.
  intros Hbuf _ _. unfold read_uleb128, skip_leb128.
  pose proof (read_uleb128_loop_bounds buf end_ (S (Z.to_nat (end_ - ptr)))
                Hbuf ptr 0 0 0 eq_refl ltac:(lia) ltac:(lia) ltac:(lia)) as H.
  destruct (read_uleb128_loop _ buf ptr end_ 0 0) as [[v p] | e | |];
    try exact H.
Qed.

Lemma read_uleb128_bounds_witness :
  match read_uleb128 [172; 2; 0] 0 3 with
  | Ok (v, p) =>
      0 < p <= 3 /\ p <= 0 + 10 /\ 0 <= v < 2 ^ 64
      /\ skip_leb128 [172; 2; 0] 0 3 = Some p
  | Err e => e = DRGN_ERROR_DWARF_FORMAT \/ e = DRGN_ERROR_OVERFLOW
  | _ => False
  end.
Proof.
  apply (read_uleb128_bounds [172; 2; 0] 0 3).
  - repeat constructor; lia.
  - lia.
  - cbn. lia.
Defined.

End Leb128.

Section Units.
Import DwarfIndex.

Lemma read_compilation_unit_header_fields f swap info ptr end_ cu :
  read_compilation_unit_header f swap info ptr end_ = Ok cu ->
  cu_file cu = f /\ cu_ptr cu = ptr /\ version cu ∈ [2; 3; 4].
Proof.
  unfold read_compilation_unit_header. intros H.
  repeat (case_match; cbn [mbind res_bind] in H; simplify_eq);
    cbn [cu_file cu_ptr version]; (split; [reflexivity |]);
    (split; [reflexivity |]).
  all: match goal with
       | Hv : negb (form_in _ _) = false |- _ =>
           apply negb_false_iff, bool_decide_eq_true_1 in Hv; exact Hv
       end.
Qed.

Lemma le_value_nonneg (bs : list Z) :
  Forall (fun b => 0 <= b < 256) bs -> 0 <= le_value bs.
Proof.
  induction 1 as [| b bs Hb _ IH]; cbn [le_value]; lia.
Qed.

Lemma read_uint_nonneg n swap buf ptr end_ v p :
  Forall (fun b => 0 <= b < 256) buf ->
  read_uint n swap buf ptr end_ = Some (v, p) -> 0 <= v.
Proof.
  intros Hbuf. unfold read_uint. case_match; [| discriminate].
  intros [= <- _]. apply le_value_nonneg.
  assert (Hsub : Forall (fun b => 0 <= b < 256)
                   (take n (drop (Z.to_nat ptr) buf)))
    by (apply Forall_take, Forall_drop, Hbuf).
  destruct swap; [apply Forall_reverse |]; exact Hsub.
Qed.

Lemma read_compilation_unit_header_length f swap info ptr end_ cu :
  Forall (fun b => 0 <= b < 256) info ->
  read_compilation_unit_header f swap info ptr end_ = Ok cu ->
  0 <= unit_length cu.
Proof.
  intros Hinfo. unfold read_compilation_unit_header. intros H.
  destruct (read_uint 4 swap info ptr end_) as [[tmp p1] |] eqn:H1;
    cbn [mbind res_bind] in H; [| discriminate].
  pose proof (read_uint_nonneg _ _ _ _ _ _ _ Hinfo H1) as Htmp.
  destruct (tmp =? 4294967295).
  - destruct (read_uint 8 swap info p1 end_) as [[len p2] |] eqn:H2;
      cbn [mbind res_bind] in H; [| discriminate].
    pose proof (read_uint_nonneg _ _ _ _ _ _ _ Hinfo H2) as Hlen.
    repeat (case_match; cbn [mbind res_bind] in H; simplify_eq);
      exact Hlen.
  - cbn [mbind res_bind] in H.
    repeat (case_match; cbn [mbind res_bind] in H; simplify_eq);
      exact Htmp.
Qed.

Lemma read_compilation_unit_header_returns f swap info ptr end_ :
  match read_compilation_unit_header f swap info ptr end_ with
  | Ok _ => True
  | Err e => e = DRGN_ERROR_DWARF_FORMAT
  | _ => False
  end.
Proof.
  unfold read_compilation_unit_header, drgn_eof.
  repeat (case_match; cbn [mbind res_bind] in *; simplify_eq);
    first [exact I | reflexivity].
Qed.

(** What the loop of [read_cus] gives when it ends. *)
Lemma read_cus_loop_adjoining fuel f swap info buf end_ :
  forall ptr h cus capacity,
    match read_cus_loop fuel f swap info buf ptr end_ h cus capacity with
    | (_, Ok (cus', _)) =>
        exists new,
          cus' = cus ++ new /\ adjoining f swap info ptr end_ new
          /\ Forall (fun cu => cu_file cu = f /\ version cu ∈ [2; 3; 4]) new
    | (_, Err e) =>
        e = DRGN_ERROR_DWARF_FORMAT
        \/ (e = DRGN_ERROR_NO_MEMORY /\ false ∈ h)
    | (_, Undef) =>
        exists ptr' cu,
          read_compilation_unit_header f swap info ptr' end_ = Ok cu
          /\ 2 ^ 64 <= buf + ptr' + unit_size cu
    | (_, Timeout) => True
    end.
Proof.
  induction fuel as [| fuel IH]; intros ptr h cus capacity;
    cbn [read_cus_loop]; [exact I |].
  destruct (ptr <? end_) eqn:Hlt.
  2:{ destruct (ptr >? end_) eqn:Hgt; [left; reflexivity |].
      exists []. rewrite app_nil_r.
      split; [reflexivity |]. split; [cbn; lia | constructor]. }
  assert (Hturn : forall h1 capacity1,
    (false ∈ h1 -> false ∈ h) ->
    match
      match read_compilation_unit_header f swap info ptr end_ with
      | Ok cu =>
          if 2 ^ 64 <=? buf + (ptr + unit_size cu) then (h1, Undef)
          else read_cus_loop fuel f swap info buf (ptr + unit_size cu) end_
                 h1 (cus ++ [cu]) capacity1
      | Err e => (h1, Err e)
      | Undef => (h1, Undef)
      | Timeout => (h1, Timeout)
      end
    with
    | (_, Ok (cus', _)) =>
        exists new,
          cus' = cus ++ new /\ adjoining f swap info ptr end_ new
          /\ Forall (fun cu => cu_file cu = f /\ version cu ∈ [2; 3; 4]) new
    | (_, Err e) =>
        e = DRGN_ERROR_DWARF_FORMAT
        \/ (e = DRGN_ERROR_NO_MEMORY /\ false ∈ h)
    | (_, Undef) =>
        exists ptr' cu,
          read_compilation_unit_header f swap info ptr' end_ = Ok cu
          /\ 2 ^ 64 <= buf + ptr' + unit_size cu
    | (_, Timeout) => True
    end).
  { intros h1 capacity1 Hh1.
    pose proof (read_compilation_unit_header_returns f swap info ptr end_) as Hr.
    destruct (read_compilation_unit_header f swap info ptr end_) as [cu | e | |]
      eqn:Hcu; try contradiction.
    2:{ left. exact Hr. }
    destruct (2 ^ 64 <=? buf + (ptr + unit_size cu)) eqn:Hwrap.
    { exists ptr, cu. split; [exact Hcu | lia]. }
    specialize (IH (ptr + unit_size cu) h1 (cus ++ [cu]) capacity1).
    destruct (read_cus_loop fuel f swap info buf (ptr + unit_size cu) end_ h1
                (cus ++ [cu]) capacity1) as [h2 [[cus' capacity'] | e | |]].
    - destruct IH as (new & -> & Hadj & Hall).
      exists (cu :: new). rewrite <- app_assoc. split; [reflexivity |].
      split; [cbn [adjoining]; repeat split; [lia | exact Hcu | exact Hadj] |].
      apply read_compilation_unit_header_fields in Hcu as (Hf & Hp & Hv).
      constructor; auto.
    - destruct IH as [-> | [-> Hin]]; [left; reflexivity |].
      right. auto.
    - exact IH.
    - exact I. }
  destruct (Z.of_nat (length cus) >=? capacity).
  - destruct (alloc h) as [[|] h1] eqn:Halloc.
    + apply Hturn. exact (alloc_rest _ _ _ Halloc).
    + right. split; [reflexivity |]. exact (alloc_refused _ _ Halloc).
  - apply Hturn. auto.
Qed.

Lemma unit_size_range (cu : compilation_unit) : 0 <= unit_size cu < 2 ^ 64.
Proof. unfold unit_size, u64. apply Z.mod_pos_bound. lia. Qed.

(** The loop of [read_cus] ends within as many turns as the section has
    bytes, unless it comes to a unit of size 0. *)
Lemma read_cus_loop_returns fuel f swap info buf end_ :
  forall ptr h cus capacity,
    (Z.to_nat (end_ - ptr) < fuel)%nat ->
    forall h', read_cus_loop fuel f swap info buf ptr end_ h cus capacity
               = (h', Timeout) ->
    exists ptr' cu,
      read_compilation_unit_header f swap info ptr' end_ = Ok cu
      /\ unit_size cu = 0.
Proof.
  induction fuel as [| fuel IH]; intros ptr h cus capacity Hfuel h';
    cbn [read_cus_loop]; [lia |].
  destruct (ptr <? end_) eqn:Hlt.
  2:{ destruct (ptr >? end_); discriminate. }
  assert (Hturn : forall h1 capacity1,
    match read_compilation_unit_header f swap info ptr end_ with
    | Ok cu =>
        if 2 ^ 64 <=? buf + (ptr + unit_size cu) then (h1, Undef)
        else read_cus_loop fuel f swap info buf (ptr + unit_size cu) end_
               h1 (cus ++ [cu]) capacity1
    | Err e => (h1, Err e)
    | Undef => (h1, Undef)
    | Timeout => (h1, Timeout)
    end = (h', Timeout) ->
    exists ptr' cu,
      read_compilation_unit_header f swap info ptr' end_ = Ok cu
      /\ unit_size cu = 0).
  { intros h1 capacity1.
    pose proof (read_compilation_unit_header_returns f swap info ptr end_) as Hr.
    destruct (read_compilation_unit_header f swap info ptr end_) as [cu | e | |]
      eqn:Hcu; try contradiction; [| discriminate].
    destruct (2 ^ 64 <=? buf + (ptr + unit_size cu)); [discriminate |].
    pose proof (unit_size_range cu) as Hsize.
    destruct (decide (unit_size cu = 0)) as [Hzero | Hpos]; [eauto |].
    apply IH. lia. }
  destruct (Z.of_nat (length cus) >=? capacity).
  - destruct (alloc h) as [[|] h1]; [apply Hturn | discriminate].
  - apply Hturn.
Qed.

Lemma alloc_granted (h : heap) :
  false ∉ h -> exists h', alloc h = (true, h') /\ false ∉ h'.
Proof.
  destruct h as [| [|] rest]; cbn [alloc]; intros Hh.
  - eauto.
  - exists rest. split; [reflexivity |]. intros Hin. apply Hh. right. exact Hin.
  - exfalso. apply Hh. left.
Qed.

Lemma adjoining_before_end f swap info end_ cus :
  forall ptr, adjoining f swap info ptr end_ cus -> ptr <= end_.
Proof. destruct cus; cbn [adjoining]; intros ptr H; lia. Qed.

(** Units that lie one behind the other up to the end of the section do
    not have the size 0. *)
Lemma adjoining_advances f swap info end_ cu ptr :
  read_compilation_unit_header f swap info ptr end_ = Ok cu ->
  ptr < end_ -> unit_size cu = 0 ->
  forall cus, ~ adjoining f swap info ptr end_ cus.
Proof.
  intros Hcu Hlt Hzero cus. induction cus as [| cu' cus IH]; cbn [adjoining].
  - lia.
  - intros (_ & Hcu' & Hrest). assert (cu' = cu) by congruence. subst cu'.
    rewrite Hzero, Z.add_0_r in Hrest. exact (IH Hrest).
Qed.

(** The loop of [read_cus] finds the units that lie one behind the
    other, when the allocator does not refuse and the section lies
    inside the address space. *)
Lemma read_cus_loop_finds fuel f swap info buf end_ :
  buf + end_ < 2 ^ 64 ->
  forall ptr h cus capacity new,
    adjoining f swap info ptr end_ new ->
    false ∉ h ->
    (Z.to_nat (end_ - ptr) < fuel)%nat ->
    exists h' capacity',
      read_cus_loop fuel f swap info buf ptr end_ h cus capacity
      = (h', Ok (cus ++ new, capacity')).
Proof.
  intros Hbuf. induction fuel as [| fuel IH];
    intros ptr h cus capacity new Hadj Hh Hfuel; [lia |].
  cbn [read_cus_loop]. destruct new as [| cu new]; cbn [adjoining] in Hadj.
  - subst ptr. rewrite Z.ltb_irrefl.
    replace (end_ >? end_) with false by lia.
    rewrite app_nil_r. eauto.
  - destruct Hadj as (Hlt & Hcu & Hrest).
    replace (ptr <? end_) with true by lia.
    pose proof (unit_size_range cu) as Hsize.
    assert (Hpos : unit_size cu <> 0).
    { intros Hzero.
      apply (adjoining_advances f swap info end_ cu ptr Hcu Hlt Hzero
               (cu :: new)).
      cbn [adjoining]. auto. }
    pose proof (adjoining_before_end _ _ _ _ _ _ Hrest) as Hle.
    assert (Hturn : forall h1 capacity1,
      false ∉ h1 ->
      exists h' capacity',
        match read_compilation_unit_header f swap info ptr end_ with
        | Ok cu0 =>
            if 2 ^ 64 <=? buf + (ptr + unit_size cu0) then (h1, Undef)
            else read_cus_loop fuel f swap info buf (ptr + unit_size cu0) end_
                   h1 (cus ++ [cu0]) capacity1
        | Err e => (h1, Err e)
        | Undef => (h1, Undef)
        | Timeout => (h1, Timeout)
        end = (h', Ok (cus ++ cu :: new, capacity'))).
    { intros h1 capacity1 Hh1. rewrite Hcu.
      replace (2 ^ 64 <=? buf + (ptr + unit_size cu)) with false by lia.
      destruct (IH (ptr + unit_size cu) h1 (cus ++ [cu]) capacity1 new Hrest
                  Hh1 ltac:(lia)) as (h' & capacity' & ->).
      rewrite <- app_assoc. eauto. }
    destruct (Z.of_nat (length cus) >=? capacity).
    + destruct (alloc_granted h Hh) as (h1 & -> & Hh1). apply Hturn, Hh1.
    + apply Hturn, Hh.
Qed.

(** X13.  [read_cus] finds the units of a file: the units that lie one
    behind the other from the start of [.debug_info] to its end, each
    as its header reads and as long as the header says, in 64 bits.
    Given one turn for each byte of the section, it ends, unless it
    comes to a unit whose size is 0, which it reads again and again.
    When it succeeds it has added such units, which belong to the file
    and have one of the versions 2, 3 and 4.  Its errors are that of
    the format and, only when the allocator refuses to resize the
    array, that of memory; the pointer leaves the address space only
    behind a unit whose header sends it there.  And when there are such
    units, the allocator does not refuse and the section lies inside
    the address space, it succeeds and adds them. *)
Theorem read_cus_adjoining (fuel : nat) (f : file_id) (df : debug_file)
    (info : bytes) (h : heap) (cus : list compilation_unit) (capacity : Z) :
  sections df SECTION_DEBUG_INFO = Some info ->
  (length info < fuel)%nat ->
  match read_cus fuel f df h cus capacity with
  | (_, Ok (cus', _)) =>
      exists new,
        cus' = cus ++ new
        /\ adjoining f (bswap df) info 0 (d_size info) new
        /\ Forall (fun cu => cu_file cu = f /\ version cu ∈ [2; 3; 4]) new
  | (_, Err e) =>
      e = DRGN_ERROR_DWARF_FORMAT
      \/ (e = DRGN_ERROR_NO_MEMORY /\ false ∈ h)
  | (_, Undef) =>
      exists ptr cu,
        read_compilation_unit_header f (bswap df) info ptr (d_size info)
        = Ok cu
        /\ 2 ^ 64 <= d_buf df SECTION_DEBUG_INFO + ptr + unit_size cu
  | (_, Timeout) =>
      exists ptr cu,
        read_compilation_unit_header f (bswap df) info ptr (d_size info)
        = Ok cu
        /\ unit_size cu = 0
  end
  /\ forall new,
       adjoining f (bswap df) info 0 (d_size info) new ->
       false ∉ h ->
       d_buf df SECTION_DEBUG_INFO + d_size info < 2 ^ 64 ->
       exists h' capacity',
         read_cus fuel f df h cus capacity = (h', Ok (cus ++ new, capacity')).
Proof.
  intros Hinfo Hfuel. unfold read_cus. rewrite Hinfo. split.
  - pose proof (read_cus_loop_adjoining fuel f (bswap df) info
                  (d_buf df SECTION_DEBUG_INFO) (d_size info) 0 h cus capacity)
      as Hends.
    pose proof (read_cus_loop_returns fuel f (bswap df) info
                  (d_buf df SECTION_DEBUG_INFO) (d_size info) 0 h cus capacity
                  ltac:(unfold d_size; lia)) as Hreturns.
    destruct (read_cus_loop _ _ _ _ _ _ _ _ _ _)
      as [h' [[cus' capacity'] | e | |]]; try exact Hends.
    apply (Hreturns h'). reflexivity.
  - intros new Hadj Hh Hbuf.
    apply read_cus_loop_finds; [exact Hbuf | exact Hadj | exact Hh |].
    unfold d_size. lia.
Qed.

(** The sum of 12 and the length of a unit wraps around in 64 bits.
    With the length 2^64 - 1 the next unit is read at offset 11; with
    2^64 - 13 the pointer is sent to the byte before the unit, through
    the end of the address space; with 2^64 - 12 the unit is read again
    and again, until the array of units cannot grow. *)
Example read_cus_unit_length_wraps :
  (exists cus capacity,
     read_cus 100 0%nat overlapping_units_file [] [] 0
     = ([], Ok (cus, capacity))
     /\ (cu_ptr <$> cus, unit_size <$> cus) = ([0; 11], [11; 1283]))
  /\ read_cus 100 0%nat backward_unit_file [] [] 0 = ([], Undef)
  /\ read_cus 100 0%nat empty_unit_file [] [] 0 = ([], Timeout)
  /\ read_cus 100 0%nat empty_unit_file [true; true; true; false; true] [] 0
     = ([true], Err DRGN_ERROR_NO_MEMORY).
Proof.
  split.
  { eexists _, _. split; [vm_compute; reflexivity |]. vm_compute. reflexivity. }
  split; [vm_compute; reflexivity |].
  split; vm_compute; reflexivity.
Qed.

Lemma read_cus_adjoining_witness :
  exists h' capacity',
    read_cus 100 0%nat variable_file [] [] 0
    = (h', Ok ([] ++ [first_unit variable_file], capacity')).
Proof.
  apply (proj2 (read_cus_adjoining 100 0%nat variable_file
                  (unit_header 14 ++ [1] ++ [2] ++ name_foo ++ [0]) [] [] 0
                  eq_refl ltac:(cbn; lia))).
  - vm_compute. auto.
  - apply not_elem_of_nil.
  - vm_compute. reflexivity.
Defined.

End Units.

Section Iterator.
Import DwarfIndex.

Lemma matches_tag_wanted (i : Z) (tags : list Z) (index : Z) (e : die_entry) :
  drgn_dwarf_index_iterator_matches_tag (by_name i tags index) e
  = bool_decide (tag_wanted tags e).
Proof.
  unfold drgn_dwarf_index_iterator_matches_tag, tag_wanted. cbn [by_name it_tags].
  destruct tags as [| t tags].
  - symmetry. apply bool_decide_eq_true_2. auto.
  - apply bool_decide_ext. split; [auto |]. intros [? | ?]; [discriminate | auto].
Qed.

Lemma is_chain_rest (slots : list die_entry) (index : Z) (l : list Z) :
  is_chain slots index l ->
  exists e l', l = index :: l' /\ slots !! Z.to_nat index = Some e
               /\ 0 <= index < Z.of_nat (length slots)
               /\ chain_rest slots (next e) l'.
Proof.
  intros Hc. pose proof (chain_nonneg_bounds _ _ _ Hc) as Hb.
  inversion Hc as [index' entry H0 Hl Hn | index' entry l' H0 Hl Hn Hlt Hc'];
    subst; eexists entry, _; (split; [reflexivity |]); (split; [exact Hl |]);
    (split; [apply Hb; left |]).
  - left. auto.
  - right. exact Hc'.
Qed.

Lemma next_entry_by_name (dindex : drgn_dwarf_index) (i : Z) (tags : list Z)
    (shard : dwarf_index_shard) (l : list Z) :
  shards dindex !! Z.to_nat i = Some shard ->
  Z.of_nat (length (entries shard)) <= SIZE_MAX ->
  forall (index : Z) (fuel : nat),
    chain_rest (entries shard) index l -> (length l < fuel)%nat ->
    (Forall (fun e => ~ tag_wanted tags e) (entries_at (entries shard) l)
     /\ next_entry fuel dindex (by_name i tags index) = Err DRGN_ERROR_STOP)
    \/ (exists l1 j e l2,
          l = l1 ++ j :: l2
          /\ entries shard !! Z.to_nat j = Some e
          /\ Forall (fun e => ~ tag_wanted tags e) (entries_at (entries shard) l1)
          /\ tag_wanted tags e
          /\ next_entry fuel dindex (by_name i tags index)
             = Ok (by_name i tags (next e), e)
          /\ chain_rest (entries shard) (next e) l2).
Proof.
  intros Hshard Hmax. induction l as [| j l IH]; intros index fuel Hrest Hfuel.
  - left. split; [constructor |].
    destruct Hrest as [[-> _] | Hc]; [| inversion Hc].
    destruct fuel; [cbn in Hfuel; lia |]. reflexivity.
  - destruct Hrest as [[_ ?] | Hc]; [discriminate |].
    destruct (is_chain_rest _ _ _ Hc) as (e & l' & [= <- <-] & He & Hb & Hrest).
    destruct fuel as [| fuel]; [cbn in Hfuel; lia |].
    cbn [length] in Hfuel.
    cbn [next_entry by_name any_name it_index it_shard it_tags].
    replace (j =? SIZE_MAX) with false by lia.
    rewrite Hshard. cbn [mbind option_bind]. rewrite He.
    change {| it_shard := i; it_index := next e; any_name := false;
              it_tags := tags |} with (by_name i tags (next e)).
    rewrite matches_tag_wanted.
    destruct (decide (tag_wanted tags e)) as [Hw | Hw].
    + right. exists [], j, e, l.
      rewrite bool_decide_eq_true_2 by exact Hw.
      repeat split; auto.
    + rewrite bool_decide_eq_false_2 by exact Hw.
      destruct (IH (next e) fuel Hrest ltac:(lia))
        as [[Hall Hstop] | (l1 & j' & e' & l2 & -> & He' & Hall & Hw' & Hnext & Hrest')].
      * left. split; [| exact Hstop].
        unfold entries_at. cbn [omap list_omap]. rewrite He.
        constructor; assumption.
      * right. exists (j :: l1), j', e', l2.
        split; [reflexivity |]. split; [exact He' |].
        split; [| auto].
        unfold entries_at. cbn [omap list_omap]. rewrite He.
        constructor; assumption.
Qed.

Lemma filter_none {A} (P : A -> Prop) `{!forall x, Decision (P x)} (l : list A) :
  Forall (fun x => ~ P x) l -> filter P l = [].
Proof.
  induction 1 as [| x l Hx _ IH]; [reflexivity |].
  rewrite filter_cons_False by exact Hx. exact IH.
Qed.

Lemma lookup_all_by_name_rest (i : Z) (tags : list Z)
    (shard : dwarf_index_shard) (n : nat) :
  Z.of_nat (length (entries shard)) <= SIZE_MAX ->
  forall (dindex : drgn_dwarf_index) (l : list Z) (index : Z) (fuel : nat),
    shards dindex !! Z.to_nat i = Some shard ->
    chain_rest (entries shard) index l ->
    Forall (fun e => is_Some (objects dindex !! file e))
      (entries_at (entries shard) l) ->
    (length l < n)%nat -> (length l < fuel)%nat ->
    lookup_all n fuel dindex (by_name i tags index)
    = (found_die <$> filter (tag_wanted tags) (entries_at (entries shard) l),
       Err DRGN_ERROR_STOP).
Proof.
  intros Hmax. induction n as [| n IH];
    intros dindex l index fuel Hshard Hrest Hlive Hn Hfuel; [lia |].
  cbn [lookup_all]. unfold drgn_dwarf_index_iterator_next.
  destruct (next_entry_by_name dindex i tags shard l Hshard Hmax index fuel
              Hrest Hfuel)
    as [[Hall ->] | (l1 & j & e & l2 & -> & He & Hall & Hw & -> & Hrest')].
  - rewrite (filter_none _ _ Hall). reflexivity.
  - unfold entries_at in *. rewrite omap_app in *. cbn [omap list_omap] in *.
    rewrite He in *.
    rewrite filter_app, (filter_none _ _ Hall), filter_cons_True by exact Hw.
    cbn [app fmap list_fmap].
    apply Forall_app in Hlive as [_ Hlive].
    apply Forall_cons in Hlive as [[df Hdf] Hlive].
    rewrite Hdf.
    rewrite length_app in Hn, Hfuel. cbn [length] in Hn, Hfuel.
    rewrite (IH _ l2 (next e) fuel); [reflexivity | exact Hshard | exact Hrest'
                                      | | lia | lia].
    cbn [with_objects objects].
    eapply Forall_impl; [exact Hlive |].
    intros e' [df' He']. cbn beta.
    destruct (decide (file e = file e')) as [-> | Hne].
    + rewrite lookup_insert_eq. eauto.
    + rewrite lookup_insert_ne by exact Hne. eauto.
Qed.

Lemma lookup_all_chain_entries (ext : hashing) (dindex : drgn_dwarf_index)
    (name : string) (tags : list Z) (shard : dwarf_index_shard)
    (n fuel : nat) :
  shards dindex !! Z.to_nat (hash_pair_to_shard (name_hash ext name))
  = Some shard ->
  built_by_index_die shard -> num_entries shard < SIZE_MAX ->
  Forall (fun e => is_Some (objects dindex !! file e))
    (chain_entries shard name) ->
  (length (chain shard name) < n)%nat ->
  (length (chain shard name) < fuel)%nat ->
  exists it,
    drgn_dwarf_index_iterator_init ext dindex (Some name) tags = Ok it
    /\ lookup_all n fuel dindex it
       = (found_die <$> filter (tag_wanted tags) (chain_entries shard name),
          Err DRGN_ERROR_STOP).
Proof.
  intros Hshard Hbuilt Hmax Hlive Hn Hfuel.
  pose proof (built_by_index_die_wf _ Hbuilt Hmax) as Hwf.
  pose proof (wf_num_entries _ Hwf) as Hnum.
  unfold drgn_dwarf_index_iterator_init. rewrite Hshard.
  eexists. split; [reflexivity |].
  set (i := hash_pair_to_shard (name_hash ext name)) in *.
  change {| it_shard := i;
            it_index := default SIZE_MAX (shard_map shard !! name);
            any_name := false; it_tags := tags |}
    with (by_name i tags (default SIZE_MAX (shard_map shard !! name))).
  unfold chain_entries in *.
  apply (lookup_all_by_name_rest i tags shard n ltac:(lia) dindex
           (chain shard name)); try assumption.
  destruct (shard_map shard !! name) as [head |] eqn:Hmap; cbn [default].
  - destruct (wf_chains _ Hwf name head Hmap) as (l & Hc & _).
    rewrite (chain_is_chain _ _ _ _ Hmap Hc). right. exact Hc.
  - left. unfold chain. rewrite Hmap. auto.
Qed.

(** X15.  Looking a name up gives the entries of its chain whose tag is one
    of the tags asked for (all of them when no tag is given), in the
    order of the chain, and then stops. *)
Theorem lookup_all_by_name (ext : hashing) (dindex : drgn_dwarf_index)
    (name : string) (tags : list Z) (shard : dwarf_index_shard)
    (n fuel : nat) :
  shards dindex !! Z.to_nat (hash_pair_to_shard (name_hash ext name))
  = Some shard ->
  built_by_index_die shard -> num_entries shard < SIZE_MAX ->
  Forall (fun e => is_Some (objects dindex !! file e))
    (chain_entries shard name) ->
  (length (chain shard name) < n)%nat ->
  (length (chain shard name) < fuel)%nat ->
  exists it,
    drgn_dwarf_index_iterator_init ext dindex (Some name) tags = Ok it
    /\ lookup_all n fuel dindex it
       = (found_die <$> filter (tag_wanted tags) (chain_entries shard name),
          Err DRGN_ERROR_STOP).
Proof. apply lookup_all_chain_entries. Qed.

Lemma lookup_all_by_name_witness :
  exists it,
    drgn_dwarf_index_iterator_init sample_hashing first_update.1 (Some "foo"%string)
      [DW_TAG_variable] = Ok it
    /\ lookup_all 8 8 first_update.1 it = ([(0%nat, 12)], Err DRGN_ERROR_STOP).
Proof.
  destruct (lookup_all_by_name sample_hashing first_update.1 "foo"
              [DW_TAG_variable]
              (index_die_locked [] empty_shard "foo" DW_TAG_variable 0 0%nat 12).2.1
              8 8) as (it & Hinit & Hall).
  - vm_compute. reflexivity.
  - apply (built_step [] empty_shard "foo" DW_TAG_variable 0 0%nat 12
             (index_die_locked [] empty_shard "foo" DW_TAG_variable 0 0%nat 12).1
             _
             (index_die_locked [] empty_shard "foo" DW_TAG_variable 0 0%nat 12).2.2
             built_empty).
    reflexivity.
  - reflexivity.
  - match goal with
    | |- Forall ?P ?l => let l' := eval vm_compute in l in change (Forall P l')
    end.
    constructor; [eexists; vm_compute; reflexivity | constructor].
  - vm_compute. lia.
  - vm_compute. lia.
  - exists it. split; [exact Hinit |]. rewrite Hall. vm_compute. reflexivity.
Defined.


End Iterator.

Section IndexDie.
Import DwarfIndex.

Lemma hash_pair_to_shard_range (first : Z) :
  0 <= hash_pair_to_shard first < Z.of_nat NUM_SHARDS.
Proof.
  unfold hash_pair_to_shard, SHARD_BITS, NUM_SHARDS.
  change (Z.shiftl 1 8 - 1) with (Z.ones 8).
  rewrite Z.land_ones by lia.
  change (Z.of_nat 256) with (2 ^ 8). apply Z.mod_pos_bound. lia.
Qed.

(** X14.  [index_die] on an index of 256 shards that calls of [index_die]
    have built changes the shard that the hash of the name selects and
    nothing else. *)
Theorem index_die_one_shard (ext : hashing) (dindex : drgn_dwarf_index)
    (name : string) (t fh : Z) (f : file_id) (o : Z)
    (dindex' : drgn_dwarf_index) (r : res unit) :
  length (shards dindex) = NUM_SHARDS ->
  Forall (fun shard => built_by_index_die shard /\ num_entries shard < SIZE_MAX)
    (shards dindex) ->
  index_die ext dindex name t fh f o = (dindex', r) ->
  (r = Ok tt \/ r = Err DRGN_ERROR_NO_MEMORY)
  /\ length (shards dindex') = NUM_SHARDS
  /\ Forall built_by_index_die (shards dindex')
  /\ (forall j, j <> Z.to_nat (hash_pair_to_shard (name_hash ext name)) ->
        shards dindex' !! j = shards dindex !! j)
  /\ objects dindex' = objects dindex
  /\ opened dindex' = opened dindex
  /\ indexed dindex' = indexed dindex
  /\ index_flags_of dindex' = index_flags_of dindex.
Proof.
  intros Hlen Hall Hrun. unfold index_die in Hrun.
  pose proof (hash_pair_to_shard_range (name_hash ext name)) as Hi.
  set (i := Z.to_nat (hash_pair_to_shard (name_hash ext name))) in *.
  destruct (shards dindex !! i) as [shard |] eqn:Hshard.
  2:{ apply lookup_ge_None in Hshard. lia. }
  destruct (index_die_locked (allocator dindex) shard name t fh f o)
    as [h [shard' r']] eqn:Hlocked.
  apply pair_equal_spec in Hrun as [<- <-].
  destruct (proj1 (Forall_lookup _ _) Hall _ _ Hshard) as [Hbuilt Hmax].
  pose proof (built_by_index_die_wf _ Hbuilt Hmax) as Hwf.
  pose proof (index_die_locked_outcome _ _ _ _ _ _ _ _ _ _ Hwf Hlocked) as Hout.
  cbn [with_shards shards objects opened indexed index_flags_of].
  split; [exact (outcome_result _ _ _ _ _ _ _ _ Hout) |].
  split; [rewrite length_insert; exact Hlen |].
  split.
  { apply Forall_insert; [eapply Forall_impl; [exact Hall | tauto] |].
    eapply built_step; eauto. }
  split; [intros j Hj; apply list_lookup_insert_ne; congruence |].
  auto.
Qed.

Lemma index_die_one_shard_witness :
  length (shards (index_die sample_hashing (index_of index_all variable_file)
                    "foo" 52 7 0%nat 11).1) = NUM_SHARDS
  /\ ((index_die sample_hashing (index_of index_all variable_file)
         "foo" 52 7 0%nat 11).2 = Ok tt
      \/ (index_die sample_hashing (index_of index_all variable_file)
            "foo" 52 7 0%nat 11).2 = Err DRGN_ERROR_NO_MEMORY).
Proof.
  destruct (index_die_one_shard sample_hashing
              (index_of index_all variable_file) "foo" 52 7 0%nat 11
              (index_die sample_hashing (index_of index_all variable_file)
                 "foo" 52 7 0%nat 11).1
              (index_die sample_hashing (index_of index_all variable_file)
                 "foo" 52 7 0%nat 11).2)
    as (Hr & Hlen & _).
  - reflexivity.
  - apply Forall_replicate. split; [apply built_empty | reflexivity].
  - apply surjective_pairing.
  - split; assumption.
Defined.




End IndexDie.

Section AnyName.
Import DwarfIndex.

Lemma matches_tag_any (tags : list Z) (k index : Z) (e : die_entry) :
  drgn_dwarf_index_iterator_matches_tag (any_entry tags k index) e
  = bool_decide (tag_wanted tags e).
Proof. exact (matches_tag_wanted 0 tags 0 e). Qed.

Lemma all_entries_skip (l : list dwarf_index_shard) (k : nat) :
  (forall j y, (j < k)%nat -> l !! j = Some y -> num_entries y = 0) ->
  all_entries (drop k l) = all_entries l.
Proof.
  revert l. induction k as [| k IH]; intros l Hzero; [reflexivity |].
  destruct l as [| x l]; [reflexivity |].
  cbn [drop]. rewrite IH.
  - unfold all_entries. cbn [fmap list_fmap concat].
    unfold shard_entries at 2.
    rewrite (Hzero 0%nat x) by (cbn; auto with lia). reflexivity.
  - intros j y Hj Hy. apply (Hzero (S j) y); [lia | exact Hy].
Qed.

Lemma next_shard_with_entries_spec (shs : list dwarf_index_shard) (i : nat) :
  Forall shard_bounds shs -> (i <= length shs)%nat ->
  exists k, next_shard_with_entries shs i = Z.of_nat k
            /\ (i <= k <= length shs)%nat
            /\ all_entries (drop k shs) = all_entries (drop i shs)
            /\ at_entry shs k 0.
Proof.
  intros Hbounds Hi. unfold next_shard_with_entries.
  destruct (list_find _ (drop i shs)) as [[k s] |] eqn:Hfind.
  - apply list_find_Some in Hfind as (Hs & Hne & Hbefore).
    rewrite lookup_drop in Hs.
    exists (i + k)%nat. split; [reflexivity |].
    split; [apply lookup_lt_Some in Hs; lia |].
    split.
    + rewrite <- drop_drop. apply all_entries_skip.
      intros j y Hj Hy. specialize (Hbefore j y Hy Hj). cbn beta in Hbefore. lia.
    + right. exists s. split; [exact Hs |].
      destruct (proj1 (Forall_lookup _ _) Hbounds _ _ Hs) as [? _]. lia.
  - apply list_find_None in Hfind.
    exists (length shs). split; [reflexivity |]. split; [lia |].
    split.
    + rewrite drop_all. symmetry.
      rewrite <- (all_entries_skip (drop i shs) (length (drop i shs))).
      * rewrite drop_all. reflexivity.
      * intros j y _ Hy.
        pose proof (proj1 (Forall_lookup _ _) Hfind _ _ Hy) as Hn.
        cbn beta in Hn. lia.
    + left. auto.
Qed.

Lemma entries_from_start (shs : list dwarf_index_shard) (k : nat) :
  entries_from shs k 0 = all_entries (drop k shs).
Proof.
  unfold entries_from. cbn [Z.to_nat drop].
  destruct (shs !! k) as [s |] eqn:Hs.
  - rewrite (drop_S _ _ _ Hs). reflexivity.
  - cbn [from_option app drop]. apply lookup_ge_None in Hs.
    rewrite (drop_ge shs k), (drop_ge shs (S k)) by lia. reflexivity.
Qed.

(** One turn of the loop over all names. *)
Lemma any_name_step (shs : list dwarf_index_shard) (k : nat) (index : Z)
    (shard : dwarf_index_shard) :
  Forall shard_bounds shs ->
  shs !! k = Some shard -> 0 <= index < num_entries shard ->
  exists e k' index',
    entries shard !! Z.to_nat index = Some e
    /\ (if u64 (index + 1) >=? num_entries shard
        then (next_shard_with_entries shs (S k), 0)
        else (Z.of_nat k, u64 (index + 1))) = (Z.of_nat k', index')
    /\ entries_from shs k index = e :: entries_from shs k' index'
    /\ at_entry shs k' index'.
Proof.
  intros Hbounds Hs Hindex.
  destruct (proj1 (Forall_lookup _ _) Hbounds _ _ Hs) as [Hnum Hmax].
  assert (Hu : u64 (index + 1) = index + 1).
  { unfold u64, SIZE_MAX, UINT64_MAX in *. apply Z.mod_small. lia. }
  destruct (lookup_lt_is_Some_2 (entries shard) (Z.to_nat index) ltac:(lia))
    as [e He].
  assert (Hlive : shard_entries shard !! Z.to_nat index = Some e).
  { unfold shard_entries. rewrite lookup_take_lt by lia. exact He. }
  assert (Hfrom : entries_from shs k index
                  = e :: drop (S (Z.to_nat index)) (shard_entries shard)
                      ++ all_entries (drop (S k) shs)).
  { unfold entries_from. rewrite Hs. cbn [from_option].
    rewrite (drop_S _ _ _ Hlive). reflexivity. }
  rewrite Hu.
  destruct (index + 1 >=? num_entries shard) eqn:Hend.
  - destruct (next_shard_with_entries_spec shs (S k) Hbounds)
      as (k' & Hk' & _ & Hskip & Hat).
    { apply lookup_lt_Some in Hs. lia. }
    exists e, k', 0. split; [exact He |]. split; [rewrite Hk'; reflexivity |].
    split; [| exact Hat].
    rewrite Hfrom, entries_from_start, Hskip. f_equal.
    rewrite drop_ge; [reflexivity |].
    unfold shard_entries. rewrite length_take. lia.
  - exists e, k, (index + 1). split; [exact He |]. split; [reflexivity |].
    split.
    + rewrite Hfrom. unfold entries_from. rewrite Hs. cbn [from_option].
      replace (Z.to_nat (index + 1)) with (S (Z.to_nat index)) by lia.
      reflexivity.
    + right. exists shard. split; [exact Hs | lia].
Qed.

Lemma next_entry_any_name (dindex : drgn_dwarf_index) (tags : list Z)
    (fuel : nat) :
  Forall shard_bounds (shards dindex) ->
  forall (k : nat) (index : Z),
    at_entry (shards dindex) k index ->
    (length (entries_from (shards dindex) k index) < fuel)%nat ->
    (Forall (fun e => ~ tag_wanted tags e)
       (entries_from (shards dindex) k index)
     /\ next_entry fuel dindex (any_entry tags (Z.of_nat k) index)
        = Err DRGN_ERROR_STOP)
    \/ (exists l1 e k' index',
          entries_from (shards dindex) k index
          = l1 ++ e :: entries_from (shards dindex) k' index'
          /\ Forall (fun e => ~ tag_wanted tags e) l1
          /\ tag_wanted tags e
          /\ next_entry fuel dindex (any_entry tags (Z.of_nat k) index)
             = Ok (any_entry tags (Z.of_nat k') index', e)
          /\ at_entry (shards dindex) k' index').
Proof.
  intros Hbounds. induction fuel as [| fuel IH]; intros k index Hat Hfuel;
    [lia |].
  cbn [next_entry any_entry any_name it_shard it_index it_tags].
  destruct Hat as [[-> ->] | (shard & Hs & Hindex)].
  - left. replace (Z.of_nat (length (shards dindex))
                   >=? Z.of_nat (length (shards dindex))) with true by lia.
    split; [| reflexivity].
    rewrite entries_from_start, drop_all. constructor.
  - pose proof (lookup_lt_Some _ _ _ Hs) as Hk.
    replace (Z.of_nat k >=? Z.of_nat (length (shards dindex))) with false by lia.
    rewrite Nat2Z.id, Hs.
    destruct (any_name_step _ k index shard Hbounds Hs Hindex)
      as (e & k' & index' & He & Hnext & Hfrom & Hat').
    rewrite He.
    match goal with
    | |- context [drgn_dwarf_index_iterator_matches_tag ?it e] =>
        replace it with (any_entry tags (Z.of_nat k') index')
    end.
    2:{ destruct (u64 (index + 1) >=? num_entries shard);
          injection Hnext as <- <-; reflexivity. }
    rewrite matches_tag_any. rewrite Hfrom in Hfuel |- *. cbn [length] in Hfuel.
    destruct (decide (tag_wanted tags e)) as [Hw | Hw].
    + right. exists [], e, k', index'.
      rewrite bool_decide_eq_true_2 by exact Hw. repeat split; auto.
    + rewrite bool_decide_eq_false_2 by exact Hw.
      destruct (IH k' index' Hat' ltac:(lia))
        as [[Hall Hstop]
           | (l1 & e' & k'' & index'' & Hfrom' & Hall & Hw' & Hrun & Hat'')].
      * left. split; [constructor; assumption | exact Hstop].
      * right. exists (e :: l1), e', k'', index''.
        rewrite Hfrom'. repeat split; auto.
Qed.

Lemma lookup_all_any_name_from (tags : list Z) (n : nat) :
  forall (dindex : drgn_dwarf_index) (k : nat) (index : Z) (fuel : nat),
    Forall shard_bounds (shards dindex) ->
    at_entry (shards dindex) k index ->
    Forall (fun e => is_Some (objects dindex !! file e))
      (entries_from (shards dindex) k index) ->
    (length (entries_from (shards dindex) k index) < n)%nat ->
    (length (entries_from (shards dindex) k index) < fuel)%nat ->
    lookup_all n fuel dindex (any_entry tags (Z.of_nat k) index)
    = (found_die <$> filter (tag_wanted tags)
                       (entries_from (shards dindex) k index),
       Err DRGN_ERROR_STOP).
Proof.
  induction n as [| n IH];
    intros dindex k index fuel Hbounds Hat Hlive Hn Hfuel; [lia |].
  cbn [lookup_all]. unfold drgn_dwarf_index_iterator_next.
  destruct (next_entry_any_name dindex tags fuel Hbounds k index Hat Hfuel)
    as [[Hall ->]
       | (l1 & e & k' & index' & Hfrom & Hall & Hw & -> & Hat')].
  - rewrite (filter_none _ _ Hall). reflexivity.
  - rewrite Hfrom in *.
    rewrite filter_app, (filter_none _ _ Hall), filter_cons_True by exact Hw.
    cbn [app fmap list_fmap].
    apply Forall_app in Hlive as [_ Hlive].
    apply Forall_cons in Hlive as [[df Hdf] Hlive].
    rewrite Hdf.
    rewrite length_app in Hn, Hfuel. cbn [length] in Hn, Hfuel.
    rewrite (IH _ k' index' fuel); [reflexivity | exact Hbounds | exact Hat'
                                    | | cbn [with_objects shards]; lia
                                    | cbn [with_objects shards]; lia].
    cbn [with_objects objects shards].
    eapply Forall_impl; [exact Hlive |].
    intros e' [df' He']. cbn beta.
    destruct (decide (file e = file e')) as [-> | Hne].
    + rewrite lookup_insert_eq. eauto.
    + rewrite lookup_insert_ne by exact Hne. eauto.
Qed.

(** X17.  Iterating over all names gives every entry of every shard once,
    shard after shard in the order of the arrays, leaving out the
    entries whose tag was not asked for, and then stops. *)
Theorem lookup_all_any_name (ext : hashing) (dindex : drgn_dwarf_index)
    (tags : list Z) (n fuel : nat) :
  Forall shard_bounds (shards dindex) ->
  Forall (fun e => is_Some (objects dindex !! file e))
    (all_entries (shards dindex)) ->
  (length (all_entries (shards dindex)) < n)%nat ->
  (length (all_entries (shards dindex)) < fuel)%nat ->
  exists it,
    drgn_dwarf_index_iterator_init ext dindex None tags = Ok it
    /\ lookup_all n fuel dindex it
       = (found_die <$> filter (tag_wanted tags) (all_entries (shards dindex)),
          Err DRGN_ERROR_STOP).
Proof.
  intros Hbounds Hlive Hn Hfuel.
  unfold drgn_dwarf_index_iterator_init. eexists. split; [reflexivity |].
  destruct (next_shard_with_entries_spec (shards dindex) 0 Hbounds ltac:(lia))
    as (k & -> & _ & Hskip & Hat).
  rewrite <- entries_from_start in Hskip. rewrite drop_0 in Hskip.
  rewrite <- Hskip in Hlive, Hn, Hfuel |- *.
  apply lookup_all_any_name_from; assumption.
Qed.

Lemma lookup_all_any_name_witness :
  exists it,
    drgn_dwarf_index_iterator_init sample_hashing first_update.1 None [] = Ok it
    /\ lookup_all 8 8 first_update.1 it = ([(0%nat, 12)], Err DRGN_ERROR_STOP).
Proof.
  assert (Hshards : shards first_update.1
                    = (index_die_locked [] empty_shard "foo" DW_TAG_variable 0
                         0%nat 12).2.1
                      :: replicate 255 empty_shard)
    by (vm_compute; reflexivity).
  destruct (lookup_all_any_name sample_hashing first_update.1 [] 8 8)
    as (it & Hinit & Hall).
  - rewrite Hshards. constructor; [vm_compute; repeat split; discriminate |].
    apply Forall_replicate. vm_compute. repeat split; discriminate.
  - match goal with
    | |- Forall ?P ?l => let l' := eval vm_compute in l in change (Forall P l')
    end.
    constructor; [eexists; vm_compute; reflexivity | constructor].
  - vm_compute. lia.
  - vm_compute. lia.
  - exists it. split; [exact Hinit |]. rewrite Hall. vm_compute. reflexivity.
Defined.

End AnyName.

Section WalkPreserves.
Import DwarfIndex.
Context (ext : hashing) (files : list file_id)
  (P : drgn_dwarf_index -> Prop).
Context (index_die_preserves :
  forall dindex name t fh f o dindex' r,
    f ∈ files -> P dindex ->
    index_die ext dindex name t fh f o = (dindex', r) -> P dindex').

Lemma index_read_die_preserves df cu table info end_ ss w off d
    ix hashes e' call r :
  cu_file cu ∈ files -> P (walk_index w) ->
  index_read_die ext df cu table info end_ ss w off d
  = ((ix, hashes, e', call), r) ->
  P ix.
Proof.
  intros Hf HP. unfold index_read_die. intros H.
  repeat case_match; simplify_eq; try exact HP;
    eapply index_die_preserves; eauto.
Qed.

Lemma index_cu_step_preserves df cu table info end_ ss w w' o :
  cu_file cu ∈ files -> P (walk_index w) ->
  index_cu_step ext df cu table info end_ ss w = (w', o) ->
  P (walk_index w').
Proof.
  intros Hf HP. unfold index_cu_step. intros Hstep.
  destruct (read_die cu table (bswap df) info (walk_ptr w) end_ ss fresh_die)
    as [[ptr | d ptr] | e | |]; try (injection Hstep as <- _; exact HP).
  destruct (index_read_die ext df cu table info end_ ss w (walk_ptr w) d)
    as [[[[ix hashes] e'] call] r] eqn:Hrd.
  apply index_read_die_preserves in Hrd; [| assumption | assumption].
  destruct r; injection Hstep as <- _; exact Hrd.
Qed.

Lemma index_cu_loop_preserves fuel df cu table info end_ ss w w' r :
  cu_file cu ∈ files -> P (walk_index w) ->
  index_cu_loop fuel ext df cu table info end_ ss w = (w', r) ->
  P (walk_index w').
Proof.
  intros Hf. revert w. induction fuel as [| fuel IH]; intros w HP;
    cbn [index_cu_loop].
  - intros [= <- _]. exact HP.
  - destruct (index_cu_step ext df cu table info end_ ss w) as [w1 [r1 |]] eqn:Hs;
      intros H; apply index_cu_step_preserves in Hs; auto.
    + injection H as <- _. exact Hs.
    + eapply IH; eauto.
Qed.

Lemma index_cu_preserves fuel dindex cu w r :
  cu_file cu ∈ files -> P dindex ->
  index_cu fuel ext dindex cu = (w, r) -> P (walk_index w).
Proof.
  intros Hf HP. unfold index_cu. intros H.
  repeat case_match; simplify_eq; try exact HP;
    (eapply index_cu_loop_preserves; [exact Hf | | eassumption]); exact HP.
Qed.

Lemma index_cus_preserves fuel cus :
  forall dindex dindex' r,
    Forall (fun cu => cu_file cu ∈ files) cus -> P dindex ->
    index_cus fuel ext dindex cus = (dindex', r) -> P dindex'.
Proof.
  induction cus as [| cu cus IH]; intros dindex dindex' r Hcus HP;
    cbn [index_cus].
  - intros [= <- _]. exact HP.
  - apply Forall_cons in Hcus as [Hf Hcus].
    destruct (index_cu fuel ext dindex cu) as [w r1] eqn:Hcu.
    apply index_cu_preserves in Hcu; [| assumption | assumption].
    destruct r1; try (intros [= <- _]; exact Hcu).
    apply IH; assumption.
Qed.

End WalkPreserves.

Section Update.
Import DwarfIndex.

Lemma index_die_same_files ext dindex name t fh f o dindex' r :
  index_die ext dindex name t fh f o = (dindex', r) ->
  same_files dindex dindex'.
Proof.
  unfold index_die, same_files. intros H.
  repeat case_match; simplify_eq; cbn; auto.
Qed.

Lemma index_cus_same_files fuel ext cus dindex dindex' r :
  index_cus fuel ext dindex cus = (dindex', r) -> same_files dindex dindex'.
Proof.
  intros H.
  apply (index_cus_preserves ext (cu_file <$> cus) (same_files dindex))
    in H; [exact H | | | ].
  - intros d name t fh f o d' r' _ (H1 & H2 & H3 & H4) Hd.
    apply index_die_same_files in Hd as (H1' & H2' & H3' & H4').
    unfold same_files. repeat split; congruence.
  - apply Forall_forall. intros cu Hcu. apply list_elem_of_fmap. eauto.
  - unfold same_files. auto.
Qed.

Lemma apply_relocations_others files :
  forall objs objs' r,
    apply_relocations objs files = (objs', r) ->
    forall f, f ∉ files -> objs' !! f = objs !! f.
Proof.
  induction files as [| f0 files IH]; intros objs objs' r; cbn [apply_relocations].
  - intros [= <- _]. auto.
  - intros H f Hf. apply not_elem_of_cons in Hf as [Hne Hf].
    destruct (objs !! f0) as [df |] eqn:Hdf; [| injection H as <- _; auto].
    destruct (apply_file_relocations df) as [df' r'].
    assert (Hins : <[f0 := df']> objs !! f = objs !! f)
      by (apply lookup_insert_ne; congruence).
    destruct r'; try (injection H as <- _; exact Hins).
    rewrite (IH _ _ _ H f Hf). exact Hins.
Qed.

Lemma read_cus_loop_files fuel f swap info buf :
  forall ptr end_ h cus capacity h' cus' capacity',
    read_cus_loop fuel f swap info buf ptr end_ h cus capacity
    = (h', Ok (cus', capacity')) ->
    exists new, cus' = cus ++ new /\ Forall (fun cu => cu_file cu = f) new.
Proof.
  intros ptr end_ h cus capacity h' cus' capacity' H.
  pose proof (read_cus_loop_adjoining fuel f swap info buf end_ ptr h cus
                capacity) as Hends.
  rewrite H in Hends. destruct Hends as (new & -> & _ & Hall).
  exists new. split; [reflexivity |].
  eapply Forall_impl; [exact Hall |]. intros cu [Hf _]. exact Hf.
Qed.

Lemma read_all_cus_files fuel objs files :
  forall h cus capacity h' cus' capacity',
    read_all_cus fuel objs files h cus capacity = (h', Ok (cus', capacity')) ->
    exists new, cus' = cus ++ new /\ Forall (fun cu => cu_file cu ∈ files) new.
Proof.
  induction files as [| f files IH]; intros h cus capacity h' cus' capacity';
    cbn [read_all_cus].
  - intros [= <- <- <-]. exists []. rewrite app_nil_r. auto.
  - destruct (objs !! f ≫= _) as [[df debug_str] |]; [| discriminate].
    destruct (match last debug_str with
              | Some c => negb (c =? 0)
              | None => true
              end); [discriminate |].
    destruct (read_cus fuel f df h cus capacity)
      as [h1 [[cus1 capacity1] | | |]] eqn:Hcus; try discriminate.
    intros H. apply IH in H as (new & -> & Hnew).
    unfold read_cus in Hcus.
    destruct (sections df SECTION_DEBUG_INFO) as [info |]; [| discriminate].
    apply read_cus_loop_files in Hcus as (new1 & -> & Hnew1).
    exists (new1 ++ new). rewrite app_assoc. split; [reflexivity |].
    apply Forall_app. split.
    + eapply Forall_impl; [exact Hnew1 |]. intros cu ->. left.
    + eapply Forall_impl; [exact Hnew |]. intros cu Hcu. right. exact Hcu.
Qed.

Lemma failed_files_lookup (files : list file_id) (objs : gmap nat debug_file)
    (f : file_id) :
  foldr (fun f objs => alter set_failed f objs) objs files !! f
  = (if bool_decide (f ∈ files) then set_failed else id) <$> objs !! f.
Proof.
  induction files as [| f0 files IH]; cbn [foldr].
  - rewrite bool_decide_eq_false_2 by apply not_elem_of_nil.
    destruct (objs !! f); reflexivity.
  - destruct (decide (f = f0)) as [-> | Hne].
    + rewrite lookup_alter_eq, IH.
      rewrite (bool_decide_eq_true_2 (f0 ∈ f0 :: files)) by left.
      destruct (objs !! f0) as [df |]; [| reflexivity].
      cbn [fmap option_fmap option_map]. f_equal.
      case_bool_decide; reflexivity.
    + rewrite lookup_alter_ne by congruence. rewrite IH.
      destruct (objs !! f) as [df |]; [| reflexivity].
      cbn [fmap option_fmap option_map]. f_equal.
      destruct (decide (f ∈ files)) as [Hin | Hout].
      * rewrite !bool_decide_eq_true_2; [reflexivity | right; exact Hin | exact Hin].
      * rewrite !bool_decide_eq_false_2; [reflexivity | | exact Hout].
        intros [? | ?]%elem_of_cons; congruence.
Qed.

Lemma free_files_lookup (files : list file_id) (objs : gmap nat debug_file)
    (f : file_id) :
  foldr delete objs files !! f
  = if bool_decide (f ∈ files) then None else objs !! f.
Proof.
  induction files as [| f0 files IH]; cbn [foldr].
  - rewrite bool_decide_eq_false_2 by apply not_elem_of_nil. reflexivity.
  - destruct (decide (f = f0)) as [-> | Hne].
    + rewrite lookup_delete_eq.
      rewrite bool_decide_eq_true_2 by left. reflexivity.
    + rewrite lookup_delete_ne by congruence. rewrite IH.
      destruct (decide (f ∈ files)) as [Hin | Hout].
      * rewrite !bool_decide_eq_true_2; [reflexivity | right; exact Hin | exact Hin].
      * rewrite !bool_decide_eq_false_2; [reflexivity | | exact Hout].
        intros [? | ?]%elem_of_cons; congruence.
Qed.

Lemma apply_relocations_live files :
  forall objs objs' r,
    apply_relocations objs files = (objs', r) ->
    (forall f, is_Some (objs !! f) -> is_Some (objs' !! f))
    /\ (r = Ok tt -> forall f, f ∈ files -> is_Some (objs' !! f)).
Proof.
  induction files as [| f0 files IH]; intros objs objs' r; cbn [apply_relocations].
  - intros [= <- _]. split; [auto |]. intros _ f Hf. inversion Hf.
  - intros H.
    destruct (objs !! f0) as [df |] eqn:Hdf;
      [| injection H as <- <-; split; [auto | discriminate]].
    destruct (apply_file_relocations df) as [df' r'].
    assert (Hins : forall f, is_Some (objs !! f) -> is_Some (<[f0 := df']> objs !! f)).
    { intros f Hf. destruct (decide (f0 = f)) as [-> | Hne].
      - rewrite lookup_insert_eq. eauto.
      - rewrite lookup_insert_ne by exact Hne. exact Hf. }
    destruct r'; try (injection H as <- <-; split; [exact Hins | discriminate]).
    destruct (IH _ _ _ H) as [Hkeep Hlive]. split; [auto |].
    intros Hr f [-> | Hf]%elem_of_cons; [| auto].
    apply Hkeep. rewrite lookup_insert_eq. eauto.
Qed.

Lemma unindex_files_same_files dindex files dindex' r :
  unindex_files dindex files = (dindex', r) ->
  opened dindex' = opened dindex /\ indexed dindex' = indexed dindex
  /\ objects dindex'
     = foldr (fun f objs => alter set_failed f objs) (objects dindex) files.
Proof.
  unfold unindex_files. intros H.
  repeat case_match; simplify_eq; cbn; auto.
Qed.

(** X19.  An update empties the list of opened files.  When it succeeds the
    files that were opened are indexed files from then on; when it
    fails with an error they are freed and the list of indexed files is
    what it was.  The other files are left as they were. *)
Theorem drgn_dwarf_index_update_files (fuel : nat) (ext : hashing)
    (dindex dindex' : drgn_dwarf_index) (r : res unit) :
  drgn_dwarf_index_update fuel ext dindex = (dindex', r) ->
  match r with
  | Ok _ =>
      opened dindex' = [] /\ indexed dindex' = indexed dindex ++ opened dindex
      /\ (forall f, f ∈ opened dindex -> is_Some (objects dindex' !! f))
      /\ (forall f, f ∉ opened dindex ->
            objects dindex' !! f = objects dindex !! f)
  | Err _ =>
      opened dindex' = [] /\ indexed dindex' = indexed dindex
      /\ (forall f, f ∈ opened dindex -> objects dindex' !! f = None)
      /\ (forall f, f ∉ opened dindex ->
            objects dindex' !! f = objects dindex !! f)
  | _ => True
  end.
Proof.
  unfold drgn_dwarf_index_update. intros H.
  destruct (opened dindex) as [| f0 first0] eqn:Hopened.
  { injection H as <- <-. cbn. rewrite app_nil_r.
    repeat split; auto. intros f Hf. inversion Hf. }
  set (first := f0 :: first0) in *.
  cbn [with_lists objects] in H.
  destruct (apply_relocations (objects dindex) first) as [objs r1] eqn:Hrel.
  pose proof (apply_relocations_others _ _ _ _ Hrel) as Hothers.
  destruct (apply_relocations_live _ _ _ _ Hrel) as [_ Hlive].
  assert (Hfree : forall d,
    opened d = [] -> indexed d = indexed dindex ->
    (forall f, f ∉ first -> objects d !! f = objects dindex !! f) ->
    opened (free_files d first) = []
    /\ indexed (free_files d first) = indexed dindex
    /\ (forall f, f ∈ first -> objects (free_files d first) !! f = None)
    /\ (forall f, f ∉ first ->
          objects (free_files d first) !! f = objects dindex !! f)).
  { intros d Ho Hi Hobjs. unfold free_files. cbn [with_objects opened indexed objects].
    split; [exact Ho |]. split; [exact Hi |].
    split; intros f Hf; rewrite free_files_lookup.
    - rewrite bool_decide_eq_true_2 by exact Hf. reflexivity.
    - rewrite bool_decide_eq_false_2 by exact Hf. auto. }
  destruct r1 as [[] | e1 | |].
  2:{ injection H as <- <-. apply Hfree; auto. }
  2,3: injection H as _ <-; exact I.
  destruct (read_all_cus fuel objs first _ [] 0)
    as [h1 [[cus capacity] | e2 | |]].
  2:{ injection H as <- <-. apply Hfree; auto. }
  2,3: injection H as _ <-; exact I.
  destruct (index_cus fuel ext _ cus) as [d2 r2] eqn:Hcus.
  apply index_cus_same_files in Hcus as (Hobjs & Ho & Hi & _).
  cbn [with_objects with_lists with_shards objects opened indexed]
    in Hobjs, Ho, Hi.
  destruct r2 as [[] | e2 | |].
  { injection H as <- <-. cbn [with_lists opened indexed objects].
    rewrite Hi, Hobjs. repeat split; auto. }
  all: destruct (unindex_files d2 first) as [d3 r3] eqn:Hun;
    apply unindex_files_same_files in Hun as (Ho3 & Hi3 & Hobjs3);
    destruct r3 as [[] | e3 | |]; injection H as <- <-; try exact I.
  apply Hfree; [congruence | congruence |].
  intros f Hf. rewrite Hobjs3, failed_files_lookup, Hobjs.
  rewrite bool_decide_eq_false_2 by exact Hf.
  rewrite Hothers by exact Hf. destruct (objects dindex !! f); reflexivity.
Qed.

Lemma drgn_dwarf_index_update_files_witness :
  opened first_update.1 = [] /\ indexed first_update.1 = [0%nat].
Proof.
  pose proof (drgn_dwarf_index_update_files 100 sample_hashing
                (index_of index_types_and_variables variable_file)
                first_update.1 first_update.2 (surjective_pairing _)) as H.
  assert (Hr : first_update.2 = Ok tt) by (vm_compute; reflexivity).
  rewrite Hr in H. destruct H as (Hopened & Hindexed & _).
  split; [exact Hopened | rewrite Hindexed; reflexivity].
Defined.

End Update.

Section Rollback.
Import DwarfIndex.

Lemma write_slot_lookup (slots : list die_entry) (n : Z) (e : die_entry)
    (i : nat) :
  0 <= n <= Z.of_nat (length slots) ->
  write_slot slots n e !! i
  = if decide (i = Z.to_nat n) then Some e else slots !! i.
Proof.
  intros Hn. unfold write_slot.
  destruct (n <? Z.of_nat (length slots)) eqn:Hlt.
  - rewrite list_lookup_insert.
    destruct (decide (i = Z.to_nat n)) as [-> | Hne].
    + rewrite decide_True by (split; [reflexivity | lia]). reflexivity.
    + rewrite decide_False by (intros [? _]; congruence). reflexivity.
  - assert (Z.to_nat n = length slots) as -> by lia.
    destruct (decide (i = length slots)) as [-> | Hne].
    + apply list_lookup_middle. reflexivity.
    + destruct (decide (i < length slots)%nat).
      * apply lookup_app_l. assumption.
      * rewrite !lookup_ge_None_2; [reflexivity | lia |].
        rewrite length_app. cbn. lia.
Qed.

Lemma write_slot_length (slots : list die_entry) (n : Z) (e : die_entry) :
  0 <= n <= Z.of_nat (length slots) ->
  n + 1 <= Z.of_nat (length (write_slot slots n e)).
Proof.
  intros Hn. unfold write_slot.
  destruct (n <? Z.of_nat (length slots)) eqn:Hlt.
  - rewrite length_insert. lia.
  - rewrite length_app. cbn. lia.
Qed.

Lemma append_die_entry_grows h shard t fh f o h' shard' :
  0 <= num_entries shard <= Z.of_nat (length (entries shard)) ->
  append_die_entry h shard t fh f o = (h', Some shard') ->
  shard_map shard' = shard_map shard
  /\ num_entries shard' = num_entries shard + 1
  /\ num_entries shard' <= Z.of_nat (length (entries shard'))
  /\ forall i, entries shard' !! i
               = if decide (i = Z.to_nat (num_entries shard))
                 then Some (new_entry t fh f o) else entries shard !! i.
Proof.
  intros Hn. unfold append_die_entry. intros H.
  repeat case_match; simplify_eq; cbn [shard_map num_entries entries];
    (split; [reflexivity |]); (split; [reflexivity |]);
    (split; [apply write_slot_length; exact Hn |]);
    intros i; apply write_slot_lookup; exact Hn.
Qed.

(** What a call of [index_die] does to a shard, well-formed or not. *)
Lemma index_die_locked_step h shard name t fh f o h' shard' r :
  0 <= num_entries shard <= Z.of_nat (length (entries shard)) ->
  index_die_locked h shard name t fh f o = (h', (shard', r)) ->
  num_entries shard <= num_entries shard' <= num_entries shard + 1
  /\ num_entries shard' <= Z.of_nat (length (entries shard'))
  /\ (forall i e, Z.of_nat i < num_entries shard ->
        entries shard !! i = Some e ->
        exists e', entries shard' !! i = Some e'
                   /\ entry_payload e' = entry_payload e)
  /\ (forall i e, num_entries shard <= Z.of_nat i < num_entries shard' ->
        entries shard' !! i = Some e -> entry_payload e = (t, fh, f, o))
  /\ (shard_map shard' = shard_map shard
      \/ (shard_map shard !! name = None
          /\ shard_map shard' = <[name := num_entries shard]> (shard_map shard))).
Proof.
  intros Hn Hrun.
  assert (Hsame : shard' = shard ->
    num_entries shard <= num_entries shard' <= num_entries shard + 1
    /\ num_entries shard' <= Z.of_nat (length (entries shard'))
    /\ (forall i e, Z.of_nat i < num_entries shard ->
          entries shard !! i = Some e ->
          exists e', entries shard' !! i = Some e'
                     /\ entry_payload e' = entry_payload e)
    /\ (forall i e, num_entries shard <= Z.of_nat i < num_entries shard' ->
          entries shard' !! i = Some e -> entry_payload e = (t, fh, f, o))
    /\ (shard_map shard' = shard_map shard
        \/ (shard_map shard !! name = None
            /\ shard_map shard' = <[name := num_entries shard]> (shard_map shard)))).
  { intros ->. split; [lia |]. split; [lia |]. split; [eauto |].
    split; [intros; lia | auto]. }
  assert (Happ : forall h0 h1 s1,
    append_die_entry h0 shard t fh f o = (h1, Some s1) ->
    forall m es,
      (m = shard_map shard
       \/ (shard_map shard !! name = None
           /\ m = <[name := num_entries shard]> (shard_map shard))) ->
      (es = entries s1
       \/ exists j last, es = <[j := set_next last (num_entries s1 - 1)]> (entries s1)
                         /\ entries s1 !! j = Some last) ->
      shard' = {| shard_map := m; entries := es; num_entries := num_entries s1;
                  entries_capacity := entries_capacity s1 |} ->
    num_entries shard <= num_entries shard' <= num_entries shard + 1
    /\ num_entries shard' <= Z.of_nat (length (entries shard'))
    /\ (forall i e, Z.of_nat i < num_entries shard ->
          entries shard !! i = Some e ->
          exists e', entries shard' !! i = Some e'
                     /\ entry_payload e' = entry_payload e)
    /\ (forall i e, num_entries shard <= Z.of_nat i < num_entries shard' ->
          entries shard' !! i = Some e -> entry_payload e = (t, fh, f, o))
    /\ (shard_map shard' = shard_map shard
        \/ (shard_map shard !! name = None
            /\ shard_map shard' = <[name := num_entries shard]> (shard_map shard)))).
  { intros h0 h1 s1 Ha m es Hm Hes ->.
    destruct (append_die_entry_grows _ _ _ _ _ _ _ _ Hn Ha)
      as (Hmap & Hnum & Hlen & Hlook).
    cbn [num_entries entries shard_map].
    assert (Hpay : forall i e, es !! i = Some e ->
              exists e1, entries s1 !! i = Some e1
                         /\ entry_payload e = entry_payload e1).
    { intros i e He. destruct Hes as [-> | (j & last & -> & Hlast)]; [eauto |].
      rewrite list_lookup_insert in He.
      destruct (decide (j = i ∧ _)) as [[<- _] | _]; [| eauto].
      injection He as <-. eauto. }
    assert (Hpay' : forall i e1, entries s1 !! i = Some e1 ->
              exists e, es !! i = Some e
                        /\ entry_payload e = entry_payload e1).
    { intros i e1 He. destruct Hes as [-> | (j & last & -> & Hlast)]; [eauto |].
      rewrite list_lookup_insert.
      destruct (decide (j = i ∧ _)) as [[<- _] | _]; [| eauto].
      assert (last = e1) by congruence. subst. eauto. }
    assert (Hlen' : length es = length (entries s1)).
    { destruct Hes as [-> | (j & last & -> & _)];
        [reflexivity | apply length_insert]. }
    split; [lia |]. split; [lia |]. split; [| split].
    - intros i e Hi He.
      destruct (Hpay' i e) as (e' & He' & Hp); [| eauto].
      rewrite Hlook. rewrite decide_False by lia. exact He.
    - intros i e Hi He.
      destruct (Hpay i e He) as (e1 & He1 & Hp).
      rewrite Hlook in He1. rewrite decide_True in He1 by lia.
      injection He1 as <-. exact Hp.
    - destruct Hm as [-> | [Hnone ->]]; auto. }
  unfold index_die_locked in Hrun.
  destruct (shard_map shard !! name) as [value |] eqn:Hmap.
  - destruct (search_chain _ _ _ _ _) as [[| index] | e | |];
      try (injection Hrun as _ <- _; apply Hsame; reflexivity).
    destruct (append_die_entry h shard t fh f o) as [h1 [s1 |]] eqn:Ha;
      [| injection Hrun as _ <- _; apply Hsame; reflexivity].
    destruct (entries s1 !! Z.to_nat index) as [last |] eqn:Hlast.
    + injection Hrun as _ <- _.
      eapply (Happ _ _ _ Ha (shard_map s1)); [| | reflexivity].
      * left. apply (append_die_entry_grows _ _ _ _ _ _ _ _ Hn Ha).
      * right. eauto.
    + injection Hrun as _ <- _.
      eapply (Happ _ _ _ Ha (shard_map s1) (entries s1)); [| auto |].
      * left. apply (append_die_entry_grows _ _ _ _ _ _ _ _ Hn Ha).
      * destruct s1; reflexivity.
  - destruct (append_die_entry h shard t fh f o) as [h1 [s1 |]] eqn:Ha;
      [| injection Hrun as _ <- _; apply Hsame; reflexivity].
    destruct (alloc h1) as [[|] h2]; injection Hrun as _ <- _.
    + eapply (Happ _ _ _ Ha _ (entries s1)); [| auto | reflexivity].
      right. split; [reflexivity |].
      destruct (append_die_entry_grows _ _ _ _ _ _ _ _ Hn Ha)
        as (-> & -> & _). f_equal. lia.
    + eapply (Happ _ _ _ Ha (shard_map s1) (entries s1)); [| auto |].
      * left. apply (append_die_entry_grows _ _ _ _ _ _ _ _ Hn Ha).
      * destruct s1; reflexivity.
Qed.

Lemma grown_refl files s0 :
  0 <= num_entries s0 <= Z.of_nat (length (entries s0)) -> grown files s0 s0.
Proof.
  intros Hn. split; [lia | eauto | intros; lia | auto | auto].
Qed.

Lemma grown_step files s0 s h name t fh f o h' s' r :
  0 <= num_entries s0 -> f ∈ files -> grown files s0 s ->
  index_die_locked h s name t fh f o = (h', (s', r)) ->
  grown files s0 s'.
Proof.
  intros H0 Hf [Hnum Hold Hnew Hnames Hold_names] Hrun.
  destruct (index_die_locked_step h s name t fh f o h' s' r ltac:(lia) Hrun)
    as (Hn' & Hlen' & Hold' & Hnew' & Hmap').
  split.
  - lia.
  - intros i e Hi He. destruct (Hold i e Hi He) as (e1 & He1 & Hp1).
    destruct (Hold' i e1 ltac:(lia) He1) as (e2 & He2 & Hp2).
    exists e2. split; [exact He2 | congruence].
  - intros i e Hi He.
    destruct (decide (Z.of_nat i < num_entries s)) as [Hlt | Hge].
    + destruct (lookup_lt_is_Some_2 (entries s) i ltac:(lia)) as [e1 He1].
      destruct (Hold' i e1 Hlt He1) as (e2 & He2 & Hp2).
      assert (e2 = e) by congruence. subst e2.
      replace (file e) with (file e1)
        by (unfold entry_payload in Hp2; congruence).
      apply (Hnew i e1); [lia | exact He1].
    + specialize (Hnew' i e ltac:(lia) He).
      replace (file e) with f
        by (unfold entry_payload in Hnew'; congruence).
      exact Hf.
  - intros n head Hhead.
    destruct Hmap' as [Hm | [Hnone Hm]]; rewrite Hm in Hhead; [auto |].
    destruct (decide (name = n)) as [-> | Hne].
    + rewrite lookup_insert_eq in Hhead. injection Hhead as <-.
      destruct (shard_map s0 !! n) as [h0 |] eqn:H0n.
      * apply Hold_names in H0n. congruence.
      * right. split; [reflexivity | lia].
    + rewrite lookup_insert_ne in Hhead by exact Hne. auto.
  - intros n head Hhead. apply Hold_names in Hhead.
    destruct Hmap' as [Hm | [Hnone Hm]]; rewrite Hm; [exact Hhead |].
    rewrite lookup_insert_ne; [exact Hhead | congruence].
Qed.

Lemma index_die_grown ext files d0 d name t fh f o d' r :
  Forall (fun s => 0 <= num_entries s) (shards d0) ->
  f ∈ files -> Forall2 (grown files) (shards d0) (shards d) ->
  index_die ext d name t fh f o = (d', r) ->
  Forall2 (grown files) (shards d0) (shards d').
Proof.
  intros H0 Hf Hg. unfold index_die.
  set (i := Z.to_nat (hash_pair_to_shard (name_hash ext name))).
  destruct (shards d !! i) as [s |] eqn:Hs; [| intros [= <- _]; exact Hg].
  destruct (index_die_locked (allocator d) s name t fh f o)
    as [h [s' r']] eqn:Hrun.
  intros Hd. apply pair_equal_spec in Hd as [<- _]. cbn [with_shards shards].
  destruct (Forall2_lookup_r _ _ _ _ _ Hg Hs) as (s0 & Hs0 & Hgs).
  rewrite <- (list_insert_id _ _ _ Hs0).
  apply Forall2_insert; [exact Hg |].
  eapply grown_step; [| exact Hf | exact Hgs | exact Hrun].
  exact (proj1 (Forall_lookup _ _) H0 _ _ Hs0).
Qed.

Lemma shrink_entries_grown files objs s0 s :
  0 <= num_entries s0 <= Z.of_nat (length (entries s0)) ->
  grown files s0 s ->
  (forall f, f ∈ files -> exists df, objs !! f = Some df /\ failed df = true) ->
  (forall i e, Z.of_nat i < num_entries s0 -> entries s0 !! i = Some e ->
     exists df, objs !! file e = Some df /\ failed df = false) ->
  forall n, num_entries s0 <= Z.of_nat n <= num_entries s ->
    shrink_entries objs (entries s) n = Some (Z.to_nat (num_entries s0)).
Proof.
  intros H0 [Hnum Hold Hnew _ _] Hfailed Hlive.
  induction n as [| n IH]; intros Hn; cbn [shrink_entries].
  - f_equal. lia.
  - destruct (decide (Z.of_nat n < num_entries s0)) as [Hlt | Hge].
    + destruct (lookup_lt_is_Some_2 (entries s0) n ltac:(lia)) as [e He].
      destruct (Hold n e Hlt He) as (e' & He' & Hp).
      destruct (Hlive n e Hlt He) as (df & Hdf & Hok).
      rewrite He'. cbn [mbind option_bind].
      replace (file e') with (file e)
        by (unfold entry_payload in Hp; congruence).
      rewrite Hdf, Hok. f_equal. lia.
    + destruct (lookup_lt_is_Some_2 (entries s) n ltac:(lia)) as [e He].
      destruct (Hfailed _ (Hnew n e ltac:(lia) He)) as (df & Hdf & Hbad).
      rewrite He. cbn [mbind option_bind]. rewrite Hdf, Hbad.
      apply IH. lia.
Qed.

Lemma unindex_shard_grown files objs s0 s s' :
  shard_consistent s0 ->
  grown files s0 s ->
  (forall f, f ∈ files -> exists df, objs !! f = Some df /\ failed df = true) ->
  (forall i e, Z.of_nat i < num_entries s0 -> entries s0 !! i = Some e ->
     exists df, objs !! file e = Some df /\ failed df = false) ->
  unindex_shard objs s = Some s' ->
  restored s0 s'.
Proof.
  intros [H0 Hheads] Hg Hfailed Hlive. unfold unindex_shard.
  rewrite (shrink_entries_grown files objs s0 s H0 Hg Hfailed Hlive)
    by (destruct Hg; lia).
  cbn [mbind option_bind]. intros [= <-].
  destruct Hg as [Hnum Hold Hnew Hnames Hold_names].
  split; [cbn [num_entries]; lia |]. split; [| exact Hold].
  cbn [shard_map]. apply map_eq. intros name. apply option_eq. intros head.
  rewrite map_lookup_filter_Some. cbn [snd].
  rewrite Z2Nat.id by lia. split.
  - intros [Hhead Hlt]. destruct (Hnames _ _ Hhead) as [? | [_ ?]]; [assumption | lia].
  - intros Hhead. split; [auto |]. specialize (Hheads _ _ Hhead). lia.
Qed.

Lemma restored_refl s : restored s s.
Proof. split; [reflexivity |]. split; [reflexivity | eauto]. Qed.

(** X20.  An update that fails with an error gives the shards back with the
    number of entries and the names they had before it, and with what
    their entries said, apart from the links. *)
Theorem drgn_dwarf_index_update_rollback (fuel : nat) (ext : hashing)
    (dindex dindex' : drgn_dwarf_index) (e : drgn_error_code) :
  Forall shard_consistent (shards dindex) ->
  (forall shard i entry,
     shard ∈ shards dindex -> Z.of_nat i < num_entries shard ->
     entries shard !! i = Some entry ->
     (file entry ∉ opened dindex)
     /\ exists df, objects dindex !! file entry = Some df /\ failed df = false) ->
  drgn_dwarf_index_update fuel ext dindex = (dindex', Err e) ->
  Forall2 restored (shards dindex) (shards dindex').
Proof.
  intros Hcons Hentries. unfold drgn_dwarf_index_update. intros H.
  assert (Hrefl : Forall2 restored (shards dindex) (shards dindex)).
  { apply Forall2_same_length_lookup. split; [reflexivity |].
    intros i x y Hx Hy. assert (x = y) by congruence. subst.
    apply restored_refl. }
  destruct (opened dindex) as [| f0 first0] eqn:Hopened; [discriminate |].
  set (first := f0 :: first0) in *.
  cbn [with_lists objects] in H.
  destruct (apply_relocations (objects dindex) first) as [objs r1] eqn:Hrel.
  pose proof (apply_relocations_others _ _ _ _ Hrel) as Hothers.
  destruct (apply_relocations_live _ _ _ _ Hrel) as [_ Hlive].
  destruct r1 as [[] | e1 | |]; try discriminate.
  2:{ injection H as <- _. exact Hrefl. }
  destruct (read_all_cus fuel objs first _ [] 0)
    as [h1 [[cus capacity] | e2 | |]] eqn:Hread; try discriminate.
  2:{ injection H as <- _. exact Hrefl. }
  apply read_all_cus_files in Hread as (new & -> & Hnew). cbn [app] in H.
  destruct (index_cus fuel ext _ new) as [d2 r2] eqn:Hcus.
  pose proof (index_cus_same_files _ _ _ _ _ _ Hcus) as (Hobjs & _).
  cbn [with_objects with_lists with_shards objects] in Hobjs.
  apply (index_cus_preserves ext first
           (fun d => Forall2 (grown first) (shards dindex) (shards d)))
    in Hcus.
  - destruct r2 as [[] | e2 | |]; try discriminate.
    + unfold unindex_files in H. cbn [with_objects shards objects allocator] in H.
      rewrite Hobjs in H.
      destruct (mapM _ (shards d2)) as [shs |] eqn:HmapM; [| discriminate].
      injection H as <- _. cbn [free_files with_objects with_shards shards].
      apply mapM_Some in HmapM.
      apply Forall2_same_length_lookup. split.
      { rewrite (Forall2_length _ _ _ Hcus). exact (Forall2_length _ _ _ HmapM). }
      intros i s0 s3 Hs0 Hs3.
      destruct (Forall2_lookup_l _ _ _ _ _ Hcus Hs0) as (s2 & Hs2 & Hg).
      destruct (Forall2_lookup_l _ _ _ _ _ HmapM Hs2) as (s3' & Hs3' & Hun).
      assert (s3' = s3) by congruence. subst s3'.
      eapply unindex_shard_grown; [| exact Hg | | | exact Hun].
      * exact (proj1 (Forall_lookup _ _) Hcons _ _ Hs0).
      * intros f Hf. rewrite failed_files_lookup.
        rewrite bool_decide_eq_true_2 by exact Hf.
        destruct (Hlive eq_refl f Hf) as [df Hdf]. rewrite Hdf.
        exists (set_failed df). auto.
      * intros j entry Hj Hentry.
        destruct (Hentries s0 j entry (list_elem_of_lookup_2 _ _ _ Hs0) Hj Hentry)
          as (Hnot & df & Hdf & Hok).
        rewrite failed_files_lookup.
        rewrite bool_decide_eq_false_2 by exact Hnot.
        rewrite Hothers by exact Hnot. rewrite Hdf. exists df. auto.
    + destruct (unindex_files d2 first) as [d3 [[] | | |]]; discriminate.
    + destruct (unindex_files d2 first) as [d3 [[] | | |]]; discriminate.
  - intros d name t fh f o d' r Hf Hg Hdie.
    eapply index_die_grown; [| exact Hf | exact Hg | exact Hdie].
    eapply Forall_impl; [exact Hcons |]. intros s [? _]. lia.
  - exact Hnew.
  - cbn [with_objects with_lists with_shards shards].
    apply Forall2_same_length_lookup. split; [reflexivity |].
    intros i x y Hx Hy. assert (x = y) by congruence. subst.
    apply grown_refl. exact (proj1 (proj1 (Forall_lookup _ _) Hcons _ _ Hx)).
Qed.

Lemma built_shard_consistent (shard : dwarf_index_shard) :
  built_by_index_die shard -> num_entries shard < SIZE_MAX ->
  shard_consistent shard.
Proof.
  intros Hbuilt Hmax.
  pose proof (built_by_index_die_wf _ Hbuilt Hmax) as Hwf.
  pose proof (wf_num_entries _ Hwf) as Hnum.
  split; [lia |]. intros name head Hhead.
  destruct (wf_chains _ Hwf name head Hhead) as (l & Hc & _).
  destruct (is_chain_head _ _ _ Hc) as [l' ->].
  pose proof (chain_nonneg_bounds _ _ _ Hc head ltac:(left)). lia.
Qed.

Lemma drgn_dwarf_index_update_rollback_witness :
  second_update.2 = Err DRGN_ERROR_DWARF_FORMAT
  /\ Forall2 restored
       (shards (drgn_dwarf_index_open_elf first_update.1 broken_typedef_file).1)
       (shards second_update.1).
Proof.
  split; [vm_compute; reflexivity |].
  assert (Hshards :
    shards (drgn_dwarf_index_open_elf first_update.1 broken_typedef_file).1
    = (index_die_locked [] empty_shard "foo" DW_TAG_variable 0 0%nat 12).2.1
      :: replicate 255 empty_shard)
    by (vm_compute; reflexivity).
  apply (drgn_dwarf_index_update_rollback 100 sample_hashing
           (drgn_dwarf_index_open_elf first_update.1 broken_typedef_file).1
           second_update.1 DRGN_ERROR_DWARF_FORMAT).
  - rewrite Hshards. constructor.
    + apply built_shard_consistent; [| reflexivity].
      apply (built_step [] empty_shard "foo" DW_TAG_variable 0 0%nat 12
               (index_die_locked [] empty_shard "foo" DW_TAG_variable 0
                  0%nat 12).1
               _
               (index_die_locked [] empty_shard "foo" DW_TAG_variable 0
                  0%nat 12).2.2
               built_empty).
      reflexivity.
    + apply Forall_replicate.
      apply built_shard_consistent; [apply built_empty | reflexivity].
  - rewrite Hshards. intros shard i entry Hin Hi Hentry.
    apply elem_of_cons in Hin as [-> | Hin].
    + assert (Hnum : num_entries
                       (index_die_locked [] empty_shard "foo" DW_TAG_variable
                          0 0%nat 12).2.1 = 1) by reflexivity.
      rewrite Hnum in Hi. destruct i as [| i]; [| lia].
      vm_compute in Hentry. injection Hentry as <-.
      split.
      * vm_compute. intros [H | H]%elem_of_cons; [discriminate H | inversion H].
      * eexists. split; vm_compute; reflexivity.
    + apply elem_of_replicate in Hin as [-> _]. cbn in Hi. lia.
  - vm_compute. reflexivity.
Defined.

End Rollback.

Section RequestedKinds.
Import DwarfIndex.

Lemma decode_insn_name insn form :
  decode_insn insn = Some (form, NameStrp) -> sets_name insn = true.
Proof.
  unfold decode_insn, sets_name. intros H.
  repeat (case_match; simplify_eq);
    repeat match goal with
           | E : (_ =? _) = true |- _ => rewrite E
           end; rewrite ?orb_true_r; reflexivity.
Qed.

Lemma decode_insn_specification insn form :
  decode_insn insn = Some (form, Specification) ->
  sets_specification insn = true.
Proof.
  unfold decode_insn, sets_specification. intros H.
  repeat (case_match; simplify_eq);
    match goal with
    | E : (insn =? _) = true |- _ => apply Z.eqb_eq in E; rewrite E
    end; reflexivity.
Qed.

Lemma read_die_insns_body indexed flags rest cu swap info end_ ss d' p' :
  forall body d ptr,
    Forall (insn_ok indexed) body ->
    read_die_insns (body ++ 0 :: flags :: rest) cu swap info ptr end_ ss d
    = Ok (d', p') ->
    die_flags d' = flags
    /\ (indexed = false ->
        die_name d' = die_name d
        /\ die_specification d' = die_specification d).
Proof.
  induction body as [| insn body IH]; intros d ptr Hbody.
  - cbn. intros [= <- _]. auto.
  - apply Forall_cons in Hbody as [[Hnz Hkind] Hbody].
    cbn [app read_die_insns].
    replace (insn =? 0) with false by lia.
    assert (Hcont : forall d1 p1,
      die_name d1 = die_name d -> die_specification d1 = die_specification d ->
      read_die_insns (body ++ 0 :: flags :: rest) cu swap info p1 end_ ss d1
      = Ok (d', p') ->
      die_flags d' = flags
      /\ (indexed = false ->
          die_name d' = die_name d
          /\ die_specification d' = die_specification d)).
    { intros d1 p1 Hn Hs Hrun. destruct (IH d1 p1 Hbody Hrun) as [Hf Hsame].
      split; [exact Hf |]. intros Hi. destruct (Hsame Hi). split; congruence. }
    assert (Hindexed : forall d1 p1,
      indexed = true ->
      read_die_insns (body ++ 0 :: flags :: rest) cu swap info p1 end_ ss d1
      = Ok (d', p') ->
      die_flags d' = flags
      /\ (indexed = false ->
          die_name d' = die_name d
          /\ die_specification d' = die_specification d)).
    { intros d1 p1 Hi Hrun. destruct (IH d1 p1 Hbody Hrun) as [Hf _].
      split; [exact Hf | congruence]. }
    destruct (insn =? ATTRIB_LEB128).
    { destruct (skip_leb128 info ptr end_); [| discriminate].
      apply Hcont; reflexivity. }
    destruct ((insn =? ATTRIB_NAME_STRING) || (insn =? ATTRIB_STRING)) eqn:Hstr.
    { destruct (skip_string info ptr end_); [| discriminate].
      destruct (insn =? ATTRIB_NAME_STRING) eqn:Hname.
      - apply Hindexed, Hkind. unfold sets_name. rewrite Hname.
        rewrite orb_true_r. reflexivity.
      - apply Hcont; reflexivity. }
    destruct (decode_insn insn) as [[form action] |] eqn:Hdec.
    2:{ destruct (read_in_bounds ptr end_ insn); [| discriminate].
        apply Hcont; reflexivity. }
    destruct (read_operand form swap info ptr end_) as [[tmp p1] | | |];
      cbn [mbind res_bind]; try discriminate.
    destruct action.
    + destruct (read_in_bounds p1 end_ tmp); [| discriminate].
      apply Hcont; reflexivity.
    + destruct (read_in_bounds (cu_ptr cu) end_ tmp); [| discriminate].
      apply Hcont; reflexivity.
    + destruct (read_in_bounds 0 ss tmp); [| discriminate].
      apply Hindexed, Hkind.
      rewrite (decode_insn_name _ _ Hdec). reflexivity.
    + apply Hcont; reflexivity.
    + apply Hcont; reflexivity.
    + destruct (read_in_bounds (cu_ptr cu) end_ tmp); [| discriminate].
      apply Hindexed, Hkind.
      rewrite (decode_insn_specification _ _ Hdec). apply orb_true_r.
Qed.

Lemma small_insn_ok indexed insn :
  0 < insn <= INSN_MAX_SKIP -> insn_ok indexed insn.
Proof.
  unfold INSN_MAX_SKIP. intros Hinsn. split; [lia |].
  unfold sets_name, sets_specification, ATTRIB_NAME_STRP4, ATTRIB_NAME_STRP8,
    ATTRIB_NAME_STRING, ATTRIB_SPECIFICATION_REF1,
    ATTRIB_SPECIFICATION_REF_UDATA.
  intros H. exfalso.
  repeat match goal with
         | H : orb _ _ = true |- _ => apply orb_prop in H as [H | H]
         | H : andb _ _ = true |- _ => apply andb_prop in H as [H ?]
         end; lia.
Qed.

Lemma kept_attribute_insn_ok flags cu hdl tag indexed name form insn :
  kept_attribute_insn flags cu hdl tag indexed name form = Some insn ->
  insn_ok indexed insn.
Proof.
  unfold kept_attribute_insn. intros H.
  repeat (case_match; simplify_eq);
    (split; [split; [reflexivity | discriminate] |]); intros Hs;
    first [ discriminate Hs
          | match goal with
            | E : _ && indexed = true |- _ =>
                apply andb_prop in E as [_ E]; exact E
            end ].
Qed.

Lemma skipped_attribute_insn_ok cu form indexed :
  0 < address_size cu <= INSN_MAX_SKIP ->
  match skipped_attribute_insn cu form with
  | SkipBytes insn => 0 < insn <= INSN_MAX_SKIP
  | AppendInsn insn => insn_ok indexed insn
  | _ => True
  end.
Proof.
  intros Ha. unfold skipped_attribute_insn.
  repeat case_match; simplify_eq; try exact I; try exact Ha;
    try (unfold INSN_MAX_SKIP; lia);
    (split; [split; [reflexivity | discriminate]
            | intros Hs; discriminate Hs]).
Qed.

Lemma merge_skip_body indexed first insns0 body insn :
  (first = true -> body = []) -> (first = false -> body <> []) ->
  Forall (insn_ok indexed) body -> 0 < insn <= INSN_MAX_SKIP ->
  exists body',
    merge_skip first (insns0 ++ body) insn = insns0 ++ body'
    /\ Forall (insn_ok indexed) body' /\ body' <> []
    /\ (length body' <= S (length body))%nat.
Proof.
  intros Hfirst Hrest Hbody Hinsn.
  pose proof (small_insn_ok indexed insn Hinsn) as Hok.
  assert (Happend : exists body',
            (insns0 ++ body) ++ [insn] = insns0 ++ body'
            /\ Forall (insn_ok indexed) body' /\ body' <> []
            /\ (length body' <= S (length body))%nat).
  { exists (body ++ [insn]). split; [rewrite app_assoc; reflexivity |].
    split; [apply Forall_app; auto |].
    split; [intros H; apply app_eq_nil in H as [_ H]; discriminate |].
    rewrite length_app. cbn. lia. }
  unfold merge_skip. destruct first.
  - cbn [negb andb]. destruct (last (insns0 ++ body)); exact Happend.
  - specialize (Hrest eq_refl). cbn [negb andb].
    destruct body as [| x body _] using rev_ind; [congruence |].
    rewrite app_assoc, last_snoc in *.
    apply Forall_app in Hbody as [Hbody Hx].
    apply Forall_cons in Hx as [[Hx _] _].
    destruct (x <? INSN_MAX_SKIP) eqn:Hlt; [| exact Happend].
    assert (Hins : forall y,
              <[pred (length ((insns0 ++ body) ++ [x])) := y]>
                ((insns0 ++ body) ++ [x]) = insns0 ++ body ++ [y]).
    { intros y. rewrite length_app. cbn [length].
      replace (pred (length (insns0 ++ body) + 1)) with
        (length (insns0 ++ body) + 0)%nat by lia.
      rewrite insert_app_r. cbn. rewrite <- app_assoc. reflexivity. }
    rewrite !Hins. unfold INSN_MAX_SKIP in *.
    destruct (x + insn <=? 229) eqn:Hle.
    + exists (body ++ [u8 (x + insn)]). split; [reflexivity |].
      assert (Hu : u8 (x + insn) = x + insn)
        by (unfold u8; apply Z.mod_small; lia).
      rewrite Hu.
      split; [apply Forall_app; split; [exact Hbody |];
              constructor; [apply small_insn_ok; unfold INSN_MAX_SKIP; lia
                           | constructor] |].
      split; [intros H; apply app_eq_nil in H as [_ H]; discriminate |].
      rewrite !length_app. cbn. lia.
    + exists (body ++ [229; u8 (x + insn - 229)]).
      split; [rewrite <- !app_assoc; reflexivity |].
      assert (Hu : u8 (x + insn - 229) = x + insn - 229)
        by (unfold u8; apply Z.mod_small; lia).
      rewrite Hu.
      split; [apply Forall_app; split; [exact Hbody |];
              constructor; [apply small_insn_ok; unfold INSN_MAX_SKIP; lia |];
              constructor; [apply small_insn_ok; unfold INSN_MAX_SKIP; lia
                           | constructor] |].
      split; [intros H; apply app_eq_nil in H as [_ H]; discriminate |].
      rewrite !length_app. cbn. lia.
Qed.

Lemma read_uleb128_loop_advances fuel buf end_ :
  forall ptr shift value v p,
    read_uleb128_loop fuel buf ptr end_ shift value = Ok (v, p) ->
    ptr < p <= end_.
Proof.
  induction fuel as [| fuel IH]; intros ptr shift value v p;
    cbn [read_uleb128_loop]; [discriminate |].
  destruct (ptr >=? end_) eqn:Hend; [discriminate |].
  destruct ((shift =? 63) && (byte_at buf ptr >? 1)); [discriminate |].
  destruct (Z.land (byte_at buf ptr) 128 =? 0).
  - intros [= _ <-]. lia.
  - intros H. apply IH in H. lia.
Qed.

Lemma read_uleb128_advances buf ptr end_ v p :
  read_uleb128 buf ptr end_ = Ok (v, p) -> ptr < p <= end_.
Proof. apply read_uleb128_loop_advances. Qed.

Lemma land_mask_lor_flag (dflags flag : Z) :
  flag = TAG_FLAG_DECLARATION \/ flag = TAG_FLAG_CHILDREN ->
  Z.land (Z.lor dflags flag) TAG_MASK = Z.land dflags TAG_MASK.
Proof.
  intros Hflag. rewrite Z.land_lor_distr_l.
  replace (Z.land flag TAG_MASK) with 0
    by (destruct Hflag as [-> | ->]; reflexivity).
  apply Z.lor_0_r.
Qed.

Lemma read_abbrev_attribs_body flags cu hdl tag indexed buf end_ insns0 mask
    fuel :
  0 < address_size cu <= INSN_MAX_SKIP ->
  forall ptr first body dflags ptr' insns' dflags',
    (first = true -> body = []) -> (first = false -> body <> []) ->
    Forall (insn_ok indexed) body ->
    Z.land dflags TAG_MASK = mask ->
    read_abbrev_attribs fuel flags cu hdl tag indexed buf ptr end_ first
      (insns0 ++ body) dflags = Ok (ptr', insns', dflags') ->
    exists body',
      insns' = insns0 ++ body' /\ Forall (insn_ok indexed) body'
      /\ Z.land dflags' TAG_MASK = mask
      /\ Z.of_nat (length body') + 2 <= Z.of_nat (length body) + (ptr' - ptr).
Proof.
  intros Ha. induction fuel as [| fuel IH];
    intros ptr first body dflags ptr' insns' dflags' Hfirst Hrest Hbody Hmask;
    cbn [read_abbrev_attribs]; [discriminate |].
  destruct (read_uleb128 buf ptr end_) as [[name p1] | | |] eqn:Hname;
    cbn [mbind res_bind]; try discriminate.
  destruct (read_uleb128 buf p1 end_) as [[form p2] | | |] eqn:Hform;
    cbn [mbind res_bind]; try discriminate.
  apply read_uleb128_advances in Hname, Hform.
  destruct ((name =? 0) && (form =? 0)).
  { intros [= <- <- <-]. exists body. repeat split; auto. lia. }
  assert (Happend : forall insn d,
    insn_ok indexed insn -> Z.land d TAG_MASK = mask ->
    read_abbrev_attribs fuel flags cu hdl tag indexed buf p2 end_ false
      ((insns0 ++ body) ++ [insn]) d = Ok (ptr', insns', dflags') ->
    exists body',
      insns' = insns0 ++ body' /\ Forall (insn_ok indexed) body'
      /\ Z.land dflags' TAG_MASK = mask
      /\ Z.of_nat (length body') + 2 <= Z.of_nat (length body) + (ptr' - ptr)).
  { intros insn d Hinsn Hd Hrun. rewrite <- app_assoc in Hrun.
    apply IH in Hrun as (body' & -> & Hall & Hm & Hlen);
      [| discriminate
       | intros _ H; apply app_eq_nil in H as [_ H]; discriminate
       | apply Forall_app; auto | exact Hd].
    exists body'. repeat split; auto.
    rewrite length_app in Hlen. cbn [length] in Hlen. lia. }
  destruct (kept_attribute_insn flags cu hdl tag indexed name form)
    as [insn |] eqn:Hkept.
  { apply Happend; [| exact Hmask].
    exact (kept_attribute_insn_ok _ _ _ _ _ _ _ _ Hkept). }
  set (d := if name =? DW_AT_declaration
            then Z.lor dflags TAG_FLAG_DECLARATION else dflags).
  assert (Hd : Z.land d TAG_MASK = mask).
  { subst d. destruct (name =? DW_AT_declaration); [| exact Hmask].
    rewrite land_mask_lor_flag by auto. exact Hmask. }
  pose proof (skipped_attribute_insn_ok cu form indexed Ha) as Hskip.
  destruct (skipped_attribute_insn cu form) as [insn | insn | |].
  - destruct (merge_skip_body indexed first insns0 body insn Hfirst Hrest
                Hbody Hskip) as (body1 & -> & Hall1 & Hne1 & Hlen1).
    intros Hrun.
    apply IH in Hrun as (body' & -> & Hall & Hm & Hlen);
      [| discriminate | auto | exact Hall1 | exact Hd].
    exists body'. repeat split; auto. lia.
  - apply Happend; assumption.
  - intros Hrun.
    apply IH in Hrun as (body' & -> & Hall & Hm & Hlen); auto.
    exists body'. repeat split; auto. lia.
  - discriminate.
Qed.

Lemma kept_tag_fits flags tag :
  should_index flags tag || (tag =? DW_TAG_compile_unit)
  || (index_enumerators flags && (tag =? DW_TAG_enumeration_type)) = true ->
  Z.land (u8 tag) TAG_MASK = tag.
Proof.
  unfold should_index, is_type_tag. intros H.
  repeat match goal with
         | H : orb _ _ = true |- _ => apply orb_prop in H as [H | H]
         | H : andb _ _ = true |- _ => apply andb_prop in H as [_ H]
         end;
    apply Z.eqb_eq in H; subst tag; reflexivity.
Qed.

Lemma read_abbrev_decl_ok flags cu hdl buf ptr end_ table ptr' table' :
  0 < address_size cu <= INSN_MAX_SKIP ->
  end_ <= 2 ^ 32 ->
  table_ok flags table -> Z.of_nat (length (insns table)) <= ptr ->
  read_abbrev_decl flags cu hdl buf ptr end_ table = Ok (Some (ptr', table')) ->
  table_ok flags table' /\ Z.of_nat (length (insns table')) <= ptr'.
Proof.
  intros Ha Hend Htable Hlen. unfold read_abbrev_decl.
  destruct (read_uleb128 buf ptr end_) as [[code p1] | | |] eqn:Hcode;
    cbn [mbind res_bind]; try discriminate.
  destruct (code =? 0); [discriminate |].
  destruct (negb (code =? Z.of_nat (length (decls table)) + 1));
    [discriminate |].
  destruct (read_uleb128 buf p1 end_) as [[tag p2] | | |] eqn:Htag;
    cbn [mbind res_bind]; try discriminate.
  apply read_uleb128_advances in Hcode, Htag.
  destruct (read_uint 1 false buf p2 end_) as [[children p3] |] eqn:Hchildren;
    [| discriminate].
  assert (Hp3 : p3 = p2 + 1).
  { unfold read_uint in Hchildren. case_match; simplify_eq. reflexivity. }
  set (kept := should_index flags tag || (tag =? DW_TAG_compile_unit)
               || (index_enumerators flags
                   && (tag =? DW_TAG_enumeration_type))).
  set (d0 := if children =? 0 then if kept then u8 tag else 0
             else Z.lor (if kept then u8 tag else 0) TAG_FLAG_CHILDREN).
  assert (Hd0 : Z.land d0 TAG_MASK = if kept then tag else 0).
  { assert (Hk : Z.land (if kept then u8 tag else 0) TAG_MASK
                 = if kept then tag else 0).
    { destruct kept eqn:Hkept; [| reflexivity].
      apply (kept_tag_fits flags). exact Hkept. }
    subst d0. destruct (children =? 0); [exact Hk |].
    rewrite land_mask_lor_flag by auto. exact Hk. }
  destruct (read_abbrev_attribs _ flags cu hdl tag (should_index flags tag)
              buf p3 end_ true (insns table) d0)
    as [[[p4 insns'] dflags'] | | |] eqn:Hattribs;
    cbn [mbind res_bind]; try discriminate.
  intros [= <- <-].
  rewrite <- (app_nil_r (insns table)) in Hattribs.
  apply (read_abbrev_attribs_body _ _ _ _ _ _ _ _ (if kept then tag else 0))
    in Hattribs as (body & -> & Hbody & Hmask & Hgrow);
    [| exact Ha | reflexivity | discriminate | constructor | exact Hd0].
  cbn [length] in Hgrow. split.
  - intros k start. cbn [decls insns].
    intros Hk. apply lookup_app_Some in Hk as [Hk | [Hge Hk]].
    + destruct (Htable k start Hk) as (Hstart & t & b & f & rest & Hdrop & Hb & Hf).
      split; [exact Hstart |].
      exists t, b, f, (rest ++ body ++ [0; dflags']).
      split; [| auto].
      assert (Z.to_nat start < length (insns table))%nat.
      { destruct (decide (Z.to_nat start < length (insns table))%nat);
          [assumption |].
        rewrite drop_ge in Hdrop by lia. destruct b; discriminate. }
      rewrite <- app_assoc, drop_app_le by lia. rewrite Hdrop.
      rewrite <- app_assoc. reflexivity.
    + apply list_lookup_singleton_Some in Hk as [_ <-].
      assert (Hu : u32 (Z.of_nat (length (insns table)))
                   = Z.of_nat (length (insns table)))
        by (unfold u32; apply Z.mod_small; lia).
      rewrite Hu. split; [lia |].
      exists tag, body, dflags', []. rewrite Nat2Z.id.
      split; [| split; [exact Hbody | exact Hmask]].
      rewrite <- app_assoc, drop_app_length. reflexivity.
  - cbn [insns]. rewrite !length_app. cbn [length]. lia.
Qed.

Lemma read_abbrev_table_loop_ok flags cu hdl buf end_ fuel :
  0 < address_size cu <= INSN_MAX_SKIP ->
  end_ <= 2 ^ 32 ->
  forall ptr table table',
    table_ok flags table -> Z.of_nat (length (insns table)) <= ptr ->
    read_abbrev_table_loop fuel flags cu hdl buf ptr end_ table = Ok table' ->
    table_ok flags table'.
Proof.
  intros Ha Hend. induction fuel as [| fuel IH]; intros ptr table table';
    cbn [read_abbrev_table_loop]; [discriminate |].
  intros Htable Hlen.
  destruct (read_abbrev_decl flags cu hdl buf ptr end_ table)
    as [[[p1 table1] |] | | |] eqn:Hdecl; cbn [mbind res_bind];
    try discriminate.
  - apply read_abbrev_decl_ok in Hdecl as [Htable1 Hlen1]; auto.
    apply IH; assumption.
  - intros [= <-]. exact Htable.
Qed.

Lemma read_abbrev_table_ok flags cu hdl buf ptr end_ table :
  0 < address_size cu <= INSN_MAX_SKIP ->
  0 <= ptr -> end_ <= 2 ^ 32 ->
  read_abbrev_table flags cu hdl buf ptr end_ = Ok table ->
  table_ok flags table.
Proof.
  intros Ha Hptr Hend. unfold read_abbrev_table.
  apply read_abbrev_table_loop_ok; [exact Ha | exact Hend | | exact Hptr].
  intros k start Hk. discriminate Hk.
Qed.

End RequestedKinds.

Section IndexedKinds.
Import DwarfIndex.

Lemma read_die_kind flags cu table swap info ptr end_ ss d d' p' :
  table_ok flags table ->
  read_die cu table swap info ptr end_ ss d = Ok (ReadDie d' p') ->
  exists tag,
    flags_ok flags tag (die_flags d')
    /\ (should_index flags tag = false ->
        die_name d' = die_name d
        /\ die_specification d' = die_specification d).
Proof.
  intros Htable. unfold read_die.
  destruct (read_uleb128 info ptr end_) as [[code p1] | | |];
    cbn [mbind res_bind]; try discriminate.
  destruct (code =? 0); [discriminate |].
  destruct ((code <? 1) || (code >? Z.of_nat (length (decls table))));
    [discriminate |].
  destruct (decls table !! Z.to_nat (code - 1)) as [start |] eqn:Hstart;
    [| discriminate].
  destruct (Htable _ _ Hstart) as (_ & tag & body & dflags & rest & -> & Hbody & Hf).
  destruct (read_die_insns _ cu swap info p1 end_ ss d) as [[d1 p2] | | |]
    eqn:Hinsns; cbn [mbind res_bind]; try discriminate.
  intros [= <- <-].
  apply (read_die_insns_body (should_index flags tag)) in Hinsns
    as [Hflags Hsame]; [| exact Hbody].
  exists tag. rewrite Hflags. auto.
Qed.

Lemma index_read_die_kind flags ext df cu table info end_ ss w off d
    ix hashes e' call r tag :
  flags_ok flags tag (die_flags d) ->
  (should_index flags tag = false ->
   die_name d = None /\ die_specification d = None) ->
  index_read_die ext df cu table info end_ ss w off d
  = ((ix, hashes, e', call), r) ->
  forall c, call = Some c -> should_index flags (call_tag c) = true.
Proof.
  intros Hf Hnone Hrun c Hc.
  destruct (should_index flags tag) eqn:Hsi.
  - destruct (index_read_die_spec _ _ _ _ _ _ _ _ _ _ _ _ _ _ _ Hrun)
      as [_ Hcall].
    destruct (Hcall c Hc) as [-> _].
    unfold flags_ok in Hf. rewrite Hsi in Hf. cbn [orb] in Hf.
    unfold die_tag. rewrite Hf. exact Hsi.
  - exfalso. destruct (Hnone eq_refl) as [Hname Hspec].
    unfold index_read_die, borrow_from_specification in Hrun.
    rewrite Hspec, Hname in Hrun.
    repeat case_match; simplify_eq.
Qed.

Section Preserved.
Context (ext : hashing) (flags : index_flags) (P : drgn_dwarf_index -> Prop).
Context (index_die_preserved :
  forall dindex name t fh f o dindex' r,
    should_index flags t = true -> P dindex ->
    index_die ext dindex name t fh f o = (dindex', r) -> P dindex').

Lemma index_read_die_preserved df cu table info end_ ss w off d
    ix hashes e' call r tag :
  flags_ok flags tag (die_flags d) ->
  (should_index flags tag = false ->
   die_name d = None /\ die_specification d = None) ->
  P (walk_index w) ->
  index_read_die ext df cu table info end_ ss w off d
  = ((ix, hashes, e', call), r) ->
  P ix.
Proof.
  intros Hf Hnone HP Hrun.
  pose proof (index_read_die_kind _ _ _ _ _ _ _ _ _ _ _ _ _ _ _ _ _
                Hf Hnone Hrun) as Hkind.
  unfold index_read_die in Hrun.
  repeat case_match; simplify_eq; try exact HP;
    (eapply index_die_preserved; [| exact HP | eassumption]);
    exact (Hkind _ eq_refl).
Qed.

Lemma index_cu_step_preserved df cu table info end_ ss w w' o :
  table_ok flags table -> P (walk_index w) ->
  index_cu_step ext df cu table info end_ ss w = (w', o) ->
  P (walk_index w').
Proof.
  intros Htable HP. unfold index_cu_step. intros Hstep.
  destruct (read_die cu table (bswap df) info (walk_ptr w) end_ ss fresh_die)
    as [[ptr | d ptr] | e | |] eqn:Hread;
    try (injection Hstep as <- _; exact HP).
  destruct (read_die_kind _ _ _ _ _ _ _ _ _ _ _ Htable Hread)
    as (tag & Hf & Hnone).
  destruct (index_read_die ext df cu table info end_ ss w (walk_ptr w) d)
    as [[[[ix hashes] e'] call] r] eqn:Hrd.
  apply (index_read_die_preserved _ _ _ _ _ _ _ _ _ _ _ _ _ _ tag) in Hrd;
    [| exact Hf | exact Hnone | exact HP].
  destruct r; injection Hstep as <- _; exact Hrd.
Qed.

Lemma index_cu_loop_preserved fuel df cu table info end_ ss w w' r :
  table_ok flags table -> P (walk_index w) ->
  index_cu_loop fuel ext df cu table info end_ ss w = (w', r) ->
  P (walk_index w').
Proof.
  intros Htable. revert w. induction fuel as [| fuel IH]; intros w HP;
    cbn [index_cu_loop].
  - intros [= <- _]. exact HP.
  - destruct (index_cu_step ext df cu table info end_ ss w) as [w1 [r1 |]] eqn:Hs;
      intros H; apply index_cu_step_preserved in Hs; auto.
    + injection H as <- _. exact Hs.
    + eapply IH; eauto.
Qed.

End Preserved.

Lemma index_die_holds_kinds ext flags dindex name t fh f o dindex' r :
  should_index flags t = true ->
  Forall (holds_kinds flags) (shards dindex) ->
  index_die ext dindex name t fh f o = (dindex', r) ->
  Forall (holds_kinds flags) (shards dindex').
Proof.
  intros Ht Hall. unfold index_die.
  set (i := Z.to_nat (hash_pair_to_shard (name_hash ext name))).
  destruct (shards dindex !! i) as [s |] eqn:Hs; [| intros [= <- _]; exact Hall].
  destruct (index_die_locked (allocator dindex) s name t fh f o)
    as [h [s' r']] eqn:Hrun.
  intros Hd. apply pair_equal_spec in Hd as [<- _]. cbn [with_shards shards].
  apply Forall_insert; [exact Hall |].
  destruct (proj1 (Forall_lookup _ _) Hall _ _ Hs) as [Hnum Htags].
  destruct (index_die_locked_step _ s name t fh f o _ s' r' Hnum Hrun)
    as (Hn' & Hlen' & Hold' & Hnew' & _).
  split; [lia |]. intros j e Hj He.
  destruct (decide (Z.of_nat j < num_entries s)) as [Hlt | Hge].
  - destruct (lookup_lt_is_Some_2 (entries s) j ltac:(lia)) as [e0 He0].
    destruct (Hold' j e0 Hlt He0) as (e1 & He1 & Hp).
    assert (e1 = e) by congruence. subst e1.
    replace (tag e) with (tag e0)
      by (unfold entry_payload in Hp; congruence).
    eauto.
  - specialize (Hnew' j e ltac:(lia) He).
    replace (tag e) with t by (unfold entry_payload in Hnew'; congruence).
    exact Ht.
Qed.

(** X18.  [index_cu] puts entries of the kinds that were asked for into the
    index, and no others. *)
Theorem index_cu_holds_kinds (fuel : nat) (ext : hashing)
    (dindex : drgn_dwarf_index) (cu : compilation_unit) (df : debug_file)
    (debug_abbrev : bytes) (w : walk) (r : res unit) :
  objects dindex !! cu_file cu = Some df ->
  sections df SECTION_DEBUG_ABBREV = Some debug_abbrev ->
  d_size debug_abbrev <= 2 ^ 32 ->
  0 <= debug_abbrev_offset cu ->
  0 < address_size cu <= INSN_MAX_SKIP ->
  Forall (holds_kinds (index_flags_of dindex)) (shards dindex) ->
  index_cu fuel ext dindex cu = (w, r) ->
  Forall (holds_kinds (index_flags_of dindex)) (shards (walk_index w)).
Proof.
  intros Hdf Habbrev Hsize Hoffset Haddress Hall. unfold index_cu.
  rewrite Hdf, Habbrev.
  destruct (sections df SECTION_DEBUG_INFO) as [debug_info |];
    [| intros [= <- _]; exact Hall].
  destruct (sections df SECTION_DEBUG_STR) as [debug_str |];
    [| intros [= <- _]; exact Hall].
  destruct (read_abbrev_table _ cu _ debug_abbrev _ _) as [table | e | |]
    eqn:Htable; try (intros [= <- _]; exact Hall).
  apply read_abbrev_table_ok in Htable; [| assumption ..].
  apply (index_cu_loop_preserved ext (index_flags_of dindex)
           (fun d => Forall (holds_kinds (index_flags_of dindex)) (shards d)));
    [| exact Htable | exact Hall].
  intros d name t fh f o d' r' Ht Hd Hrun.
  exact (index_die_holds_kinds _ _ _ _ _ _ _ _ _ _ Ht Hd Hrun).
Qed.

Lemma index_cu_holds_kinds_witness :
  Forall (holds_kinds index_all) (shards (walk_index (walk_of enumeration_file).1)).
Proof.
  apply (index_cu_holds_kinds 100 sample_hashing
           (index_of index_all enumeration_file) (first_unit enumeration_file)
           enumeration_file
           (unit_abbrev 1 ++ named_abbrev 2 DW_TAG_enumeration_type 1
            ++ named_abbrev 3 DW_TAG_enumerator 0 ++ [0])
           (walk_of enumeration_file).1 (walk_of enumeration_file).2).
  - vm_compute. reflexivity.
  - reflexivity.
  - vm_compute. discriminate.
  - vm_compute. discriminate.
  - vm_compute. split; [reflexivity | discriminate].
  - apply Forall_replicate. split; [cbn; lia |].
    intros i e Hi. cbn in Hi. lia.
  - apply surjective_pairing.
Defined.

End IndexedKinds.

Section FrameSymbols.
Import LanguageC StackTrace.

Lemma stack_frame_state_set frame st :
  (i frame < length (states (trace frame)))%nat ->
  stack_frame_state (set_frame_state frame st) = st.
Proof.
  intros Hi. unfold stack_frame_state, set_frame_state. cbn [trace states i].
  rewrite list_lookup_insert_eq by exact Hi. reflexivity.
Qed.

Lemma set_frame_state_length frame st :
  length (states (trace (set_frame_state frame st)))
  = length (states (trace frame)).
Proof. cbn. apply length_insert. Qed.

Lemma flag_set (flags flag : Z) :
  flag = 1 \/ flag = 2 -> Z.land flags flag = 0 ->
  negb (Z.land (Z.lor flags flag) flag =? 0) = true.
Proof.
  intros Hflag Hclear. rewrite Z.land_lor_distr_l, Hclear.
  destruct Hflag as [-> | ->]; reflexivity.
Qed.

Lemma other_flag_kept (flags : Z) :
  Z.land (Z.lor flags 2) 1 = Z.land flags 1
  /\ Z.land (Z.lor flags 1) 2 = Z.land flags 2.
Proof.
  rewrite !Z.land_lor_distr_l.
  change (Z.land 2 1) with 0. change (Z.land 1 2) with 0.
  rewrite !Z.lor_0_r. auto.
Qed.

Lemma parse_parameters_parsed rt frame frame' :
  (i frame < length (states (trace frame)))%nat ->
  drgn_stack_frame_parse_parameters rt frame = (frame', Ok tt) ->
  negb (Z.land (fs_flags (stack_frame_state frame'))
          DRGN_FRAME_STATE_PARAMS_EVALUATED =? 0) = true
  /\ i frame' = i frame
  /\ length (states (trace frame')) = length (states (trace frame))
  /\ variables (stack_frame_state frame') = variables (stack_frame_state frame)
  /\ Z.land (fs_flags (stack_frame_state frame'))
       DRGN_FRAME_STATE_SYMBOLS_EVALUATED
     = Z.land (fs_flags (stack_frame_state frame))
         DRGN_FRAME_STATE_SYMBOLS_EVALUATED.
Proof.
  intros Hi. unfold drgn_stack_frame_parse_parameters.
  destruct (negb (Z.land (fs_flags (stack_frame_state frame))
                    DRGN_FRAME_STATE_PARAMS_EVALUATED =? 0)) eqn:Hflag.
  { intros [= <-]. auto. }
  apply negb_false_iff, Z.eqb_eq in Hflag.
  destruct (drgn_program_block_find rt _) as [[func_die b] | | |];
    try discriminate.
  destruct (parse_scope_symbols rt func_die DW_TAG_formal_parameter [])
    as [vector [[] | | |]]; try discriminate.
  intros [= <-]. rewrite stack_frame_state_set by exact Hi.
  cbn [fs_flags variables].
  split; [apply flag_set; [left; reflexivity | exact Hflag] |].
  split; [reflexivity |]. split; [apply set_frame_state_length |].
  split; [reflexivity |]. apply other_flag_kept.
Qed.

Lemma parse_variables_parsed rt frame frame' :
  (i frame < length (states (trace frame)))%nat ->
  drgn_stack_frame_parse_variables rt frame = (frame', Ok tt) ->
  negb (Z.land (fs_flags (stack_frame_state frame'))
          DRGN_FRAME_STATE_SYMBOLS_EVALUATED =? 0) = true
  /\ i frame' = i frame
  /\ length (states (trace frame')) = length (states (trace frame))
  /\ parameters (stack_frame_state frame')
     = parameters (stack_frame_state frame)
  /\ Z.land (fs_flags (stack_frame_state frame'))
       DRGN_FRAME_STATE_PARAMS_EVALUATED
     = Z.land (fs_flags (stack_frame_state frame))
         DRGN_FRAME_STATE_PARAMS_EVALUATED.
Proof.
  intros Hi. unfold drgn_stack_frame_parse_variables.
  destruct (negb (Z.land (fs_flags (stack_frame_state frame))
                    DRGN_FRAME_STATE_SYMBOLS_EVALUATED =? 0)) eqn:Hflag.
  { intros [= <-]. auto. }
  apply negb_false_iff, Z.eqb_eq in Hflag.
  destruct (drgn_program_block_find rt _) as [[func_die b] | | |];
    try discriminate.
  destruct (dwarf_getscopes rt _) as [scopes |]; [| discriminate].
  destruct (parse_scopes rt _ []) as [vector [[] | | |]]; try discriminate.
  intros [= <-]. rewrite stack_frame_state_set by exact Hi.
  cbn [fs_flags parameters].
  split; [apply flag_set; [right; reflexivity | exact Hflag] |].
  split; [reflexivity |]. split; [apply set_frame_state_length |].
  split; [reflexivity |]. apply other_flag_kept.
Qed.

(** X21.  The symbols of a frame are parsed once.  When the parameters and
    the variables of a frame were parsed, in this order or the other,
    parsing them again asks nothing of libdw and leaves the frame as it
    is. *)
Theorem frame_symbols_parsed_once (rt1 rt2 rt3 rt4 : dwarf_runtime)
    (frame frame1 frame2 : drgn_stack_frame) :
  (i frame < length (states (trace frame)))%nat ->
  (drgn_stack_frame_parse_parameters rt1 frame = (frame1, Ok tt)
   /\ drgn_stack_frame_parse_variables rt2 frame1 = (frame2, Ok tt))
  \/ (drgn_stack_frame_parse_variables rt1 frame = (frame1, Ok tt)
      /\ drgn_stack_frame_parse_parameters rt2 frame1 = (frame2, Ok tt)) ->
  drgn_stack_frame_parse_parameters rt3 frame2 = (frame2, Ok tt)
  /\ drgn_stack_frame_parse_variables rt4 frame2 = (frame2, Ok tt).
Proof.
  intros Hi [[H1 H2] | [H1 H2]].
  - destruct (parse_parameters_parsed _ _ _ Hi H1) as (Hp & Hi1 & Hl1 & _ & _).
    assert (Hi' : (i frame1 < length (states (trace frame1)))%nat)
      by (rewrite Hi1, Hl1; exact Hi).
    destruct (parse_variables_parsed _ _ _ Hi' H2)
      as (Hv & _ & _ & _ & Hkeep).
    unfold drgn_stack_frame_parse_parameters, drgn_stack_frame_parse_variables.
    rewrite Hkeep, Hp, Hv. auto.
  - destruct (parse_variables_parsed _ _ _ Hi H1) as (Hv & Hi1 & Hl1 & _ & _).
    assert (Hi' : (i frame1 < length (states (trace frame1)))%nat)
      by (rewrite Hi1, Hl1; exact Hi).
    destruct (parse_parameters_parsed _ _ _ Hi' H2)
      as (Hp & _ & _ & _ & Hkeep).
    unfold drgn_stack_frame_parse_parameters, drgn_stack_frame_parse_variables.
    rewrite Hkeep, Hp, Hv. auto.
Qed.

Lemma frame_symbols_parsed_once_witness :
  drgn_stack_frame_parse_parameters sample_runtime parsed_frame
  = (parsed_frame, Ok tt)
  /\ drgn_stack_frame_parse_variables sample_runtime parsed_frame
     = (parsed_frame, Ok tt).
Proof.
  apply (frame_symbols_parsed_once function_runtime function_runtime
           sample_runtime sample_runtime unparsed_frame
           (drgn_stack_frame_parse_parameters function_runtime
              unparsed_frame).1).
  - cbn. lia.
  - left. split; vm_compute; reflexivity.
Defined.


Lemma parse_scope_symbols_loop_named rt tag children :
  Forall (fun child => is_Some (dwarf_diename rt child))
    (filter (fun child => dwarf_tag rt child = tag) children) ->
  forall vector,
  exists symbols,
    parse_scope_symbols_loop rt tag children vector = (vector ++ symbols, Ok tt)
    /\ symbol_of <$> symbols
       = (fun child => (default EmptyString (dwarf_diename rt child), child))
           <$> filter (fun child => dwarf_tag rt child = tag) children.
Proof.
  induction children as [| child children IH]; intros Hnamed vector.
  - exists []. rewrite app_nil_r. auto.
  - cbn [parse_scope_symbols_loop].
    destruct (decide (dwarf_tag rt child = tag)) as [Htag | Htag].
    + rewrite filter_cons_True in Hnamed |- * by exact Htag.
      apply Forall_cons in Hnamed as [[n Hn] Hnamed].
      replace (dwarf_tag rt child =? tag) with true by lia. cbn [negb].
      rewrite Hn.
      destruct (IH Hnamed
                  (vector ++ [{| sym_parameter :=
                                   drgn_frame_symbol_vector_append_entry rt
                                     vector;
                                 sym_name := n; sym_var_die := child |}]))
        as (symbols & -> & Hsymbols).
      eexists (_ :: symbols). rewrite <- app_assoc.
      split; [reflexivity |]. cbn [fmap list_fmap]. rewrite Hsymbols, Hn.
      reflexivity.
    + rewrite filter_cons_False in Hnamed |- * by exact Htag.
      replace (dwarf_tag rt child =? tag) with false by lia. cbn [negb].
      apply IH. exact Hnamed.
Qed.

(** X22.  In a frame whose parameters were not parsed before, whose function
    has parameters that all have names: the number of parameters is the
    number of children of the function that are formal parameters, and
    the parameter with the index [k] is the [k]th of them, with its
    name. *)
Theorem parameter_by_index_nth (rt : dwarf_runtime) (frame : drgn_stack_frame)
    (func_die : Dwarf_Die) (b : Z) (k : nat) (child : Dwarf_Die)
    (ty : drgn_type) (out : by_index_out) :
  (i frame < length (states (trace frame)))%nat ->
  Z.land (fs_flags (stack_frame_state frame))
    DRGN_FRAME_STATE_PARAMS_EVALUATED = 0 ->
  drgn_program_block_find rt (drgn_stack_frame_pc rt (trace frame) (i frame))
  = Ok (func_die, b) ->
  Forall (fun child => is_Some (dwarf_diename rt child))
    (tagged_children rt func_die DW_TAG_formal_parameter) ->
  tagged_children rt func_die DW_TAG_formal_parameter !! k = Some child ->
  (forall parameter,
     drgn_type_from_dwarf_child rt child parameter = Ok ty) ->
  exists frame' name,
    dwarf_diename rt child = Some name
    /\ drgn_stack_frame_num_parameters rt frame
       = (frame',
          Ok (Z.of_nat
                (length (tagged_children rt func_die DW_TAG_formal_parameter))))
    /\ drgn_stack_frame_parameter_by_index rt frame (Z.of_nat k) out
       = ((frame',
           {| out_name := Some name;
              out_obj :=
                Some {| obj_type := ty; needs_stack_evaluation := true;
                        obj_stack := Some {| so_frame := i frame;
                                             so_die := child |} |} |}),
          Ok tt).
Proof.
  intros Hi Hflag Hfind Hnamed Hk Hty.
  destruct (parse_scope_symbols_loop_named rt DW_TAG_formal_parameter
              (dwarf_children rt func_die) Hnamed [])
    as (symbols & Hparse & Hsymbols).
  cbn [app] in Hparse. fold (parse_scope_symbols rt func_die
                                DW_TAG_formal_parameter []) in Hparse.
  fold (tagged_children rt func_die DW_TAG_formal_parameter) in Hsymbols.
  assert (Hlen : length symbols
                 = length (tagged_children rt func_die DW_TAG_formal_parameter)).
  { rewrite <- (length_fmap symbol_of), Hsymbols, length_fmap. reflexivity. }
  destruct (proj1 (Forall_lookup _ _) Hnamed _ _ Hk) as [name Hname].
  assert (Hsym : exists sym, symbols !! k = Some sym
                             /\ symbol_of sym = (name, child)).
  { pose proof (f_equal (fun l => l !! k) Hsymbols) as Hat. cbn beta in Hat.
    rewrite !list_lookup_fmap, Hk in Hat. cbn [fmap option_fmap option_map] in Hat.
    rewrite Hname in Hat. cbn [default] in Hat.
    destruct (symbols !! k) as [sym |]; [| discriminate].
    exists sym. split; [reflexivity |].
    exact (f_equal (default (name, child)) Hat). }
  destruct Hsym as (sym & Hsymk & Hof).
  set (state := stack_frame_state frame) in *.
  set (frame' := set_frame_state frame
                   {| variables := variables state; parameters := symbols;
                      bias := bias state;
                      fs_flags := Z.lor (fs_flags state)
                                    DRGN_FRAME_STATE_PARAMS_EVALUATED |}).
  assert (Hrun : drgn_stack_frame_parse_parameters rt frame = (frame', Ok tt)).
  { unfold drgn_stack_frame_parse_parameters. fold state.
    rewrite Hflag. cbn [Z.eqb negb]. rewrite Hfind, Hparse. reflexivity. }
  assert (Hstate : parameters (stack_frame_state frame') = symbols).
  { unfold frame'. rewrite stack_frame_state_set by exact Hi. reflexivity. }
  exists frame', name. split; [exact Hname |]. split.
  - unfold drgn_stack_frame_num_parameters. rewrite Hrun, Hstate, Hlen.
    reflexivity.
  - unfold drgn_stack_frame_parameter_by_index. rewrite Hrun, Hstate.
    unfold symbol_by_index, symbol_at.
    apply lookup_lt_Some in Hsymk as Hlt.
    replace (Z.of_nat k >? Z.of_nat (length symbols)) with false by lia.
    rewrite Nat2Z.id, Hsymk.
    unfold drgn_stack_frame_object.
    unfold symbol_of in Hof. injection Hof as Hn Hd.
    rewrite Hd, Hty, Hn. cbn [mbind res_bind]. reflexivity.
Qed.

Lemma parameter_by_index_nth_witness :
  exists frame' name,
    dwarf_diename function_runtime 20 = Some name
    /\ drgn_stack_frame_num_parameters function_runtime unparsed_frame
       = (frame', Ok 2)
    /\ drgn_stack_frame_parameter_by_index function_runtime unparsed_frame 1
         no_out
       = ((frame',
           {| out_name := Some name;
              out_obj :=
                Some {| obj_type := lp64_primitive_types DRGN_C_TYPE_INT;
                        needs_stack_evaluation := true;
                        obj_stack := Some {| so_frame := 0%nat;
                                             so_die := 20 |} |} |}),
          Ok tt).
Proof.
  apply (parameter_by_index_nth function_runtime unparsed_frame 1 0 1%nat 20
           (lp64_primitive_types DRGN_C_TYPE_INT) no_out).
  - cbn. lia.
  - reflexivity.
  - reflexivity.
  - match goal with
    | |- Forall ?P ?l => let l' := eval vm_compute in l in change (Forall P l')
    end.
    repeat constructor; eexists; reflexivity.
  - vm_compute. reflexivity.
  - intros parameter. reflexivity.
Defined.

Lemma find_frame_symbol_in_vector_first symbols name sym :
  find_frame_symbol_in_vector symbols name = Ok sym ->
  exists k : nat,
    symbols !! k = Some sym /\ sym_name sym = name
    /\ forall (j : nat) other, (j < k)%nat -> symbols !! j = Some other ->
         sym_name other <> name.
Proof.
  induction symbols as [| first symbols IH]; cbn [find_frame_symbol_in_vector];
    [discriminate |].
  destruct (String.eqb name (sym_name first)) eqn:Heq.
  - intros [= <-]. apply String.eqb_eq in Heq. exists 0%nat.
    split; [reflexivity |]. split; [auto |]. intros j other Hj. lia.
  - intros H. apply IH in H as (k & Hk & Hn & Hbefore).
    apply String.eqb_neq in Heq. exists (S k).
    split; [exact Hk |]. split; [exact Hn |].
    intros [| j] other Hj Hother.
    + injection Hother as <-. congruence.
    + apply (Hbefore j); [lia | exact Hother].
Qed.

Lemma symbol_by_index_found rt frame symbols (k : nat) sym obj out :
  symbols !! k = Some sym ->
  drgn_stack_frame_object rt frame sym = Ok obj ->
  symbol_by_index rt frame symbols (Z.of_nat k) out
  = ({| out_name := Some (sym_name sym); out_obj := Some obj |}, Ok tt).
Proof.
  intros Hk Hobj. unfold symbol_by_index, symbol_at.
  apply lookup_lt_Some in Hk as Hlt.
  replace (Z.of_nat k >? Z.of_nat (length symbols)) with false by lia.
  rewrite Nat2Z.id, Hk, Hobj. reflexivity.
Qed.

Lemma symbol_by_index_name rt frame symbols (j : nat) out out' :
  symbol_by_index rt frame symbols (Z.of_nat j) out = (out', Ok tt) ->
  exists other, symbols !! j = Some other
                /\ out_name out' = Some (sym_name other).
Proof.
  unfold symbol_by_index, symbol_at. rewrite Nat2Z.id. intros H.
  repeat case_match; simplify_eq. eauto.
Qed.

(** X23.  A parameter, or a variable, that is found by its name is the first
    one of that name: the function that takes an index gives the same
    object and the name at some index, and names other than this one at
    the indices before it. *)
Theorem by_name_first (rt : dwarf_runtime) (frame frame' : drgn_stack_frame)
    (name : string) (obj : drgn_object) (out : by_index_out) :
  (drgn_stack_frame_parameter_by_name rt frame name = (frame', Ok obj) ->
   exists k : nat,
     drgn_stack_frame_parameter_by_index rt frame (Z.of_nat k) out
     = ((frame', {| out_name := Some name; out_obj := Some obj |}), Ok tt)
     /\ forall (j : nat) out', (j < k)%nat ->
          drgn_stack_frame_parameter_by_index rt frame (Z.of_nat j) out
          = ((frame', out'), Ok tt) ->
          out_name out' <> Some name)
  /\ (drgn_stack_frame_variable_by_name rt frame name = (frame', Ok obj) ->
      exists k : nat,
        drgn_stack_frame_variable_by_index rt frame (Z.of_nat k) out
        = ((frame', {| out_name := Some name; out_obj := Some obj |}), Ok tt)
        /\ forall (j : nat) out', (j < k)%nat ->
             drgn_stack_frame_variable_by_index rt frame (Z.of_nat j) out
             = ((frame', out'), Ok tt) ->
             out_name out' <> Some name).
Proof.
  split.
  - unfold drgn_stack_frame_parameter_by_name,
      drgn_stack_frame_parameter_by_index.
    destruct (drgn_stack_frame_parse_parameters rt frame)
      as [frame1 [[] | | |]]; try (intros H; discriminate H).
    destruct (find_frame_symbol_in_vector _ name) as [sym | | |] eqn:Hfind;
      try (intros H; discriminate H).
    intros H. injection H as <- Hobj.
    apply find_frame_symbol_in_vector_first in Hfind
      as (k & Hk & <- & Hbefore).
    exists k. split.
    + rewrite (symbol_by_index_found _ _ _ _ _ _ _ Hk Hobj). reflexivity.
    + intros j out' Hj Hrun.
      destruct (symbol_by_index rt frame1 _ (Z.of_nat j) out) as [o r] eqn:Hs.
      injection Hrun as <- ->.
      apply symbol_by_index_name in Hs as (other & Hother & ->).
      intros [= Heq]. exact (Hbefore j other Hj Hother Heq).
  - unfold drgn_stack_frame_variable_by_name,
      drgn_stack_frame_variable_by_index.
    destruct (drgn_stack_frame_parse_variables rt frame)
      as [frame1 [[] | | |]]; try (intros H; discriminate H).
    destruct (find_frame_symbol_in_vector _ name) as [sym | | |] eqn:Hfind;
      try (intros H; discriminate H).
    intros H. injection H as <- Hobj.
    apply find_frame_symbol_in_vector_first in Hfind
      as (k & Hk & <- & Hbefore).
    exists k. split.
    + rewrite (symbol_by_index_found _ _ _ _ _ _ _ Hk Hobj). reflexivity.
    + intros j out' Hj Hrun.
      destruct (symbol_by_index rt frame1 _ (Z.of_nat j) out) as [o r] eqn:Hs.
      injection Hrun as <- ->.
      apply symbol_by_index_name in Hs as (other & Hother & ->).
      intros [= Heq]. exact (Hbefore j other Hj Hother Heq).
Qed.

Lemma by_name_first_witness :
  exists k : nat,
    drgn_stack_frame_parameter_by_index sample_runtime sample_frame
      (Z.of_nat k) no_out
    = ((sample_frame,
        {| out_name := Some "argv"%string;
           out_obj :=
             Some {| obj_type := lp64_primitive_types DRGN_C_TYPE_INT;
                     needs_stack_evaluation := true;
                     obj_stack := Some {| so_frame := 0%nat;
                                          so_die := 20 |} |} |}), Ok tt)
    /\ forall (j : nat) out', (j < k)%nat ->
         drgn_stack_frame_parameter_by_index sample_runtime sample_frame
           (Z.of_nat j) no_out
         = ((sample_frame, out'), Ok tt) ->
         out_name out' <> Some "argv"%string.
Proof.
  apply (proj1 (by_name_first sample_runtime sample_frame sample_frame "argv"
                  {| obj_type := lp64_primitive_types DRGN_C_TYPE_INT;
                     needs_stack_evaluation := true;
                     obj_stack := Some {| so_frame := 0%nat;
                                          so_die := 20 |} |} no_out)).
  reflexivity.
Defined.

End FrameSymbols.
